(** * pylcp: optical Bloch equations over a block Hamiltonian

    A shallow embedding of [pylcp/hamiltonian.py] (class [hamiltonian]) and
    of [obe.py] (class [obe]), and the properties of the two that the
    specification states.

    Numbers.  The program computes with numpy [float64] and [complex128]
    arrays.  They are embedded as exact real and complex numbers ([R] and
    [C = R * R]): every statement below is about the arithmetic the program
    writes down, not about rounding.  numpy arrays are total functions from
    indices to numbers, paired with their shape where the program reads
    it; a [for] loop over [range] is a left fold over [seq]; an in-place
    update of an array cell is a point update of the function. *)

From Stdlib Require Import Reals Lra Lia List Bool Arith String Ascii.
Import ListNotations.

(* ================================================================== *)
(** * Complex numbers ([complex128], exact) *)
(* ================================================================== *)

Declare Scope C_scope.
Delimit Scope C_scope with C.

Definition C : Type := (R * R)%type.

Definition Re (z : C) : R := fst z.
Definition Im (z : C) : R := snd z.
Definition RtoC (x : R) : C := (x, 0%R).
Definition C0 : C := (0%R, 0%R).
Definition C1 : C := (1%R, 0%R).
(** Python's [1j]. *)
Definition Ci : C := (0%R, 1%R).
Definition Cadd (a b : C) : C := ((Re a + Re b)%R, (Im a + Im b)%R).
Definition Copp (a : C) : C := ((- Re a)%R, (- Im a)%R).
Definition Csub (a b : C) : C := ((Re a - Re b)%R, (Im a - Im b)%R).
Definition Cmul (a b : C) : C :=
  ((Re a * Re b - Im a * Im b)%R, (Re a * Im b + Im a * Re b)%R).
(** [np.conjugate]. *)
Definition Cconj (a : C) : C := (Re a, (- Im a)%R).
(** [np.real] and [np.imag] of a complex array entry, kept as an entry of
    an array. *)
Definition Creal (a : C) : C := RtoC (Re a).
Definition Cimag (a : C) : C := RtoC (Im a).

Bind Scope C_scope with C.
Infix "+" := Cadd : C_scope.
Infix "-" := Csub : C_scope.
Infix "*" := Cmul : C_scope.
Notation "- x" := (Copp x) : C_scope.

(** [abs2] of obe.py: [x.real**2 + x.imag**2]. *)
Definition abs2 (x : C) : R := (Re x ^ 2 + Im x ^ 2)%R.
(** [np.abs] of a complex number. *)
Definition Cabs (x : C) : R := sqrt (abs2 x).

(* ================================================================== *)
(** * Loops, sums and arrays *)
(* ================================================================== *)

(** [for i in range(lo, hi): s = body(i, s)]. *)
Definition for_range {St : Type} (lo hi : nat) (body : nat -> St -> St) (s : St)
  : St :=
  fold_left (fun acc i => body i acc) (seq lo (hi - lo)) s.

(** The sum [f lo + ... + f (hi-1)], accumulated in the order of
    [range(lo, hi)]. *)
Definition csum_range (lo hi : nat) (f : nat -> C) : C :=
  for_range lo hi (fun i acc => (acc + f i)%C) C0.

Definition csum (n : nat) (f : nat -> C) : C := csum_range 0 n f.

(** A two-dimensional array (indices past the shape are never read by the
    program; the function is arbitrary there). *)
Definition matrix := nat -> nat -> C.
Definition vector := nat -> C.

(** [np.zeros]. *)
Definition zeros : matrix := fun _ _ => C0.

(** [M[r, c] = v]. *)
Definition mset (M : matrix) (r c : nat) (v : C) : matrix :=
  fun r' c' => if (r' =? r) && (c' =? c) then v else M r' c'.

(** [M[r, c] += v]. *)
Definition madd (M : matrix) (r c : nat) (v : C) : matrix :=
  mset M r c (M r c + v)%C.

(** [A @ x] for an [N]x[N] array and a length-[N] vector. *)
Definition matvec (N : nat) (A : matrix) (x : vector) : vector :=
  fun a => csum N (fun b => (A a b * x b)%C).

(** [A @ B] for [N]x[N] arrays. *)
Definition matmul (N : nat) (A B : matrix) : matrix :=
  fun a c => csum N (fun b => (A a b * B b c)%C).

(** Entry-wise operations on arrays. *)
Definition mplus (A B : matrix) : matrix := fun a b => (A a b + B a b)%C.
Definition mminus (A B : matrix) : matrix := fun a b => (A a b - B a b)%C.
Definition mscale (z : C) (A : matrix) : matrix := fun a b => (z * A a b)%C.
Definition vplus (x y : vector) : vector := fun a => (x a + y a)%C.
Definition vminus (x y : vector) : vector := fun a => (x a - y a)%C.
Definition vscale (z : C) (x : vector) : vector := fun a => (z * x a)%C.
Definition identity : matrix := fun a b => if a =? b then C1 else C0.

(* ------------------------------------------------------------------ *)
(** ** Point updates *)

(** [M[r, c] -= v]. *)
Definition msub (M : matrix) (r c : nat) (v : C) : matrix :=
  mset M r c (M r c - v)%C.

(* ================================================================== *)
(** * obe.py: the flattened density matrix and coherent evolution *)
(* ================================================================== *)

(** [obe.density_index]: [ii + jj*self.hamiltonian.n], with [n] the number
    of states of the Hamiltonian. *)
Definition density_index (n ii jj : nat) : nat := ii + jj * n.

(** The flattened vector of an [n]x[n] density matrix: entry [(i, j)] is
    stored at index [i + j*n]. *)
Definition flatten (n : nat) (rho : matrix) : vector :=
  fun a => rho (a mod n) (a / n).

(** [obe.build_coherent_ev_submatrix(H)]; the array has [n**2] rows and
    columns. *)
Definition build_coherent_ev_submatrix (n : nat) (H : matrix) : matrix :=
  for_range 0 n (fun ii ev_mat =>
    for_range 0 n (fun jj ev_mat =>
      for_range 0 n (fun kk ev_mat =>
        let ev_mat :=
          madd ev_mat (density_index n ii jj) (density_index n ii kk)
               (Ci * H kk jj)%C in
        msub ev_mat (density_index n ii jj) (density_index n kk jj)
             (Ci * H ii kk)%C)
      ev_mat) ev_mat) zeros.

(** The commutator [H rho - rho H] of two [n]x[n] matrices. *)
Definition commutator (n : nat) (H rho : matrix) : matrix :=
  fun i j => (csum n (fun k => H i k * rho k j)
              - csum n (fun k => rho i k * H k j))%C.

(** The two readings of the specification's sentence on
    [build_coherent_ev_submatrix]: the flattened [i[H, rho]], and the one
    the index algebra gives, the flattened [-i[H, rho]]. *)
Definition spec_i_commutator (n : nat) (H rho : matrix) : matrix :=
  fun i j => (Ci * commutator n H rho i j)%C.

Definition minus_i_commutator (n : nat) (H rho : matrix) : matrix :=
  fun i j => (- Ci * commutator n H rho i j)%C.

(** A concrete two-level input: [H = sigma_x] and the ground-state density
    matrix. *)
Definition H_sigma_x : matrix :=
  fun i j => match i, j with
             | 0%nat, 1%nat => C1
             | 1%nat, 0%nat => C1
             | _, _ => C0
             end.

Definition rho_ground : matrix :=
  fun i j => match i, j with
             | 0%nat, 0%nat => C1
             | _, _ => C0
             end.

(* ================================================================== *)
(** * Comparisons of numbers *)
(* ================================================================== *)

(** [x <= y], [x < y] and [x == y] on floats, as booleans. *)
Definition Rle_bool (x y : R) : bool := if Rle_dec x y then true else false.
Definition Rlt_bool (x y : R) : bool := if Rlt_dec x y then true else false.
Definition Req_bool (x y : R) : bool := if Req_dec_T x y then true else false.
Definition Ceq_bool (x y : C) : bool :=
  Req_bool (Re x) (Re y) && Req_bool (Im x) (Im y).

(** One entry of [np.isclose(a, b, rtol, atol)]:
    [|a - b| <= atol + rtol*|b|]. *)
Definition isclose (a b rtol atol : R) : bool :=
  Rle_bool (Rabs (a - b)) (atol + rtol * Rabs b).

(** [np.allclose(a, b, rtol, atol)] for a list [a] and a scalar [b]. *)
Definition allclose (a : list R) (b rtol atol : R) : bool :=
  forallb (fun x => isclose x b rtol atol) a.

(** [np.allclose(np.imag(M), 0)] for an [N]x[N] array, with numpy's
    defaults [rtol = 1e-05] and [atol = 1e-08]. *)
Definition allclose_imag_0 (N : nat) (M : matrix) : bool :=
  forallb (fun a =>
    forallb (fun b => isclose (Im (M a b)) 0 1e-5 1e-8) (seq 0 N)) (seq 0 N).

(* ================================================================== *)
(** * Python exceptions *)
(* ================================================================== *)

Inductive exn : Type :=
| ValueError
| TypeError
| AttributeError
| KeyError
| IndexError
| NameError
| NotImplementedError.

(** The outcome of a call: a returned value or a raised exception. *)
Inductive result (A : Type) : Type :=
| Ok (a : A)
| Raise (e : exn).

Arguments Ok {A} a.
Arguments Raise {A} e.

Definition bind {A B : Type} (m : result A) (f : A -> result B) : result B :=
  match m with
  | Ok a => f a
  | Raise e => Raise e
  end.

Notation "x <- m ;; k" := (bind m (fun x => k))
  (at level 61, m at next level, right associativity).
Notation "' pat <- m ;; k" := (bind m (fun x => match x with pat => k end))
  (at level 61, pat pattern, m at next level, right associativity).

(** A [for] loop whose body may raise. *)
Definition for_range_exn {St : Type} (lo hi : nat)
           (body : nat -> St -> result St) (s : St) : result St :=
  fold_left (fun acc i => a <- acc ;; body i a) (seq lo (hi - lo)) (Ok s).

(** A [for] loop over a list whose body may raise. *)
Definition for_each_exn {A St : Type} (l : list A)
           (body : A -> St -> result St) (s : St) : result St :=
  fold_left (fun acc x => a <- acc ;; body x a) l (Ok s).

(* ================================================================== *)
(** * obe.py: the change to the real basis *)
(* ================================================================== *)

(** [obe.build_transform_matrices]: returns [(self.U, self.Uinv)]. *)
Definition build_transform_matrices (n : nat) : matrix * matrix :=
  let U := zeros in
  let Uinv := zeros in
  let '(U, Uinv) :=
    for_range 0 n (fun ii '(U, Uinv) =>
      (mset U (density_index n ii ii) (density_index n ii ii) C1,
       mset Uinv (density_index n ii ii) (density_index n ii ii) C1))
      (U, Uinv) in
  let U :=
    for_range 0 n (fun ii U =>
      for_range (ii + 1) n (fun jj U =>
        let U := mset U (density_index n ii jj) (density_index n ii jj) C1 in
        let U := mset U (density_index n ii jj) (density_index n jj ii) Ci in
        let U := mset U (density_index n jj ii) (density_index n ii jj) C1 in
        mset U (density_index n jj ii) (density_index n jj ii) (- Ci)%C)
      U) U in
  let Uinv :=
    for_range 0 n (fun ii Uinv =>
      for_range (ii + 1) n (fun jj Uinv =>
        let Uinv := mset Uinv (density_index n ii jj) (density_index n ii jj)
                         (RtoC 0.5) in
        let Uinv := mset Uinv (density_index n ii jj) (density_index n jj ii)
                         (RtoC 0.5) in
        let Uinv := mset Uinv (density_index n jj ii) (density_index n ii jj)
                         (RtoC (- 0.5) * Ci)%C in
        mset Uinv (density_index n jj ii) (density_index n jj ii)
             (RtoC 0.5 * Ci)%C)
      Uinv) Uinv in
  (U, Uinv).

(** The shape the second and third loops of [build_transform_matrices]
    share: for every pair [ii < jj], four assignments, to the rows of
    [(ii, jj)] and [(jj, ii)].  (Used to reason about both loops at once.) *)
Definition pair_loop (n : nat) (v1 v2 v3 v4 : C) (M : matrix) : matrix :=
  for_range 0 n (fun ii M =>
    for_range (ii + 1) n (fun jj M =>
      let M := mset M (density_index n ii jj) (density_index n ii jj) v1 in
      let M := mset M (density_index n ii jj) (density_index n jj ii) v2 in
      let M := mset M (density_index n jj ii) (density_index n ii jj) v3 in
      mset M (density_index n jj ii) (density_index n jj ii) v4)
    M) M.

(** The rows of [U] and [Uinv] in closed form, proved below to be what
    the loops build: the row of the pair [(i, j)] read at column [b]. *)
Definition U_row (n i j b : nat) : C :=
  if (i =? j)%nat then (if b =? density_index n i i then C1 else C0)
  else if (i <? j)%nat then
    (if b =? density_index n i j then C1
     else if b =? density_index n j i then Ci else C0)
  else
    (if b =? density_index n i j then (- Ci)%C
     else if b =? density_index n j i then C1 else C0).

Definition Uinv_row (n i j b : nat) : C :=
  if (i =? j)%nat then (if b =? density_index n i i then C1 else C0)
  else if (i <? j)%nat then
    (if b =? density_index n i j then RtoC 0.5
     else if b =? density_index n j i then RtoC 0.5 else C0)
  else
    (if b =? density_index n i j then (RtoC 0.5 * Ci)%C
     else if b =? density_index n j i then (RtoC (- 0.5) * Ci)%C else C0).

(** The lazily built pair [self.U], [self.Uinv]: [None] while the object
    has no attribute [U]. *)
Definition transform_cache := option (matrix * matrix).

(** [if not hasattr(self, 'U'): self.build_transform_matrices()]. *)
Definition ensure_transform_matrices (n : nat) (cache : transform_cache)
  : matrix * matrix :=
  match cache with
  | Some UUinv => UUinv
  | None => build_transform_matrices n
  end.

(** [obe.transform_ev_matrix(ev_mat)]: the new cache and the returned
    array, [np.real(Uinv @ ev_mat @ U)], or the [ValueError]. *)
Definition transform_ev_matrix (n : nat) (cache : transform_cache)
           (ev_mat : matrix) : transform_cache * result matrix :=
  let '(U, Uinv) := ensure_transform_matrices n cache in
  let ev_mat_new := matmul (n * n) (matmul (n * n) Uinv ev_mat) U in
  (Some (U, Uinv),
   if allclose_imag_0 (n * n) ev_mat_new
   then Ok (fun a b => Creal (ev_mat_new a b))
   else Raise ValueError).

(* ================================================================== *)
(** * hamiltonian.py: blocks *)
(* ================================================================== *)

(** A 2-d numpy array with its shape, and a 3-d one. *)
Record ndarray2 : Type := {
  rows : nat;
  cols : nat;
  item2 : nat -> nat -> C
}.

Record ndarray3 : Type := {
  dim0 : nat;
  dim1 : nat;
  dim2 : nat;
  item3 : nat -> nat -> nat -> C
}.

(** [np.conjugate(M.T)] of a 2-d array, and [M[q]] of a 3-d one. *)
Definition conj_transpose (M : matrix) : matrix := fun r c => Cconj (M c r).

(** A Python [dict] with string keys: the entries in insertion order. *)
Definition dict (V : Type) : Type := list (string * V).

Fixpoint dict_get {V : Type} (d : dict V) (key : string) : option V :=
  match d with
  | [] => None
  | (k, v) :: d' => if String.eqb k key then Some v else dict_get d' key
  end.

(** [d[key]], which raises [KeyError] on a missing key. *)
Definition dict_item {V : Type} (d : dict V) (key : string) : result V :=
  match dict_get d key with
  | Some v => Ok v
  | None => Raise KeyError
  end.

(** [d[key] = v]: the value of an existing key is replaced in place, a new
    key is appended. *)
Fixpoint dict_set {V : Type} (d : dict V) (key : string) (v : V) : dict V :=
  match d with
  | [] => [(key, v)]
  | (k, w) :: d' =>
      if String.eqb k key then (k, v) :: d' else (k, w) :: dict_set d' key v
  end.

Definition dict_keys {V : Type} (d : dict V) : list string := map fst d.

(** [np.count_nonzero(M - np.diag(np.diagonal(M))) == 0] for a square 2-d
    array with [k] rows. *)
Definition off_diagonal_is_zero (k : nat) (M : matrix) : bool :=
  forallb (fun i =>
    forallb (fun j =>
      Ceq_bool (M i j - (if i =? j then M i i else C0))%C C0) (seq 0 k))
    (seq 0 k).

(** The classes [hamiltonian.block] and [hamiltonian.vector_block] (a
    subclass of [block]): label, the [diagonal] flag, the matrix, the
    [parameters] dictionary, and the sizes [n] and [m]. *)
Inductive block : Type :=
| Block (label : string) (diagonal : bool) (M : ndarray2)
        (parameters : dict R) (n m : nat)
| VectorBlock (label : string) (diagonal : bool) (M : ndarray3)
              (parameters : dict R) (n m : nat).

Definition block_label (b : block) : string :=
  match b with Block l _ _ _ _ _ | VectorBlock l _ _ _ _ _ => l end.
Definition block_diagonal (b : block) : bool :=
  match b with Block _ d _ _ _ _ | VectorBlock _ d _ _ _ _ => d end.
Definition block_parameters (b : block) : dict R :=
  match b with Block _ _ _ p _ _ | VectorBlock _ _ _ p _ _ => p end.
Definition block_n (b : block) : nat :=
  match b with Block _ _ _ _ n _ | VectorBlock _ _ _ _ n _ => n end.
Definition block_m (b : block) : nat :=
  match b with Block _ _ _ _ _ m | VectorBlock _ _ _ _ _ m => m end.

(** [block.check_diagonality] and [block.__init__]. *)
Definition check_diagonality (M : ndarray2) : bool :=
  if rows M =? cols M then off_diagonal_is_zero (rows M) (item2 M) else false.

Definition new_block (label : string) (M : ndarray2) : block :=
  Block label (check_diagonality M) M [] (rows M) (cols M).

(** [vector_block.check_diagonality] (it looks at [M[1]]) and
    [vector_block.__init__]. *)
Definition vector_check_diagonality (M : ndarray3) : bool :=
  if dim1 M =? dim2 M then off_diagonal_is_zero (dim1 M) (item3 M 1%nat)
  else false.

Definition new_vector_block (label : string) (M : ndarray3) : block :=
  VectorBlock label (vector_check_diagonality M) M [] (dim1 M) (dim2 M).

(** [b.parameters[key] = v]. *)
Definition set_parameter (b : block) (key : string) (v : R) : block :=
  match b with
  | Block l d M p n m => Block l d M (dict_set p key v) n m
  | VectorBlock l d M p n m => VectorBlock l d M (dict_set p key v) n m
  end.

(** [block.return_block_in_place(i, j, N)]: the matrix placed at rows
    [i..i+n) and columns [j..j+m) of an [N]x[N] array of zeros.  A slice
    that leaves the array is cut by numpy, and the assignment then raises. *)
Definition place (i j n m : nat) (M : matrix) : matrix :=
  fun r c =>
    if (i <=? r) && (r <? i + n) && (j <=? c) && (c <? j + m)
    then M (r - i)%nat (c - j)%nat else C0.

Definition fits (i j n m N : nat) : bool := (i + n <=? N) && (j + m <=? N).

(** An element of the object array [self.blocks]: [None], a block, or a
    Python tuple of two elements. *)
Inductive cell : Type :=
| CNone
| CBlock (b : block)
| CTuple (x y : cell).

(** The attributes [make_full_matrices] sets. *)
Record full_matrices : Type := {
  H_0 : matrix;
  mu_q : nat -> matrix;
  d_q_bare : dict (nat -> matrix);
  d_q_star : dict (nat -> matrix);
  d_q : nat -> matrix
}.

(** An instance of class [hamiltonian].  [blocks] is the list [[]] of
    [__init__] or the square object array; [n], [diagonal] and the full
    matrices are attributes the object has only once they were set. *)
Record hamiltonian : Type := {
  blocks : list (list cell);
  state_labels : list string;
  ns : list nat;
  laser_keys : dict (nat * nat);
  mass : R;
  n_states : option nat;
  diagonal : option (list bool);
  full : option full_matrices
}.

(** [hamiltonian()] with no positional argument. *)
Definition hamiltonian_empty (mass : R) : hamiltonian :=
  {| blocks := []; state_labels := []; ns := []; laser_keys := [];
     mass := mass; n_states := None; diagonal := None; full := None |}.

(** [self.blocks[ind]] and [self.blocks[ind] = x] for an index pair. *)
Definition get_cell (bl : list (list cell)) (ind : nat * nat) : result cell :=
  match nth_error bl (fst ind) with
  | Some row =>
      match nth_error row (snd ind) with
      | Some c => Ok c
      | None => Raise IndexError
      end
  | None => Raise IndexError
  end.

Fixpoint list_set {A : Type} (l : list A) (i : nat) (x : A) : list A :=
  match l, i with
  | [], _ => []
  | _ :: t, O => x :: t
  | h :: t, S i' => h :: list_set t i' x
  end.

Definition set_cell (bl : list (list cell)) (ind : nat * nat) (x : cell)
  : result (list (list cell)) :=
  match nth_error bl (fst ind) with
  | Some row =>
      if (snd ind <? List.length row)%nat
      then Ok (list_set bl (fst ind) (list_set row (snd ind) x))
      else Raise IndexError
  | None => Raise IndexError
  end.

(** [np.diag(self.blocks)]. *)
Fixpoint diag_from (bl : list (list cell)) (i : nat) : list cell :=
  match bl with
  | [] => []
  | row :: rest => nth i row CNone :: diag_from rest (S i)
  end.

Definition diag_cells (bl : list (list cell)) : list cell := diag_from bl 0.

(** [hamiltonian.__make_elem_label(type, state_label)] for the types
    ['H_0'] and ['mu_q'], and for ['d_q'] with its list of two labels. *)
Definition make_elem_label (type state_label : string) : string :=
  ("<" ++ state_label ++ "|" ++ type ++ "|" ++ state_label ++ ">")%string.

Definition make_elem_label_d_q (label1 label2 : string) : string :=
  ("<" ++ label1 ++ "|" ++ "d_q" ++ "|" ++ label2 ++ ">")%string.

(** [element_i.label == label] for an element of a tuple: only a block
    has a label. *)
Definition element_label_is (c : cell) (label : string) : result bool :=
  match c with
  | CBlock b => Ok (String.eqb (block_label b) label)
  | CNone | CTuple _ _ => Raise AttributeError
  end.

(** One element of a row in [__search_elem_label]: does it match? *)
Definition cell_matches (c : cell) (label : string) : result bool :=
  match c with
  | CNone => Ok false
  | CBlock b => Ok (String.eqb (block_label b) label)
  | CTuple x y =>
      bx <- element_label_is x label ;;
      by_ <- element_label_is y label ;;
      Ok (bx || by_)
  end.

(** The inner loop of [__search_elem_label]: the first matching column of
    a row, where the loop breaks. *)
Fixpoint search_row (row : list cell) (label : string) (jj : nat)
  : result (option nat) :=
  match row with
  | [] => Ok None
  | c :: rest =>
      hit <- cell_matches c label ;;
      if hit then Ok (Some jj) else search_row rest label (S jj)
  end.

(** [hamiltonian.__search_elem_label(label)]: every row is scanned (the
    [break] leaves the inner loop only), so the last row with a match
    wins; [None] is the empty tuple [()]. *)
Fixpoint search_rows (bl : list (list cell)) (label : string) (ii : nat)
         (ind : option (nat * nat)) : result (option (nat * nat)) :=
  match bl with
  | [] => Ok ind
  | row :: rest =>
      hit <- search_row row label 0 ;;
      search_rows rest label (S ii)
                  (match hit with Some jj => Some (ii, jj) | None => ind end)
  end.

Definition search_elem_label (h : hamiltonian) (label : string)
  : result (option (nat * nat)) :=
  search_rows (blocks h) label 0 None.

(** [hamiltonian.__add_new_row_and_column]. *)
Definition add_new_row_and_column (bl : list (list cell)) : list (list cell) :=
  match bl with
  | [] => [[CNone]]
  | _ => map (fun row => row ++ [CNone]) bl ++ [repeat CNone (S (List.length bl))]
  end.

(** [self.blocks[-1, -1] = x]. *)
Definition set_last_cell (bl : list (list cell)) (x : cell)
  : result (list (list cell)) :=
  match List.length bl with
  | O => Raise IndexError
  | S k => set_cell bl (k, Nat.pred (List.length (nth k bl []))) x
  end.

(** [hamiltonian.__recompute_number_of_states]: the new [self.n]. *)
Definition recompute_number_of_states (bl : list (list cell)) : result nat :=
  for_each_exn (diag_cells bl) (fun c n =>
    match c with
    | CTuple (CBlock b) _ => Ok (n + block_n b)%nat
    | CTuple _ _ => Raise AttributeError
    | CBlock b => Ok (n + block_n b)%nat
    | CNone => Raise AttributeError
    end) 0%nat.

(** [hamiltonian.__check_diagonal_submatrices_are_themselves_diagonal]:
    the new [self.diagonal]. *)
Definition check_diagonal_submatrices (bl : list (list cell))
  : result (list bool) :=
  for_each_exn (diag_cells bl) (fun c flags =>
    match c with
    | CTuple (CBlock b0) y =>
        (* [diag_block[0].diagonal and diag_block[1].diagonal]: the second
           element is looked at only when the first flag is true *)
        if block_diagonal b0
        then match y with
             | CBlock b1 => Ok (flags ++ [block_diagonal b1])
             | CNone | CTuple _ _ => Raise AttributeError
             end
        else Ok (flags ++ [false])
    | CTuple _ _ => Raise AttributeError
    | CBlock b => Ok (flags ++ [block_diagonal b])
    | CNone => Raise AttributeError
    end) [].

(** The two calls that end [add_H_0_block] and [add_mu_q_block]. *)
Definition refresh_counts (h : hamiltonian) : result hamiltonian :=
  n <- recompute_number_of_states (blocks h) ;;
  flags <- check_diagonal_submatrices (blocks h) ;;
  Ok {| blocks := blocks h; state_labels := state_labels h; ns := ns h;
        laser_keys := laser_keys h; mass := mass h;
        n_states := Some n; diagonal := Some flags; full := full h |}.

Definition with_blocks (h : hamiltonian) (bl : list (list cell)) : hamiltonian :=
  {| blocks := bl; state_labels := state_labels h; ns := ns h;
     laser_keys := laser_keys h; mass := mass h;
     n_states := n_states h; diagonal := diagonal h; full := full h |}.

(** [self.blocks[ind].n], where [ind] is the result of a search: the empty
    tuple indexes the whole array, which has no attribute [n], and neither
    has a tuple or [None]. *)
Definition found_block_n (h : hamiltonian) (ind : option (nat * nat))
  : result nat :=
  match ind with
  | None => Raise AttributeError
  | Some ij =>
      c <- get_cell (blocks h) ij ;;
      match c with
      | CBlock b => Ok (block_n b)
      | CNone | CTuple _ _ => Raise AttributeError
      end
  end.

(* ================================================================== *)
(** * hamiltonian.py: registering blocks *)
(* ================================================================== *)

(** [H_0.astype('complex128')] keeps the entries (they are embedded as
    complex numbers already). *)

(** [hamiltonian.add_H_0_block(state_label, H_0)]. *)
Definition add_H_0_block (h : hamiltonian) (state_label : string)
           (H_0 : ndarray2) : result hamiltonian :=
  if negb (rows H_0 =? cols H_0) then Raise ValueError else
  ind_H_0 <- search_elem_label h (make_elem_label "H_0" state_label) ;;
  ind_mu_q <- search_elem_label h (make_elem_label "mu_q" state_label) ;;
  let label := make_elem_label "H_0" state_label in
  h' <- match ind_H_0, ind_mu_q with
        | None, None =>
            bl <- set_last_cell (add_new_row_and_column (blocks h))
                                (CBlock (new_block label H_0)) ;;
            Ok {| blocks := bl;
                  state_labels := state_labels h ++ [state_label];
                  ns := ns h ++ [rows H_0];
                  laser_keys := laser_keys h; mass := mass h;
                  n_states := n_states h; diagonal := diagonal h;
                  full := full h |}
        | _, Some ij_mu_q =>
            (* [if H_0.shape[0] != self.blocks[ind_H_0].n]: the index is
               [ind_H_0], not [ind_mu_q] *)
            n <- found_block_n h ind_H_0 ;;
            if negb (rows H_0 =? n) then Raise ValueError else
            old <- get_cell (blocks h) ij_mu_q ;;
            bl <- set_cell (blocks h) ij_mu_q
                           (CTuple (CBlock (new_block label H_0)) old) ;;
            Ok (with_blocks h bl)
        | Some _, None => Raise ValueError
        end ;;
  refresh_counts h'.

(** [hamiltonian.add_mu_q_block(state_label, mu_q, muB)]. *)
Definition add_mu_q_block (h : hamiltonian) (state_label : string)
           (mu_q : ndarray3) (muB : R) : result hamiltonian :=
  if negb (dim0 mu_q =? 3) || negb (dim1 mu_q =? dim2 mu_q)
  then Raise ValueError else
  ind_H_0 <- search_elem_label h (make_elem_label "H_0" state_label) ;;
  ind_mu_q <- search_elem_label h (make_elem_label "mu_q" state_label) ;;
  let label := make_elem_label "mu_q" state_label in
  let new_block := set_parameter (new_vector_block label mu_q) "mu_B" muB in
  h' <- match ind_H_0, ind_mu_q with
        | None, None =>
            bl <- set_last_cell (add_new_row_and_column (blocks h))
                                (CBlock new_block) ;;
            Ok {| blocks := bl;
                  state_labels := state_labels h ++ [state_label];
                  ns := ns h ++ [dim1 mu_q];
                  laser_keys := laser_keys h; mass := mass h;
                  n_states := n_states h; diagonal := diagonal h;
                  full := full h |}
        | Some ij_H_0, _ =>
            n <- found_block_n h ind_H_0 ;;
            if negb (dim1 mu_q =? n) then Raise ValueError else
            old <- get_cell (blocks h) ij_H_0 ;;
            bl <- set_cell (blocks h) ij_H_0 (CTuple old (CBlock new_block)) ;;
            Ok (with_blocks h bl)
        | None, Some _ => Raise ValueError
        end ;;
  refresh_counts h'.

(** The first half of [add_d_q_block], run once for each label: the row
    of the manifold and its number of states. *)
Definition manifold_of_label (h : hamiltonian) (label : string)
  : result (nat * nat) :=
  ind_H_0 <- search_elem_label h (make_elem_label "H_0" label) ;;
  ind_mu_q <- search_elem_label h (make_elem_label "mu_q" label) ;;
  match ind_H_0, ind_mu_q with
  | None, None => Raise ValueError
  | None, Some ij =>
      n <- found_block_n h ind_mu_q ;;
      Ok (fst ij, n)
  | Some ij, None =>
      n <- found_block_n h ind_H_0 ;;
      Ok (fst ij, n)
  | Some ij, Some _ =>
      (* [self.blocks[ind_H_0][0].n] *)
      c <- get_cell (blocks h) ij ;;
      match c with
      | CTuple (CBlock b) _ => Ok (fst ij, block_n b)
      | CTuple _ _ => Raise AttributeError
      | CBlock _ | CNone => Raise TypeError
      end
  end.

(** [np.einsum("ijk->ikj", d_q.conj())], which is also
    [np.array([np.conjugate(d_q[ii].T) for ii in range(3)])] when [d_q]
    has three components. *)
Definition conj_transpose3 (d : ndarray3) : ndarray3 :=
  {| dim0 := dim0 d; dim1 := dim2 d; dim2 := dim1 d;
     item3 := fun q r c => Cconj (item3 d q c r) |}.

Definition hermitian_partner (d : ndarray3) : ndarray3 :=
  {| dim0 := 3; dim1 := dim2 d; dim2 := dim1 d;
     item3 := fun q r c => Cconj (item3 d q c r) |}.

(** [hamiltonian.add_d_q_block(label1, label2, d_q, k, gamma)].  The
    message of the shape error names [label] before it is bound, so the
    exception raised there is an [UnboundLocalError], a [NameError].  The
    list built for the partner reads [d_q[0..2]]; an array with fewer
    components raises [IndexError] (the model does not keep the state of a
    call that raises). *)
Definition add_d_q_block (h : hamiltonian) (label1 label2 : string)
           (d_q : ndarray3) (k gamma : R) : result hamiltonian :=
  '(ind1, n) <- manifold_of_label h label1 ;;
  '(ind2, m) <- manifold_of_label h label2 ;;
  if negb (dim1 d_q =? n) || negb (dim2 d_q =? m) then Raise NameError else
  if (dim0 d_q <? 3)%nat then Raise IndexError else
  let ind := (ind1, ind2) in
  let '(label1, label2, ind, d_q) :=
    if (ind2 <? ind1)%nat
    then (label2, label1, (ind2, ind1), conj_transpose3 d_q)
    else (label1, label2, ind, d_q) in
  let label := make_elem_label_d_q label1 label2 in
  let b := set_parameter
             (set_parameter (new_vector_block label d_q) "k" k)
             "gamma" gamma in
  bl <- set_cell (blocks h) ind (CBlock b) ;;
  let label := make_elem_label_d_q label2 label1 in
  bl <- set_cell bl (snd ind, fst ind)
                 (CBlock (new_vector_block label (hermitian_partner d_q))) ;;
  Ok {| blocks := bl; state_labels := state_labels h; ns := ns h;
        laser_keys := dict_set (laser_keys h)
                               (label1 ++ "->" ++ label2)%string ind;
        mass := mass h; n_states := n_states h; diagonal := diagonal h;
        full := full h |}.

(** [hamiltonian(H0_g, H0_e, muq_g, muq_e, d_q, mass, muB, gamma, k)]. *)
Definition hamiltonian_init5 (H0_g H0_e : ndarray2) (muq_g muq_e d_q : ndarray3)
           (mass muB gamma k : R) : result hamiltonian :=
  h <- add_H_0_block (hamiltonian_empty mass) "g" H0_g ;;
  h <- add_H_0_block h "e" H0_e ;;
  h <- add_mu_q_block h "g" muq_g muB ;;
  h <- add_mu_q_block h "e" muq_e muB ;;
  add_d_q_block h "g" "e" d_q k gamma.

(* ================================================================== *)
(** * hamiltonian.py: the full matrices *)
(* ================================================================== *)

(** Arrays of three matrices (shape [(3, n, n)]), entry-wise. *)
Definition vzeros : nat -> matrix := fun _ => zeros.
Definition vmplus (A B : nat -> matrix) : nat -> matrix :=
  fun q => mplus (A q) (B q).
Definition vmscale (z : C) (A : nat -> matrix) : nat -> matrix :=
  fun q => mscale z (A q).

(** [int(np.sum(self.ns[:ii]))]. *)
Definition offset (ns : list nat) (ii : nat) : nat := list_sum (firstn ii ns).

(** [b.return_block_in_place(i, j, N)] for a [block] and for a
    [vector_block]. *)
Definition block_in_place (M : ndarray2) (n m i j N : nat) : result matrix :=
  if fits i j n m N && (rows M =? n) && (cols M =? m)
  then Ok (place i j n m (item2 M)) else Raise ValueError.

Definition vector_block_in_place (M : ndarray3) (n m i j N : nat)
  : result (nat -> matrix) :=
  if fits i j n m N && (dim0 M =? 3) && (dim1 M =? n) && (dim2 M =? m)
  then Ok (fun q => place i j n m (item3 M q)) else Raise ValueError.

(** One diagonal block of the first loop of [make_full_matrices]; the
    state is [(H_0, mu_q, n)]. *)
Definition place_diag_block (N : nat) (c : cell)
           (st : matrix * (nat -> matrix) * nat)
  : result (matrix * (nat -> matrix) * nat) :=
  let '(H0, mu, n) := st in
  match c with
  | CBlock (VectorBlock _ _ M p bn bm) =>
      mu_B <- dict_item p "mu_B" ;;
      P <- vector_block_in_place M bn bm n n N ;;
      Ok (H0, vmplus mu (vmscale (RtoC mu_B) P), (n + bn)%nat)
  | CBlock (Block _ _ M _ bn bm) =>
      P <- block_in_place M bn bm n n N ;;
      Ok (mplus H0 P, mu, (n + bn)%nat)
  | CTuple x y =>
      H0' <- match x with
             | CBlock (Block _ _ M _ bn bm) =>
                 P <- block_in_place M bn bm n n N ;; Ok (mplus H0 P)
             | CBlock (VectorBlock _ _ _ _ _ _) => Raise ValueError
             | CNone | CTuple _ _ => Raise AttributeError
             end ;;
      mu' <- match y with
             | CBlock (VectorBlock _ _ M p bn bm) =>
                 mu_B <- dict_item p "mu_B" ;;
                 P <- vector_block_in_place M bn bm n n N ;;
                 Ok (vmplus mu (vmscale (RtoC mu_B) P))
             | CBlock (Block _ _ _ p _ _) =>
                 mu_B <- dict_item p "mu_B" ;;
                 Raise ValueError
             | CNone | CTuple _ _ => Raise AttributeError
             end ;;
      match x with
      | CBlock b => Ok (H0', mu', (n + block_n b)%nat)
      | CNone | CTuple _ _ => Raise AttributeError
      end
  | CNone => Raise TypeError
  end.

(** The second loop of [make_full_matrices], over the cells above the
    diagonal: [self.d_q_bare]. *)
Definition place_d_q_bare (h : hamiltonian) (N : nat)
  : result (dict (nat -> matrix)) :=
  for_range_exn 0 (List.length (blocks h)) (fun ii acc =>
    for_range_exn (ii + 1) (List.length (nth 0 (blocks h) [])) (fun jj acc =>
      c <- get_cell (blocks h) (ii, jj) ;;
      match c with
      | CNone => Ok acc
      | CBlock (VectorBlock _ _ M _ bn bm) =>
          match nth_error (state_labels h) ii, nth_error (state_labels h) jj with
          | Some li, Some lj =>
              P <- vector_block_in_place M bn bm (offset (ns h) ii)
                                         (offset (ns h) jj) N ;;
              Ok (dict_set acc (li ++ "->" ++ lj)%string P)
          | _, _ => Raise IndexError
          end
      | CBlock (Block _ _ _ _ _ _) => Raise ValueError
      | CTuple _ _ => Raise AttributeError
      end) acc) [].

(** [hamiltonian.make_full_matrices]: the object with [H_0], [mu_q],
    [d_q_bare], [d_q_star] and [d_q] set.  (The Cartesian copies [mu] and
    [d] come from [common.spherical2cart], which is not part of these
    sources; nothing here reads them.) *)
Definition make_full_matrices (h : hamiltonian) : result hamiltonian :=
  match n_states h with
  | None => Raise AttributeError
  | Some N =>
      '(H0, mu, _) <- for_each_exn (diag_cells (blocks h)) (place_diag_block N)
                                   (zeros, vzeros, 0%nat) ;;
      bare <- place_d_q_bare h N ;;
      let star := map (fun kv : string * (nat -> matrix) =>
                         (fst kv, fun kk => conj_transpose (snd kv kk))) bare in
      (* [for key in self.d_q_bare.keys():
            self.d_q += self.d_q_bare[key] + self.d_q_star[key]] *)
      let dq := fold_left (fun acc (bs : (string * (nat -> matrix))
                                         * (string * (nat -> matrix))) =>
                  vmplus acc (vmplus (snd (fst bs)) (snd (snd bs))))
                  (combine bare star) vzeros in
      Ok {| blocks := blocks h; state_labels := state_labels h; ns := ns h;
            laser_keys := laser_keys h; mass := mass h;
            n_states := n_states h; diagonal := diagonal h;
            full := Some {| H_0 := H0; mu_q := mu; d_q_bare := bare;
                            d_q_star := star; d_q := dq |} |}
  end.

(** The argument [Eq] of [return_full_H]: one field vector (a list or an
    array) or a dictionary of field vectors keyed by transition. *)
Inductive Eq_arg : Type :=
| EqArray (E : nat -> C)
| EqDict (d : dict (nat -> C)).

(** [(-1.)**q] for [q] in [np.arange(-1., 2., 1.)]. *)
Definition minus_one_pow (q : Z) : R := if Z.even q then 1%R else (-1)%R.

(** [hamiltonian.return_full_H(Eq, Bq)]: the object (its full matrices are
    made on first use) and the matrix [H]. *)
Definition return_full_H (h : hamiltonian) (Eq : Eq_arg) (Bq : nat -> C)
  : result (hamiltonian * matrix) :=
  h <- match full h with
       | Some _ => Ok h
       | None => make_full_matrices h
       end ;;
  match full h with
  | None => Raise AttributeError
  | Some fm =>
      (* [np.tensordot(self.mu_q, np.conjugate(Bq), axes=(0, 0))] *)
      let H := mminus (H_0 fm)
                 (fun r c => csum 3 (fun q => (mu_q fm q r c * Cconj (Bq q))%C)) in
      let Eq := match Eq with
                | EqArray E => [("g->e"%string, E)]
                | EqDict d => d
                end in
      H <- for_each_exn (dict_keys Eq) (fun key H =>
             for_each_exn (combine (seq 0 3) [(-1)%Z; 0%Z; 1%Z])
               (fun iq H =>
                  let '(ii, q) := iq in
                  bare <- dict_item (d_q_bare fm) key ;;
                  E <- dict_item Eq key ;;
                  star <- dict_item (d_q_star fm) key ;;
                  Ok (mminus H
                        (mplus
                           (mscale (RtoC (0.5 * minus_one_pow q)
                                    * E (2 - ii)%nat)%C (bare ii))
                           (mscale (RtoC (0.5 * minus_one_pow q)
                                    * Cconj (E (2 - ii)%nat))%C (star ii)))))
               H) H ;;
      Ok (h, H)
  end.

(* ================================================================== *)
(** * obe.py: the decay matrix *)
(* ================================================================== *)

(** Sums of real numbers over [range(lo, hi)] and over a list. *)
Definition rsum_range (lo hi : nat) (f : nat -> R) : R :=
  for_range lo hi (fun i acc => (acc + f i)%R) 0%R.

Definition rsum_list (l : list R) : R := fold_left Rplus l 0%R.

(** [np.mean] of a list. *)
Definition mean (l : list R) : R := (rsum_list l / INR (List.length l))%R.

(** The states of manifold [ll]:
    [range(sum(ns[:ll]), sum(ns[:ll+1]))]. *)
Definition manifold_lo (ns : list nat) (ll : nat) : nat := offset ns ll.
Definition manifold_hi (ns : list nat) (ll : nat) : nat := offset ns (ll + 1).

(** [np.sum(np.sum(abs2(d_q[:, :ii, ii])))]: the total decay rate of the
    state [ii], over the three components and the states below [ii]. *)
Definition state_rate (d_q : nat -> matrix) (ii : nat) : R :=
  rsum_range 0 3 (fun q => rsum_range 0 ii (fun jj => abs2 (d_q q jj ii))).

(** The list [rates] of manifold [ll] and its mean. *)
Definition manifold_rates (ns : list nat) (d_q : nat -> matrix) (ll : nat)
  : list R :=
  map (state_rate d_q)
      (seq (manifold_lo ns ll) (manifold_hi ns ll - manifold_lo ns ll)).

Definition manifold_rate (ns : list nat) (d_q : nat -> matrix) (ll : nat) : R :=
  mean (manifold_rates ns d_q ll).

(** [decay_rates[ll] = rate] on a real array. *)
Definition rset (a : nat -> R) (i : nat) (x : R) : nat -> R :=
  fun j => if j =? i then x else a j.

(** The first loop of [build_decay_ev]: the array [decay_rates], or the
    [ValueError] of the first manifold whose rates are not all close to
    their mean. *)
Definition check_decay_rates (nblocks : nat) (ns : list nat)
           (d_q : nat -> matrix) : result (nat -> R) :=
  for_range_exn 1 nblocks (fun ll decay_rates =>
    let rates := manifold_rates ns d_q ll in
    let rate := mean rates in
    if negb (allclose rates rate 1e-5 1e-7)
    then Raise ValueError
    else Ok (rset decay_rates ll rate))
  (fun _ => 0%R).

(** The three loops of [build_decay_ev] that fill [self.ev_mat['decay']]:
    decay into a manifold, decay out of a manifold, and the decay of the
    coherences between two manifolds. *)
Definition fill_decay_in (n nblocks : nat) (ns : list nat)
           (d_q : nat -> matrix) (ev : matrix) : matrix :=
  for_range 0 (nblocks - 1) (fun ll ev =>
    for_range (manifold_lo ns ll) (manifold_hi ns ll) (fun ii ev =>
      for_range (manifold_lo ns ll) (manifold_hi ns ll) (fun jj ev =>
        for_range (manifold_hi ns ll) (list_sum ns) (fun kk ev =>
          for_range (manifold_hi ns ll) (list_sum ns) (fun ll' ev =>
            for_range 0 3 (fun q ev =>
              madd ev (density_index n ii jj) (density_index n kk ll')
                   (d_q q ii kk * d_q q ll' jj)%C)
            ev) ev) ev) ev) ev) ev.

Definition fill_decay_out (n nblocks : nat) (ns : list nat)
           (decay_rates : nat -> R) (ev : matrix) : matrix :=
  for_range 1 nblocks (fun ll ev =>
    for_range (manifold_lo ns ll) (manifold_hi ns ll) (fun ii ev =>
      for_range (manifold_lo ns ll) (manifold_hi ns ll) (fun jj ev =>
        mset ev (density_index n ii jj) (density_index n ii jj)
             (RtoC (- decay_rates ll)))
      ev) ev) ev.

Definition fill_decay_coherences (n nblocks : nat) (ns : list nat)
           (decay_rates : nat -> R) (ev : matrix) : matrix :=
  for_range 0 (nblocks - 1) (fun ll ev =>
    for_range (ll + 1) nblocks (fun mm ev =>
      for_range (manifold_lo ns ll) (manifold_hi ns ll) (fun ii ev =>
        for_range (manifold_lo ns mm) (manifold_hi ns mm) (fun jj ev =>
          let ev :=
            mset ev (density_index n ii jj) (density_index n ii jj)
                 (RtoC (- (decay_rates ll + decay_rates mm) / 2)) in
          mset ev (density_index n jj ii) (density_index n jj ii)
               (RtoC (- (decay_rates ll + decay_rates mm) / 2)))
        ev) ev) ev) ev.

(** [obe.build_decay_ev]: [self.ev_mat['decay']], for a Hamiltonian with
    [n] states, [nblocks = blocks.shape[0]] manifolds of sizes [ns] and
    the aggregated dipole operator [d_q]. *)
Definition build_decay_ev (n nblocks : nat) (ns : list nat)
           (d_q : nat -> matrix) : result matrix :=
  decay_rates <- check_decay_rates nblocks ns d_q ;;
  let ev := fill_decay_in n nblocks ns d_q zeros in
  let ev := fill_decay_out n nblocks ns decay_rates ev in
  let ev := fill_decay_coherences n nblocks ns decay_rates ev in
  Ok ev.

(* ================================================================== *)
(** * obe.py: the object *)
(* ================================================================== *)

(** What Python passes for the position [r] and the time [t]: a float or
    an array of floats. *)
Inductive pyarg : Type :=
| PyFloat (x : R)
| PyArray (v : list R).

(** A [laserBeams] collection (lasers.py is not part of these sources):
    the methods and the attribute the class [obe] uses.
    [total_electric_field(r, t)] is a vector of three complex numbers;
    [electric_field_gradient(positions, times)] lists, for each beam, an
    array indexed by direction, polarisation and sample. *)
Record laserBeams : Type := {
  total_electric_field : pyarg -> pyarg -> nat -> C;
  electric_field_gradient :
    (nat -> nat -> C) -> list R -> list (nat -> nat -> nat -> C);
  num_of_beams : nat
}.

(** A [magField] (fields.py is not part of these sources): its method
    [Field], a vector of three real numbers. *)
Record magField : Type := {
  Field : pyarg -> nat -> R
}.

(** The dictionary [self.ev_mat].  The keys ['E'] and ['E*'] are deleted
    by [transform_ev_matrices], and ['reE'] and ['imE'] exist only after
    it: [None] is a missing key. *)
Record ev_matrices : Type := {
  ev_decay : matrix;
  ev_H0 : matrix;
  ev_B : nat -> matrix;
  ev_E : option (dict (nat -> matrix));
  ev_Estar : option (dict (nat -> matrix));
  ev_reE : option (dict (nat -> matrix));
  ev_imE : option (dict (nat -> matrix))
}.

(** [self.ev_mat[name][key]]. *)
Definition ev_item (d : option (dict (nat -> matrix))) (key : string)
  : result (nat -> matrix) :=
  match d with
  | None => Raise KeyError
  | Some d => dict_item d key
  end.

(** A numpy array of one dimension whose entries may be [nan] or [inf]
    ([None] stands for either): what the setters of the initial state are
    given. *)
Inductive dtype : Type := float64 | complex128.

Record ndarray1 : Type := {
  arr_dtype : dtype;
  arr_data : list (option C)
}.

(** The object [solve_ivp] returns: the sample times [t] and the array
    [y] with one row per component of [[rho, v, r]] and one column per
    sample. *)
Record ode_solution : Type := {
  sol_t : list R;
  sol_rows : nat;
  sol_dtype : dtype;
  sol_y : nat -> nat -> C
}.

(** An instance of class [obe].  (The rate-equation model [self.rateeq]
    and the dictionary [self.profile] are not part of the state modelled
    here: rateeq.py is not part of these sources.) *)
Record obe : Type := {
  obe_hamiltonian : hamiltonian;
  obe_n : nat;
  obe_laserBeams : dict laserBeams;
  obe_magField : magField;
  include_mag_forces : bool;
  transform_into_re_im : bool;
  use_sparse_matrices : bool;
  ev_mat : ev_matrices;
  obe_U : transform_cache;
  r0 : option ndarray1;
  v0 : option ndarray1;
  rho0 : option ndarray1;
  sol : option ode_solution
}.

(** Three results in a row, as a list comprehension over [range(3)]. *)
Definition vec3_exn (f : nat -> result matrix) : result (nat -> matrix) :=
  m0 <- f 0%nat ;;
  m1 <- f 1%nat ;;
  m2 <- f 2%nat ;;
  Ok (fun q => match q with 0%nat => m0 | 1%nat => m1 | _ => m2 end).

(** [obe.build_coherent_ev]: ['H0'], ['B'], ['E'] and ['E*'], given the
    full matrices of the Hamiltonian and the keys of [self.laserBeams]. *)
Definition build_coherent_ev (n : nat) (fm : full_matrices)
           (keys : list string)
  : result (matrix * (nat -> matrix) * dict (nat -> matrix)
            * dict (nat -> matrix)) :=
  let H0 := build_coherent_ev_submatrix n (H_0 fm) in
  let B := fun q => build_coherent_ev_submatrix n (mu_q fm q) in
  EE <- for_each_exn keys (fun key (acc : dict (nat -> matrix)
                                         * dict (nat -> matrix)) =>
          bare <- dict_item (d_q_bare fm) key ;;
          star <- dict_item (d_q_star fm) key ;;
          Ok (dict_set (fst acc) key
                       (fun q => build_coherent_ev_submatrix n (bare q)),
              dict_set (snd acc) key
                       (fun q => build_coherent_ev_submatrix n (star q))))
        ([], []) ;;
  Ok (H0, B, fst EE, snd EE).

(** [self.transform_ev_matrix(M)] once [self.U] and [self.Uinv] exist. *)
Definition transform_with (n : nat) (UU : matrix * matrix) (M : matrix)
  : result matrix :=
  snd (transform_ev_matrix n (Some UU) M).

(** [1/np.sqrt(2)] and [1j/np.sqrt(2)]. *)
Definition inv_sqrt2 : C := RtoC (1 / sqrt 2).
Definition i_inv_sqrt2 : C := (Ci * RtoC (/ sqrt 2))%C.

(** [obe.transform_ev_matrices]: the matrices of the real basis.  The
    first call of [transform_ev_matrix] builds [U] and [Uinv]; the later
    ones find them. *)
Definition transform_ev_matrices (n : nat) (decay H0 : matrix)
           (B : nat -> matrix) (E Estar : dict (nat -> matrix))
  : result ev_matrices :=
  let UU := ensure_transform_matrices n None in
  let T := transform_with n UU in
  decay' <- T decay ;;
  H0' <- T H0 ;;
  reim <- for_each_exn (dict_keys E)
            (fun key (acc : dict (nat -> matrix) * dict (nat -> matrix)) =>
               e <- dict_item E key ;;
               es <- dict_item Estar key ;;
               re <- vec3_exn (fun jj => T (mplus (e jj) (es jj))) ;;
               im <- vec3_exn (fun jj =>
                       T (mscale (- Ci)%C (mminus (e jj) (es jj)))) ;;
               Ok (dict_set (fst acc) key re, dict_set (snd acc) key im))
            ([], []) ;;
  Bx <- T (mscale inv_sqrt2 (mminus (B 0%nat) (B 2%nat))) ;;
  By <- T (mscale i_inv_sqrt2 (mplus (B 0%nat) (B 2%nat))) ;;
  Bz <- T (B 1%nat) ;;
  Ok {| ev_decay := decay'; ev_H0 := H0';
        ev_B := fun q => match q with 0%nat => Bx | 1%nat => By | _ => Bz end;
        ev_E := None; ev_Estar := None;
        ev_reE := Some (fst reim); ev_imE := Some (snd reim) |}.

(** The argument [lasers] of [obe.__init__]: one [laserBeams] collection
    (a list of beams is first made into one), stored under the key
    ['g->e'], or a dictionary of collections. *)
Inductive lasers_arg : Type :=
| LasersOne (beams : laserBeams)
| LasersDict (d : dict laserBeams).

(** [obe.set_initial_position], [obe.set_initial_velocity] and
    [obe.set_initial_position_and_velocity]. *)
Definition set_initial_position (o : obe) (r : ndarray1) : obe :=
  {| obe_hamiltonian := obe_hamiltonian o; obe_n := obe_n o;
     obe_laserBeams := obe_laserBeams o; obe_magField := obe_magField o;
     include_mag_forces := include_mag_forces o;
     transform_into_re_im := transform_into_re_im o;
     use_sparse_matrices := use_sparse_matrices o;
     ev_mat := ev_mat o; obe_U := obe_U o;
     r0 := Some r; v0 := v0 o; rho0 := rho0 o; sol := None |}.

Definition set_initial_velocity (o : obe) (v : ndarray1) : obe :=
  {| obe_hamiltonian := obe_hamiltonian o; obe_n := obe_n o;
     obe_laserBeams := obe_laserBeams o; obe_magField := obe_magField o;
     include_mag_forces := include_mag_forces o;
     transform_into_re_im := transform_into_re_im o;
     use_sparse_matrices := use_sparse_matrices o;
     ev_mat := ev_mat o; obe_U := obe_U o;
     r0 := r0 o; v0 := Some v; rho0 := rho0 o; sol := None |}.

Definition set_initial_position_and_velocity (o : obe) (r v : ndarray1) : obe :=
  set_initial_velocity (set_initial_position o r) v.

(** [np.any(np.isnan(a)) or np.any(np.isinf(a))]. *)
Definition has_nan_or_inf (a : ndarray1) : bool :=
  existsb (fun x => match x with None => true | Some _ => false end)
          (arr_data a).

Definition np_real (a : ndarray1) : ndarray1 :=
  {| arr_dtype := float64; arr_data := map (option_map Creal) (arr_data a) |}.

Definition astype_complex128 (a : ndarray1) : ndarray1 :=
  {| arr_dtype := complex128; arr_data := arr_data a |}.

Definition is_complex128 (a : ndarray1) : bool :=
  match arr_dtype a with complex128 => true | float64 => false end.

(** [obe.set_initial_rho(rho0)]. *)
Definition set_initial_rho (o : obe) (rho : ndarray1) : result obe :=
  if has_nan_or_inf rho then Raise ValueError else
  let new_rho0 :=
    if transform_into_re_im o && is_complex128 rho then np_real rho
    else if negb (transform_into_re_im o) && negb (is_complex128 rho)
         then astype_complex128 rho
         else rho in
  Ok {| obe_hamiltonian := obe_hamiltonian o; obe_n := obe_n o;
        obe_laserBeams := obe_laserBeams o; obe_magField := obe_magField o;
        include_mag_forces := include_mag_forces o;
        transform_into_re_im := transform_into_re_im o;
        use_sparse_matrices := use_sparse_matrices o;
        ev_mat := ev_mat o; obe_U := obe_U o;
        r0 := r0 o; v0 := v0 o; rho0 := Some new_rho0; sol := sol o |}.

(** [obe.__init__].  The Hamiltonian is copied and its full matrices are
    made; the keys of the lasers must be transitions of the Hamiltonian;
    the evolution matrices are built, transformed when
    [transform_into_re_im], and (when [use_sparse_matrices]) stored in
    compressed form, which changes no entry and is not modelled. *)
Definition obe_init (lasers : lasers_arg) (mag_field : magField)
           (h : hamiltonian) (r v : ndarray1)
           (transform_into_re_im : bool) (use_sparse_matrices : option bool)
           (include_mag_forces : bool) : result obe :=
  h <- make_full_matrices h ;;
  match full h, n_states h with
  | Some fm, Some n =>
      let beams := match lasers with
                   | LasersOne b => [("g->e"%string, b)]
                   | LasersDict d => d
                   end in
      _ <- for_each_exn (dict_keys beams) (fun laser_key (u : unit) =>
             match dict_get (laser_keys h) laser_key with
             | Some _ => Ok tt
             | None => Raise ValueError
             end) tt ;;
      let sparse := match use_sparse_matrices with
                    | None => (10 <? n)%nat
                    | Some b => b
                    end in
      decay <- build_decay_ev n (List.length (blocks h)) (ns h) (d_q fm) ;;
      '(H0, B, E, Estar) <- build_coherent_ev n fm (dict_keys beams) ;;
      ev <- (if transform_into_re_im
             then transform_ev_matrices n decay H0 B E Estar
             else Ok {| ev_decay := decay; ev_H0 := H0; ev_B := B;
                        ev_E := Some E; ev_Estar := Some Estar;
                        ev_reE := None; ev_imE := None |}) ;;
      Ok (set_initial_position_and_velocity
            {| obe_hamiltonian := h; obe_n := n;
               obe_laserBeams := beams; obe_magField := mag_field;
               include_mag_forces := include_mag_forces;
               transform_into_re_im := transform_into_re_im;
               use_sparse_matrices := sparse;
               ev_mat := ev;
               obe_U := if transform_into_re_im
                        then Some (ensure_transform_matrices n None)
                        else None;
               r0 := None; v0 := None; rho0 := None; sol := None |}
            r v)
  | _, _ => Raise AttributeError
  end.

(** [obe.return_magnetic_field(t, r)]: the parameters are the time first
    and the position second, and the field is evaluated at the second. *)
Definition return_magnetic_field (o : obe) (t r : pyarg) : nat -> C :=
  let B := Field (obe_magField o) r in
  if transform_into_re_im o then fun q => RtoC (B q)
  else fun q =>
    match q with
    | 0%nat => (RtoC (B 0%nat / sqrt 2) + Ci * RtoC (B 1%nat) * RtoC (/ sqrt 2))%C
    | 1%nat => RtoC (B 2%nat)
    | _ => (RtoC (- B 0%nat / sqrt 2) + Ci * RtoC (B 1%nat) * RtoC (/ sqrt 2))%C
    end.

(** [np.abs(x) > 1e-10]. *)
Definition above_threshold (x : C) : bool := Rlt_bool 1e-10 (Cabs x).

(** [obe.drhodt(r, t, rho)]. *)
Definition drhodt (o : obe) (r : list R) (t : R) (rho : vector)
  : result vector :=
  let N := (obe_n o * obe_n o)%nat in
  let drhodt := vplus (matvec N (ev_decay (ev_mat o)) rho)
                      (matvec N (ev_H0 (ev_mat o)) rho) in
  drhodt <- for_each_exn (dict_keys (obe_laserBeams o)) (fun key drhodt =>
    beams <- dict_item (obe_laserBeams o) key ;;
    if transform_into_re_im o then
      let Eq := total_electric_field beams (PyArray r) (PyFloat t) in
      for_range_exn 0 3 (fun ii drhodt =>
        if above_threshold (Eq ii) then
          reE <- ev_item (ev_reE (ev_mat o)) key ;;
          let drhodt :=
            vminus drhodt (vscale (RtoC (0.5 * Re (Eq ii)))
                                  (matvec N (reE ii) rho)) in
          imE <- ev_item (ev_imE (ev_mat o)) key ;;
          Ok (vminus drhodt (vscale (RtoC (0.5 * Im (Eq ii)))
                                    (matvec N (imE ii) rho)))
        else Ok drhodt) drhodt
    else
      let Eq := total_electric_field beams (PyArray r) (PyFloat t) in
      for_range_exn 0 3 (fun ii drhodt =>
        if above_threshold (Eq ii) then
          E <- ev_item (ev_E (ev_mat o)) key ;;
          let drhodt :=
            vminus drhodt (vscale (RtoC 0.5 * Cconj (Eq ii))
                                  (matvec N (E ii) rho)) in
          Estar <- ev_item (ev_Estar (ev_mat o)) key ;;
          Ok (vminus drhodt (vscale (RtoC 0.5 * Eq ii)
                                    (matvec N (Estar ii) rho)))
        else Ok drhodt) drhodt) drhodt ;;
  let Bq := return_magnetic_field o (PyFloat t) (PyArray r) in
  Ok (for_range 0 3 (fun ii drhodt =>
        if above_threshold (Bq ii)
        then vplus drhodt (vscale (Bq ii) (matvec N (ev_B (ev_mat o) ii) rho))
        else drhodt) drhodt).

(** [obe.full_OBE_ev(r, t)].  In the complex basis the electric field is
    asked for with the time first, [total_electric_field(t, np.real(r))];
    in both bases the magnetic field is asked for with the position first,
    [return_magnetic_field(r, t)]. *)
Definition full_OBE_ev (o : obe) (r : list R) (t : R) : result matrix :=
  let ev := mplus (ev_decay (ev_mat o)) (ev_H0 (ev_mat o)) in
  ev <- for_each_exn (dict_keys (obe_laserBeams o)) (fun key ev =>
    beams <- dict_item (obe_laserBeams o) key ;;
    if transform_into_re_im o then
      let Eq := total_electric_field beams (PyArray r) (PyFloat t) in
      for_range_exn 0 3 (fun ii ev =>
        if above_threshold (Eq ii) then
          reE <- ev_item (ev_reE (ev_mat o)) key ;;
          let ev := mminus ev (mscale (RtoC (0.5 * Re (Eq ii))) (reE ii)) in
          imE <- ev_item (ev_imE (ev_mat o)) key ;;
          Ok (mminus ev (mscale (RtoC (0.5 * Im (Eq ii))) (imE ii)))
        else Ok ev) ev
    else
      let Eq := total_electric_field beams (PyFloat t) (PyArray r) in
      for_range_exn 0 3 (fun ii ev =>
        if above_threshold (Eq ii) then
          E <- ev_item (ev_E (ev_mat o)) key ;;
          let ev := mminus ev (mscale (RtoC 0.5 * Cconj (Eq ii)) (E ii)) in
          Estar <- ev_item (ev_Estar (ev_mat o)) key ;;
          Ok (mminus ev (mscale (RtoC 0.5 * Eq ii) (Estar ii)))
        else Ok ev) ev) ev ;;
  let Bq := return_magnetic_field o (PyArray r) (PyFloat t) in
  Ok (for_range 0 3 (fun ii ev =>
        if above_threshold (Bq ii)
        then mplus ev (mscale (Bq ii) (ev_B (ev_mat o) ii))
        else ev) ev).

(* ================================================================== *)
(** * obe.py: forces and the search for the equilibrium force *)
(* ================================================================== *)

(** What [force_from_sol(return_q=True)] returns: [f] (direction, sample),
    [f_laser] (direction, beam, sample) and [f_laser_q] (direction,
    polarisation, beam, sample) for each key; and the number of samples. *)
Record window_forces : Type := {
  w_samples : nat;
  w_f : nat -> nat -> R;
  w_f_laser : dict (nat -> nat -> nat -> R);
  w_f_laser_q : dict (nat -> nat -> nat -> nat -> R)
}.

(** [rho_ji_d], summed over the pairs of states of the two manifolds of a
    transition. *)
Definition rho_ji_d_of (o : obe) (s : ode_solution) (key : string)
           (ind : nat * nat) : result (nat -> nat -> C) :=
  let h := obe_hamiltonian o in
  let n := offset (ns h) (fst ind) in
  let m := offset (ns h) (snd ind) in
  match nth_error (ns h) (fst ind) with
  | None => Raise IndexError
  | Some ns0 =>
      for_range_exn n (n + ns0) (fun ii acc =>
        match nth_error (ns h) (snd ind) with
        | None => Raise IndexError
        | Some ns1 =>
            for_range_exn m (m + ns1) (fun jj (acc : nat -> nat -> C) =>
              let rho_ji := fun smp =>
                if transform_into_re_im o
                then (sol_y s (density_index (obe_n o) ii jj) smp
                      - Ci * sol_y s (density_index (obe_n o) jj ii) smp)%C
                else sol_y s (density_index (obe_n o) jj ii) smp in
              match full h with
              | None => Raise AttributeError
              | Some fm =>
                  bare <- dict_item (d_q_bare fm) key ;;
                  Ok (fun q smp => (acc q smp + bare q ii jj * rho_ji smp)%C)
              end) acc
        end) (fun _ _ => C0)
  end.

(** [obe.force_from_sol(return_q=True)]. *)
Definition force_from_sol (o : obe) : result window_forces :=
  match sol o with
  | None => Raise AttributeError
  | Some s =>
      let T := List.length (sol_t s) in
      for_each_exn (dict_keys (obe_laserBeams o)) (fun key w =>
        beams <- dict_item (obe_laserBeams o) key ;;
        ind <- dict_item (laser_keys (obe_hamiltonian o)) key ;;
        rho_ji_d <- rho_ji_d_of o s key ind ;;
        let positions := fun c smp =>
          let y := sol_y s (sol_rows s - 3 + c)%nat smp in
          if transform_into_re_im o then y else Creal y in
        let delE := electric_field_gradient beams positions (sol_t s) in
        f_laser_q <- for_each_exn (combine (seq 0 (List.length delE)) delE)
          (fun (lde : nat * (nat -> nat -> nat -> C))
               (acc : nat -> nat -> nat -> nat -> R) =>
             let '(ll, delE_laser) := lde in
             if (ll <? num_of_beams beams)%nat
             then Ok (fun c q b smp =>
                        if b =? ll
                        then (acc c q b smp
                              + 2 * Re (RtoC 0.5 * rho_ji_d q smp
                                        * Cconj (delE_laser c q smp))%C)%R
                        else acc c q b smp)
             else Raise IndexError)
          (fun _ _ _ _ => 0%R) ;;
        let f_laser := fun c b smp =>
          rsum_range 0 3 (fun q => f_laser_q c q b smp) in
        Ok {| w_samples := T;
              w_f := fun c smp =>
                (w_f w c smp
                 + rsum_range 0 (num_of_beams beams)
                              (fun b => f_laser c b smp))%R;
              w_f_laser := dict_set (w_f_laser w) key f_laser;
              w_f_laser_q := dict_set (w_f_laser_q w) key f_laser_q |})
        {| w_samples := T; w_f := fun _ _ => 0%R;
           w_f_laser := []; w_f_laser_q := [] |}
  end.

(** The ODE solver [scipy.integrate.solve_ivp], run by [evolve_density]
    on the object's [dydt] and initial state [[rho0, v0, r0]] over a time
    span, with the sample times [t_eval] when they are given: the
    solution, or the exception the call raises. *)
Definition ivp_solver : Type :=
  obe -> R * R -> option (list R) -> result ode_solution.

(** [obe.evolve_density(t_span, ...)].  The initial state
    [np.concatenate((self.rho0, self.v0, self.r0))] is built before
    [solve_ivp] is entered: an attribute that was never set ([rho0] is
    set by no constructor, only by the setters of the density matrix)
    raises an [AttributeError]. *)
Definition evolve_density (solve_ivp : ivp_solver) (o : obe)
           (t_span : R * R) (t_eval : option (list R)) : result obe :=
  match rho0 o, v0 o, r0 o with
  | Some _, Some _, Some _ =>
      s <- solve_ivp o t_span t_eval ;;
      Ok {| obe_hamiltonian := obe_hamiltonian o; obe_n := obe_n o;
            obe_laserBeams := obe_laserBeams o; obe_magField := obe_magField o;
            include_mag_forces := include_mag_forces o;
            transform_into_re_im := transform_into_re_im o;
            use_sparse_matrices := use_sparse_matrices o;
            ev_mat := ev_mat o; obe_U := obe_U o;
            r0 := r0 o; v0 := v0 o; rho0 := rho0 o; sol := Some s |}
  | _, _, _ => Raise AttributeError
  end.

(** [np.linspace(a, b, num)]. *)
Definition linspace (a b : R) (num : nat) : list R :=
  map (fun k => (a + INR k * ((b - a) / INR (num - 1)))%R) (seq 0 num).

(** [np.mean(f, axis=1)] of an array with [T] columns. *)
Definition mean_over_samples (T : nat) (f : nat -> nat -> R) : nat -> R :=
  fun c => (rsum_range 0 T (fun smp => f c smp) / INR T)%R.

(** [self.sol.y[lo:hi, -1]]: a column of the solution; there is none when
    the solution has no sample. *)
Definition last_column (s : ode_solution) (lo hi : nat) : result ndarray1 :=
  match List.length (sol_t s) with
  | O => Raise IndexError
  | S k =>
      Ok {| arr_dtype := sol_dtype s;
            arr_data := map (fun r => Some (sol_y s r k)) (seq lo (hi - lo)) |}
  end.

(** The test that ends the search,
    [sum((old_f_avg-f_avg)**2)/sum(f_avg**2) < rel or
     sum((old_f_avg-f_avg)**2) < abs].
    [old_f_avg] is [None] before the first window, when it is
    [[inf, inf, inf]]: both sums of squares are then [inf] or [nan], and
    neither comparison holds.  A quotient by a zero sum is [inf] or [nan]
    too. *)
Definition sum_sq (x : nat -> R) : R := rsum_range 0 3 (fun c => (x c) ^ 2)%R.

Definition converged (old_f_avg : option (nat -> R)) (f_avg : nat -> R)
           (rel abs : R) : bool :=
  match old_f_avg with
  | None => false
  | Some old =>
      let d := sum_sq (fun c => (old c - f_avg c)%R) in
      (if Req_bool (sum_sq f_avg) 0 then false
       else Rlt_bool (d / sum_sq f_avg) rel)
      || Rlt_bool d abs
  end.

(** The keyword arguments of [find_equilibrium_force] that it pops,
    [None] for one that is not given.  [Npts] may be given as [None]. *)
Record equilibrium_kwargs : Type := {
  kw_deltat : option R;
  kw_itermax : option nat;
  kw_Npts : option (option nat);
  kw_rel : option R;
  kw_abs : option R
}.

Definition pop {A : Type} (given : option A) (default : A) : A :=
  match given with Some x => x | None => default end.

(** The default [Npts=5001]. *)
Definition default_Npts : nat := (50 * 100 + 1)%nat.

(** What [find_equilibrium_force] returns. *)
Record equilibrium_result : Type := {
  res_f_avg : nat -> R;
  res_f_laser_avg : dict (nat -> nat -> R);
  res_f_laser_avg_q : dict (nat -> nat -> nat -> R);
  res_iterations : nat
}.

(** The [while ii < itermax] loop of [find_equilibrium_force]; [fuel] is
    [itermax - ii].  It returns the object, the forces of the last window
    (there is none when the loop never ran) and [ii]. *)
Fixpoint equilibrium_loop (solve_ivp : ivp_solver) (deltat : R)
         (Npts : option nat) (rel abs : R) (fuel ii : nat) (o : obe)
         (old_f_avg : option (nat -> R)) (last : option window_forces)
  : result (obe * option window_forces * nat) :=
  match fuel with
  | O => Ok (o, last, ii)
  | S fuel' =>
      let t_eval :=
        match Npts with
        | Some N => Some (linspace (INR ii * deltat) (INR (ii + 1) * deltat) N)
        | None => None
        end in
      o <- evolve_density solve_ivp o
             ((INR ii * deltat)%R, (INR (ii + 1) * deltat)%R) t_eval ;;
      w <- force_from_sol o ;;
      let f_avg := mean_over_samples (w_samples w) (w_f w) in
      if converged old_f_avg f_avg rel abs
      then Ok (o, Some w, ii)
      else
        match sol o with
        | None => Raise AttributeError
        | Some s =>
            rho <- last_column s 0 (sol_rows s - 6) ;;
            o <- set_initial_rho o rho ;;
            r <- last_column s (sol_rows s - 3) (sol_rows s) ;;
            v <- last_column s (sol_rows s - 6) (sol_rows s - 3) ;;
            let o := set_initial_position_and_velocity o r v in
            equilibrium_loop solve_ivp deltat Npts rel abs fuel' (ii + 1) o
                             (Some f_avg) (Some w)
        end
  end.

(** [obe.find_equilibrium_force], called with keyword arguments.  ([debug] only prints and
    keeps the solutions of the windows; it is not modelled.)  When the
    loop never ran, [f_laser] is not bound and the loop over its keys
    raises an [UnboundLocalError], a [NameError]. *)
Definition find_equilibrium_force (solve_ivp : ivp_solver) (o : obe)
           (kwargs : equilibrium_kwargs)
  : result (obe * equilibrium_result) :=
  let deltat := pop (kw_deltat kwargs) 500%R in
  let itermax := pop (kw_itermax kwargs) 100%nat in
  let Npts := pop (kw_Npts kwargs) (Some default_Npts) in
  let rel := pop (kw_rel kwargs) 1e-5%R in
  let abs := pop (kw_abs kwargs) 1e-9%R in
  '(o, last, ii) <- equilibrium_loop solve_ivp deltat Npts rel abs
                                     itermax 0 o None None ;;
  match last with
  | None => Raise NameError
  | Some w =>
      let T := w_samples w in
      Ok (o,
          {| res_f_avg := mean_over_samples T (w_f w);
             res_f_laser_avg :=
               map (fun kv : string * (nat -> nat -> nat -> R) =>
                      (fst kv, fun c b =>
                         (rsum_range 0 T (fun smp => snd kv c b smp) / INR T)%R))
                   (w_f_laser w);
             res_f_laser_avg_q :=
               map (fun kv : string * (nat -> nat -> nat -> nat -> R) =>
                      (fst kv, fun c q b =>
                         (rsum_range 0 T (fun smp => snd kv c q b smp)
                          / INR T)%R))
                   (w_f_laser_q w);
             res_iterations := ii |})
  end.

(* ================================================================== *)
(** * Concrete inputs *)
(* ================================================================== *)

(** A [1]x[1] array and a [3]x[1]x[1] array. *)
Definition array_1x1 (z : C) : ndarray2 :=
  {| rows := 1; cols := 1; item2 := fun _ _ => z |}.

Definition array_3x1x1 (z0 z1 z2 : C) : ndarray3 :=
  {| dim0 := 3; dim1 := 1; dim2 := 1;
     item3 := fun q _ _ => match q with 0%nat => z0 | 1%nat => z1 | _ => z2 end |}.

(** The two-level atom: manifolds [g] and [e] of one state each, no
    field-independent energy, a magnetic moment of the excited state along
    [q = 0], and a dipole element of [1] along [q = 0];
    [hamiltonian(H0_g, H0_e, muq_g, muq_e, d_q)] with the default
    [mass = muB = gamma = k = 1]. *)
Definition two_level_init : result hamiltonian :=
  hamiltonian_init5 (array_1x1 C0) (array_1x1 C0)
                    (array_3x1x1 C0 C0 C0) (array_3x1x1 C0 C1 C0)
                    (array_3x1x1 C0 C1 C0) 1 1 1 1.

(** The value a call returned, for calls shown below to return. *)
Definition returned {A : Type} (default : A) (r : result A) : A :=
  match r with Ok a => a | Raise _ => default end.

(** The object [two_level_init] returns (shown below): the blocks of [g]
    and [e] on the diagonal, each the tuple of its [H_0] and [mu_q]
    blocks, the dipole block and its partner off the diagonal. *)
Definition two_level : hamiltonian :=
  {| blocks :=
       [[CTuple (CBlock (Block "<g|H_0|g>" true (array_1x1 C0) [] 1 1))
                (CBlock (VectorBlock "<g|mu_q|g>" true (array_3x1x1 C0 C0 C0)
                                     [("mu_B"%string, 1%R)] 1 1));
         CBlock (VectorBlock "<g|d_q|e>" true (array_3x1x1 C0 C1 C0)
                             [("k"%string, 1%R); ("gamma"%string, 1%R)] 1 1)];
        [CBlock (VectorBlock "<e|d_q|g>" true
                             (hermitian_partner (array_3x1x1 C0 C1 C0)) [] 1 1);
         CTuple (CBlock (Block "<e|H_0|e>" true (array_1x1 C0) [] 1 1))
                (CBlock (VectorBlock "<e|mu_q|e>" true (array_3x1x1 C0 C1 C0)
                                     [("mu_B"%string, 1%R)] 1 1))]];
     state_labels := ["g"%string; "e"%string];
     ns := [1%nat; 1%nat];
     laser_keys := [("g->e"%string, (0%nat, 1%nat))];
     mass := 1;
     n_states := Some 2%nat;
     diagonal := Some [true; true];
     full := None |}.

(** The two-level atom with its full matrices made. *)
Definition two_level_full : hamiltonian :=
  returned two_level (make_full_matrices two_level).

(** A Hamiltonian in which the label [g] has only a magnetic block: what
    [hamiltonian().add_mu_q_block('g', mu_q)] leaves, for a [3]x[1]x[1]
    array of zeros. *)
Definition mu_q_only : hamiltonian :=
  {| blocks := [[CBlock (VectorBlock "<g|mu_q|g>" true (array_3x1x1 C0 C0 C0)
                                     [("mu_B"%string, 1%R)] 1 1)]];
     state_labels := ["g"%string];
     ns := [1%nat];
     laser_keys := [];
     mass := 1;
     n_states := Some 1%nat;
     diagonal := Some [true];
     full := None |}.

(** A collection of no beams ([laserBeams([])]): the field vanishes. *)
Definition no_beams : laserBeams :=
  {| total_electric_field := fun _ _ _ => C0;
     electric_field_gradient := fun _ _ => [];
     num_of_beams := 0 |}.

(** A magnetic field along [z] whose value is the last coordinate of its
    argument, [lambda R: np.array([0., 0., 1.])*np.atleast_1d(R)[-1]]. *)
Definition z_field : magField :=
  {| Field := fun R q =>
       match q with
       | 2%nat => match R with
                  | PyFloat x => x
                  | PyArray v => last v 0%R
                  end
       | _ => 0%R
       end |}.

(** [np.array([0., 0., 0.])]. *)
Definition origin : ndarray1 :=
  {| arr_dtype := float64; arr_data := [Some C0; Some C0; Some C0] |}.

(** The object [obe(laserBeams([]), z_field, two_level,
    transform_into_re_im=...)]. *)
Definition two_level_obe_init (transform : bool) : result obe :=
  obe_init (LasersOne no_beams) z_field two_level origin origin
           transform None false.

(** An object with nothing in it, the default of [returned] below. *)
Definition obe_stub : obe :=
  {| obe_hamiltonian := two_level; obe_n := 0;
     obe_laserBeams := []; obe_magField := z_field;
     include_mag_forces := false; transform_into_re_im := false;
     use_sparse_matrices := false;
     ev_mat := {| ev_decay := zeros; ev_H0 := zeros; ev_B := vzeros;
                  ev_E := None; ev_Estar := None;
                  ev_reE := None; ev_imE := None |};
     obe_U := None; r0 := None; v0 := None; rho0 := None; sol := None |}.

(** The two-level object in the complex basis: what the constructor
    returns (shown below). *)
Definition two_level_obe : obe := returned obe_stub (two_level_obe_init false).

(** A solution with two samples in which the atom stays in its ground
    state at the origin: [rho_gg = 1] is row [0] of the ten rows of
    [[rho, v, r]]; and a solver that returns it. *)
Definition ground_solution : ode_solution :=
  {| sol_t := [0%R; 1%R]; sol_rows := 10; sol_dtype := complex128;
     sol_y := fun row _ => match row with 0%nat => C1 | _ => C0 end |}.

Definition ground_solver : ivp_solver := fun _ _ _ => Ok ground_solution.

(** The flattened ground-state density matrix, a valid [rho0]. *)
Definition ground_rho : ndarray1 :=
  {| arr_dtype := complex128;
     arr_data := [Some C1; Some C0; Some C0; Some C0] |}.

(** The two-level object after [set_initial_rho(ground_rho)]: its initial
    state is complete. *)
Definition two_level_ground_obe : obe :=
  returned obe_stub (set_initial_rho two_level_obe ground_rho).






(* ================================================================== *)
(** * Conditions on the inputs *)
(* ================================================================== *)

(** Every integration window completes: the solver returns a solution,
    with at least one sample. *)
Definition completes (solve_ivp : ivp_solver) : Prop :=
  forall o t_span t_eval,
    exists s, solve_ivp o t_span t_eval = Ok s /\ sol_t s <> [].

(** The initial state of the object is complete: [rho0], [v0] and [r0]
    have been set. *)
Definition initial_state_set (o : obe) : Prop :=
  rho0 o <> None /\ v0 o <> None /\ r0 o <> None.

(** An obe instance is consistent with its Hamiltonian and its lasers: for
    every key of [self.laserBeams], the Hamiltonian has that transition,
    between two of its manifolds, and its full dipole matrix; and the laser
    collection returns at most [num_of_beams] gradients. *)
Definition key_ready (o : obe) (key : string) : Prop :=
  exists beams ind ns0 ns1 fm bare,
    dict_get (obe_laserBeams o) key = Some beams
    /\ dict_get (laser_keys (obe_hamiltonian o)) key = Some ind
    /\ nth_error (ns (obe_hamiltonian o)) (fst ind) = Some ns0
    /\ nth_error (ns (obe_hamiltonian o)) (snd ind) = Some ns1
    /\ full (obe_hamiltonian o) = Some fm
    /\ dict_get (d_q_bare fm) key = Some bare
    /\ forall positions times,
         (List.length (electric_field_gradient beams positions times)
          <= num_of_beams beams)%nat.

Definition obe_ready (o : obe) : Prop :=
  forall key, In key (dict_keys (obe_laserBeams o)) -> key_ready o key.


(** [find_equilibrium_force(itermax=1)]: one keyword argument. *)
Definition kwargs_itermax_1 : equilibrium_kwargs :=
  {| kw_deltat := None; kw_itermax := Some 1%nat; kw_Npts := None;
     kw_rel := None; kw_abs := None |}.

(** The density matrix of the state [(|g> + |e>)/sqrt(2)] of a two-level
    atom, and the position [(0, 0, 1)]. *)
Definition rho_plus : matrix := fun _ _ => RtoC 0.5.

Definition position_z1 : list R := [0%R; 0%R; 1%R].

(* ================================================================== *)
(** * The full Hamiltonian in closed form *)
(* ================================================================== *)

(** The sum of a list of complex numbers. *)
Definition csum_list (l : list C) : C := fold_right Cadd C0 l.

(** [d[key]] for a key that is there (an array of zeros otherwise). *)
Definition dict_get_or {V : Type} (d : dict V) (key : string) (default : V) : V :=
  match dict_get d key with Some v => v | None => default end.

(** [H_0 - mu_q.B*] minus, for every key of the field dictionary [Eq] and
    every component [ii] (that is [q = ii - 1]), the coupling
    [1/2 (-1)^q (d_q[ii] * on_bare(E[pair ii])
                 + d_q_star[ii] * on_star(E[pair ii]))]:
    entry [(r, c)].  [on_bare], [on_star] and [pair] say which component
    of the field goes with [d_q] and with its conjugate, and whether it is
    conjugated. *)
Definition coupling_formula (on_bare on_star : C -> C) (pair : nat -> nat)
           (fm : full_matrices) (Eq : dict (nat -> C)) (Bq : nat -> C)
           (r c : nat) : C :=
  (H_0 fm r c
   - csum 3 (fun q => mu_q fm q r c * Cconj (Bq q))
   - csum_list
       (map (fun key =>
          csum 3 (fun ii =>
            RtoC (0.5 * minus_one_pow (Z.of_nat ii - 1))
            * (dict_get_or (d_q_bare fm) key vzeros ii r c
               * on_bare (dict_get_or Eq key (fun _ => C0) (pair ii))
               + dict_get_or (d_q_star fm) key vzeros ii r c
                 * on_star (dict_get_or Eq key (fun _ => C0) (pair ii)))))
          (dict_keys Eq)))%C.

(** What the code computes: [d_q[ii]] goes with [E[2 - ii]] as it is, and
    its conjugate with the conjugate of [E[2 - ii]]. *)
Definition code_full_H : full_matrices -> dict (nat -> C) -> (nat -> C)
                         -> nat -> nat -> C :=
  coupling_formula (fun z => z) Cconj (fun ii => (2 - ii)%nat).

(** The specification's words, [1/2 [(-1)^q d_q E* + (-1)^q d_q* E]]:
    [d_q] goes with the conjugated field and its conjugate with the field;
    the words do not say which component of the field goes with [d_q[ii]],
    so that is the parameter [pair]. *)
Definition spec_full_H (pair : nat -> nat)
  : full_matrices -> dict (nat -> C) -> (nat -> C) -> nat -> nat -> C :=
  coupling_formula Cconj (fun z => z) pair.

(** A field with the three components equal to [1j], and no magnetic
    field. *)
Definition E_all_i : nat -> C := fun _ => Ci.
Definition B_zero : nat -> C := fun _ => C0.

(** A two-level atom whose manifolds are labelled [a] and [b]: the object
    that the four registrations [add_H_0_block('a', ...)],
    [add_H_0_block('b', ...)], [add_d_q_block('a', 'b', ...)] leave. *)
Definition two_level_ab : hamiltonian :=
  {| blocks :=
       [[CBlock (Block "<a|H_0|a>" true (array_1x1 C0) [] 1 1);
         CBlock (VectorBlock "<a|d_q|b>" true (array_3x1x1 C0 C1 C0)
                             [("k"%string, 1%R); ("gamma"%string, 1%R)] 1 1)];
        [CBlock (VectorBlock "<b|d_q|a>" true
                             (hermitian_partner (array_3x1x1 C0 C1 C0)) [] 1 1);
         CBlock (Block "<b|H_0|b>" true (array_1x1 C0) [] 1 1)]];
     state_labels := ["a"%string; "b"%string];
     ns := [1%nat; 1%nat];
     laser_keys := [("a->b"%string, (0%nat, 1%nat))];
     mass := 1;
     n_states := Some 2%nat;
     diagonal := Some [true; true];
     full := None |}.

(** The full matrices of [two_level_full] and of [two_level_ab]. *)
Definition no_full_matrices : full_matrices :=
  {| H_0 := zeros; mu_q := vzeros; d_q_bare := []; d_q_star := [];
     d_q := vzeros |}.

Definition two_level_fm : full_matrices :=
  match full two_level_full with Some fm => fm | None => no_full_matrices end.

Definition two_level_ab_full : hamiltonian :=
  returned two_level_ab (make_full_matrices two_level_ab).

(* ================================================================== *)
(** * The trace of the density matrix *)
(* ================================================================== *)

(** The sum of the entries of a flattened vector at the [n] diagonal
    (population) indices [density_index(i, i)]. *)
Definition diag_sum (n : nat) (v : vector) : C :=
  csum n (fun i => v (density_index n i i)).

(** A generator conserves the trace when its rows at the diagonal indices
    add up to zero, column by column. *)
Definition trace_free (n : nat) (M : matrix) : Prop :=
  forall c, (c < n * n)%nat ->
            csum n (fun i => M (density_index n i i) c) = C0.

(** What the first loop of [build_decay_ev] feeds into the populations
    from the pair of states [(k, l)]: over every manifold [ll] below both
    and every state [ii] of it, the sum over the components of
    [d_q[q, ii, k]*d_q[q, l, ii]]. *)
Definition feed_sum (nblocks : nat) (ns : list nat) (d_q : nat -> matrix)
           (k l : nat) : C :=
  csum_range 0 (nblocks - 1) (fun ll =>
    csum_range (manifold_lo ns ll) (manifold_hi ns ll) (fun ii =>
      if (manifold_hi ns ll <=? k) && (k <? list_sum ns)
         && (manifold_hi ns ll <=? l) && (l <? list_sum ns)
      then csum 3 (fun q => (d_q q ii k * d_q q l ii)%C)
      else C0)).

(** The feeding balances the loss: a state of a manifold [ll] above the
    lowest is fed from exactly at the rate [decay_rates[ll]] (the mean
    rate of the manifold), and no pair of different states feeds the
    populations. *)
Definition feed_balanced (nblocks : nat) (ns : list nat)
           (d_q : nat -> matrix) : Prop :=
  (forall k l, (k < list_sum ns)%nat -> (l < list_sum ns)%nat -> k <> l ->
               feed_sum nblocks ns d_q k l = C0)
  /\ (forall ll k, (1 <= ll < nblocks)%nat ->
                   (manifold_lo ns ll <= k < manifold_hi ns ll)%nat ->
                   feed_sum nblocks ns d_q k k
                   = RtoC (manifold_rate ns d_q ll)).

(** The counts of a Hamiltonian agree: [self.n] is the sum of [self.ns],
    and there is one manifold size per row of blocks. *)
Definition counts_ok (h : hamiltonian) : Prop :=
  n_states h = Some (list_sum (ns h))
  /\ List.length (blocks h) = List.length (ns h).

(** A dictionary of operator triples that has every key of [keys] and
    whose values all satisfy [P]. *)
Definition dict_good (P : (nat -> matrix) -> Prop) (keys : list string)
           (d : dict (nat -> matrix)) : Prop :=
  (forall key, In key keys -> exists v, dict_get d key = Some v)
  /\ (forall key v, dict_get d key = Some v -> P v).

Definition components_trace_free (n : nat) (v : nat -> matrix) : Prop :=
  forall q, trace_free n (v q).

(* ================================================================== *)
(** * A V system *)
(* ================================================================== *)

(** A ground manifold [g] and two excited manifolds [e] and [f], of one
    state each, with no field-independent energy and a dipole element of
    [1] along [q = 0] from [g] to each of [e] and [f]:
    [h = hamiltonian(); h.add_H_0_block('g', ...); ...;
     h.add_d_q_block('g', 'e', d_q); h.add_d_q_block('g', 'f', d_q)]. *)
Definition vee_init : result hamiltonian :=
  h <- add_H_0_block (hamiltonian_empty 1) "g" (array_1x1 C0) ;;
  h <- add_H_0_block h "e" (array_1x1 C0) ;;
  h <- add_H_0_block h "f" (array_1x1 C0) ;;
  h <- add_d_q_block h "g" "e" (array_3x1x1 C0 C1 C0) 1 1 ;;
  add_d_q_block h "g" "f" (array_3x1x1 C0 C1 C0) 1 1.

(** The object [vee_init] returns (shown below). *)
Definition vee : hamiltonian :=
  {| blocks :=
       [[CBlock (Block "<g|H_0|g>" true (array_1x1 C0) [] 1 1);
         CBlock (VectorBlock "<g|d_q|e>" true (array_3x1x1 C0 C1 C0)
                             [("k"%string, 1%R); ("gamma"%string, 1%R)] 1 1);
         CBlock (VectorBlock "<g|d_q|f>" true (array_3x1x1 C0 C1 C0)
                             [("k"%string, 1%R); ("gamma"%string, 1%R)] 1 1)];
        [CBlock (VectorBlock "<e|d_q|g>" true
                             (hermitian_partner (array_3x1x1 C0 C1 C0)) [] 1 1);
         CBlock (Block "<e|H_0|e>" true (array_1x1 C0) [] 1 1);
         CNone];
        [CBlock (VectorBlock "<f|d_q|g>" true
                             (hermitian_partner (array_3x1x1 C0 C1 C0)) [] 1 1);
         CNone;
         CBlock (Block "<f|H_0|f>" true (array_1x1 C0) [] 1 1)]];
     state_labels := ["g"%string; "e"%string; "f"%string];
     ns := [1%nat; 1%nat; 1%nat];
     laser_keys := [("g->e"%string, (0%nat, 1%nat));
                    ("g->f"%string, (0%nat, 2%nat))];
     mass := 1;
     n_states := Some 3%nat;
     diagonal := Some [true; true; true];
     full := None |}.

Definition vee_full : hamiltonian := returned vee (make_full_matrices vee).

Definition vee_fm : full_matrices :=
  match full vee_full with Some fm => fm | None => no_full_matrices end.

(** The object [obe(laserBeams([]), z_field, vee)], in the complex
    basis. *)
Definition vee_obe_init : result obe :=
  obe_init (LasersOne no_beams) z_field vee origin origin false None false.

Definition vee_obe : obe := returned obe_stub vee_obe_init.

(** The density matrix of the superposition [(|e> + |f>)/sqrt(2)] of the
    two excited states. *)
Definition rho_ef : matrix :=
  fun i j => if (1 <=? i) && (1 <=? j) then RtoC (1 / 2) else C0.

Definition position_origin : list R := [0%R; 0%R; 0%R].

(* ================================================================== *)
(** * Sequences of registrations *)
(* ================================================================== *)

(** One call of [add_H_0_block], [add_mu_q_block] or [add_d_q_block]. *)
Inductive registration : Type :=
| Add_H_0 (state_label : string) (H_0 : ndarray2)
| Add_mu_q (state_label : string) (mu_q : ndarray3) (muB : R)
| Add_d_q (label1 label2 : string) (d_q : ndarray3) (k gamma : R).

Definition register (op : registration) (h : hamiltonian) : result hamiltonian :=
  match op with
  | Add_H_0 state_label H_0 => add_H_0_block h state_label H_0
  | Add_mu_q state_label mu_q muB => add_mu_q_block h state_label mu_q muB
  | Add_d_q label1 label2 d_q k gamma => add_d_q_block h label1 label2 d_q k gamma
  end.

(** The calls of a list, in order, each on the object the one before it
    left; the first exception ends the sequence. *)
Definition register_all (ops : list registration) (h : hamiltonian)
  : result hamiltonian :=
  for_each_exn ops register h.

(** A manifold label without the character [|], which the element labels
    ['<%s|%s|%s>'] use as their separator. *)
Fixpoint bar_free (s : string) : bool :=
  match s with
  | EmptyString => true
  | String c s' => negb (Ascii.eqb c "|") && bar_free s'
  end.

Definition labels_bar_free (op : registration) : bool :=
  match op with
  | Add_H_0 state_label _ | Add_mu_q state_label _ _ => bar_free state_label
  | Add_d_q label1 label2 _ _ _ => bar_free label1 && bar_free label2
  end.

(** The entry [(i, j)] of the object array, [None] outside of it. *)
Definition cell_at (bl : list (list cell)) (i j : nat) : cell :=
  nth j (nth i bl []) CNone.

Definition square (bl : list (list cell)) : Prop :=
  forall row, In row bl -> List.length row = List.length bl.

(** [B] is, in each of its three components, the conjugate transpose of
    the component of [A]. *)
Definition conj_transposed (A B : ndarray3) : Prop :=
  dim1 B = dim2 A /\ dim2 B = dim1 A
  /\ forall q r c, (q < 3)%nat -> item3 B q r c = Cconj (item3 A q c r).

(** Two cells at transposed positions: both empty, or both vector blocks
    with dipole labels, one the conjugate transpose of the other. *)
Definition dipole_pair (c c' : cell) : Prop :=
  (c = CNone /\ c' = CNone)
  \/ exists a b dg M p n m dg' M' p' n' m',
       c = CBlock (VectorBlock (make_elem_label_d_q a b) dg M p n m)
       /\ c' = CBlock (VectorBlock (make_elem_label_d_q b a) dg' M' p' n' m')
       /\ bar_free a = true /\ bar_free b = true
       /\ conj_transposed M M'.

Definition dipole_invariant (h : hamiltonian) : Prop :=
  square (blocks h)
  /\ (forall i j, i <> j ->
        dipole_pair (cell_at (blocks h) i j) (cell_at (blocks h) j i))
  /\ (forall key ij, dict_get (laser_keys h) key = Some ij ->
        (fst ij <= snd ij)%nat).

(** The cell holds the block [b]: as it is, or inside a tuple.  (A
    registration under a label that equals the label of a dipole block,
    which needs a manifold label with the separator [|], wraps the block
    it finds into a tuple with its own.) *)
Inductive holds : cell -> block -> Prop :=
| holds_block (b : block) : holds (CBlock b) b
| holds_left (x y : cell) (b : block) : holds x b -> holds (CTuple x y) b
| holds_right (x y : cell) (b : block) : holds y b -> holds (CTuple x y) b.

(** Two cells at transposed positions: both empty, or each holding a
    vector block, one the conjugate transpose of the other in each
    component. *)
Definition paired (c c' : cell) : Prop :=
  (c = CNone /\ c' = CNone)
  \/ exists l dg M p n m l' dg' M' p' n' m',
       holds c (VectorBlock l dg M p n m)
       /\ holds c' (VectorBlock l' dg' M' p' n' m')
       /\ conj_transposed M M'.



(** Two manifolds [a] and [b] of one state each and a dipole block given
    from [b] to [a], the reverse of the order of registration. *)
Definition ab_registrations : list registration :=
  [Add_H_0 "a" (array_1x1 C0); Add_H_0 "b" (array_1x1 C0);
   Add_d_q "b" "a" (array_3x1x1 C0 Ci C0) 1 1].

(* ================================================================== *)
(** * obe.py: more setters of the initial density matrix *)
(* ================================================================== *)

(** [np.zeros((n**2,))] and [np.zeros((n**2,), dtype='complex128')]. *)
Definition zeros1 (real_basis : bool) (len : nat) : ndarray1 :=
  {| arr_dtype := if real_basis then float64 else complex128;
     arr_data := repeat (Some C0) len |}.

(** [a[i] = x] for an index [0 <= i]: an [IndexError] past the end.
    [x] may be [nan] or [inf] ([None]). *)
Definition array_store (a : ndarray1) (i : nat) (x : option C)
  : result ndarray1 :=
  if (i <? List.length (arr_data a))%nat
  then Ok {| arr_dtype := arr_dtype a;
             arr_data := list_set (arr_data a) i x |}
  else Raise IndexError.

(** [self.rho0 = a], which changes nothing else. *)
Definition with_rho0 (o : obe) (a : ndarray1) : obe :=
  {| obe_hamiltonian := obe_hamiltonian o; obe_n := obe_n o;
     obe_laserBeams := obe_laserBeams o; obe_magField := obe_magField o;
     include_mag_forces := include_mag_forces o;
     transform_into_re_im := transform_into_re_im o;
     use_sparse_matrices := use_sparse_matrices o;
     ev_mat := ev_mat o; obe_U := obe_U o;
     r0 := r0 o; v0 := v0 o; rho0 := Some a; sol := sol o |}.

(** [obe.set_initial_rho_equally()]: the population [1/ns[0]] in each
    state of the first manifold.  (As everywhere, a call that raises
    leaves no object in the model; in the program [self.rho0] has then
    been replaced already.) *)
Definition set_initial_rho_equally (o : obe) : result obe :=
  let rho0 := zeros1 (transform_into_re_im o) (obe_n o * obe_n o) in
  match nth_error (ns (obe_hamiltonian o)) 0 with
  | None => Raise IndexError
  | Some ns0 =>
      rho0 <- for_range_exn 0 ns0 (fun jj rho0 =>
                array_store rho0 (density_index (obe_n o) jj jj)
                            (Some (RtoC (1 / INR ns0)))) rho0 ;;
      Ok (with_rho0 o rho0)
  end.

(** [Npop/np.sum(Npop)] for an array of finite floats: a quotient by a
    zero sum is [nan] or [inf]. *)
Definition normalize (Npop : list R) : list (option C) :=
  let total := rsum_list Npop in
  map (fun v => if Req_bool total 0 then None else Some (RtoC (v / total)))
      Npop.

(** The finite entries of an array of floats that has no [nan] and no
    [inf]. *)
Definition finite_values (a : list (option R)) : list R :=
  map (fun x => match x with Some v => v | None => 0%R end) a.

(** [obe.set_initial_rho_from_populations(Npop)], for an array [Npop] of
    floats ([None] is [nan] or [inf]). *)
Definition set_initial_rho_from_populations (o : obe) (Npop : list (option R))
  : result obe :=
  let rho0 := zeros1 (transform_into_re_im o) (obe_n o * obe_n o) in
  if negb (List.length Npop =? obe_n o) then Raise ValueError else
  if existsb (fun x => match x with None => true | Some _ => false end) Npop
  then Raise ValueError else
  let Npop := normalize (finite_values Npop) in
  rho0 <- for_range_exn 0 (obe_n o) (fun jj rho0 =>
            match nth_error Npop jj with
            | Some x => array_store rho0 (density_index (obe_n o) jj jj) x
            | None => Raise IndexError
            end) rho0 ;;
  Ok (with_rho0 o rho0).

(* ================================================================== *)
(** * obe.py: the solution as an array of density matrices *)
(* ================================================================== *)

(** [np.diag(np.diagonal(M))], [np.triu(M, k=1)], [np.tril(M, k=-1)] and
    [M.T]. *)
Definition diag_of (M : matrix) : matrix :=
  fun a b => if a =? b then M a a else C0.
Definition triu1 (M : matrix) : matrix :=
  fun a b => if a <? b then M a b else C0.
Definition tril1 (M : matrix) : matrix :=
  fun a b => if b <? a then M a b else C0.
Definition transpose (M : matrix) : matrix := fun a b => M b a.

(** [obe.reshape_sol()]: the sample times and the array [rho] indexed by
    two states and the sample.  [self.sol.y[:-6].reshape(n, n, T)] needs
    [n**2] rows before the last six (or no sample), and takes the entry
    [(a, b)] from the row [a*n + b]. *)
Definition reshape_sol (o : obe)
  : result (list R * (nat -> nat -> nat -> C)) :=
  match sol o with
  | None => Raise AttributeError
  | Some s =>
      let n := obe_n o in
      let T := List.length (sol_t s) in
      if negb ((sol_rows s - 6 =? n * n) || (T =? 0)) then Raise ValueError else
      let rho := fun a b smp => sol_y s (a * n + b)%nat smp in
      if transform_into_re_im o then
        let new_rho := fun a b smp =>
          let M := fun a b => rho a b smp in
          (diag_of M a b + triu1 M a b + transpose (triu1 M) a b
           - Ci * tril1 M a b + Ci * transpose (tril1 M) a b)%C in
        Ok (sol_t s, new_rho)
      else Ok (sol_t s, rho)
  end.

(** The entry [a[i]] of an array whose entries are finite. *)
Definition array_item (a : ndarray1) (i : nat) : C :=
  match nth i (arr_data a) None with
  | Some z => z
  | None => C0
  end.

(** An object in the real basis, of two states, that holds the
    ground-state solution: the attributes [reshape_sol] reads. *)
Definition real_basis_ground : obe :=
  {| obe_hamiltonian := two_level; obe_n := 2;
     obe_laserBeams := []; obe_magField := z_field;
     include_mag_forces := false; transform_into_re_im := true;
     use_sparse_matrices := false;
     ev_mat := {| ev_decay := zeros; ev_H0 := zeros; ev_B := vzeros;
                  ev_E := None; ev_Estar := None;
                  ev_reE := None; ev_imE := None |};
     obe_U := None; r0 := None; v0 := None; rho0 := None;
     sol := Some ground_solution |}.

(** The array [rho0] once the populations of the states below [k] were
    stored: the dtype [dt], [n**2] entries, [pop i] at the diagonal index
    of a state [i < k] and zero elsewhere. *)
Definition populations_stored (n k : nat) (pop : nat -> option C)
           (dt : dtype) (a : ndarray1) : Prop :=
  arr_dtype a = dt /\ List.length (arr_data a) = (n * n)%nat
  /\ forall i j, (i < n)%nat -> (j < n)%nat ->
       nth (density_index n i j) (arr_data a) None
       = if (i =? j) && (i <? k) then pop i else Some C0.

(* ================================================================== *)
(** * hamiltonian.py: the manifolds of a registered Hamiltonian *)
(* ================================================================== *)

(** A diagonal cell that holds a manifold of [n] states: one block, or
    the tuple of two blocks of which [__recompute_number_of_states] reads
    the first. *)
Definition manifold_cell (c : cell) (n : nat) : Prop :=
  (exists b, c = CBlock b /\ block_n b = n)
  \/ (exists b b', c = CTuple (CBlock b) (CBlock b') /\ block_n b = n).

(** [__search_elem_label] matches the cell with the [H_0] label or with
    the [mu_q] label of the manifold [s]. *)
Definition owned_by (c : cell) (s : string) : Prop :=
  cell_matches c (make_elem_label "H_0" s) = Ok true
  \/ cell_matches c (make_elem_label "mu_q" s) = Ok true.

(** The object array [bl] and the list [ns] describe the same manifolds:
    one entry of [ns] per row, the diagonal cell [i] a manifold of
    [ns[i]] states, and no manifold label found in two diagonal cells. *)
Definition manifolds_ok (bl : list (list cell)) (ns : list nat) : Prop :=
  List.length ns = List.length bl
  /\ (forall i, (i < List.length bl)%nat ->
        manifold_cell (cell_at bl i i) (nth i ns 0%nat))
  /\ (forall s i j, bar_free s = true ->
        owned_by (cell_at bl i i) s -> owned_by (cell_at bl j j) s -> i = j).

Definition manifold_invariant (h : hamiltonian) : Prop :=
  dipole_invariant h
  /\ manifolds_ok (blocks h) (ns h)
  /\ List.length (state_labels h) = List.length (ns h)
  /\ (blocks h = [] \/ n_states h = Some (list_sum (ns h))).

(** Registrations whose blocks [make_full_matrices] can place: the two
    labels of a dipole block differ, and its array has three components. *)
Definition assemblable (op : registration) : bool :=
  match op with
  | Add_H_0 _ _ | Add_mu_q _ _ _ => true
  | Add_d_q label1 label2 d_q _ _ =>
      negb (String.eqb label1 label2) && (dim0 d_q =? 3)
  end.

(** A diagonal cell as the registrations of a manifold [s] of [n] states
    leave it: the [H_0] block, the [mu_q] block with its parameter
    [mu_B], or the tuple of both; the arrays have the sizes of the
    blocks. *)
Definition diagonal_cell_ok (c : cell) (n : nat) : Prop :=
  exists s, bar_free s = true /\
    ((exists dg M p,
        c = CBlock (Block (make_elem_label "H_0" s) dg M p n n)
        /\ rows M = n /\ cols M = n)
     \/ (exists dg M p muB,
           c = CBlock (VectorBlock (make_elem_label "mu_q" s) dg M p n n)
           /\ dim0 M = 3%nat /\ dim1 M = n /\ dim2 M = n
           /\ dict_get p "mu_B" = Some muB)
     \/ (exists dg M p dg' M' p' muB,
           c = CTuple (CBlock (Block (make_elem_label "H_0" s) dg M p n n))
                      (CBlock (VectorBlock (make_elem_label "mu_q" s)
                                           dg' M' p' n n))
           /\ rows M = n /\ cols M = n
           /\ dim0 M' = 3%nat /\ dim1 M' = n /\ dim2 M' = n
           /\ dict_get p' "mu_B" = Some muB)).

(** A cell above the diagonal: empty, or a vector block of three
    components between a manifold of [n] and one of [m] states. *)
Definition dipole_cell_ok (c : cell) (n m : nat) : Prop :=
  c = CNone
  \/ exists l dg M p, c = CBlock (VectorBlock l dg M p n m)
                      /\ dim0 M = 3%nat /\ dim1 M = n /\ dim2 M = m.

Definition cells_ok (bl : list (list cell)) (ns : list nat) : Prop :=
  (forall i, (i < List.length bl)%nat ->
     diagonal_cell_ok (cell_at bl i i) (nth i ns 0%nat))
  /\ (forall i j, (i < j)%nat ->
        dipole_cell_ok (cell_at bl i j) (nth i ns 0%nat) (nth j ns 0%nat)).
Lemma C_eq (a b : C) : Re a = Re b -> Im a = Im b -> a = b.
Proof. destruct a, b; simpl; intros -> ->; reflexivity. Qed.

Ltac csolve :=
  intros;
  repeat match goal with z : C |- _ => destruct z end;
  apply C_eq; unfold Cadd, Csub, Cmul, Copp, Cconj, Creal, Cimag, RtoC,
    C0, C1, Ci, Re, Im; simpl; try ring; try lra.

Lemma C_ring_theory : ring_theory C0 C1 Cadd Cmul Csub Copp eq.
Proof. constructor; csolve. Qed.

Add Ring C_ring : C_ring_theory.

Lemma Cadd_0_r (a : C) : (a + C0 = a)%C.
Proof. ring. Qed.

Lemma Cadd_0_l (a : C) : (C0 + a = a)%C.
Proof. ring. Qed.

Lemma Cmul_0_l (a : C) : (C0 * a = C0)%C.
Proof. ring. Qed.

Lemma Cmul_0_r (a : C) : (a * C0 = C0)%C.
Proof. ring. Qed.

Lemma Ci_sqr : (Ci * Ci = - C1)%C.
Proof. csolve. Qed.

Lemma Creal_add (a b : C) : Creal (a + b) = (Creal a + Creal b)%C.
Proof. csolve. Qed.

Lemma Creal_0 : Creal C0 = C0.
Proof. csolve. Qed.

Lemma C1_neq_C0 : C1 <> C0.
Proof. intros H. apply (f_equal Re) in H. simpl in H. lra. Qed.

(* ------------------------------------------------------------------ *)
(** ** Facts about loops and sums *)

Lemma for_range_S {St : Type} (lo k : nat) (body : nat -> St -> St) (s : St) :
  for_range lo (lo + S k) body s
  = body (lo + k)%nat (for_range lo (lo + k) body s).
Proof.
  unfold for_range.
  replace (lo + S k - lo)%nat with (S k) by lia.
  replace (lo + k - lo)%nat with k by lia.
  rewrite seq_S, fold_left_app. reflexivity.
Qed.

Lemma for_range_empty {St : Type} (lo hi : nat) (body : nat -> St -> St) (s : St) :
  (hi <= lo)%nat -> for_range lo hi body s = s.
Proof.
  intros H. unfold for_range.
  replace (hi - lo)%nat with 0%nat by lia. reflexivity.
Qed.

Lemma for_range_0_S {St : Type} (k : nat) (body : nat -> St -> St) (s : St) :
  for_range 0 (S k) body s = body k (for_range 0 k body s).
Proof. apply (for_range_S 0 k body s). Qed.

(** Induction over the iterations of a loop. *)
Lemma for_range_ind {St : Type} (P : nat -> St -> Prop) (lo hi : nat)
      (body : nat -> St -> St) (s : St) :
  (lo <= hi)%nat ->
  P lo s ->
  (forall i acc, (lo <= i < hi)%nat -> P i acc -> P (S i) (body i acc)) ->
  P hi (for_range lo hi body s).
Proof.
  intros Hle H0 Hstep.
  replace hi with (lo + (hi - lo))%nat by lia.
  assert (Hb : (hi - lo <= hi - lo)%nat) by lia.
  revert Hb. generalize (hi - lo)%nat at 1 3 4 as k.
  induction k as [|k IH]; intros Hk.
  - rewrite Nat.add_0_r, for_range_empty by lia. exact H0.
  - rewrite for_range_S. replace (lo + S k)%nat with (S (lo + k)) by lia.
    apply Hstep; [lia | apply IH; lia].
Qed.

Lemma for_range_ext {St : Type} (lo hi : nat) (f g : nat -> St -> St) (s : St) :
  (forall i acc, (lo <= i < hi)%nat -> f i acc = g i acc) ->
  for_range lo hi f s = for_range lo hi g s.
Proof.
  intros H. destruct (le_lt_dec lo hi) as [Hle|Hlt].
  - apply (for_range_ind (fun i acc => acc = for_range lo i g s) lo hi f s Hle).
    + rewrite for_range_empty by lia. reflexivity.
    + intros i acc Hi ->. rewrite H by exact Hi.
      replace (S i) with (lo + S (i - lo))%nat by lia.
      rewrite for_range_S. replace (lo + (i - lo))%nat with i by lia. reflexivity.
  - rewrite !for_range_empty by lia. reflexivity.
Qed.

Lemma csum_range_empty (lo hi : nat) (f : nat -> C) :
  (hi <= lo)%nat -> csum_range lo hi f = C0.
Proof. intros H. unfold csum_range. apply for_range_empty; exact H. Qed.

Lemma csum_range_S (lo k : nat) (f : nat -> C) :
  csum_range lo (lo + S k) f = (csum_range lo (lo + k) f + f (lo + k)%nat)%C.
Proof. unfold csum_range. rewrite for_range_S. reflexivity. Qed.

Lemma csum_0 (f : nat -> C) : csum 0 f = C0.
Proof. reflexivity. Qed.

Lemma csum_S (n : nat) (f : nat -> C) : csum (S n) f = (csum n f + f n)%C.
Proof. unfold csum. apply (csum_range_S 0 n f). Qed.

Lemma csum_range_ext (lo hi : nat) (f g : nat -> C) :
  (forall i, (lo <= i < hi)%nat -> f i = g i) ->
  csum_range lo hi f = csum_range lo hi g.
Proof.
  intros H. unfold csum_range. apply for_range_ext.
  intros i acc Hi. rewrite H by exact Hi. reflexivity.
Qed.

Lemma csum_ext (n : nat) (f g : nat -> C) :
  (forall i, (i < n)%nat -> f i = g i) -> csum n f = csum n g.
Proof. intros H. apply csum_range_ext. intros i Hi. apply H. lia. Qed.

Lemma csum_range_zero (lo hi : nat) (f : nat -> C) :
  (forall i, (lo <= i < hi)%nat -> f i = C0) -> csum_range lo hi f = C0.
Proof.
  intros H. destruct (le_lt_dec lo hi) as [Hle|Hlt].
  - unfold csum_range.
    apply (for_range_ind (fun _ acc => acc = C0) lo hi
             (fun i acc => (acc + f i)%C) C0 Hle); [reflexivity|].
    intros i acc Hi ->. rewrite H by exact Hi. ring.
  - apply csum_range_empty. lia.
Qed.

Lemma csum_zero (n : nat) (f : nat -> C) :
  (forall i, (i < n)%nat -> f i = C0) -> csum n f = C0.
Proof. intros H. apply csum_range_zero. intros i Hi. apply H. lia. Qed.

Lemma csum_range_plus (lo hi : nat) (f g : nat -> C) :
  csum_range lo hi (fun i => (f i + g i)%C)
  = (csum_range lo hi f + csum_range lo hi g)%C.
Proof.
  destruct (le_lt_dec lo hi) as [Hle|Hlt].
  - replace hi with (lo + (hi - lo))%nat by lia.
    induction (hi - lo)%nat as [|k IH].
    + rewrite !csum_range_empty by lia. ring.
    + rewrite !csum_range_S, IH. ring.
  - rewrite !csum_range_empty by lia. ring.
Qed.

Lemma csum_plus (n : nat) (f g : nat -> C) :
  csum n (fun i => (f i + g i)%C) = (csum n f + csum n g)%C.
Proof. apply csum_range_plus. Qed.

Lemma csum_range_scale (lo hi : nat) (z : C) (f : nat -> C) :
  csum_range lo hi (fun i => (z * f i)%C) = (z * csum_range lo hi f)%C.
Proof.
  destruct (le_lt_dec lo hi) as [Hle|Hlt].
  - replace hi with (lo + (hi - lo))%nat by lia.
    induction (hi - lo)%nat as [|k IH].
    + rewrite !csum_range_empty by lia. ring.
    + rewrite !csum_range_S, IH. ring.
  - rewrite !csum_range_empty by lia. ring.
Qed.

Lemma csum_scale (n : nat) (z : C) (f : nat -> C) :
  csum n (fun i => (z * f i)%C) = (z * csum n f)%C.
Proof. apply csum_range_scale. Qed.

Lemma csum_scale_r (n : nat) (z : C) (f : nat -> C) :
  csum n (fun i => (f i * z)%C) = (csum n f * z)%C.
Proof.
  rewrite (csum_ext n (fun i => (f i * z)%C) (fun i => (z * f i)%C)).
  - rewrite csum_scale. ring.
  - intros; ring.
Qed.

(** A sum whose terms vanish away from one index. *)
Lemma csum_range_single (lo hi k : nat) (f : nat -> C) :
  (lo <= k < hi)%nat ->
  (forall i, (lo <= i < hi)%nat -> i <> k -> f i = C0) ->
  csum_range lo hi f = f k.
Proof.
  intros Hk Hz.
  assert (Hgen : forall m, (lo + m <= hi)%nat ->
            csum_range lo (lo + m) f = if (k <? lo + m)%nat then f k else C0).
  { induction m as [|m IH]; intros Hm.
    - rewrite csum_range_empty by lia.
      destruct (Nat.ltb_spec k (lo + 0)); [lia | reflexivity].
    - rewrite csum_range_S, IH by lia.
      destruct (Nat.ltb_spec k (lo + m)), (Nat.ltb_spec k (lo + S m)); try lia.
      + rewrite (Hz (lo + m)%nat) by lia. ring.
      + replace (lo + m)%nat with k by lia. ring.
      + rewrite (Hz (lo + m)%nat) by lia. ring. }
  specialize (Hgen (hi - lo)%nat).
  replace (lo + (hi - lo))%nat with hi in Hgen by lia.
  rewrite Hgen by lia.
  destruct (Nat.ltb_spec k hi); [reflexivity | lia].
Qed.

Lemma csum_single (n k : nat) (f : nat -> C) :
  (k < n)%nat ->
  (forall i, (i < n)%nat -> i <> k -> f i = C0) ->
  csum n f = f k.
Proof.
  intros Hk Hz. apply csum_range_single; [lia|].
  intros i Hi. apply Hz. lia.
Qed.

(** Two nested sums may be exchanged. *)
Lemma csum_swap (n m : nat) (f : nat -> nat -> C) :
  csum n (fun i => csum m (fun j => f i j))
  = csum m (fun j => csum n (fun i => f i j)).
Proof.
  induction n as [|n IH].
  - rewrite csum_0. symmetry. apply csum_zero. intros; apply csum_0.
  - rewrite csum_S, IH, <- csum_plus. apply csum_ext.
    intros j _. rewrite csum_S. reflexivity.
Qed.

(** An accumulation loop adds up what each iteration adds: if [phi] reads
    a number off the state and iteration [i] increases it by [g i], the
    loop increases it by the sum of the [g i]. *)
Lemma for_range_additive {St : Type} (phi : St -> C) (lo hi : nat)
      (body : nat -> St -> St) (g : nat -> C) (s : St) :
  (forall i acc, (lo <= i < hi)%nat -> phi (body i acc) = (phi acc + g i)%C) ->
  phi (for_range lo hi body s) = (phi s + csum_range lo hi g)%C.
Proof.
  intros H. destruct (le_lt_dec lo hi) as [Hle|Hlt].
  - apply (for_range_ind
             (fun i acc => phi acc = (phi s + csum_range lo i g)%C)
             lo hi body s Hle).
    + rewrite csum_range_empty by lia. ring.
    + intros i acc Hi Hacc. rewrite H, Hacc by exact Hi.
      replace (S i) with (lo + S (i - lo))%nat by lia.
      rewrite csum_range_S. replace (lo + (i - lo))%nat with i by lia. ring.
  - rewrite for_range_empty, csum_range_empty by lia. ring.
Qed.

Lemma mset_eq (M : matrix) (r c : nat) (v : C) : mset M r c v r c = v.
Proof. unfold mset. rewrite !Nat.eqb_refl. reflexivity. Qed.

Lemma mset_neq (M : matrix) (r c r' c' : nat) (v : C) :
  (r', c') <> (r, c) -> mset M r c v r' c' = M r' c'.
Proof.
  intros H. unfold mset.
  destruct (Nat.eqb_spec r' r), (Nat.eqb_spec c' c); simpl; try reflexivity.
  subst. contradiction H. reflexivity.
Qed.

Lemma mset_row_neq (M : matrix) (r c r' c' : nat) (v : C) :
  r' <> r -> mset M r c v r' c' = M r' c'.
Proof. intros H. apply mset_neq. intros E. inversion E. contradiction. Qed.

(** What [M[r, c] += x] does to one entry of the product [M @ v]. *)
Lemma matvec_madd (N : nat) (M : matrix) (r c : nat) (x : C) (v : vector)
      (a : nat) :
  (c < N)%nat ->
  matvec N (madd M r c x) v a
  = (matvec N M v a + (if a =? r then x * v c else C0))%C.
Proof.
  intros Hc. unfold matvec, madd, mset.
  destruct (Nat.eqb_spec a r) as [->|Hne]; simpl.
  - rewrite (csum_ext N _ (fun b => (M r b * v b
                                     + (if b =? c then x * v c else C0))%C)).
    + rewrite csum_plus. f_equal.
      rewrite (csum_single N c).
      * rewrite Nat.eqb_refl. reflexivity.
      * assumption.
      * intros i _ Hi.
        destruct (Nat.eqb_spec i c); [contradiction | reflexivity].
    + intros b _. destruct (Nat.eqb_spec b c) as [->|_]; ring.
  - rewrite Cadd_0_r. reflexivity.
Qed.

Lemma matvec_msub (N : nat) (M : matrix) (r c : nat) (x : C) (v : vector)
      (a : nat) :
  (c < N)%nat ->
  matvec N (msub M r c x) v a
  = (matvec N M v a + (if a =? r then (- x) * v c else C0))%C.
Proof.
  intros Hc. unfold msub.
  replace (M r c - x)%C with (M r c + - x)%C by ring.
  apply (matvec_madd N M r c (- x)%C v a Hc).
Qed.

(* ------------------------------------------------------------------ *)
(** ** Index arithmetic *)

Lemma density_index_inj (n i j i' j' : nat) :
  (i < n)%nat -> (i' < n)%nat ->
  density_index n i j = density_index n i' j' -> i = i' /\ j = j'.
Proof.
  unfold density_index. intros Hi Hi' E.
  destruct (lt_eq_lt_dec j j') as [[Hlt|Heq]|Hgt].
  - exfalso. assert ((j + 1) * n <= j' * n)%nat by (apply Nat.mul_le_mono_r; lia).
    lia.
  - subst. split; lia.
  - exfalso. assert ((j' + 1) * n <= j * n)%nat by (apply Nat.mul_le_mono_r; lia).
    lia.
Qed.

Lemma density_index_lt (n i j : nat) :
  (i < n)%nat -> (j < n)%nat -> (density_index n i j < n * n)%nat.
Proof.
  unfold density_index. intros Hi Hj.
  assert ((j + 1) * n <= n * n)%nat by (apply Nat.mul_le_mono_r; lia).
  lia.
Qed.

Lemma density_index_eqb (n i j i' j' : nat) :
  (i < n)%nat -> (i' < n)%nat ->
  (density_index n i j =? density_index n i' j') = (i =? i') && (j =? j').
Proof.
  intros Hi Hi'.
  destruct (Nat.eqb_spec (density_index n i j) (density_index n i' j')) as [E|E].
  - destruct (density_index_inj n i j i' j' Hi Hi' E) as [-> ->].
    rewrite !Nat.eqb_refl. reflexivity.
  - destruct (Nat.eqb_spec i i'), (Nat.eqb_spec j j'); try reflexivity.
    subst. contradiction E. reflexivity.
Qed.

Lemma flatten_density_index (n : nat) (rho : matrix) (i j : nat) :
  (i < n)%nat -> flatten n rho (density_index n i j) = rho i j.
Proof.
  intros Hi. unfold flatten, density_index.
  rewrite Nat.Div0.mod_add, Nat.mod_small by lia.
  rewrite Nat.div_add by lia. rewrite Nat.div_small by lia. reflexivity.
Qed.

(** A double sum that selects the pair [(i0, j0)]. *)
Lemma csum_select_pair (n i0 j0 : nat) (G : nat -> nat -> C) :
  (i0 < n)%nat -> (j0 < n)%nat ->
  csum n (fun ii => csum n (fun jj =>
    if density_index n i0 j0 =? density_index n ii jj then G ii jj else C0))
  = G i0 j0.
Proof.
  intros Hi Hj.
  rewrite (csum_single n i0); try assumption.
  - rewrite (csum_single n j0); try assumption.
    + rewrite Nat.eqb_refl. reflexivity.
    + intros jj Hjj Hne. rewrite density_index_eqb by assumption.
      rewrite Nat.eqb_refl. simpl.
      destruct (Nat.eqb_spec j0 jj); [subst; contradiction | reflexivity].
  - intros ii Hii Hne. apply csum_zero. intros jj Hjj.
    rewrite density_index_eqb by assumption.
    destruct (Nat.eqb_spec i0 ii); [subst; contradiction | reflexivity].
Qed.

(* ------------------------------------------------------------------ *)
(** ** What [build_coherent_ev_submatrix] does to a flattened matrix *)

(** The product of the built matrix with any vector [v], at the index of
    the pair [(i, j)]. *)
Lemma coherent_ev_matvec (n : nat) (H : matrix) (v : vector) (i j : nat) :
  (i < n)%nat -> (j < n)%nat ->
  matvec (n * n) (build_coherent_ev_submatrix n H) v (density_index n i j)
  = csum n (fun kk =>
      (Ci * H kk j * v (density_index n i kk)
       - Ci * H i kk * v (density_index n kk j))%C).
Proof.
  intros Hi Hj. unfold build_coherent_ev_submatrix.
  set (a := density_index n i j).
  set (phi := fun M : matrix => matvec (n * n) M v a).
  set (term := fun ii jj kk : nat =>
    (if a =? density_index n ii jj
     then Ci * H kk jj * v (density_index n ii kk)
          - Ci * H ii kk * v (density_index n kk jj)
     else C0)%C).
  change (matvec (n * n) ?M v a) with (phi M).
  rewrite (for_range_additive phi 0 n _
             (fun ii => csum n (fun jj => csum n (fun kk => term ii jj kk)))).
  - assert (Hz : phi zeros = C0).
    { unfold phi, matvec, zeros. apply csum_zero. intros; ring. }
    rewrite Hz, Cadd_0_l. fold (csum n).
    rewrite (csum_ext n _ (fun ii => csum n (fun jj =>
               if a =? density_index n ii jj
               then csum n (fun kk =>
                  (Ci * H kk jj * v (density_index n ii kk)
                   - Ci * H ii kk * v (density_index n kk jj))%C)
               else C0))).
    + apply (csum_select_pair n i j
               (fun ii jj => csum n (fun kk =>
                  (Ci * H kk jj * v (density_index n ii kk)
                   - Ci * H ii kk * v (density_index n kk jj))%C)) Hi Hj).
    + intros ii _. apply csum_ext. intros jj _. unfold term.
      destruct (a =? density_index n ii jj); [reflexivity|].
      apply csum_zero. reflexivity.
  - intros ii M Hii.
    apply (for_range_additive phi 0 n _ (fun jj => csum n (fun kk => term ii jj kk))).
    intros jj M' Hjj.
    apply (for_range_additive phi 0 n _ (fun kk => term ii jj kk)).
    intros kk M'' Hkk. cbv zeta. unfold phi.
    rewrite matvec_msub by (apply density_index_lt; lia).
    rewrite matvec_madd by (apply density_index_lt; lia).
    unfold term. destruct (a =? density_index n ii jj); ring.
Qed.

Lemma madd_entry (M : matrix) (r c : nat) (x : C) (a b : nat) :
  madd M r c x a b
  = (M a b + (if (a =? r) && (b =? c) then x else C0))%C.
Proof.
  unfold madd, mset.
  destruct (Nat.eqb_spec a r), (Nat.eqb_spec b c); simpl; subst; ring.
Qed.

Lemma msub_entry (M : matrix) (r c : nat) (x : C) (a b : nat) :
  msub M r c x a b
  = (M a b + (if (a =? r) && (b =? c) then - x else C0))%C.
Proof.
  unfold msub, mset.
  destruct (Nat.eqb_spec a r), (Nat.eqb_spec b c); simpl; subst; ring.
Qed.

(** The entries of the built matrix in the row of the pair [(i, j)]: column
    [(i, k)] receives [1j*H[k, j]] and column [(k, j)] receives
    [-1j*H[i, k]], for every [k], and nothing else is written. *)
Lemma coherent_ev_entry (n : nat) (H : matrix) (i j b : nat) :
  (i < n)%nat -> (j < n)%nat ->
  build_coherent_ev_submatrix n H (density_index n i j) b
  = csum n (fun k =>
      ((if b =? density_index n i k then Ci * H k j else C0)
       + (if b =? density_index n k j then - (Ci * H i k) else C0))%C).
Proof.
  intros Hi Hj. unfold build_coherent_ev_submatrix.
  set (a := density_index n i j).
  set (phi := fun M : matrix => M a b).
  set (term := fun ii jj kk : nat =>
    (if a =? density_index n ii jj
     then (if b =? density_index n ii kk then Ci * H kk jj else C0)
          + (if b =? density_index n kk jj then - (Ci * H ii kk) else C0)
     else C0)%C).
  change (for_range 0 n ?body zeros a b) with (phi (for_range 0 n body zeros)).
  rewrite (for_range_additive phi 0 n _
             (fun ii => csum n (fun jj => csum n (fun kk => term ii jj kk)))).
  - unfold phi at 1, zeros. rewrite Cadd_0_l. fold (csum n).
    rewrite (csum_ext n _ (fun ii => csum n (fun jj =>
               if a =? density_index n ii jj
               then csum n (fun kk =>
                 ((if b =? density_index n ii kk then Ci * H kk jj else C0)
                  + (if b =? density_index n kk jj
                     then - (Ci * H ii kk) else C0))%C)
               else C0))).
    + apply (csum_select_pair n i j
               (fun ii jj => csum n (fun kk =>
                 ((if b =? density_index n ii kk then Ci * H kk jj else C0)
                  + (if b =? density_index n kk jj
                     then - (Ci * H ii kk) else C0))%C)) Hi Hj).
    + intros ii _. apply csum_ext. intros jj _. unfold term.
      destruct (a =? density_index n ii jj); [reflexivity|].
      apply csum_zero. reflexivity.
  - intros ii M Hii.
    apply (for_range_additive phi 0 n _ (fun jj => csum n (fun kk => term ii jj kk))).
    intros jj M' Hjj.
    apply (for_range_additive phi 0 n _ (fun kk => term ii jj kk)).
    intros kk M'' Hkk. cbv zeta. unfold phi.
    rewrite msub_entry, madd_entry. unfold term.
    destruct (a =? density_index n ii jj); simpl; ring.
Qed.

(** C1, as the specification words it, fails: at [H = sigma_x] and the
    ground-state [rho] of a two-level system, the entry of index [(0, 1)]
    of the built matrix applied to the flattened [rho] is [1j], while the
    flattened [i[H, rho] = i(H rho - rho H)] has [-1j] there. *)
Lemma build_coherent_ev_is_not_plus_i_commutator :
  matvec (2 * 2) (build_coherent_ev_submatrix 2 H_sigma_x)
         (flatten 2 rho_ground) (density_index 2 0 1)
  <> flatten 2 (spec_i_commutator 2 H_sigma_x rho_ground)
             (density_index 2 0 1).
Proof.
  rewrite coherent_ev_matvec by lia.
  rewrite flatten_density_index by lia.
  unfold spec_i_commutator, commutator.
  rewrite !csum_S, !csum_0.
  rewrite !flatten_density_index by lia.
  unfold H_sigma_x, rho_ground.
  intros E. apply (f_equal Im) in E.
  unfold Cadd, Csub, Cmul, Copp, Ci, C1, C0, Re, Im in E. simpl in E. lra.
Qed.

(** C1 (amended): for every [n], every [n]x[n] matrix [H] and every
    [n]x[n] matrix [rho], the matrix returned by
    [build_coherent_ev_submatrix(H)], applied to the flattened [rho]
    (entry [(i, j)] at index [i + j*n]), yields the flattening of
    [-i[H, rho] = i(rho H - H rho)]; and its entries are the stated index
    algebra: in the row of [(i, j)], column [(i, k)] accumulates
    [i*H[k, j]] and column [(k, j)] accumulates [-i*H[i, k]]. *)
Theorem build_coherent_ev_submatrix_minus_i_commutator
        (n : nat) (H rho : matrix) (i j : nat) :
  (i < n)%nat -> (j < n)%nat ->
  matvec (n * n) (build_coherent_ev_submatrix n H) (flatten n rho)
         (density_index n i j)
  = flatten n (minus_i_commutator n H rho) (density_index n i j)
  /\ forall b : nat,
      build_coherent_ev_submatrix n H (density_index n i j) b
      = csum n (fun k =>
          ((if b =? density_index n i k then Ci * H k j else C0)
           + (if b =? density_index n k j then - (Ci * H i k) else C0))%C).
Proof.
  intros Hi Hj. split.
  - rewrite coherent_ev_matvec by assumption.
    rewrite flatten_density_index by assumption.
    unfold minus_i_commutator, commutator.
    replace (- Ci * (csum n (fun k => H i k * rho k j)
                     - csum n (fun k => rho i k * H k j)))%C
      with (Ci * csum n (fun k => rho i k * H k j)
            - Ci * csum n (fun k => H i k * rho k j))%C by ring.
    rewrite <- !csum_scale.
    replace (csum n (fun i0 => (Ci * (rho i i0 * H i0 j))%C)
             - csum n (fun i0 => (Ci * (H i i0 * rho i0 j))%C))%C
      with (csum n (fun i0 => (Ci * (rho i i0 * H i0 j))%C)
            + (- C1) * csum n (fun i0 => (Ci * (H i i0 * rho i0 j))%C))%C
      by ring.
    rewrite <- csum_scale, <- csum_plus.
    apply csum_ext. intros k Hk.
    rewrite !flatten_density_index by assumption. ring.
  - intros b. apply coherent_ev_entry; assumption.
Qed.

(** The amended statement at a two-level system. *)
Lemma build_coherent_ev_submatrix_minus_i_commutator_witness :
  ((0 < 2)%nat /\ (1 < 2)%nat) /\
  matvec (2 * 2) (build_coherent_ev_submatrix 2 H_sigma_x)
         (flatten 2 rho_ground) (density_index 2 0 1)
  = flatten 2 (minus_i_commutator 2 H_sigma_x rho_ground)
            (density_index 2 0 1).
Proof.
  split; [split; lia|].
  apply (build_coherent_ev_submatrix_minus_i_commutator
           2 H_sigma_x rho_ground 0 1); lia.
Defined.


(* ------------------------------------------------------------------ *)
(** ** Loops of assignments *)

(** A loop none of whose iterations changes what [phi] reads leaves it
    unchanged. *)
Lemma for_range_untouched {St X : Type} (phi : St -> X) (lo hi : nat)
      (body : nat -> St -> St) (s : St) :
  (forall i acc, (lo <= i < hi)%nat -> phi (body i acc) = phi acc) ->
  phi (for_range lo hi body s) = phi s.
Proof.
  intros H. destruct (le_lt_dec lo hi) as [Hle|Hlt].
  - apply (for_range_ind (fun _ acc => phi acc = phi s) lo hi body s Hle).
    + reflexivity.
    + intros i acc Hi Hacc. rewrite H by exact Hi. exact Hacc.
  - rewrite for_range_empty by lia. reflexivity.
Qed.

(** A loop in which only iteration [k] changes what [phi] reads, and
    changes it by [T]. *)
Lemma for_range_owner {St X : Type} (phi : St -> X) (T : X -> X)
      (lo hi k : nat) (body : nat -> St -> St) (s : St) :
  (lo <= k < hi)%nat ->
  (forall i acc, (lo <= i < hi)%nat -> i <> k -> phi (body i acc) = phi acc) ->
  (forall acc, phi (body k acc) = T (phi acc)) ->
  phi (for_range lo hi body s) = T (phi s).
Proof.
  intros Hk Hother Hown.
  assert (Hle : (lo <= hi)%nat) by lia.
  assert (Hinv : (fun i acc => phi acc = if (i <=? k)%nat then phi s else T (phi s))
                   hi (for_range lo hi body s)).
  { apply (for_range_ind
             (fun i acc => phi acc = if (i <=? k)%nat then phi s else T (phi s))
             lo hi body s Hle).
    - destruct (Nat.leb_spec lo k); [reflexivity | lia].
    - intros i acc Hi Hacc.
      destruct (Nat.eq_dec i k) as [->|Hne].
      + rewrite Hown, Hacc.
        destruct (Nat.leb_spec k k), (Nat.leb_spec (S k) k); try lia.
        reflexivity.
      + rewrite Hother by assumption. rewrite Hacc.
        destruct (Nat.leb_spec i k), (Nat.leb_spec (S i) k); try lia;
          reflexivity. }
  simpl in Hinv. rewrite Hinv.
  destruct (Nat.leb_spec hi k); [lia | reflexivity].
Qed.

Ltac didx_neq :=
  let E := fresh "E" in
  intros E; apply density_index_inj in E; lia.

(** The two rows a pair [ii < jj] of the loops of
    [build_transform_matrices] writes: the four assignments, read at a row
    of another pair, change nothing. *)
Lemma four_mset_other_row (n : nat) (M : matrix) (ii jj i j b : nat)
      (v1 v2 v3 v4 : C) :
  (ii < n)%nat -> (jj < n)%nat -> (i < n)%nat -> (j < n)%nat ->
  (i, j) <> (ii, jj) -> (i, j) <> (jj, ii) ->
  mset (mset (mset (mset M (density_index n ii jj) (density_index n ii jj) v1)
                   (density_index n ii jj) (density_index n jj ii) v2)
             (density_index n jj ii) (density_index n ii jj) v3)
       (density_index n jj ii) (density_index n jj ii) v4
       (density_index n i j) b
  = M (density_index n i j) b.
Proof.
  intros Hii Hjj Hi Hj H1 H2.
  assert (Ha : density_index n i j <> density_index n ii jj).
  { intros E. apply density_index_inj in E; try assumption.
    destruct E; subst. contradiction H1. reflexivity. }
  assert (Hb : density_index n i j <> density_index n jj ii).
  { intros E. apply density_index_inj in E; try assumption.
    destruct E; subst. contradiction H2. reflexivity. }
  rewrite !mset_row_neq by assumption. reflexivity.
Qed.

(** The same four assignments read at the row of [(ii, jj)] and at the row
    of [(jj, ii)]. *)
Lemma four_mset_upper_row (n : nat) (M : matrix) (ii jj b : nat)
      (v1 v2 v3 v4 : C) :
  (ii < jj < n)%nat ->
  mset (mset (mset (mset M (density_index n ii jj) (density_index n ii jj) v1)
                   (density_index n ii jj) (density_index n jj ii) v2)
             (density_index n jj ii) (density_index n ii jj) v3)
       (density_index n jj ii) (density_index n jj ii) v4
       (density_index n ii jj) b
  = if b =? density_index n ii jj then v1
    else if b =? density_index n jj ii then v2
    else M (density_index n ii jj) b.
Proof.
  intros H.
  assert (Hne : density_index n ii jj <> density_index n jj ii)
    by (intros E; apply density_index_inj in E; lia).
  rewrite !(mset_row_neq _ (density_index n jj ii)) by assumption.
  unfold mset. rewrite !Nat.eqb_refl. simpl.
  destruct (Nat.eqb_spec b (density_index n ii jj)) as [->|Hb].
  - destruct (Nat.eqb_spec (density_index n ii jj) (density_index n jj ii));
      [contradiction | reflexivity].
  - reflexivity.
Qed.

Lemma four_mset_lower_row (n : nat) (M : matrix) (ii jj b : nat)
      (v1 v2 v3 v4 : C) :
  (ii < jj < n)%nat ->
  mset (mset (mset (mset M (density_index n ii jj) (density_index n ii jj) v1)
                   (density_index n ii jj) (density_index n jj ii) v2)
             (density_index n jj ii) (density_index n ii jj) v3)
       (density_index n jj ii) (density_index n jj ii) v4
       (density_index n jj ii) b
  = if b =? density_index n jj ii then v4
    else if b =? density_index n ii jj then v3
    else M (density_index n jj ii) b.
Proof.
  intros H.
  assert (Hne : density_index n jj ii <> density_index n ii jj)
    by (intros E; apply density_index_inj in E; lia).
  unfold mset. rewrite !Nat.eqb_refl. simpl.
  destruct (Nat.eqb_spec (density_index n jj ii) (density_index n ii jj));
    [contradiction|]. simpl.
  destruct (Nat.eqb_spec b (density_index n jj ii)); reflexivity.
Qed.

Lemma pair_loop_diag_row (n : nat) (v1 v2 v3 v4 : C) (M : matrix) (i b : nat) :
  (i < n)%nat ->
  pair_loop n v1 v2 v3 v4 M (density_index n i i) b
  = M (density_index n i i) b.
Proof.
  intros Hi. unfold pair_loop.
  apply (for_range_untouched (fun M : matrix => M (density_index n i i) b)).
  intros ii acc Hii.
  apply (for_range_untouched (fun M : matrix => M (density_index n i i) b)).
  intros jj acc' Hjj. cbv zeta.
  apply four_mset_other_row; try lia; intros E; inversion E; lia.
Qed.

Lemma pair_loop_upper_row (n : nat) (v1 v2 v3 v4 : C) (M : matrix)
      (i j b : nat) :
  (i < j < n)%nat ->
  pair_loop n v1 v2 v3 v4 M (density_index n i j) b
  = if b =? density_index n i j then v1
    else if b =? density_index n j i then v2
    else M (density_index n i j) b.
Proof.
  intros Hij. unfold pair_loop.
  set (phi := fun M : matrix => M (density_index n i j) b).
  set (T := fun x : C => if b =? density_index n i j then v1
                         else if b =? density_index n j i then v2 else x).
  change (phi (for_range 0 n
     (fun ii M0 => for_range (ii + 1) n (fun jj M1 =>
        let M2 := mset M1 (density_index n ii jj) (density_index n ii jj) v1 in
        let M3 := mset M2 (density_index n ii jj) (density_index n jj ii) v2 in
        let M4 := mset M3 (density_index n jj ii) (density_index n ii jj) v3 in
        mset M4 (density_index n jj ii) (density_index n jj ii) v4) M0) M)
          = T (phi M)).
  apply (for_range_owner phi T 0 n i); [lia | |].
  - intros ii acc Hii Hne.
    apply (for_range_untouched phi). intros jj acc' Hjj. cbv zeta. unfold phi.
    apply four_mset_other_row; try lia; intros E; inversion E; lia.
  - intros acc.
    apply (for_range_owner phi T (i + 1) n j); [lia | |].
    + intros jj acc' Hjj Hne. cbv zeta. unfold phi.
      apply four_mset_other_row; try lia; intros E; inversion E; lia.
    + intros acc'. cbv zeta. unfold phi, T.
      apply four_mset_upper_row. lia.
Qed.

Lemma pair_loop_lower_row (n : nat) (v1 v2 v3 v4 : C) (M : matrix)
      (i j b : nat) :
  (j < i < n)%nat ->
  pair_loop n v1 v2 v3 v4 M (density_index n i j) b
  = if b =? density_index n i j then v4
    else if b =? density_index n j i then v3
    else M (density_index n i j) b.
Proof.
  intros Hij. unfold pair_loop.
  set (phi := fun M : matrix => M (density_index n i j) b).
  set (T := fun x : C => if b =? density_index n i j then v4
                         else if b =? density_index n j i then v3 else x).
  change (phi (for_range 0 n
     (fun ii M0 => for_range (ii + 1) n (fun jj M1 =>
        let M2 := mset M1 (density_index n ii jj) (density_index n ii jj) v1 in
        let M3 := mset M2 (density_index n ii jj) (density_index n jj ii) v2 in
        let M4 := mset M3 (density_index n jj ii) (density_index n ii jj) v3 in
        mset M4 (density_index n jj ii) (density_index n jj ii) v4) M0) M)
          = T (phi M)).
  apply (for_range_owner phi T 0 n j); [lia | |].
  - intros ii acc Hii Hne.
    apply (for_range_untouched phi). intros jj acc' Hjj. cbv zeta. unfold phi.
    apply four_mset_other_row; try lia; intros E; inversion E; lia.
  - intros acc.
    apply (for_range_owner phi T (j + 1) n i); [lia | |].
    + intros jj acc' Hjj Hne. cbv zeta. unfold phi.
      apply four_mset_other_row; try lia; intros E; inversion E; lia.
    + intros acc'. cbv zeta. unfold phi, T.
      apply four_mset_lower_row. lia.
Qed.

(** The first loop of [build_transform_matrices] writes the diagonal of
    both arrays. *)
Lemma diag_loop_entries (n : nat) (b : nat) :
  let UU := for_range 0 n (fun ii '(U, Uinv) =>
      (mset U (density_index n ii ii) (density_index n ii ii) C1,
       mset Uinv (density_index n ii ii) (density_index n ii ii) C1))
      (zeros, zeros) in
  (forall i, (i < n)%nat ->
     fst UU (density_index n i i) b = (if b =? density_index n i i then C1 else C0)
     /\ snd UU (density_index n i i) b
        = (if b =? density_index n i i then C1 else C0))
  /\ (forall i j, (i < n)%nat -> (j < n)%nat -> i <> j ->
     fst UU (density_index n i j) b = C0
     /\ snd UU (density_index n i j) b = C0).
Proof.
  intros UU. split.
  - intros i Hi. unfold UU.
    set (T := fun x : C => if b =? density_index n i i then C1 else x).
    split.
    + apply (for_range_owner
               (fun st : matrix * matrix => fst st (density_index n i i) b) T
               0 n i); [lia | |].
      * intros ii [U Uinv] Hii Hne. simpl.
        apply mset_row_neq. intros E. apply density_index_inj in E; lia.
      * intros [U Uinv]. simpl. unfold mset, T.
        rewrite Nat.eqb_refl. reflexivity.
    + apply (for_range_owner
               (fun st : matrix * matrix => snd st (density_index n i i) b) T
               0 n i); [lia | |].
      * intros ii [U Uinv] Hii Hne. simpl.
        apply mset_row_neq. intros E. apply density_index_inj in E; lia.
      * intros [U Uinv]. simpl. unfold mset, T.
        rewrite Nat.eqb_refl. reflexivity.
  - intros i j Hi Hj Hne. unfold UU. split.
    + apply (for_range_untouched
               (fun st : matrix * matrix => fst st (density_index n i j) b)).
      intros ii [U Uinv] Hii. simpl.
      apply mset_row_neq. intros E. apply density_index_inj in E; lia.
    + apply (for_range_untouched
               (fun st : matrix * matrix => snd st (density_index n i j) b)).
      intros ii [U Uinv] Hii. simpl.
      apply mset_row_neq. intros E. apply density_index_inj in E; lia.
Qed.

Lemma build_transform_matrices_rows (n i j b : nat) :
  (i < n)%nat -> (j < n)%nat ->
  fst (build_transform_matrices n) (density_index n i j) b = U_row n i j b
  /\ snd (build_transform_matrices n) (density_index n i j) b
     = Uinv_row n i j b.
Proof.
  intros Hi Hj. unfold build_transform_matrices. cbv zeta.
  pose proof (diag_loop_entries n b) as Hd.
  cbv zeta in Hd. destruct Hd as [Hdiag Hoff].
  destruct (for_range 0 n _ (zeros, zeros)) as [U0 Uinv0].
  simpl in Hdiag, Hoff.
  change (pair_loop n C1 Ci C1 (- Ci)%C U0 (density_index n i j) b
          = U_row n i j b
          /\ pair_loop n (RtoC 0.5) (RtoC 0.5) (RtoC (- 0.5) * Ci)%C
                       (RtoC 0.5 * Ci)%C Uinv0 (density_index n i j) b
             = Uinv_row n i j b).
  unfold U_row, Uinv_row.
  destruct (Nat.eqb_spec i j) as [->|Hne].
  - rewrite !pair_loop_diag_row by assumption. apply Hdiag. assumption.
  - destruct (Hoff i j Hi Hj Hne) as [HU HUinv].
    destruct (Nat.ltb_spec i j).
    + rewrite !pair_loop_upper_row by lia. rewrite HU, HUinv. split; reflexivity.
    + rewrite !pair_loop_lower_row by lia. rewrite HU, HUinv. split; reflexivity.
Qed.

Lemma csum_one_point (N p : nat) (x : C) (f : nat -> C) :
  (p < N)%nat ->
  csum N (fun b => ((if b =? p then x else C0) * f b)%C) = (x * f p)%C.
Proof.
  intros Hp. rewrite (csum_single N p).
  - rewrite Nat.eqb_refl. reflexivity.
  - assumption.
  - intros i _ Hne.
    destruct (Nat.eqb_spec i p); [contradiction | ring].
Qed.

Lemma csum_two_points (N p q : nat) (x y : C) (f : nat -> C) :
  (p < N)%nat -> (q < N)%nat -> p <> q ->
  csum N (fun b =>
    ((if b =? p then x else if b =? q then y else C0) * f b)%C)
  = (x * f p + y * f q)%C.
Proof.
  intros Hp Hq Hne.
  rewrite (csum_ext N _ (fun b => ((if b =? p then x else C0) * f b
                                   + (if b =? q then y else C0) * f b)%C)).
  - rewrite csum_plus, !csum_one_point by assumption. reflexivity.
  - intros b _.
    destruct (Nat.eqb_spec b p), (Nat.eqb_spec b q); subst;
      try contradiction; try ring.
Qed.

Lemma density_index_decode (n a : nat) :
  (a < n * n)%nat ->
  exists i j, (i < n)%nat /\ (j < n)%nat /\ a = density_index n i j.
Proof.
  intros Ha. assert (Hn : (0 < n)%nat) by (destruct n; [simpl in Ha|]; lia).
  exists (a mod n), (a / n). split; [|split].
  - apply Nat.mod_upper_bound. lia.
  - apply Nat.Div0.div_lt_upper_bound. exact Ha.
  - unfold density_index.
    rewrite (Nat.div_mod_eq a n) at 1. lia.
Qed.

Ltac cnum :=
  apply C_eq; unfold Cadd, Csub, Cmul, Copp, Cconj, Creal, Cimag, RtoC,
    C0, C1, Ci, Re, Im; simpl; lra.

(** The closed-form rows compose to the identity, both ways round. *)
Lemma transform_rows_inverse (n i j c : nat) :
  (i < n)%nat -> (j < n)%nat ->
  csum (n * n) (fun b => (Uinv_row n i j b * fst (build_transform_matrices n) b c)%C)
  = identity (density_index n i j) c
  /\ csum (n * n) (fun b => (U_row n i j b * snd (build_transform_matrices n) b c)%C)
     = identity (density_index n i j) c.
Proof.
  intros Hi Hj.
  pose proof (density_index_lt n i j Hi Hj) as Hij.
  pose proof (density_index_lt n j i Hj Hi) as Hji.
  pose proof (density_index_lt n i i Hi Hi) as Hii.
  destruct (build_transform_matrices_rows n i j c Hi Hj) as [HUij HVij].
  destruct (build_transform_matrices_rows n j i c Hj Hi) as [HUji HVji].
  unfold Uinv_row, U_row at 1. unfold identity.
  destruct (Nat.eqb_spec i j) as [->|Hne].
  - rewrite !csum_one_point by assumption.
    rewrite HUij, HVij. unfold U_row, Uinv_row. rewrite Nat.eqb_refl.
    rewrite (Nat.eqb_sym c). destruct (density_index n j j =? c); split; ring.
  - assert (Hd : density_index n i j <> density_index n j i)
      by (intros E; apply density_index_inj in E; lia).
    assert (Hji' : (j =? i) = false) by (apply Nat.eqb_neq; lia).
    destruct (Nat.ltb_spec i j) as [Hlt|Hge].
    + rewrite !csum_two_points by assumption.
      rewrite HUij, HVij, HUji, HVji. unfold U_row, Uinv_row.
      rewrite Hji'.
      destruct (Nat.eqb_spec i j); [lia|].
      destruct (Nat.ltb_spec i j); [|lia].
      destruct (Nat.ltb_spec j i); [lia|].
      rewrite (Nat.eqb_sym (density_index n i j) c).
      destruct (Nat.eqb_spec c (density_index n i j)) as [->|Hc1].
      * destruct (Nat.eqb_spec (density_index n i j) (density_index n j i));
          [contradiction|]. split; cnum.
      * destruct (Nat.eqb_spec c (density_index n j i)); split; cnum.
    + rewrite !csum_two_points by assumption.
      rewrite HUij, HVij, HUji, HVji. unfold U_row, Uinv_row.
      rewrite Hji'.
      destruct (Nat.eqb_spec i j); [lia|].
      destruct (Nat.ltb_spec i j); [lia|].
      destruct (Nat.ltb_spec j i); [|lia].
      rewrite (Nat.eqb_sym (density_index n i j) c).
      destruct (Nat.eqb_spec c (density_index n i j)) as [->|Hc1].
      * destruct (Nat.eqb_spec (density_index n i j) (density_index n j i));
          [contradiction|]. split; cnum.
      * destruct (Nat.eqb_spec c (density_index n j i)); split; cnum.
Qed.

(** C6: for every state count [n], the matrices built by
    [build_transform_matrices] satisfy [Uinv @ U = U @ Uinv = I] on the
    [n**2]-dimensional flattened density space: every entry [(a, c)] with
    [a, c < n**2] of both products is that of the identity. *)
Theorem build_transform_matrices_inverse (n a c : nat) :
  (a < n * n)%nat -> (c < n * n)%nat ->
  matmul (n * n) (snd (build_transform_matrices n))
         (fst (build_transform_matrices n)) a c = identity a c
  /\ matmul (n * n) (fst (build_transform_matrices n))
            (snd (build_transform_matrices n)) a c = identity a c.
Proof.
  intros Ha Hc.
  destruct (density_index_decode n a Ha) as (i & j & Hi & Hj & ->).
  destruct (transform_rows_inverse n i j c Hi Hj) as [H1 H2].
  unfold matmul. split.
  - rewrite <- H1. apply csum_ext. intros b _.
    destruct (build_transform_matrices_rows n i j b Hi Hj) as [_ ->].
    reflexivity.
  - rewrite <- H2. apply csum_ext. intros b _.
    destruct (build_transform_matrices_rows n i j b Hi Hj) as [-> _].
    reflexivity.
Qed.

(** C6 at a three-state system, for two entries of the products. *)
Lemma build_transform_matrices_inverse_witness :
  ((5 < 3 * 3)%nat /\ (7 < 3 * 3)%nat) /\
  (matmul (3 * 3) (snd (build_transform_matrices 3))
          (fst (build_transform_matrices 3)) 5 7 = identity 5 7
   /\ matmul (3 * 3) (fst (build_transform_matrices 3))
             (snd (build_transform_matrices 3)) 5 7 = identity 5 7).
Proof.
  split; [split; lia|].
  apply (build_transform_matrices_inverse 3 5 7); lia.
Defined.

(* ------------------------------------------------------------------ *)
(** ** Loops that may raise *)

Lemma for_range_exn_S {St : Type} (lo k : nat) (body : nat -> St -> result St)
      (s : St) :
  for_range_exn lo (lo + S k) body s
  = (a <- for_range_exn lo (lo + k) body s ;; body (lo + k)%nat a).
Proof.
  unfold for_range_exn.
  replace (lo + S k - lo)%nat with (S k) by lia.
  replace (lo + k - lo)%nat with k by lia.
  rewrite seq_S, fold_left_app. reflexivity.
Qed.

Lemma for_range_exn_empty {St : Type} (lo hi : nat)
      (body : nat -> St -> result St) (s : St) :
  (hi <= lo)%nat -> for_range_exn lo hi body s = Ok s.
Proof.
  intros H. unfold for_range_exn.
  replace (hi - lo)%nat with 0%nat by lia. reflexivity.
Qed.

(** A loop whose iteration [i] raises [e] exactly when [bad i], whatever
    the state, and otherwise steps by [step i]: it raises [e] when some
    iteration is bad, and otherwise returns what the plain loop of the
    steps returns. *)
Lemma for_range_exn_spec {St : Type} (lo hi : nat)
      (body : nat -> St -> result St) (bad : nat -> bool) (e : exn)
      (step : nat -> St -> St) (s : St) :
  (forall i st, (lo <= i < hi)%nat ->
     body i st = if bad i then Raise e else Ok (step i st)) ->
  for_range_exn lo hi body s
  = if existsb bad (seq lo (hi - lo)) then Raise e
    else Ok (for_range lo hi step s).
Proof.
  intros H. destruct (le_lt_dec lo hi) as [Hle|Hlt].
  - replace hi with (lo + (hi - lo))%nat in H |- * by lia.
    replace (lo + (hi - lo) - lo)%nat with (hi - lo)%nat by lia.
    induction (hi - lo)%nat as [|k IH].
    + rewrite for_range_exn_empty, for_range_empty by lia. reflexivity.
    + rewrite for_range_exn_S, for_range_S, seq_S, existsb_app. simpl.
      rewrite IH by (intros i st Hi; apply H; lia).
      destruct (existsb bad (seq lo k)); simpl; [reflexivity|].
      rewrite H by lia. rewrite orb_false_r.
      destruct (bad (lo + k)%nat); reflexivity.
  - rewrite for_range_exn_empty, for_range_empty by lia.
    replace (hi - lo)%nat with 0%nat by lia. reflexivity.
Qed.

(* ------------------------------------------------------------------ *)
(** ** [build_decay_ev]: the check of the decay rates *)

Lemma Rle_bool_true (x y : R) : Rle_bool x y = true <-> (x <= y)%R.
Proof. unfold Rle_bool. destruct (Rle_dec x y); split; intros; try assumption; try reflexivity; try discriminate; contradiction. Qed.

Lemma Rle_bool_false (x y : R) : Rle_bool x y = false <-> ~ (x <= y)%R.
Proof. unfold Rle_bool. destruct (Rle_dec x y); split; intros; try assumption; try reflexivity; try discriminate; contradiction. Qed.

Lemma Rlt_bool_true (x y : R) : Rlt_bool x y = true <-> (x < y)%R.
Proof. unfold Rlt_bool. destruct (Rlt_dec x y); split; intros; try assumption; try reflexivity; try discriminate; contradiction. Qed.

Lemma Rlt_bool_false (x y : R) : Rlt_bool x y = false <-> ~ (x < y)%R.
Proof. unfold Rlt_bool. destruct (Rlt_dec x y); split; intros; try assumption; try reflexivity; try discriminate; contradiction. Qed.

(** The rates of a manifold are not all close to their mean exactly when
    one state of the manifold has a rate out of tolerance. *)
Lemma allclose_manifold_false (ns : list nat) (d_q : nat -> matrix) (ll : nat) :
  allclose (manifold_rates ns d_q ll) (manifold_rate ns d_q ll) 1e-5 1e-7 = false
  <-> exists ii, (manifold_lo ns ll <= ii < manifold_hi ns ll)%nat
       /\ ~ (Rabs (state_rate d_q ii - manifold_rate ns d_q ll)
             <= 1e-7 + 1e-5 * Rabs (manifold_rate ns d_q ll))%R.
Proof.
  unfold allclose, manifold_rates. split.
  - intros H.
    destruct (forallb (fun x => isclose x (manifold_rate ns d_q ll) 1e-5 1e-7)
                (map (state_rate d_q)
                   (seq (manifold_lo ns ll)
                      (manifold_hi ns ll - manifold_lo ns ll)))) eqn:E;
      [discriminate|].
    clear H.
    assert (Hex : exists x, In x (map (state_rate d_q)
                   (seq (manifold_lo ns ll)
                      (manifold_hi ns ll - manifold_lo ns ll)))
              /\ isclose x (manifold_rate ns d_q ll) 1e-5 1e-7 = false).
    { revert E. generalize (map (state_rate d_q)
                   (seq (manifold_lo ns ll)
                      (manifold_hi ns ll - manifold_lo ns ll))) as l.
      induction l as [|x l IH]; simpl; [discriminate|].
      destruct (isclose x (manifold_rate ns d_q ll) 1e-5 1e-7) eqn:Ex; simpl.
      - intros E. destruct (IH E) as (y & Hy & Hc). exists y. auto.
      - intros _. exists x. auto. }
    destruct Hex as (x & Hin & Hc).
    apply in_map_iff in Hin. destruct Hin as (ii & <- & Hii).
    apply in_seq in Hii. exists ii. split; [lia|].
    unfold isclose in Hc. apply Rle_bool_false in Hc. exact Hc.
  - intros (ii & Hii & Hc).
    apply not_true_is_false. intros Hall.
    rewrite forallb_forall in Hall.
    specialize (Hall (state_rate d_q ii)).
    assert (Hin : In (state_rate d_q ii)
                     (map (state_rate d_q)
                        (seq (manifold_lo ns ll)
                           (manifold_hi ns ll - manifold_lo ns ll)))).
    { apply in_map. apply in_seq. lia. }
    specialize (Hall Hin). unfold isclose in Hall.
    apply Rle_bool_true in Hall. contradiction.
Qed.

(** The check as a loop: manifold [ll] is bad when its rates are not all
    close to their mean. *)
Lemma check_decay_rates_spec (nblocks : nat) (ns : list nat)
      (d_q : nat -> matrix) :
  check_decay_rates nblocks ns d_q
  = if existsb (fun ll => negb (allclose (manifold_rates ns d_q ll)
                                         (manifold_rate ns d_q ll) 1e-5 1e-7))
               (seq 1 (nblocks - 1))
    then Raise ValueError
    else Ok (for_range 1 nblocks
               (fun ll decay_rates => rset decay_rates ll (manifold_rate ns d_q ll))
               (fun _ => 0%R)).
Proof.
  unfold check_decay_rates. apply for_range_exn_spec.
  intros ll st _. cbv zeta. reflexivity.
Qed.

(** C5: [build_decay_ev] raises (a [ValueError], and nothing else) if and
    only if some manifold [ll] above the lowest has a state whose total
    decay rate -- the sum over the 3 components and all lower-indexed
    states of the squared magnitudes of the aggregated dipole matrix
    elements -- is not within [atol + rtol*|mean|] of the mean of the
    manifold's rates, [rtol = 1e-5], [atol = 1e-7]. *)
Theorem build_decay_ev_raises_iff (n nblocks : nat) (ns : list nat)
        (d_q : nat -> matrix) :
  (build_decay_ev n nblocks ns d_q = Raise ValueError
   <-> exists ll, (1 <= ll < nblocks)%nat
        /\ exists ii, (manifold_lo ns ll <= ii < manifold_hi ns ll)%nat
            /\ ~ (Rabs (state_rate d_q ii - manifold_rate ns d_q ll)
                  <= 1e-7 + 1e-5 * Rabs (manifold_rate ns d_q ll))%R)
  /\ forall e, build_decay_ev n nblocks ns d_q = Raise e -> e = ValueError.
Proof.
  unfold build_decay_ev. rewrite check_decay_rates_spec.
  destruct (existsb _ (seq 1 (nblocks - 1))) eqn:E; simpl.
  - split; [split|].
    + intros _. apply existsb_exists in E. destruct E as (ll & Hll & Hbad).
      apply in_seq in Hll. exists ll. split; [lia|].
      apply allclose_manifold_false. apply negb_true_iff. exact Hbad.
    + reflexivity.
    + intros e He. inversion He. reflexivity.
  - split; [split|].
    + discriminate.
    + intros (ll & Hll & Hbad). exfalso.
      apply allclose_manifold_false in Hbad.
      assert (Hex : existsb (fun ll => negb (allclose (manifold_rates ns d_q ll)
                       (manifold_rate ns d_q ll) 1e-5 1e-7))
                      (seq 1 (nblocks - 1)) = true).
      { apply existsb_exists. exists ll. split.
        - apply in_seq. lia.
        - rewrite Hbad. reflexivity. }
      rewrite Hex in E. discriminate.
    + intros e He. discriminate.
Qed.

(* ------------------------------------------------------------------ *)
(** ** The two-level atom *)

Lemma Req_bool_refl (x y : R) : x = y -> Req_bool x y = true.
Proof. intros ->. unfold Req_bool. destruct (Req_dec_T y y); [reflexivity | contradiction]. Qed.

Lemma Ceq_bool_refl (x y : C) : x = y -> Ceq_bool x y = true.
Proof. intros ->. unfold Ceq_bool. rewrite !Req_bool_refl by reflexivity. reflexivity. Qed.

Lemma check_diagonality_1x1 (z : C) : check_diagonality (array_1x1 z) = true.
Proof.
  unfold check_diagonality, off_diagonal_is_zero. simpl.
  rewrite Ceq_bool_refl by ring. reflexivity.
Qed.

Lemma vector_check_diagonality_3x1x1 (z0 z1 z2 : C) :
  vector_check_diagonality (array_3x1x1 z0 z1 z2) = true.
Proof.
  unfold vector_check_diagonality, off_diagonal_is_zero. simpl.
  rewrite Ceq_bool_refl by ring. reflexivity.
Qed.

Lemma vector_check_diagonality_partner_3x1x1 (z0 z1 z2 : C) :
  vector_check_diagonality (hermitian_partner (array_3x1x1 z0 z1 z2)) = true.
Proof.
  unfold vector_check_diagonality, off_diagonal_is_zero. simpl.
  rewrite Ceq_bool_refl by ring. reflexivity.
Qed.

Ltac run_blocks :=
  repeat (cbn -[check_diagonality vector_check_diagonality];
          rewrite ?check_diagonality_1x1, ?vector_check_diagonality_3x1x1,
            ?vector_check_diagonality_partner_3x1x1).

(** The five registrations of the two-level atom return [two_level]. *)
Lemma two_level_init_ok : two_level_init = Ok two_level.
Proof.
  unfold two_level_init, hamiltonian_init5, add_H_0_block, add_mu_q_block,
    add_d_q_block.
  run_blocks. unfold new_block, new_vector_block. run_blocks. reflexivity.
Qed.

(* ------------------------------------------------------------------ *)
(** ** [add_H_0_block] on a label that has only a magnetic block *)

(** Whenever the search finds the [mu_q] label and not the [H_0] label,
    the shape test reads [self.blocks[ind_H_0].n] with the empty index and
    the call raises, whatever the size of [H_0]. *)
Lemma add_H_0_block_on_placeholder (h : hamiltonian) (state_label : string)
      (H0 : ndarray2) (ij : nat * nat) :
  rows H0 = cols H0 ->
  search_elem_label h (make_elem_label "H_0" state_label) = Ok None ->
  search_elem_label h (make_elem_label "mu_q" state_label) = Ok (Some ij) ->
  add_H_0_block h state_label H0 = Raise AttributeError.
Proof.
  intros Hsq HH Hmu. unfold add_H_0_block.
  rewrite Hsq, Nat.eqb_refl. simpl. rewrite HH. simpl. rewrite Hmu. simpl.
  reflexivity.
Qed.

(** C9 (the code against the claim): after
    [add_mu_q_block('g', zeros((3, 1, 1)))] on a new Hamiltonian, which
    returns [mu_q_only], the call [add_H_0_block('g', zeros((1, 1)))] with
    a square [H_0] of the same dimension raises [AttributeError]; the claim
    has it succeed and attach the energy block. *)
Theorem add_H_0_block_after_mu_q_raises :
  add_mu_q_block (hamiltonian_empty 1) "g" (array_3x1x1 C0 C0 C0) 1
  = Ok mu_q_only
  /\ add_H_0_block mu_q_only "g" (array_1x1 C0) = Raise AttributeError.
Proof.
  split.
  - unfold add_mu_q_block. run_blocks.
    unfold new_vector_block. run_blocks. reflexivity.
  - apply (add_H_0_block_on_placeholder mu_q_only "g" (array_1x1 C0)
             (0%nat, 0%nat)); reflexivity.
Qed.

Lemma make_full_matrices_two_level :
  make_full_matrices two_level = Ok two_level_full.
Proof. unfold two_level_full. vm_compute. reflexivity. Qed.

(** The aggregated dipole operator of the two-level atom: [1] between the
    two states along [q = 0] (index [1]), and nothing else. *)
Lemma two_level_d_q (fm : full_matrices) (q i j : nat) :
  full two_level_full = Some fm ->
  (i < 2)%nat -> (j < 2)%nat ->
  d_q fm q i j = if (q =? 1) && negb (i =? j) then C1 else C0.
Proof.
  intros Hfm Hi Hj. vm_compute in Hfm. inversion Hfm; subst fm; clear Hfm.
  unfold d_q.
  destruct q as [|[|q]]; destruct i as [|[|i]]; try lia;
    destruct j as [|[|j]]; try lia; vm_compute; apply C_eq; simpl; lra.
Qed.

Lemma mean_singleton (x : R) : mean [x] = x.
Proof. unfold mean, rsum_list. simpl. field. Qed.

Lemma isclose_refl (x rtol atol : R) :
  (0 <= rtol)%R -> (0 <= atol)%R -> isclose x x rtol atol = true.
Proof.
  intros Hr Ha. unfold isclose. apply Rle_bool_true.
  replace (x - x)%R with 0%R by ring. rewrite Rabs_R0.
  pose proof (Rabs_pos x). nra.
Qed.

(** The decay matrix of a Hamiltonian with two manifolds of one state
    each: the check of the rates passes, a manifold of one state having
    one rate. *)
Lemma build_decay_ev_two_single_states (d : nat -> matrix) :
  build_decay_ev 2 2 [1; 1]%nat d
  = Ok (fill_decay_coherences 2 2 [1; 1]%nat
          (rset (fun _ => 0%R) 1 (state_rate d 1))
          (fill_decay_out 2 2 [1; 1]%nat
             (rset (fun _ => 0%R) 1 (state_rate d 1))
             (fill_decay_in 2 2 [1; 1]%nat d zeros))).
Proof.
  unfold build_decay_ev. rewrite check_decay_rates_spec.
  assert (Hrates : manifold_rates [1; 1]%nat d 1 = [state_rate d 1])
    by reflexivity.
  assert (Hrate : manifold_rate [1; 1]%nat d 1 = state_rate d 1)
    by (unfold manifold_rate; rewrite Hrates; apply mean_singleton).
  cbn [seq Nat.sub existsb]. rewrite Hrate, Hrates.
  unfold allclose. cbn [forallb]. rewrite isclose_refl by lra.
  cbn [andb negb orb bind]. unfold for_range. cbn [Nat.sub seq fold_left].
  rewrite Hrate. reflexivity.
Qed.

(** The constructor returns [two_level_obe]. *)
Lemma two_level_obe_ok : two_level_obe_init false = Ok two_level_obe.
Proof.
  unfold two_level_obe, two_level_obe_init, obe_init.
  rewrite make_full_matrices_two_level. cbn [bind].
  unfold two_level_full.
  cbn -[build_decay_ev build_coherent_ev_submatrix].
  rewrite build_decay_ev_two_single_states.
  cbn -[build_coherent_ev_submatrix fill_decay_coherences fill_decay_out
        fill_decay_in state_rate].
  reflexivity.
Qed.

(* ------------------------------------------------------------------ *)
(** ** The setters of the initial state *)

(** What the constructor leaves of the initial state: the position and
    the velocity, and no [rho0]. *)
Lemma obe_init_initial_state (lasers : lasers_arg) (field : magField)
      (h : hamiltonian) (r v : ndarray1) (tr : bool) (sp : option bool)
      (mf : bool) (o : obe) :
  obe_init lasers field h r v tr sp mf = Ok o ->
  r0 o = Some r /\ v0 o = Some v /\ rho0 o = None /\ sol o = None.
Proof.
  intros H. unfold obe_init in H.
  destruct (make_full_matrices h) as [h'|e]; [|discriminate].
  cbn [bind] in H.
  destruct (full h') as [fm|]; [|discriminate].
  destruct (n_states h') as [n|]; [|discriminate].
  match type of H with
  | bind ?m _ = _ => destruct m as [u|e]; [|discriminate]
  end.
  cbn [bind] in H.
  match type of H with
  | bind ?m _ = _ => destruct m as [decay|e]; [|discriminate]
  end.
  cbn [bind] in H.
  match type of H with
  | bind ?m _ = _ => destruct m as [[[[H0 B] E] Estar]|e]; [|discriminate]
  end.
  cbn [bind] in H.
  match type of H with
  | bind ?m _ = _ => destruct m as [ev|e]; [|discriminate]
  end.
  cbn [bind] in H. inversion H; subst o; clear H. cbn.
  repeat split.
Qed.

(** [set_initial_rho] completes the initial state of an object that has
    its position and velocity. *)
Lemma set_initial_rho_initial_state (o o' : obe) (rho : ndarray1) :
  set_initial_rho o rho = Ok o' ->
  r0 o <> None -> v0 o <> None ->
  initial_state_set o'
  /\ sol o' = sol o
  /\ obe_laserBeams o' = obe_laserBeams o
  /\ obe_hamiltonian o' = obe_hamiltonian o
  /\ obe_n o' = obe_n o
  /\ transform_into_re_im o' = transform_into_re_im o.
Proof.
  unfold set_initial_rho. destruct (has_nan_or_inf rho); [discriminate|].
  intros H Hr Hv. inversion H; subst o'; clear H. cbn.
  repeat split; try assumption. discriminate.
Qed.

(** [evolve_density] on an object whose initial state is complete runs
    the solver and stores its solution. *)
Lemma evolve_density_stores (solve_ivp : ivp_solver) (o : obe)
      (t_span : R * R) (t_eval : option (list R)) (s : ode_solution) :
  initial_state_set o -> solve_ivp o t_span t_eval = Ok s ->
  evolve_density solve_ivp o t_span t_eval
  = Ok {| obe_hamiltonian := obe_hamiltonian o; obe_n := obe_n o;
          obe_laserBeams := obe_laserBeams o; obe_magField := obe_magField o;
          include_mag_forces := include_mag_forces o;
          transform_into_re_im := transform_into_re_im o;
          use_sparse_matrices := use_sparse_matrices o;
          ev_mat := ev_mat o; obe_U := obe_U o;
          r0 := r0 o; v0 := v0 o; rho0 := rho0 o; sol := Some s |}.
Proof.
  intros (Hrho & Hv & Hr) Hs. unfold evolve_density.
  destruct (rho0 o); [|contradiction].
  destruct (v0 o); [|contradiction].
  destruct (r0 o); [|contradiction].
  rewrite Hs. reflexivity.
Qed.

Lemma two_level_ground_obe_ok :
  set_initial_rho two_level_obe ground_rho = Ok two_level_ground_obe.
Proof. reflexivity. Qed.

Lemma two_level_ground_obe_state :
  initial_state_set two_level_ground_obe
  /\ sol two_level_ground_obe = None.
Proof.
  destruct (obe_init_initial_state (LasersOne no_beams) z_field two_level
              origin origin false None false two_level_obe two_level_obe_ok)
    as (Hr & Hv & _ & Hsol).
  destruct (set_initial_rho_initial_state _ _ _ two_level_ground_obe_ok)
    as (Hset & Hsol' & _).
  - rewrite Hr. discriminate.
  - rewrite Hv. discriminate.
  - split; [exact Hset | rewrite Hsol'; exact Hsol].
Qed.

(** C8, as the specification words it, fails: the two-level object with
    the ground-state [rho0], after [evolve_density] has stored a
    trajectory, still holds that trajectory after [set_initial_rho] with
    the valid ground-state [rho0]; [self.sol] has not become [None]. *)
Lemma set_initial_rho_does_not_reset_sol :
  exists o0 o1 o2,
    set_initial_rho two_level_obe ground_rho = Ok o0
    /\ evolve_density ground_solver o0 (0%R, 1%R) None = Ok o1
    /\ sol o1 = Some ground_solution
    /\ has_nan_or_inf ground_rho = false
    /\ set_initial_rho o1 ground_rho = Ok o2
    /\ sol o2 = Some ground_solution
    /\ sol o2 <> None.
Proof.
  exists two_level_ground_obe. eexists. eexists.
  split; [exact two_level_ground_obe_ok|].
  split; [apply (evolve_density_stores ground_solver two_level_ground_obe
                   (0%R, 1%R) None ground_solution
                   (proj1 two_level_ground_obe_state) eq_refl)|].
  split; [reflexivity|]. split; [reflexivity|].
  split; [reflexivity|]. split; [reflexivity|]. discriminate.
Qed.

(** C8 (amended): for every obe instance, [set_initial_rho] with a valid
    [rho0] (no [nan], no [inf]) returns, sets [rho0] (the real part in the
    real basis, the array as [complex128] in the complex basis) and changes
    nothing else: in particular the stored trajectory [self.sol] is kept,
    whereas [set_initial_position] and [set_initial_velocity] set it to
    [None]. *)
Theorem set_initial_rho_frame (o : obe) (rho r v : ndarray1) :
  has_nan_or_inf rho = false ->
  (exists o',
     set_initial_rho o rho = Ok o'
     /\ sol o' = sol o
     /\ rho0 o' = Some (if transform_into_re_im o && is_complex128 rho
                        then np_real rho
                        else if negb (transform_into_re_im o)
                                && negb (is_complex128 rho)
                             then astype_complex128 rho else rho)
     /\ obe_hamiltonian o' = obe_hamiltonian o
     /\ obe_n o' = obe_n o
     /\ obe_laserBeams o' = obe_laserBeams o
     /\ obe_magField o' = obe_magField o
     /\ include_mag_forces o' = include_mag_forces o
     /\ transform_into_re_im o' = transform_into_re_im o
     /\ use_sparse_matrices o' = use_sparse_matrices o
     /\ ev_mat o' = ev_mat o
     /\ obe_U o' = obe_U o
     /\ r0 o' = r0 o
     /\ v0 o' = v0 o)
  /\ sol (set_initial_position o r) = None
  /\ sol (set_initial_velocity o v) = None.
Proof.
  intros Hvalid. split; [|split; reflexivity].
  unfold set_initial_rho. rewrite Hvalid.
  eexists. split; [reflexivity|]. simpl.
  repeat split; reflexivity.
Qed.

(** The amended C8 at the two-level object holding a trajectory. *)
Lemma set_initial_rho_frame_witness :
  has_nan_or_inf ground_rho = false
  /\ exists o',
       set_initial_rho
         (returned obe_stub
            (evolve_density ground_solver two_level_ground_obe
                            (0%R, 1%R) None))
         ground_rho = Ok o'
       /\ sol o' = Some ground_solution.
Proof.
  split; [reflexivity|].
  destruct (set_initial_rho_frame
              (returned obe_stub
                 (evolve_density ground_solver two_level_ground_obe
                                 (0%R, 1%R) None))
              ground_rho origin origin eq_refl)
    as [(o' & Hset & Hsol & _) _].
  exists o'. split; [exact Hset|]. rewrite Hsol.
  rewrite (evolve_density_stores ground_solver two_level_ground_obe
             (0%R, 1%R) None ground_solution
             (proj1 two_level_ground_obe_state) eq_refl).
  reflexivity.
Defined.

(* ------------------------------------------------------------------ *)
(** ** The search for the equilibrium force *)

Lemma for_each_exn_total {A St : Type} (l : list A)
      (body : A -> St -> result St) :
  (forall x, In x l -> forall s, exists s', body x s = Ok s') ->
  forall s, exists s', for_each_exn l body s = Ok s'.
Proof.
  unfold for_each_exn. induction l as [|x l IH]; intros H s; simpl.
  - exists s. reflexivity.
  - destruct (H x (or_introl eq_refl) s) as (s1 & Hs1). rewrite Hs1.
    apply IH. intros y Hy. apply H. right. exact Hy.
Qed.

Lemma for_range_exn_total {St : Type} (lo hi : nat)
      (body : nat -> St -> result St) :
  (forall i s, (lo <= i < hi)%nat -> exists s', body i s = Ok s') ->
  forall s, exists s', for_range_exn lo hi body s = Ok s'.
Proof.
  intros H s. unfold for_range_exn.
  apply (for_each_exn_total (seq lo (hi - lo)) body).
  intros x Hx s0. apply H. apply in_seq in Hx. lia.
Qed.

Lemma in_combine_seq_lt {A : Type} (l : list A) (k : nat) (x : A) (lo : nat) :
  In (k, x) (combine (seq lo (List.length l)) l) -> (k < lo + List.length l)%nat.
Proof.
  revert lo. induction l as [|y l IH]; intros lo; simpl; [contradiction|].
  intros [E|Hin].
  - inversion E. lia.
  - apply IH in Hin. lia.
Qed.

(** On a consistent object that holds a solution, [force_from_sol]
    returns. *)
Lemma force_from_sol_returns (o : obe) (s : ode_solution) :
  obe_ready o -> sol o = Some s ->
  exists w, force_from_sol o = Ok w
            /\ w_samples w = List.length (sol_t s).
Proof.
  intros Hready Hsol. unfold force_from_sol. rewrite Hsol.
  set (body := fun (key : string) (w : window_forces) => _).
  assert (Hbody : forall key, In key (dict_keys (obe_laserBeams o)) ->
            forall w, exists w', body key w = Ok w'
                                 /\ w_samples w' = List.length (sol_t s)).
  { intros key Hkey w.
    destruct (Hready key Hkey)
      as (beams & ind & ns0 & ns1 & fm & bare & Hb & Hind & Hn0 & Hn1 & Hfm
          & Hbare & Hgrad).
    unfold body. unfold dict_item. rewrite Hb, Hind. cbn [bind].
    assert (Hrho : exists x, rho_ji_d_of o s key ind = Ok x).
    { unfold rho_ji_d_of. rewrite Hn0.
      apply for_range_exn_total. intros ii acc _. rewrite Hn1.
      apply for_range_exn_total. intros jj acc' _. rewrite Hfm.
      unfold dict_item. rewrite Hbare. cbn [bind]. eexists. reflexivity. }
    destruct Hrho as (x & ->). cbn [bind].
    match goal with
    | |- context [for_each_exn ?l ?f ?init] =>
        destruct (for_each_exn_total l f) with (s := init) as (flq & Hflq)
    end.
    - intros [ll dE] Hin acc. apply in_combine_seq_lt in Hin.
      specialize (Hgrad (fun c smp =>
          if transform_into_re_im o
          then sol_y s (sol_rows s - 3 + c)%nat smp
          else Creal (sol_y s (sol_rows s - 3 + c)%nat smp)) (sol_t s)).
      assert (Hlt : (ll <? num_of_beams beams)%nat = true)
        by (apply Nat.ltb_lt; simpl in Hin; lia).
      rewrite Hlt. eexists. reflexivity.
    - rewrite Hflq. cbn [bind]. eexists. split; reflexivity. }
  assert (Hgen : forall l w0,
            (forall key, In key l -> In key (dict_keys (obe_laserBeams o))) ->
            w_samples w0 = List.length (sol_t s) ->
            exists w, for_each_exn l body w0 = Ok w
                      /\ w_samples w = List.length (sol_t s)).
  { unfold for_each_exn. induction l as [|key l IH]; intros w0 Hsub Hw0; simpl.
    - exists w0. split; [reflexivity | exact Hw0].
    - destruct (Hbody key (Hsub key (or_introl eq_refl)) w0) as (w1 & Hw1 & HT).
      rewrite Hw1. apply IH; [|exact HT].
      intros k Hk. apply Hsub. right. exact Hk. }
  apply Hgen; [auto | reflexivity].
Qed.

Lemma last_column_returns (s : ode_solution) (lo hi : nat) :
  sol_t s <> [] ->
  exists a, last_column s lo hi = Ok a /\ has_nan_or_inf a = false.
Proof.
  intros Hne. unfold last_column.
  destruct (sol_t s) as [|t0 ts]; [contradiction|]. simpl.
  eexists. split; [reflexivity|].
  unfold has_nan_or_inf. simpl.
  induction (seq lo (hi - lo)) as [|x l IH]; simpl; [reflexivity | exact IH].
Qed.




(* ------------------------------------------------------------------ *)
(** ** What the constructor returns *)

(** The stages of [obe.__init__] that a returned object went through, and
    its attributes. *)
Lemma obe_init_inv (lasers : lasers_arg) (field : magField) (h : hamiltonian)
      (r v : ndarray1) (tr : bool) (sp : option bool) (mf : bool) (o : obe) :
  obe_init lasers field h r v tr sp mf = Ok o ->
  let beams := match lasers with
               | LasersOne b => [("g->e"%string, b)]
               | LasersDict d => d
               end in
  exists h' fm n decay H0 B E Estar,
    make_full_matrices h = Ok h'
    /\ full h' = Some fm
    /\ n_states h' = Some n
    /\ build_decay_ev n (List.length (blocks h')) (ns h') (d_q fm) = Ok decay
    /\ build_coherent_ev n fm (dict_keys beams) = Ok (H0, B, E, Estar)
    /\ (if tr
        then transform_ev_matrices n decay H0 B E Estar = Ok (ev_mat o)
        else ev_mat o = {| ev_decay := decay; ev_H0 := H0; ev_B := B;
                           ev_E := Some E; ev_Estar := Some Estar;
                           ev_reE := None; ev_imE := None |})
    /\ obe_hamiltonian o = h'
    /\ obe_n o = n
    /\ obe_laserBeams o = beams
    /\ obe_magField o = field
    /\ transform_into_re_im o = tr
    /\ sol o = None.
Proof.
  intros H beams. unfold obe_init in H.
  destruct (make_full_matrices h) as [h'|e] eqn:Hfull; [|discriminate].
  cbn [bind] in H.
  destruct (full h') as [fm|] eqn:Hfm; [|discriminate].
  destruct (n_states h') as [n|] eqn:Hn; [|discriminate].
  fold beams in H.
  destruct (for_each_exn (dict_keys beams) _ tt) as [u|e] eqn:Hkeys;
    [|discriminate].
  cbn [bind] in H.
  destruct (build_decay_ev n (List.length (blocks h')) (ns h') (d_q fm))
    as [decay|e] eqn:Hdecay; [|discriminate].
  cbn [bind] in H.
  destruct (build_coherent_ev n fm (dict_keys beams)) as [[[[H0 B] E] Estar]|e]
    eqn:Hcoh; [|discriminate].
  cbn [bind] in H.
  exists h', fm, n, decay, H0, B, E, Estar.
  destruct tr.
  - destruct (transform_ev_matrices n decay H0 B E Estar) as [ev|e] eqn:Htr;
      [|discriminate].
    cbn [bind] in H. inversion H; subst o; clear H. simpl.
    repeat split; try assumption; reflexivity.
  - cbn [bind] in H. inversion H; subst o; clear H. simpl.
    repeat split; try assumption; reflexivity.
Qed.

Lemma two_level_obe_ready : obe_ready two_level_obe.
Proof.
  destruct (obe_init_inv (LasersOne no_beams) z_field two_level origin origin
              false None false two_level_obe two_level_obe_ok)
    as (h' & fm & n & decay & H0 & B & E & Estar & Hfull & Hfm & Hn & _ & _ & _
        & Hh & _ & Hbeams & _).
  cbv zeta in Hbeams.
  assert (Hh' : h' = two_level_full)
    by (rewrite make_full_matrices_two_level in Hfull;
        inversion Hfull; reflexivity).
  rewrite Hh' in Hfm, Hh. clear Hfull Hn Hh'.
  intros key Hkey. rewrite Hbeams in Hkey. simpl in Hkey.
  destruct Hkey as [<-|[]].
  unfold key_ready. rewrite Hh, Hbeams.
  exists no_beams, (0%nat, 1%nat), 1%nat, 1%nat, fm.
  assert (Hbare : exists bare, dict_get (d_q_bare fm) "g->e" = Some bare).
  { vm_compute in Hfm. inversion Hfm; subst fm. vm_compute.
    eexists. reflexivity. }
  destruct Hbare as (bare & Hbare). exists bare.
  repeat split; try reflexivity; try assumption;
    try (intros positions times; simpl; lia).
Qed.

Lemma ground_solver_completes : completes ground_solver.
Proof.
  intros o t_span t_eval. exists ground_solution.
  split; [reflexivity | discriminate].
Qed.








(* ------------------------------------------------------------------ *)
(** ** [full_OBE_ev] against [drhodt] *)

Lemma matvec_mplus (N : nat) (A B : matrix) (x : vector) (a : nat) :
  matvec N (mplus A B) x a = (matvec N A x a + matvec N B x a)%C.
Proof.
  unfold matvec, mplus. rewrite <- csum_plus.
  apply csum_ext. intros; ring.
Qed.

Lemma matvec_mminus (N : nat) (A B : matrix) (x : vector) (a : nat) :
  matvec N (mminus A B) x a = (matvec N A x a - matvec N B x a)%C.
Proof.
  unfold matvec, mminus.
  replace (csum N (fun b => (A a b * x b)%C) - csum N (fun b => (B a b * x b)%C))%C
    with (csum N (fun b => (A a b * x b)%C)
          + (- C1) * csum N (fun b => (B a b * x b)%C))%C by ring.
  rewrite <- csum_scale, <- csum_plus.
  apply csum_ext. intros; ring.
Qed.

Lemma matvec_mscale (N : nat) (z : C) (A : matrix) (x : vector) (a : nat) :
  matvec N (mscale z A) x a = (z * matvec N A x a)%C.
Proof.
  unfold matvec, mscale. rewrite <- csum_scale.
  apply csum_ext. intros; ring.
Qed.

Lemma Cabs_C0 : Cabs C0 = 0%R.
Proof.
  unfold Cabs, abs2, C0, Re, Im. simpl.
  replace (0 * (0 * 1) + 0 * (0 * 1))%R with 0%R by ring. apply sqrt_0.
Qed.

Lemma Cabs_RtoC_1 : Cabs (RtoC 1) = 1%R.
Proof.
  unfold Cabs, abs2, RtoC, Re, Im. simpl.
  replace (1 * (1 * 1) + 0 * (0 * 1))%R with 1%R by ring. apply sqrt_1.
Qed.

Lemma above_threshold_C0 : above_threshold C0 = false.
Proof.
  unfold above_threshold. rewrite Cabs_C0. apply Rlt_bool_false. lra.
Qed.

Lemma above_threshold_1 : above_threshold (RtoC 1) = true.
Proof.
  unfold above_threshold. rewrite Cabs_RtoC_1. apply Rlt_bool_true. lra.
Qed.

(** What [build_coherent_ev] returns for the field-independent and the
    magnetic part. *)
Lemma build_coherent_ev_inv (n : nat) (fm : full_matrices) (keys : list string)
      (H0 : matrix) (B : nat -> matrix) (E Estar : dict (nat -> matrix)) :
  build_coherent_ev n fm keys = Ok (H0, B, E, Estar) ->
  H0 = build_coherent_ev_submatrix n (H_0 fm)
  /\ B = (fun q => build_coherent_ev_submatrix n (mu_q fm q)).
Proof.
  unfold build_coherent_ev. intros H.
  match type of H with
  | bind ?m _ = _ => destruct m as [EE|e]; [|discriminate]
  end.
  cbn [bind] in H. inversion H. split; reflexivity.
Qed.

(** The magnetic moment of the two-level atom along [q = 0]: [1] on the
    excited state. *)
Lemma two_level_mu_q_1 (fm : full_matrices) (i j : nat) :
  full two_level_full = Some fm ->
  (i < 2)%nat -> (j < 2)%nat ->
  mu_q fm 1 i j = if (i =? 1) && (j =? 1) then C1 else C0.
Proof.
  intros Hfm Hi Hj. vm_compute in Hfm. inversion Hfm; subst fm; clear Hfm.
  unfold mu_q.
  destruct i as [|[|i]]; try lia; destruct j as [|[|j]]; try lia;
    vm_compute; apply C_eq; simpl; lra.
Qed.

(** C7 (the code against the claim): at the two-level object in the
    complex basis, the position [r = (0, 0, 1)], the time [t = 0] and the
    density matrix of [(|g> + |e>)/sqrt(2)], both calls return, and the
    product of the matrix of [full_OBE_ev(r, t)] with [rho] differs from
    [drhodt(r, t, rho)] in the entry of index [(0, 1)]: [drhodt] evaluates
    the magnetic field at [r], where it is [1] along [z], and [full_OBE_ev]
    at [t], where it is [0]. *)
Theorem full_OBE_ev_differs_from_drhodt :
  exists M v,
    full_OBE_ev two_level_obe position_z1 0 = Ok M
    /\ drhodt two_level_obe position_z1 0 (flatten 2 rho_plus) = Ok v
    /\ matvec (2 * 2) M (flatten 2 rho_plus) (density_index 2 0 1)
       <> v (density_index 2 0 1).
Proof.
  destruct (obe_init_inv (LasersOne no_beams) z_field two_level origin origin
              false None false two_level_obe two_level_obe_ok)
    as (h' & fm & n & decay & H0 & B & E & Estar & Hfull & Hfm & Hn & _ & Hcoh
        & Hev & Hh & Hobn & Hbeams & Hfield & Htr & _).
  cbv zeta in Hbeams.
  assert (Hh' : h' = two_level_full)
    by (rewrite make_full_matrices_two_level in Hfull;
        inversion Hfull; reflexivity).
  clear Hh Hfull. subst h'.
  assert (Hn2 : n = 2%nat) by (vm_compute in Hn; inversion Hn; reflexivity).
  clear Hn. rewrite Hn2 in Hcoh, Hobn. clear Hn2 n.
  destruct (build_coherent_ev_inv _ _ _ _ _ _ _ Hcoh) as [_ HB].
  unfold full_OBE_ev, drhodt, return_magnetic_field.
  rewrite Hbeams, Htr, Hev, Hobn, Hfield.
  cbn [dict_keys map fst for_each_exn fold_left ev_decay ev_H0 ev_B].
  change (dict_item [("g->e"%string, no_beams)] "g->e") with (Ok no_beams).
  cbn [bind total_electric_field no_beams].
  unfold for_range_exn. cbn [Nat.sub seq fold_left].
  rewrite above_threshold_C0. cbn [bind].
  unfold for_range. cbn [Nat.sub seq fold_left Field z_field position_z1 last].
  assert (Hz0 : (RtoC (0 / sqrt 2) + Ci * RtoC 0 * RtoC (/ sqrt 2))%C = C0)
    by (apply C_eq; unfold Cadd, Cmul, Ci, RtoC, C0, Re, Im; simpl; lra).
  assert (Hz2 : (RtoC (- 0 / sqrt 2) + Ci * RtoC 0 * RtoC (/ sqrt 2))%C = C0)
    by (apply C_eq; unfold Cadd, Cmul, Ci, RtoC, C0, Re, Im; simpl; lra).
  rewrite Hz0, Hz2.
  change (RtoC 0) with C0.
  rewrite above_threshold_C0, above_threshold_1.
  eexists. eexists. split; [reflexivity|]. split; [reflexivity|].
  rewrite matvec_mplus. unfold vplus, vscale.
  rewrite HB. rewrite coherent_ev_matvec by lia.
  rewrite !csum_S, csum_0.
  rewrite !(two_level_mu_q_1 fm) by (assumption || lia).
  rewrite !flatten_density_index by lia.
  cbn [Nat.eqb andb]. unfold rho_plus.
  intros Heq.
  remember (matvec (2 * 2) decay (flatten 2 (fun _ _ : nat => RtoC 0.5))
                   (density_index 2 0 1)) as xd.
  remember (matvec (2 * 2) H0 (flatten 2 (fun _ _ : nat => RtoC 0.5))
                   (density_index 2 0 1)) as xh.
  apply (f_equal Im) in Heq. destruct xd as [dr di], xh as [hr hi].
  unfold Cadd, Csub, Cmul, Ci, C1, C0, RtoC, Re, Im in Heq. simpl in Heq. lra.
Qed.

(* ------------------------------------------------------------------ *)
(** ** [return_full_H] *)

Lemma for_each_exn_pure {A St : Type} (l : list A)
      (body : A -> St -> result St) (step : A -> St -> St) :
  (forall x s, In x l -> body x s = Ok (step x s)) ->
  forall s, for_each_exn l body s = Ok (fold_left (fun acc x => step x acc) l s).
Proof.
  unfold for_each_exn. induction l as [|x l IH]; intros H s; simpl.
  - reflexivity.
  - rewrite H by (left; reflexivity). apply IH.
    intros y s' Hy. apply H. right. exact Hy.
Qed.

Lemma two_level_ab_ok :
  (h <- add_H_0_block (hamiltonian_empty 1) "a" (array_1x1 C0) ;;
   h <- add_H_0_block h "b" (array_1x1 C0) ;;
   add_d_q_block h "a" "b" (array_3x1x1 C0 C1 C0) 1 1) = Ok two_level_ab.
Proof.
  unfold add_H_0_block, add_d_q_block.
  run_blocks. unfold new_block, new_vector_block. run_blocks. reflexivity.
Qed.

Lemma dict_get_in_keys {V : Type} (d : dict V) (key : string) :
  In key (dict_keys d) -> exists v, dict_get d key = Some v.
Proof.
  induction d as [|[k v] d IH]; simpl; [contradiction|].
  intros [<-|Hin].
  - rewrite String.eqb_refl. exists v. reflexivity.
  - destruct (String.eqb k key); [exists v; reflexivity | apply IH; exact Hin].
Qed.

(** The term one key of the field dictionary subtracts, entry by entry. *)
Lemma coupling_step_entry (fm : full_matrices) (Eq : dict (nat -> C))
      (key : string) (bare star : nat -> matrix) (E : nat -> C) (H : matrix)
      (r c : nat) :
  fold_left (fun (acc : matrix) (iq : nat * Z) =>
      let '(ii, q) := iq in
      mminus acc
        (mplus (mscale (RtoC (0.5 * minus_one_pow q) * E (2 - ii)%nat)%C (bare ii))
               (mscale (RtoC (0.5 * minus_one_pow q) * Cconj (E (2 - ii)%nat))%C
                       (star ii))))
    (combine (seq 0 3) [(-1)%Z; 0%Z; 1%Z]) H r c
  = (H r c
     - csum 3 (fun ii =>
         RtoC (0.5 * minus_one_pow (Z.of_nat ii - 1))
         * (bare ii r c * E (2 - ii)%nat + star ii r c * Cconj (E (2 - ii)%nat))))%C.
Proof.
  cbn [combine seq fold_left]. unfold mminus, mplus, mscale.
  rewrite !csum_S, csum_0. cbn [Z.of_nat Z.sub Z.opp Z.add Pos.of_succ_nat
    Pos.succ Z.pos_sub Z.succ_double Z.pred_double Z.double Pos.pred_double].
  ring.
Qed.

(** The matrix [return_full_H] returns, entry by entry. *)
Lemma return_full_H_entries (h : hamiltonian) (fm : full_matrices)
        (Eq : Eq_arg) (Bq : nat -> C) :
  full h = Some fm ->
  (forall key,
     In key (dict_keys (match Eq with
                        | EqArray E => [("g->e"%string, E)]
                        | EqDict d => d
                        end)) ->
     dict_get (d_q_bare fm) key <> None /\ dict_get (d_q_star fm) key <> None) ->
  exists H,
    return_full_H h Eq Bq = Ok (h, H)
    /\ forall r c,
         H r c = code_full_H fm (match Eq with
                                 | EqArray E => [("g->e"%string, E)]
                                 | EqDict d => d
                                 end) Bq r c.
Proof.
  intros Hfm Hkeys. unfold return_full_H. rewrite Hfm. cbn [bind]. rewrite Hfm.
  set (d := match Eq with
            | EqArray E => [("g->e"%string, E)]
            | EqDict d => d
            end) in *.
  set (H1 := mminus (H_0 fm)
               (fun r c => csum 3 (fun q => (mu_q fm q r c * Cconj (Bq q))%C))).
  set (step := fun (key : string) (H : matrix) =>
    fold_left (fun (acc : matrix) (iq : nat * Z) =>
      let '(ii, q) := iq in
      mminus acc
        (mplus (mscale (RtoC (0.5 * minus_one_pow q)
                        * dict_get_or d key (fun _ => C0) (2 - ii)%nat)%C
                       (dict_get_or (d_q_bare fm) key vzeros ii))
               (mscale (RtoC (0.5 * minus_one_pow q)
                        * Cconj (dict_get_or d key (fun _ => C0) (2 - ii)%nat))%C
                       (dict_get_or (d_q_star fm) key vzeros ii))))
    (combine (seq 0 3) [(-1)%Z; 0%Z; 1%Z]) H).
  rewrite (for_each_exn_pure (dict_keys d) _ step).
  - cbn [bind]. eexists. split; [reflexivity|].
    intros r c. unfold code_full_H, coupling_formula.
    assert (Hgen : forall l H,
      fold_left (fun acc x => step x acc) l H r c
      = (H r c - csum_list (map (fun key =>
           csum 3 (fun ii =>
             RtoC (0.5 * minus_one_pow (Z.of_nat ii - 1))
             * (dict_get_or (d_q_bare fm) key vzeros ii r c
                * dict_get_or d key (fun _ => C0) (2 - ii)%nat
                + dict_get_or (d_q_star fm) key vzeros ii r c
                  * Cconj (dict_get_or d key (fun _ => C0) (2 - ii)%nat)))) l))%C).
    { unfold csum_list.
      induction l as [|key l IH]; intros H; cbn [fold_left map fold_right].
      - ring.
      - rewrite IH. unfold step at 1.
        rewrite (coupling_step_entry fm d key). ring. }
    rewrite Hgen. unfold H1, mminus, csum_list. reflexivity.
  - intros key H Hin.
    destruct (Hkeys key Hin) as [Hb Hs].
    destruct (dict_get (d_q_bare fm) key) as [bare|] eqn:Eb; [|contradiction].
    destruct (dict_get (d_q_star fm) key) as [star|] eqn:Es; [|contradiction].
    destruct (dict_get_in_keys d key Hin) as (E & HE).
    unfold step, dict_get_or. rewrite Eb, Es, HE.
    apply for_each_exn_pure.
    intros [ii q] acc _. unfold dict_item. rewrite Eb, Es, HE. reflexivity.
Qed.

(** X29: what [return_full_H(Eq, Bq)] computes.  For an assembled
    Hamiltonian and a field dictionary whose keys are transitions of the
    Hamiltonian, it returns [H_0 - mu_q.B*] minus, for every key of [Eq]
    and every spherical component [q] (array index [ii = q + 1]),
    [1/2 (-1)^q (d_q_bare[ii] E[2-ii] + d_q_star[ii] conj(E[2-ii]))]; a
    single field vector [Eq] is the dictionary [{'g->e': Eq}]. *)
Theorem return_full_H_formula (h : hamiltonian) (fm : full_matrices)
        (Eq : Eq_arg) (Bq : nat -> C) :
  full h = Some fm ->
  (forall key,
     In key (dict_keys (match Eq with
                        | EqArray E => [("g->e"%string, E)]
                        | EqDict d => d
                        end)) ->
     dict_get (d_q_bare fm) key <> None /\ dict_get (d_q_star fm) key <> None) ->
  exists H,
    return_full_H h Eq Bq = Ok (h, H)
    /\ forall r c,
         H r c = code_full_H fm (match Eq with
                                 | EqArray E => [("g->e"%string, E)]
                                 | EqDict d => d
                                 end) Bq r c.
Proof. apply return_full_H_entries. Qed.

Lemma two_level_full_fm : full two_level_full = Some two_level_fm.
Proof. vm_compute. reflexivity. Qed.

(** C3: [return_full_H] does not return the coupling the specification
    states.  At the two-level atom with the field [E = (1j, 1j, 1j)] on
    [g->e] and no magnetic field, the entry [(0, 1)] of the returned
    matrix is [-0.5j]: the code multiplies [d_q_bare] by the field as it
    is and [d_q_star] by its conjugate.  The stated coupling
    [1/2 (-1)^q (d_q E* + d_q* E)], which is also how [make_full_matrices]
    documents the two operators and how [obe.full_OBE_ev] and
    [obe.drhodt] pair them with the field, gives [+0.5j], whichever
    component of [E] is paired with [d_q]. *)
Theorem return_full_H_conjugates_the_wrong_term :
  exists H,
    return_full_H two_level_full (EqDict [("g->e"%string, E_all_i)]) B_zero
    = Ok (two_level_full, H)
    /\ H 0%nat 1%nat = (0%R, (-0.5)%R)
    /\ spec_full_H (fun ii => ii) two_level_fm
                   [("g->e"%string, E_all_i)] B_zero 0 1 = (0%R, 0.5%R)
    /\ spec_full_H (fun ii => (2 - ii)%nat) two_level_fm
                   [("g->e"%string, E_all_i)] B_zero 0 1 = (0%R, 0.5%R).
Proof.
  destruct (return_full_H_entries two_level_full two_level_fm
              (EqDict [("g->e"%string, E_all_i)]) B_zero two_level_full_fm)
    as (H & Hret & Hentry).
  - intros key [<-|[]]. split; vm_compute; discriminate.
  - exists H. split; [exact Hret|]. rewrite Hentry.
    split; [|split]; vm_compute; apply C_eq; simpl; lra.
Qed.

(** A single field vector is filed under [g->e], as the docstring of
    [return_full_H] says: at a Hamiltonian whose sole transition is
    [a->b] the call raises [KeyError]. *)
Lemma return_full_H_single_vector_is_g_e :
  make_full_matrices two_level_ab = Ok two_level_ab_full
  /\ dict_keys (laser_keys two_level_ab_full) = ["a->b"%string]
  /\ return_full_H two_level_ab_full (EqArray E_all_i) B_zero = Raise KeyError.
Proof.
  split; [|split].
  - unfold two_level_ab_full. vm_compute. reflexivity.
  - vm_compute. reflexivity.
  - vm_compute. reflexivity.
Qed.

(** The formula at the two-level atom. *)
Lemma return_full_H_formula_witness :
  (full two_level_full = Some two_level_fm
   /\ forall key,
        In key (dict_keys [("g->e"%string, E_all_i)]) ->
        dict_get (d_q_bare two_level_fm) key <> None
        /\ dict_get (d_q_star two_level_fm) key <> None)
  /\ exists H,
       return_full_H two_level_full (EqDict [("g->e"%string, E_all_i)]) B_zero
       = Ok (two_level_full, H)
       /\ forall r c,
            H r c = code_full_H two_level_fm [("g->e"%string, E_all_i)]
                                B_zero r c.
Proof.
  assert (Hkeys : forall key,
            In key (dict_keys [("g->e"%string, E_all_i)]) ->
            dict_get (d_q_bare two_level_fm) key <> None
            /\ dict_get (d_q_star two_level_fm) key <> None).
  { intros key [<-|[]]. split; vm_compute; discriminate. }
  split; [split; [exact two_level_full_fm | exact Hkeys]|].
  exact (return_full_H_formula two_level_full two_level_fm
           (EqDict [("g->e"%string, E_all_i)]) B_zero
           two_level_full_fm Hkeys).
Defined.

(* ------------------------------------------------------------------ *)
(** ** Generators that conserve the trace *)

Lemma trace_free_matvec (n : nat) (M : matrix) (rho : vector) :
  trace_free n M -> diag_sum n (matvec (n * n) M rho) = C0.
Proof.
  intros H. unfold diag_sum, matvec.
  rewrite csum_swap.
  apply csum_zero. intros b Hb.
  rewrite csum_scale_r. rewrite (H b Hb). ring.
Qed.

Lemma trace_free_mplus (n : nat) (A B : matrix) :
  trace_free n A -> trace_free n B -> trace_free n (mplus A B).
Proof.
  intros HA HB c Hc. unfold mplus. rewrite csum_plus, HA, HB by exact Hc. ring.
Qed.

Lemma trace_free_mscale (n : nat) (z : C) (A : matrix) :
  trace_free n A -> trace_free n (mscale z A).
Proof.
  intros HA c Hc. unfold mscale. rewrite csum_scale, HA by exact Hc. ring.
Qed.

Lemma trace_free_mminus (n : nat) (A B : matrix) :
  trace_free n A -> trace_free n B -> trace_free n (mminus A B).
Proof.
  intros HA HB c Hc. unfold mminus.
  rewrite (csum_ext n _ (fun i => (A (density_index n i i) c
                                   + (- C1) * B (density_index n i i) c)%C))
    by (intros; ring).
  rewrite csum_plus, csum_scale, HA, HB by exact Hc. ring.
Qed.

Lemma csum_Creal (n : nat) (f : nat -> C) :
  csum n (fun i => Creal (f i)) = Creal (csum n f).
Proof.
  induction n as [|n IH].
  - rewrite !csum_0. symmetry. apply Creal_0.
  - rewrite !csum_S, IH, Creal_add. reflexivity.
Qed.

Lemma trace_free_Creal (n : nat) (A : matrix) :
  trace_free n A -> trace_free n (fun a b => Creal (A a b)).
Proof.
  intros HA c Hc. rewrite csum_Creal, HA by exact Hc. apply Creal_0.
Qed.

(** The matrix of a commutator conserves the trace. *)
Lemma coherent_ev_trace_free (n : nat) (H : matrix) :
  trace_free n (build_coherent_ev_submatrix n H).
Proof.
  intros c Hc.
  destruct (density_index_decode n c Hc) as (k & l & Hk & Hl & ->).
  rewrite (csum_ext n _ (fun i => csum n (fun j =>
     ((if density_index n k l =? density_index n i j then Ci * H j i else C0)
      + (if density_index n k l =? density_index n j i
         then - (Ci * H i j) else C0))%C))).
  - rewrite (csum_ext n _ (fun i =>
       (csum n (fun j =>
          if density_index n k l =? density_index n i j then Ci * H j i else C0)
        + csum n (fun j =>
          if density_index n k l =? density_index n j i
          then - (Ci * H i j) else C0))%C))
      by (intros; apply csum_plus).
    rewrite csum_plus.
    rewrite (csum_select_pair n k l (fun i j => (Ci * H j i)%C) Hk Hl).
    rewrite (csum_swap n n (fun i j =>
       if density_index n k l =? density_index n j i
       then (- (Ci * H i j))%C else C0)).
    rewrite (csum_select_pair n k l (fun j i => (- (Ci * H i j))%C) Hk Hl).
    ring.
  - intros i Hi. apply coherent_ev_entry; assumption.
Qed.

(** The diagonal rows of [Uinv] are those of the identity, so the change
    to the real basis keeps a generator trace-conserving. *)
Lemma transform_trace_free (n : nat) (M : matrix) :
  trace_free n M ->
  trace_free n (matmul (n * n)
                  (matmul (n * n) (snd (build_transform_matrices n)) M)
                  (fst (build_transform_matrices n))).
Proof.
  intros HM c Hc. unfold matmul.
  rewrite csum_swap. apply csum_zero. intros b Hb.
  rewrite csum_scale_r.
  rewrite (csum_ext n _ (fun i => M (density_index n i i) b)).
  - rewrite (HM b Hb). ring.
  - intros i Hi.
    rewrite (csum_ext (n * n) _ (fun a =>
       ((if a =? density_index n i i then C1 else C0) * M a b)%C)).
    + rewrite csum_one_point by (apply density_index_lt; assumption). ring.
    + intros a _.
      destruct (build_transform_matrices_rows n i i a Hi Hi) as [_ ->].
      unfold Uinv_row. rewrite Nat.eqb_refl. reflexivity.
Qed.

Lemma transform_with_trace_free (n : nat) (M M' : matrix) :
  trace_free n M ->
  transform_with n (build_transform_matrices n) M = Ok M' ->
  trace_free n M'.
Proof.
  intros HM. unfold transform_with, transform_ev_matrix.
  cbn [ensure_transform_matrices].
  destruct (build_transform_matrices n) as [U Uinv] eqn:EU. cbn [snd].
  destruct (allclose_imag_0 _ _); [|discriminate].
  intros H. inversion H; subst M'; clear H.
  apply trace_free_Creal.
  pose proof (transform_trace_free n M HM) as HT.
  rewrite EU in HT. exact HT.
Qed.

(* ------------------------------------------------------------------ *)
(** ** Manifolds and their offsets *)

Lemma offset_le_total (ns : list nat) (a : nat) :
  (offset ns a <= list_sum ns)%nat.
Proof.
  unfold offset. revert a. induction ns as [|m ns IH]; intros a.
  - rewrite firstn_nil. simpl. lia.
  - destruct a as [|a]; simpl; [lia|]. specialize (IH a). lia.
Qed.

Lemma offset_mono (ns : list nat) (a b : nat) :
  (a <= b)%nat -> (offset ns a <= offset ns b)%nat.
Proof.
  unfold offset. revert a b. induction ns as [|m ns IH]; intros a b Hab.
  - rewrite !firstn_nil. lia.
  - destruct a as [|a]; simpl; [lia|].
    destruct b as [|b]; [lia|]. simpl. specialize (IH a b). lia.
Qed.

Lemma manifold_hi_le_total (ns : list nat) (ll : nat) :
  (manifold_hi ns ll <= list_sum ns)%nat.
Proof. apply offset_le_total. Qed.

Lemma manifold_lo_le_hi (ns : list nat) (ll : nat) :
  (manifold_lo ns ll <= manifold_hi ns ll)%nat.
Proof. apply offset_mono. lia. Qed.

(** Two manifolds that share a state are the same manifold. *)
Lemma manifold_unique (ns : list nat) (ll ll' k : nat) :
  (manifold_lo ns ll <= k < manifold_hi ns ll)%nat ->
  (manifold_lo ns ll' <= k < manifold_hi ns ll')%nat ->
  ll = ll'.
Proof.
  unfold manifold_lo, manifold_hi. intros H H'.
  destruct (lt_eq_lt_dec ll ll') as [[Hlt|Heq]|Hgt]; [|exact Heq|].
  - pose proof (offset_mono ns (ll + 1) ll'). lia.
  - pose proof (offset_mono ns (ll' + 1) ll). lia.
Qed.

(* ------------------------------------------------------------------ *)
(** ** Sums that select *)

Lemma csum_range_if (lo hi : nat) (b : bool) (f : nat -> C) :
  csum_range lo hi (fun i => if b then f i else C0)
  = if b then csum_range lo hi f else C0.
Proof.
  destruct b; [reflexivity|]. apply csum_range_zero. reflexivity.
Qed.

Lemma csum_range_select (lo hi k : nat) (G : nat -> C) :
  csum_range lo hi (fun i => if i =? k then G i else C0)
  = if (lo <=? k) && (k <? hi) then G k else C0.
Proof.
  destruct (Nat.leb_spec lo k), (Nat.ltb_spec k hi); simpl.
  - rewrite (csum_range_single lo hi k).
    + rewrite Nat.eqb_refl. reflexivity.
    + lia.
    + intros i _ Hne.
      destruct (Nat.eqb_spec i k); [contradiction | reflexivity].
  - apply csum_range_zero. intros i Hi.
    destruct (Nat.eqb_spec i k); [lia | reflexivity].
  - apply csum_range_zero. intros i Hi.
    destruct (Nat.eqb_spec i k); [lia | reflexivity].
  - apply csum_range_zero. intros i Hi.
    destruct (Nat.eqb_spec i k); [lia | reflexivity].
Qed.

Lemma csum_range_select_pair (n lo hi lo' hi' k l : nat)
      (G : nat -> nat -> C) :
  (k < n)%nat -> (hi <= n)%nat ->
  csum_range lo hi (fun kk => csum_range lo' hi' (fun ll =>
    if density_index n k l =? density_index n kk ll then G kk ll else C0))
  = if (lo <=? k) && (k <? hi) && (lo' <=? l) && (l <? hi')
    then G k l else C0.
Proof.
  intros Hk Hhi.
  rewrite (csum_range_ext lo hi _ (fun kk =>
     if kk =? k
     then (if (lo' <=? l) && (l <? hi') then G kk l else C0)
     else C0)).
  - rewrite csum_range_select.
    destruct (lo <=? k), (k <? hi), (lo' <=? l), (l <? hi'); reflexivity.
  - intros kk Hkk.
    rewrite (csum_range_ext lo' hi' _ (fun ll =>
       if ll =? l then (if kk =? k then G kk ll else C0) else C0)).
    + rewrite csum_range_select.
      destruct (kk =? k); destruct ((lo' <=? l) && (l <? hi')); reflexivity.
    + intros ll Hll. rewrite density_index_eqb by lia.
      rewrite (Nat.eqb_sym k kk), (Nat.eqb_sym l ll).
      destruct (kk =? k), (ll =? l); reflexivity.
Qed.

(* ------------------------------------------------------------------ *)
(** ** The decay matrix at the diagonal rows *)

(** What [M[(ii, jj), c'] += x] adds to the sum of column [c] over the
    diagonal rows. *)
Lemma diag_column_madd (n : nat) (M : matrix) (ii jj c c' : nat) (x : C) :
  (ii < n)%nat -> (jj < n)%nat ->
  csum n (fun i => madd M (density_index n ii jj) c' x (density_index n i i) c)
  = (csum n (fun i => M (density_index n i i) c)
     + (if (ii =? jj) && (c =? c') then x else C0))%C.
Proof.
  intros Hii Hjj.
  rewrite (csum_ext n _ (fun i =>
     (M (density_index n i i) c
      + (if i =? ii then (if (ii =? jj) && (c =? c') then x else C0) else C0))%C)).
  - rewrite csum_plus. f_equal.
    unfold csum. rewrite csum_range_select.
    destruct (Nat.leb_spec 0 ii), (Nat.ltb_spec ii n); try lia. reflexivity.
  - intros i Hi. rewrite madd_entry. f_equal.
    rewrite density_index_eqb by assumption.
    destruct (Nat.eqb_spec i ii) as [->|]; simpl; [|reflexivity].
    destruct (ii =? jj), (c =? c'); reflexivity.
Qed.

(** The sum over the diagonal rows of a column of the matrix the feeding
    loop fills: the pair of states of the column is fed into the
    populations by [feed_sum]. *)
Lemma fill_decay_in_diag_column (nblocks : nat) (ns : list nat)
      (d_q : nat -> matrix) (k l : nat) :
  (k < list_sum ns)%nat -> (l < list_sum ns)%nat ->
  csum (list_sum ns) (fun i =>
    fill_decay_in (list_sum ns) nblocks ns d_q zeros
                  (density_index (list_sum ns) i i)
                  (density_index (list_sum ns) k l))
  = feed_sum nblocks ns d_q k l.
Proof.
  intros Hk Hl. set (n := list_sum ns). set (c := density_index n k l).
  set (phi := fun M : matrix => csum n (fun i => M (density_index n i i) c)).
  change (phi (fill_decay_in n nblocks ns d_q zeros) = feed_sum nblocks ns d_q k l).
  unfold fill_decay_in.
  set (term := fun ll ii jj kk ll' q : nat =>
    if (ii =? jj) && (c =? density_index n kk ll')
    then (d_q q ii kk * d_q q ll' jj)%C else C0).
  rewrite (for_range_additive phi 0 (nblocks - 1) _
     (fun ll => csum_range (manifold_lo ns ll) (manifold_hi ns ll) (fun ii =>
        csum_range (manifold_lo ns ll) (manifold_hi ns ll) (fun jj =>
          csum_range (manifold_hi ns ll) n (fun kk =>
            csum_range (manifold_hi ns ll) n (fun ll' =>
              csum_range 0 3 (fun q => term ll ii jj kk ll' q))))))).
  - assert (Hz : phi zeros = C0)
      by (unfold phi, zeros; apply csum_zero; reflexivity).
    rewrite Hz, Cadd_0_l. unfold feed_sum. fold n.
    apply csum_range_ext. intros ll Hll.
    apply csum_range_ext. intros ii Hii.
    pose proof (manifold_hi_le_total ns ll) as Hhi. fold n in Hhi.
    rewrite (csum_range_ext _ _ _ (fun jj =>
       if jj =? ii
       then csum_range (manifold_hi ns ll) n (fun kk =>
              csum_range (manifold_hi ns ll) n (fun ll' =>
                if c =? density_index n kk ll'
                then csum 3 (fun q => (d_q q ii kk * d_q q ll' jj)%C)
                else C0))
       else C0)).
    + rewrite csum_range_select.
      destruct (Nat.leb_spec (manifold_lo ns ll) ii),
               (Nat.ltb_spec ii (manifold_hi ns ll)); try lia.
      cbn [andb]. unfold c.
      rewrite (csum_range_select_pair n _ _ _ _ k l
                 (fun kk ll' => csum 3 (fun q => (d_q q ii kk * d_q q ll' ii)%C)))
        by (assumption || lia).
      reflexivity.
    + intros jj Hjj. unfold term.
      destruct (Nat.eqb_spec jj ii) as [->|Hne].
      * rewrite Nat.eqb_refl. cbn [andb].
        apply csum_range_ext. intros kk _.
        apply csum_range_ext. intros ll' _.
        unfold csum. apply csum_range_if.
      * destruct (Nat.eqb_spec ii jj); [subst; contradiction|]. cbn [andb].
        apply csum_range_zero. intros kk _.
        apply csum_range_zero. intros ll' _.
        apply csum_range_zero. reflexivity.
  - intros ll M Hll.
    pose proof (manifold_hi_le_total ns ll) as Hhi. fold n in Hhi.
    apply (for_range_additive phi). intros ii M1 Hii.
    apply (for_range_additive phi). intros jj M2 Hjj.
    apply (for_range_additive phi). intros kk M3 Hkk.
    apply (for_range_additive phi). intros ll' M4 Hll'.
    apply (for_range_additive phi). intros q M5 Hq.
    unfold phi, term. apply diag_column_madd; lia.
Qed.

(** The feeding loop leaves the diagonal entry of a diagonal row at zero:
    it writes the rows of states below the states of its columns. *)
Lemma fill_decay_in_diag_entry (nblocks : nat) (ns : list nat)
      (d_q : nat -> matrix) (k : nat) :
  (k < list_sum ns)%nat ->
  fill_decay_in (list_sum ns) nblocks ns d_q zeros
                (density_index (list_sum ns) k k)
                (density_index (list_sum ns) k k) = C0.
Proof.
  intros Hk. set (n := list_sum ns).
  set (phi := fun M : matrix => M (density_index n k k) (density_index n k k)).
  change (phi (fill_decay_in n nblocks ns d_q zeros) = C0).
  unfold fill_decay_in.
  rewrite (for_range_untouched phi); [reflexivity|].
  intros ll M Hll.
  pose proof (manifold_hi_le_total ns ll) as Hhi. fold n in Hhi.
  apply (for_range_untouched phi). intros ii M1 Hii.
  apply (for_range_untouched phi). intros jj M2 Hjj.
  apply (for_range_untouched phi). intros kk M3 Hkk.
  apply (for_range_untouched phi). intros ll' M4 Hll'.
  apply (for_range_untouched phi). intros q M5 Hq.
  unfold phi. rewrite madd_entry.
  rewrite !density_index_eqb by (assumption || lia).
  destruct (Nat.eqb_spec k ii), (Nat.eqb_spec k kk); cbn [andb];
    rewrite ?Bool.andb_false_r; try ring.
  lia.
Qed.

(** The loop of the coherences between two manifolds writes no diagonal
    row. *)
Lemma fill_decay_coherences_diag_row (nblocks : nat) (ns : list nat)
      (decay_rates : nat -> R) (ev : matrix) (i c : nat) :
  (i < list_sum ns)%nat ->
  fill_decay_coherences (list_sum ns) nblocks ns decay_rates ev
                        (density_index (list_sum ns) i i) c
  = ev (density_index (list_sum ns) i i) c.
Proof.
  intros Hi. set (n := list_sum ns).
  set (phi := fun M : matrix => M (density_index n i i) c).
  change (phi (fill_decay_coherences n nblocks ns decay_rates ev) = phi ev).
  unfold fill_decay_coherences.
  apply (for_range_untouched phi). intros ll M Hll.
  apply (for_range_untouched phi). intros mm M1 Hmm.
  apply (for_range_untouched phi). intros ii M2 Hii.
  apply (for_range_untouched phi). intros jj M3 Hjj.
  pose proof (manifold_hi_le_total ns ll) as Hhi.
  pose proof (manifold_hi_le_total ns mm) as Hhi'. fold n in Hhi, Hhi'.
  assert (Hlt : (ii < jj)%nat).
  { pose proof (offset_mono ns (ll + 1) mm ltac:(lia)) as Hm.
    unfold manifold_lo, manifold_hi in *. lia. }
  cbv zeta. unfold phi.
  rewrite !mset_row_neq; [reflexivity| |].
  - intros E. apply density_index_inj in E; lia.
  - intros E. apply density_index_inj in E; lia.
Qed.

(** The loss loop at a diagonal row: only the diagonal entry is written,
    and only for a state of a manifold above the lowest. *)
Lemma fill_decay_out_diag_other (nblocks : nat) (ns : list nat)
      (decay_rates : nat -> R) (ev : matrix) (i c : nat) :
  (i < list_sum ns)%nat ->
  c <> density_index (list_sum ns) i i ->
  fill_decay_out (list_sum ns) nblocks ns decay_rates ev
                 (density_index (list_sum ns) i i) c
  = ev (density_index (list_sum ns) i i) c.
Proof.
  intros Hi Hc. set (n := list_sum ns) in *.
  set (phi := fun M : matrix => M (density_index n i i) c).
  change (phi (fill_decay_out n nblocks ns decay_rates ev) = phi ev).
  unfold fill_decay_out.
  apply (for_range_untouched phi). intros ll M Hll.
  apply (for_range_untouched phi). intros ii M1 Hii.
  apply (for_range_untouched phi). intros jj M2 Hjj.
  pose proof (manifold_hi_le_total ns ll) as Hhi. fold n in Hhi.
  unfold phi. apply mset_neq. intros E. inversion E as [[E1 E2]].
  apply density_index_inj in E1; [|lia|lia]. destruct E1; subst ii jj.
  contradiction.
Qed.

Lemma fill_decay_out_lowest (nblocks : nat) (ns : list nat)
      (decay_rates : nat -> R) (ev : matrix) (i c : nat) :
  (i < manifold_hi ns 0)%nat ->
  fill_decay_out (list_sum ns) nblocks ns decay_rates ev
                 (density_index (list_sum ns) i i) c
  = ev (density_index (list_sum ns) i i) c.
Proof.
  intros Hi. set (n := list_sum ns) in *.
  pose proof (manifold_hi_le_total ns 0) as Hn. fold n in Hn.
  set (phi := fun M : matrix => M (density_index n i i) c).
  change (phi (fill_decay_out n nblocks ns decay_rates ev) = phi ev).
  unfold fill_decay_out.
  apply (for_range_untouched phi). intros ll M Hll.
  apply (for_range_untouched phi). intros ii M1 Hii.
  apply (for_range_untouched phi). intros jj M2 Hjj.
  pose proof (manifold_hi_le_total ns ll) as Hhi. fold n in Hhi.
  pose proof (offset_mono ns 1 ll ltac:(lia)) as Hm.
  unfold manifold_lo, manifold_hi in *. simpl Nat.add in *.
  unfold phi. apply mset_row_neq. intros E.
  apply density_index_inj in E; lia.
Qed.

Lemma fill_decay_out_diag_entry (nblocks : nat) (ns : list nat)
      (decay_rates : nat -> R) (ev : matrix) (ll i : nat) :
  (1 <= ll < nblocks)%nat ->
  (manifold_lo ns ll <= i < manifold_hi ns ll)%nat ->
  fill_decay_out (list_sum ns) nblocks ns decay_rates ev
                 (density_index (list_sum ns) i i)
                 (density_index (list_sum ns) i i)
  = RtoC (- decay_rates ll).
Proof.
  intros Hll Hi. set (n := list_sum ns) in *.
  pose proof (manifold_hi_le_total ns ll) as Hn. fold n in Hn.
  set (phi := fun M : matrix => M (density_index n i i) (density_index n i i)).
  change (phi (fill_decay_out n nblocks ns decay_rates ev)
          = (fun _ => RtoC (- decay_rates ll)) (phi ev)).
  unfold fill_decay_out.
  apply (for_range_owner phi (fun _ => RtoC (- decay_rates ll)) 1 nblocks ll);
    [exact Hll| |].
  - intros l' M Hl' Hne.
    apply (for_range_untouched phi). intros ii M1 Hii.
    apply (for_range_untouched phi). intros jj M2 Hjj.
    pose proof (manifold_hi_le_total ns l') as Hhi. fold n in Hhi.
    unfold phi. apply mset_row_neq. intros E.
    apply density_index_inj in E; [|lia|lia]. destruct E; subst ii jj.
    apply Hne. apply (manifold_unique ns l' ll i); assumption.
  - intros M.
    apply (for_range_owner phi (fun _ => RtoC (- decay_rates ll))
             (manifold_lo ns ll) (manifold_hi ns ll) i); [exact Hi| |].
    + intros ii M1 Hii Hne.
      apply (for_range_untouched phi). intros jj M2 Hjj.
      unfold phi. apply mset_row_neq. intros E.
      apply density_index_inj in E; lia.
    + intros M1.
      apply (for_range_owner phi (fun _ => RtoC (- decay_rates ll))
               (manifold_lo ns ll) (manifold_hi ns ll) i); [exact Hi| |].
      * intros jj M2 Hjj Hne.
        unfold phi. apply mset_row_neq. intros E.
        apply density_index_inj in E; lia.
      * intros M2. unfold phi. apply mset_eq.
Qed.

(** The array [decay_rates] the first loop leaves. *)
Lemma decay_rates_entry (nblocks : nat) (rate : nat -> R) (ll : nat) :
  (1 <= ll < nblocks)%nat ->
  for_range 1 nblocks (fun ll decay_rates => rset decay_rates ll (rate ll))
            (fun _ => 0%R) ll = rate ll.
Proof.
  intros Hll.
  apply (for_range_owner (fun dr : nat -> R => dr ll) (fun _ => rate ll)
           1 nblocks ll); [exact Hll| |].
  - intros i acc Hi Hne. unfold rset.
    destruct (Nat.eqb_spec ll i); [subst; contradiction | reflexivity].
  - intros acc. unfold rset. rewrite Nat.eqb_refl. reflexivity.
Qed.

(** Every state belongs to a manifold. *)
Lemma manifold_of_state (ns : list nat) (k : nat) :
  (k < list_sum ns)%nat ->
  exists ll, (ll < List.length ns)%nat
             /\ (manifold_lo ns ll <= k < manifold_hi ns ll)%nat.
Proof.
  unfold manifold_lo, manifold_hi, offset. revert k.
  induction ns as [|m ns IH]; intros k Hk; simpl in Hk; [lia|].
  destruct (lt_dec k m) as [Hlt|Hge].
  - exists 0%nat. simpl. lia.
  - destruct (IH (k - m)%nat ltac:(lia)) as (ll & Hll & Hlo).
    exists (S ll). simpl. simpl in Hlo. lia.
Qed.

(** Nothing is fed from a state of the lowest manifold. *)
Lemma feed_sum_lowest (nblocks : nat) (ns : list nat) (d_q : nat -> matrix)
      (k l : nat) :
  (k < manifold_hi ns 0)%nat -> feed_sum nblocks ns d_q k l = C0.
Proof.
  intros Hk. unfold feed_sum.
  apply csum_range_zero. intros ll _.
  apply csum_range_zero. intros ii _.
  pose proof (offset_mono ns 1 (ll + 1) ltac:(lia)) as Hm.
  unfold manifold_hi in *. simpl Nat.add in Hk.
  destruct (Nat.leb_spec (offset ns (ll + 1)) k); [lia|]. reflexivity.
Qed.

(** The decay matrix conserves the trace when the feeding of the
    populations balances the loss. *)
Lemma build_decay_ev_trace_free (nblocks : nat) (ns : list nat)
      (d_q : nat -> matrix) (decay : matrix) :
  List.length ns = nblocks ->
  feed_balanced nblocks ns d_q ->
  build_decay_ev (list_sum ns) nblocks ns d_q = Ok decay ->
  trace_free (list_sum ns) decay.
Proof.
  intros Hlen [Hoff Hdiag]. unfold build_decay_ev.
  rewrite check_decay_rates_spec.
  destruct (existsb _ _); [discriminate|]. cbn [bind]. cbv zeta.
  intros H. inversion H; subst decay; clear H.
  set (n := list_sum ns) in *.
  set (dr := for_range 1 nblocks _ _).
  intros c Hc.
  destruct (density_index_decode n c Hc) as (k & l & Hk & Hl & ->).
  rewrite (csum_ext n _ (fun i =>
     fill_decay_out n nblocks ns dr (fill_decay_in n nblocks ns d_q zeros)
                    (density_index n i i) (density_index n k l)))
    by (intros i Hi; apply fill_decay_coherences_diag_row; exact Hi).
  destruct (Nat.eq_dec k l) as [<-|Hkl].
  - destruct (manifold_of_state ns k Hk) as (ll & Hll & Hin).
    destruct ll as [|ll].
    + rewrite (csum_ext n _ (fun i =>
         fill_decay_in n nblocks ns d_q zeros
                       (density_index n i i) (density_index n k k))).
      * unfold n. rewrite fill_decay_in_diag_column by assumption.
        apply feed_sum_lowest. apply Hin.
      * intros i Hi. destruct (Nat.eq_dec i k) as [->|Hne].
        -- apply fill_decay_out_lowest. apply Hin.
        -- apply fill_decay_out_diag_other; [exact Hi|].
           intros E. apply density_index_inj in E; [|assumption|assumption].
           destruct E. congruence.
    + rewrite (csum_ext n _ (fun i =>
         (fill_decay_in n nblocks ns d_q zeros
                        (density_index n i i) (density_index n k k)
          + (if i =? k then RtoC (- dr (S ll)) else C0))%C)).
      * rewrite csum_plus. unfold n at 1.
        rewrite fill_decay_in_diag_column by assumption.
        unfold csum at 1. rewrite csum_range_select.
        destruct (Nat.leb_spec 0 k), (Nat.ltb_spec k n); try lia. cbn [andb].
        rewrite (Hdiag (S ll) k) by (assumption || lia).
        unfold dr. rewrite decay_rates_entry by lia.
        apply C_eq; simpl; lra.
      * intros i Hi. destruct (Nat.eqb_spec i k) as [->|Hne].
        -- unfold n. rewrite fill_decay_in_diag_entry by assumption.
           rewrite (fill_decay_out_diag_entry nblocks ns dr _ (S ll) k)
             by (assumption || lia).
           ring.
        -- rewrite Cadd_0_r. apply fill_decay_out_diag_other; [exact Hi|].
           intros E. apply density_index_inj in E; [|assumption|assumption].
           destruct E. congruence.
  - rewrite (csum_ext n _ (fun i =>
       fill_decay_in n nblocks ns d_q zeros
                     (density_index n i i) (density_index n k l))).
    + unfold n. rewrite fill_decay_in_diag_column by assumption.
      apply Hoff; assumption.
    + intros i Hi. apply fill_decay_out_diag_other; [exact Hi|].
      intros E. apply density_index_inj in E; [|assumption|assumption].
      destruct E. congruence.
Qed.

(* ------------------------------------------------------------------ *)
(** ** Dictionaries and loops that may raise *)

Lemma dict_get_set_same {V : Type} (d : dict V) (key : string) (v : V) :
  dict_get (dict_set d key v) key = Some v.
Proof.
  induction d as [|[k w] d IH]; simpl.
  - rewrite String.eqb_refl. reflexivity.
  - destruct (String.eqb k key) eqn:E; simpl; rewrite E; [reflexivity | exact IH].
Qed.

Lemma dict_get_set_other {V : Type} (d : dict V) (key key' : string) (v : V) :
  key <> key' -> dict_get (dict_set d key v) key' = dict_get d key'.
Proof.
  intros Hne. induction d as [|[k w] d IH]; simpl.
  - destruct (String.eqb_spec key key'); [contradiction | reflexivity].
  - destruct (String.eqb_spec k key) as [->|Hk]; simpl.
    + destruct (String.eqb_spec key key'); [contradiction | reflexivity].
    + rewrite IH. reflexivity.
Qed.

Lemma dict_get_some_in_keys {V : Type} (d : dict V) (key : string) (v : V) :
  dict_get d key = Some v -> In key (dict_keys d).
Proof.
  induction d as [|[k w] d IH]; simpl; [discriminate|].
  destruct (String.eqb_spec k key) as [->|Hk]; [left; reflexivity|].
  intros H. right. apply IH. exact H.
Qed.

Lemma for_each_exn_raise {A St : Type} (l : list A)
      (body : A -> St -> result St) (e : exn) :
  fold_left (fun acc x => a <- acc ;; body x a) l (Raise e) = Raise e.
Proof. induction l as [|x l IH]; simpl; [reflexivity | exact IH]. Qed.

(** An invariant of the part of the list already visited holds of the
    whole list when the loop returns. *)
Lemma for_each_exn_visited {A St : Type} (I : list A -> St -> Prop)
      (l : list A) (body : A -> St -> result St) (s s' : St) :
  I [] s ->
  (forall visited x st st', I visited st -> body x st = Ok st' ->
                            I (visited ++ [x]) st') ->
  for_each_exn l body s = Ok s' ->
  I l s'.
Proof.
  intros H0 Hstep.
  assert (Hgen : forall visited st, I visited st ->
            for_each_exn l body st = Ok s' -> I (visited ++ l) s').
  { induction l as [|x l IH]; intros visited st Hvis Hrun.
    - unfold for_each_exn in Hrun. simpl in Hrun. inversion Hrun; subst.
      rewrite app_nil_r. exact Hvis.
    - unfold for_each_exn in Hrun. simpl in Hrun.
      destruct (body x st) as [st1|e] eqn:Hb.
      + replace (visited ++ x :: l) with ((visited ++ [x]) ++ l)
          by (rewrite <- app_assoc; reflexivity).
        apply (IH (visited ++ [x]) st1).
        * apply (Hstep visited x st st1 Hvis Hb).
        * exact Hrun.
      + rewrite for_each_exn_raise in Hrun. discriminate. }
  intros Hrun. apply (Hgen [] s H0 Hrun).
Qed.

(** A loop whose body returns and keeps [P] returns and keeps [P]. *)
Lemma for_each_exn_preserves {A St : Type} (P : St -> Prop) (l : list A)
      (body : A -> St -> result St) :
  (forall x s, In x l -> P s -> exists s', body x s = Ok s' /\ P s') ->
  forall s, P s -> exists s', for_each_exn l body s = Ok s' /\ P s'.
Proof.
  unfold for_each_exn. induction l as [|x l IH]; intros H s Hs; simpl.
  - exists s. split; [reflexivity | exact Hs].
  - destruct (H x s (or_introl eq_refl) Hs) as (s1 & Hs1 & HP). rewrite Hs1.
    apply IH; [|exact HP]. intros y s0 Hy. apply H. right. exact Hy.
Qed.

Lemma for_range_exn_preserves {St : Type} (P : St -> Prop) (lo hi : nat)
      (body : nat -> St -> result St) :
  (forall i s, (lo <= i < hi)%nat -> P s -> exists s', body i s = Ok s' /\ P s') ->
  forall s, P s -> exists s', for_range_exn lo hi body s = Ok s' /\ P s'.
Proof.
  intros H s Hs. unfold for_range_exn.
  apply (for_each_exn_preserves P (seq lo (hi - lo)) body); [|exact Hs].
  intros x s0 Hx. apply H. apply in_seq in Hx. lia.
Qed.

(* ------------------------------------------------------------------ *)
(** ** The sum of the populations of a derivative *)

Lemma diag_sum_vplus (n : nat) (x y : vector) :
  diag_sum n (vplus x y) = (diag_sum n x + diag_sum n y)%C.
Proof. unfold diag_sum, vplus. apply csum_plus. Qed.

Lemma diag_sum_vscale (n : nat) (z : C) (x : vector) :
  diag_sum n (vscale z x) = (z * diag_sum n x)%C.
Proof. unfold diag_sum, vscale. apply csum_scale. Qed.

Lemma diag_sum_vminus (n : nat) (x y : vector) :
  diag_sum n (vminus x y) = (diag_sum n x - diag_sum n y)%C.
Proof.
  unfold diag_sum, vminus.
  rewrite (csum_ext n _ (fun i =>
     (x (density_index n i i) + (- C1) * y (density_index n i i))%C))
    by (intros; ring).
  rewrite csum_plus, csum_scale. ring.
Qed.

(** Adding or subtracting a multiple of the product of a trace-conserving
    matrix keeps the sum of the populations at zero. *)
Lemma diag_sum_minus_term (n : nat) (dv : vector) (z : C) (M : matrix)
      (rho : vector) :
  diag_sum n dv = C0 -> trace_free n M ->
  diag_sum n (vminus dv (vscale z (matvec (n * n) M rho))) = C0.
Proof.
  intros Hdv HM.
  rewrite diag_sum_vminus, diag_sum_vscale, Hdv, (trace_free_matvec n M rho HM).
  ring.
Qed.

Lemma diag_sum_plus_term (n : nat) (dv : vector) (z : C) (M : matrix)
      (rho : vector) :
  diag_sum n dv = C0 -> trace_free n M ->
  diag_sum n (vplus dv (vscale z (matvec (n * n) M rho))) = C0.
Proof.
  intros Hdv HM.
  rewrite diag_sum_vplus, diag_sum_vscale, Hdv, (trace_free_matvec n M rho HM).
  ring.
Qed.

(* ------------------------------------------------------------------ *)
(** ** The evolution matrices conserve the trace *)

Lemma dict_good_nil (P : (nat -> matrix) -> Prop) : dict_good P [] [].
Proof. split; [intros key [] | intros key v H; discriminate]. Qed.

Lemma dict_good_set (P : (nat -> matrix) -> Prop) (visited : list string)
      (d : dict (nat -> matrix)) (x : string) (v : nat -> matrix) :
  dict_good P visited d -> P v ->
  dict_good P (visited ++ [x]) (dict_set d x v).
Proof.
  intros [Hhas Hall] Hv. split.
  - intros key Hin. destruct (string_dec x key) as [->|Hne].
    + exists v. apply dict_get_set_same.
    + rewrite dict_get_set_other by exact Hne.
      apply Hhas. apply in_app_or in Hin. destruct Hin as [Hin|[Hin|[]]];
        [exact Hin | contradiction].
  - intros key w Hget. destruct (string_dec x key) as [->|Hne].
    + rewrite dict_get_set_same in Hget. inversion Hget; subst. exact Hv.
    + rewrite dict_get_set_other in Hget by exact Hne.
      apply (Hall key w Hget).
Qed.

Lemma dict_good_incl (P : (nat -> matrix) -> Prop) (l l' : list string)
      (d : dict (nat -> matrix)) :
  (forall key, In key l' -> In key l) -> dict_good P l d -> dict_good P l' d.
Proof.
  intros Hincl [Hhas Hall]. split; [|exact Hall].
  intros key Hin. apply Hhas, Hincl, Hin.
Qed.

Lemma dict_item_inv {V : Type} (d : dict V) (key : string) (v : V) :
  dict_item d key = Ok v -> dict_get d key = Some v.
Proof.
  unfold dict_item. destruct (dict_get d key); [|discriminate].
  intros H. inversion H. reflexivity.
Qed.

Lemma vec3_exn_all (P : matrix -> Prop) (f : nat -> result matrix)
      (v : nat -> matrix) :
  vec3_exn f = Ok v -> (forall j m, f j = Ok m -> P m) -> forall q, P (v q).
Proof.
  unfold vec3_exn. intros H Hf.
  destruct (f 0%nat) as [m0|] eqn:E0; [|discriminate].
  destruct (f 1%nat) as [m1|] eqn:E1; [|discriminate].
  destruct (f 2%nat) as [m2|] eqn:E2; [|discriminate].
  cbn [bind] in H. inversion H; subst v; clear H.
  intros [|[|q]]; [apply (Hf 0%nat) | apply (Hf 1%nat) | apply (Hf 2%nat)];
    assumption.
Qed.

(** The dictionaries ['E'] and ['E*'] have the keys of the laser beams, and
    their matrices conserve the trace. *)
Lemma build_coherent_ev_dicts (n : nat) (fm : full_matrices)
      (keys : list string) (H0 : matrix) (B : nat -> matrix)
      (E Estar : dict (nat -> matrix)) :
  build_coherent_ev n fm keys = Ok (H0, B, E, Estar) ->
  dict_good (components_trace_free n) keys E
  /\ dict_good (components_trace_free n) keys Estar.
Proof.
  unfold build_coherent_ev. intros H.
  match type of H with
  | bind ?m _ = _ => destruct m as [EE|e] eqn:Hloop; [|discriminate]
  end.
  cbn [bind] in H. inversion H; subst; clear H.
  revert Hloop.
  apply (for_each_exn_visited
           (fun visited (st : dict (nat -> matrix) * dict (nat -> matrix)) =>
              dict_good (components_trace_free n) visited (fst st)
              /\ dict_good (components_trace_free n) visited (snd st))).
  - split; apply dict_good_nil.
  - intros visited x st st' [H1 H2] Hb.
    destruct (dict_item (d_q_bare fm) x) as [bare|]; [|discriminate].
    destruct (dict_item (d_q_star fm) x) as [star|]; [|discriminate].
    cbn [bind] in Hb. inversion Hb; subst st'; clear Hb. cbn [fst snd].
    split; (apply dict_good_set; [assumption|]);
      intros q; apply coherent_ev_trace_free.
Qed.

(** The change to the real basis keeps all of it. *)
Lemma transform_ev_matrices_trace_free (n : nat) (decay H0 : matrix)
      (B : nat -> matrix) (E Estar : dict (nat -> matrix))
      (keys : list string) (ev : ev_matrices) :
  trace_free n decay -> trace_free n H0 ->
  (forall q, trace_free n (B q)) ->
  dict_good (components_trace_free n) keys E ->
  dict_good (components_trace_free n) keys Estar ->
  transform_ev_matrices n decay H0 B E Estar = Ok ev ->
  trace_free n (ev_decay ev) /\ trace_free n (ev_H0 ev)
  /\ (forall q, trace_free n (ev_B ev q))
  /\ exists reE imE, ev_reE ev = Some reE /\ ev_imE ev = Some imE
       /\ dict_good (components_trace_free n) keys reE
       /\ dict_good (components_trace_free n) keys imE.
Proof.
  intros Hdecay HH0 HB HE HEstar. unfold transform_ev_matrices.
  change (ensure_transform_matrices n None) with (build_transform_matrices n).
  cbv zeta. set (T := transform_with n (build_transform_matrices n)).
  assert (HT : forall M M', trace_free n M -> T M = Ok M' -> trace_free n M')
    by (intros M M'; apply transform_with_trace_free).
  intros H.
  destruct (T decay) as [decay'|] eqn:E1; [|discriminate]. cbn [bind] in H.
  destruct (T H0) as [H0'|] eqn:E2; [|discriminate]. cbn [bind] in H.
  match type of H with
  | bind ?m _ = _ => destruct m as [reim|e] eqn:Hloop; [|discriminate]
  end.
  cbn [bind] in H.
  destruct (T (mscale inv_sqrt2 _)) as [Bx|] eqn:E3; [|discriminate].
  cbn [bind] in H.
  destruct (T (mscale i_inv_sqrt2 _)) as [By|] eqn:E4; [|discriminate].
  cbn [bind] in H.
  destruct (T (B 1%nat)) as [Bz|] eqn:E5; [|discriminate].
  cbn [bind] in H. inversion H; subst ev; clear H. cbn.
  split; [apply (HT decay); assumption|].
  split; [apply (HT H0); assumption|].
  split.
  { intros [|[|q]].
    - apply (HT _ _ (trace_free_mscale n _ _ (trace_free_mminus n _ _ (HB 0%nat) (HB 2%nat))) E3).
    - apply (HT _ _ (trace_free_mscale n _ _ (trace_free_mplus n _ _ (HB 0%nat) (HB 2%nat))) E4).
    - apply (HT _ _ (HB 1%nat) E5). }
  exists (fst reim), (snd reim). split; [reflexivity|]. split; [reflexivity|].
  assert (Hvis : dict_good (components_trace_free n) (dict_keys E) (fst reim)
                 /\ dict_good (components_trace_free n) (dict_keys E) (snd reim)).
  { revert Hloop.
    apply (for_each_exn_visited
             (fun visited (st : dict (nat -> matrix) * dict (nat -> matrix)) =>
                dict_good (components_trace_free n) visited (fst st)
                /\ dict_good (components_trace_free n) visited (snd st))).
    - split; apply dict_good_nil.
    - intros visited x st st' [H1 H2] Hb.
      destruct (dict_item E x) as [e|] eqn:Ee; [|discriminate].
      destruct (dict_item Estar x) as [es|] eqn:Ees; [|discriminate].
      cbn [bind] in Hb.
      destruct (vec3_exn (fun jj => T (mplus (e jj) (es jj)))) as [re|] eqn:Ere;
        [|discriminate].
      cbn [bind] in Hb.
      destruct (vec3_exn (fun jj => T (mscale (- Ci)%C (mminus (e jj) (es jj)))))
        as [im|] eqn:Eim; [|discriminate].
      cbn [bind] in Hb. inversion Hb; subst st'; clear Hb. cbn [fst snd].
      pose proof (proj2 HE x e (dict_item_inv _ _ _ Ee)) as He.
      pose proof (proj2 HEstar x es (dict_item_inv _ _ _ Ees)) as Hes.
      split; (apply dict_good_set; [assumption|]).
      + refine (vec3_exn_all (trace_free n) _ re Ere _).
        intros j m Hm. apply (HT _ _ (trace_free_mplus n _ _ (He j) (Hes j)) Hm).
      + refine (vec3_exn_all (trace_free n) _ im Eim _).
        intros j m Hm.
        apply (HT _ _ (trace_free_mscale n _ _
                         (trace_free_mminus n _ _ (He j) (Hes j))) Hm). }
  assert (Hincl : forall key, In key keys -> In key (dict_keys E)).
  { intros key Hin. destruct (proj1 HE key Hin) as (v & Hv).
    apply (dict_get_some_in_keys E key v Hv). }
  destruct Hvis as [Hre Him].
  split; apply (dict_good_incl _ (dict_keys E)); assumption.
Qed.

Lemma make_full_matrices_frame (h h' : hamiltonian) :
  make_full_matrices h = Ok h' ->
  blocks h' = blocks h /\ ns h' = ns h /\ n_states h' = n_states h.
Proof.
  unfold make_full_matrices. intros H.
  destruct (n_states h) as [N|] eqn:HN; [|discriminate].
  match type of H with
  | bind ?m _ = _ => destruct m as [[[H0 mu] off]|]; [|discriminate]
  end.
  cbn [bind] in H.
  destruct (place_d_q_bare h N) as [bare|]; [|discriminate].
  cbn [bind] in H. inversion H; subst h'; clear H. cbn.
  repeat split; try reflexivity; symmetry; exact HN.
Qed.

(** The matrices of an object whose Hamiltonian balances the feeding of
    the populations conserve the trace, and the dictionaries of the
    electric-field matrices have every key of the laser beams. *)
Lemma obe_ev_mat_trace_free (lasers : lasers_arg) (field : magField)
      (h : hamiltonian) (r v : ndarray1) (tr : bool) (sp : option bool)
      (mf : bool) (o : obe) (fm : full_matrices) :
  obe_init lasers field h r v tr sp mf = Ok o ->
  counts_ok h ->
  full (obe_hamiltonian o) = Some fm ->
  feed_balanced (List.length (blocks h)) (ns h) (d_q fm) ->
  trace_free (obe_n o) (ev_decay (ev_mat o))
  /\ trace_free (obe_n o) (ev_H0 (ev_mat o))
  /\ (forall q, trace_free (obe_n o) (ev_B (ev_mat o) q))
  /\ exists X Y,
       (if transform_into_re_im o
        then ev_reE (ev_mat o) = Some X /\ ev_imE (ev_mat o) = Some Y
        else ev_E (ev_mat o) = Some X /\ ev_Estar (ev_mat o) = Some Y)
       /\ dict_good (components_trace_free (obe_n o))
                    (dict_keys (obe_laserBeams o)) X
       /\ dict_good (components_trace_free (obe_n o))
                    (dict_keys (obe_laserBeams o)) Y.
Proof.
  intros Hinit [Hn Hlen] Hfm Hbal.
  destruct (obe_init_inv _ _ _ _ _ _ _ _ _ Hinit)
    as (h' & fm' & n & decay & H0 & B & E & Estar & Hfull & Hfm' & Hn' & Hdecay
        & Hcoh & Hev & Hh & Hon & Hbeams & _ & Htr & _).
  destruct (make_full_matrices_frame h h' Hfull) as (Hbl & Hns & Hnst).
  rewrite Hh, Hfm' in Hfm. inversion Hfm; subst fm'; clear Hfm.
  rewrite Hon, Hbeams, Htr. clear Hon Hbeams Htr Hh.
  rewrite Hnst, Hn in Hn'. inversion Hn'; subst n; clear Hn'.
  rewrite Hbl, Hns in Hdecay.
  assert (Htf : trace_free (list_sum (ns h)) decay).
  { apply (build_decay_ev_trace_free (List.length (blocks h)) (ns h) (d_q fm));
      [symmetry; exact Hlen | exact Hbal | exact Hdecay]. }
  destruct (build_coherent_ev_inv _ _ _ _ _ _ _ Hcoh) as [HH0 HB].
  destruct (build_coherent_ev_dicts _ _ _ _ _ _ _ Hcoh) as [HE HEstar].
  assert (HH0tf : trace_free (list_sum (ns h)) H0)
    by (rewrite HH0; apply coherent_ev_trace_free).
  assert (HBtf : forall q, trace_free (list_sum (ns h)) (B q))
    by (intros q; rewrite HB; apply coherent_ev_trace_free).
  destruct tr.
  - destruct (transform_ev_matrices_trace_free _ _ _ _ _ _ _ _
                Htf HH0tf HBtf HE HEstar Hev)
      as (T1 & T2 & T3 & reE & imE & Hre & Him & Gre & Gim).
    split; [exact T1|]. split; [exact T2|]. split; [exact T3|].
    exists reE, imE. repeat split; assumption || apply Gre || apply Gim.
  - rewrite Hev. cbn.
    split; [exact Htf|]. split; [exact HH0tf|]. split; [exact HBtf|].
    exists E, Estar. repeat split; apply HE || apply HEstar.
Qed.

(** [drhodt] returns, and the populations of what it returns sum to zero,
    for an object whose matrices conserve the trace. *)
Lemma drhodt_diag_sum (o : obe) (X Y : dict (nat -> matrix))
      (r : list R) (t : R) (rho : vector) :
  trace_free (obe_n o) (ev_decay (ev_mat o)) ->
  trace_free (obe_n o) (ev_H0 (ev_mat o)) ->
  (forall q, trace_free (obe_n o) (ev_B (ev_mat o) q)) ->
  (if transform_into_re_im o
   then ev_reE (ev_mat o) = Some X /\ ev_imE (ev_mat o) = Some Y
   else ev_E (ev_mat o) = Some X /\ ev_Estar (ev_mat o) = Some Y) ->
  dict_good (components_trace_free (obe_n o)) (dict_keys (obe_laserBeams o)) X ->
  dict_good (components_trace_free (obe_n o)) (dict_keys (obe_laserBeams o)) Y ->
  exists dv, drhodt o r t rho = Ok dv /\ diag_sum (obe_n o) dv = C0.
Proof.
  intros Hdecay HH0 HB HXY HX HY. unfold drhodt. cbv zeta.
  set (n := obe_n o) in *.
  set (dv0 := vplus _ _).
  assert (Hdv0 : diag_sum n dv0 = C0).
  { unfold dv0. rewrite diag_sum_vplus, !trace_free_matvec by assumption. ring. }
  match goal with
  | |- context [for_each_exn ?l ?b ?s] =>
      assert (Hloop : exists dv1, for_each_exn l b s = Ok dv1
                                  /\ diag_sum n dv1 = C0)
  end.
  { apply (for_each_exn_preserves (fun dv => diag_sum n dv = C0));
      [|exact Hdv0].
    intros key dv Hkey Hdv.
    destruct (dict_get_in_keys _ key Hkey) as (beams & Hbeams).
    unfold dict_item at 1. rewrite Hbeams. cbn [bind].
    destruct (proj1 HX key Hkey) as (x & Hx).
    destruct (proj1 HY key Hkey) as (y & Hy).
    pose proof (proj2 HX key x Hx) as Hxtf.
    pose proof (proj2 HY key y Hy) as Hytf.
    destruct (transform_into_re_im o); destruct HXY as [-> ->]; cbv zeta;
      apply for_range_exn_preserves; try exact Hdv;
      intros ii s Hii Hs;
      (destruct (above_threshold _); [|exists s; split; [reflexivity | exact Hs]]);
      unfold ev_item, dict_item; rewrite Hx, Hy; cbn [bind];
      eexists; (split; [reflexivity|]);
      (apply diag_sum_minus_term;
       [apply diag_sum_minus_term; [exact Hs | apply Hxtf] | apply Hytf]). }
  destruct Hloop as (dv1 & Hrun & Hdv1). rewrite Hrun. cbn [bind].
  eexists. split; [reflexivity|].
  apply (for_range_ind (fun _ dv => diag_sum n dv = C0) 0 3 _ dv1);
    [lia | exact Hdv1 |].
  intros i acc Hi Hacc.
  destruct (above_threshold _); [|exact Hacc].
  apply diag_sum_plus_term; [exact Hacc | apply HB].
Qed.

(* ------------------------------------------------------------------ *)
(** ** The trace at the two-level atom and at the V system *)

Lemma two_level_obe_full :
  full (obe_hamiltonian two_level_obe) = Some two_level_fm.
Proof.
  destruct (obe_init_inv (LasersOne no_beams) z_field two_level origin origin
              false None false two_level_obe two_level_obe_ok)
    as (h' & fm & n & decay & H0 & B & E & Estar & Hfull & _ & _ & _ & _ & _
        & Hh & _).
  rewrite make_full_matrices_two_level in Hfull.
  rewrite Hh. inversion Hfull as [Heq]. apply two_level_full_fm.
Qed.

Lemma two_level_counts_ok : counts_ok two_level.
Proof. split; reflexivity. Qed.

(** The decay of the two-level atom feeds its ground state with what its
    excited state loses. *)
Lemma two_level_feed_balanced :
  feed_balanced (List.length (blocks two_level)) (ns two_level)
                (d_q two_level_fm).
Proof.
  split.
  - intros k l Hk Hl Hne. simpl in Hk, Hl.
    unfold feed_sum. cbn [List.length blocks two_level ns Nat.sub].
    unfold csum_range, for_range.
    cbn [manifold_lo manifold_hi offset firstn list_sum fold_right Nat.add
         Nat.sub seq fold_left].
    destruct k as [|[|k]]; try lia; destruct l as [|[|l]]; try lia;
      try contradiction; cbn [Nat.leb Nat.ltb andb]; ring.
  - intros ll k Hll Hk. cbn [List.length blocks two_level] in Hll.
    assert (ll = 1%nat) by lia. subst ll.
    assert (k = 1%nat) by (vm_compute in Hk; lia). subst k.
    assert (Hrates : manifold_rates [1; 1]%nat (d_q two_level_fm) 1
                     = [state_rate (d_q two_level_fm) 1]) by reflexivity.
    unfold manifold_rate. cbn [ns two_level]. rewrite Hrates, mean_singleton.
    vm_compute. apply C_eq; simpl; lra.
Qed.

Lemma vee_init_ok : vee_init = Ok vee.
Proof.
  unfold vee_init, add_H_0_block, add_d_q_block.
  run_blocks. unfold new_block, new_vector_block. run_blocks. reflexivity.
Qed.

Lemma make_full_matrices_vee : make_full_matrices vee = Ok vee_full.
Proof. unfold vee_full. vm_compute. reflexivity. Qed.

Lemma vee_full_fm : full vee_full = Some vee_fm.
Proof. vm_compute. reflexivity. Qed.

(** The decay matrix of a Hamiltonian with three manifolds of one state
    each: the check of the rates passes. *)
Lemma build_decay_ev_three_single_states (d : nat -> matrix) :
  build_decay_ev 3 3 [1; 1; 1]%nat d
  = Ok (fill_decay_coherences 3 3 [1; 1; 1]%nat
          (rset (rset (fun _ => 0%R) 1 (state_rate d 1)) 2 (state_rate d 2))
          (fill_decay_out 3 3 [1; 1; 1]%nat
             (rset (rset (fun _ => 0%R) 1 (state_rate d 1)) 2 (state_rate d 2))
             (fill_decay_in 3 3 [1; 1; 1]%nat d zeros))).
Proof.
  unfold build_decay_ev. rewrite check_decay_rates_spec.
  assert (Hrates1 : manifold_rates [1; 1; 1]%nat d 1 = [state_rate d 1])
    by reflexivity.
  assert (Hrates2 : manifold_rates [1; 1; 1]%nat d 2 = [state_rate d 2])
    by reflexivity.
  assert (Hrate1 : manifold_rate [1; 1; 1]%nat d 1 = state_rate d 1)
    by (unfold manifold_rate; rewrite Hrates1; apply mean_singleton).
  assert (Hrate2 : manifold_rate [1; 1; 1]%nat d 2 = state_rate d 2)
    by (unfold manifold_rate; rewrite Hrates2; apply mean_singleton).
  cbn [seq Nat.sub existsb]. rewrite Hrate1, Hrates1, Hrate2, Hrates2.
  unfold allclose. cbn [forallb]. rewrite !isclose_refl by lra.
  cbn [andb negb orb bind]. unfold for_range. cbn [Nat.sub seq fold_left].
  rewrite Hrate1, Hrate2. reflexivity.
Qed.

Lemma vee_obe_ok : vee_obe_init = Ok vee_obe.
Proof.
  unfold vee_obe, vee_obe_init, obe_init.
  rewrite make_full_matrices_vee. cbn [bind].
  unfold vee_full.
  cbn -[build_decay_ev build_coherent_ev_submatrix].
  rewrite build_decay_ev_three_single_states.
  cbn -[build_coherent_ev_submatrix fill_decay_coherences fill_decay_out
        fill_decay_in state_rate].
  reflexivity.
Qed.

(** C2, as the specification words it, fails.  At the V system, in the
    complex basis, with no laser beam, at the origin (where the magnetic
    field vanishes) and for the density matrix of [(|e> + |f>)/sqrt(2)],
    [drhodt] returns a derivative whose populations sum to [1]: the decay
    matrix feeds the ground state from the coherence between [e] and [f],
    and takes from the excited populations only. *)
Lemma drhodt_does_not_conserve_trace :
  exists h o dv,
    vee_init = Ok h
    /\ obe_init (LasersOne no_beams) z_field h origin origin false None false
       = Ok o
    /\ drhodt o position_origin 0 (flatten 3 rho_ef) = Ok dv
    /\ diag_sum 3 dv = C1
    /\ diag_sum 3 dv <> C0.
Proof.
  exists vee, vee_obe.
  destruct (obe_init_inv (LasersOne no_beams) z_field vee origin origin
              false None false vee_obe vee_obe_ok)
    as (h' & fm & n & decay & H0 & B & E & Estar & Hfull & Hfm & Hn & Hdecay
        & Hcoh & Hev & Hh & Hobn & Hbeams & Hfield & Htr & _).
  cbv zeta in Hbeams.
  assert (Hh' : h' = vee_full)
    by (rewrite make_full_matrices_vee in Hfull; inversion Hfull; reflexivity).
  clear Hh Hfull. subst h'.
  assert (Hn3 : n = 3%nat) by (vm_compute in Hn; inversion Hn; reflexivity).
  clear Hn. rewrite Hn3 in Hcoh, Hobn, Hdecay. clear Hn3 n.
  rewrite vee_full_fm in Hfm. inversion Hfm; subst fm; clear Hfm.
  destruct (build_coherent_ev_inv _ _ _ _ _ _ _ Hcoh) as [HH0 _].
  change (List.length (blocks vee_full)) with 3%nat in Hdecay.
  change (ns vee_full) with [1; 1; 1]%nat in Hdecay.
  rewrite build_decay_ev_three_single_states in Hdecay.
  inversion Hdecay as [Hd]; clear Hdecay.
  assert (Hdv : exists dv,
            drhodt vee_obe position_origin 0 (flatten 3 rho_ef) = Ok dv
            /\ diag_sum 3 dv = C1).
  { unfold drhodt, return_magnetic_field.
    rewrite Hbeams, Htr, Hev, Hobn, Hfield.
    cbn [dict_keys map fst for_each_exn fold_left ev_decay ev_H0 ev_B].
    change (dict_item [("g->e"%string, no_beams)] "g->e") with (Ok no_beams).
    cbn [bind total_electric_field no_beams].
    unfold for_range_exn. cbn [Nat.sub seq fold_left].
    rewrite above_threshold_C0. cbn [bind].
    unfold for_range.
    cbn [Nat.sub seq fold_left Field z_field position_origin last].
    assert (Hz0 : (RtoC (0 / sqrt 2) + Ci * RtoC 0 * RtoC (/ sqrt 2))%C = C0)
      by (apply C_eq; unfold Cadd, Cmul, Ci, RtoC, C0, Re, Im; simpl; lra).
    assert (Hz2 : (RtoC (- 0 / sqrt 2) + Ci * RtoC 0 * RtoC (/ sqrt 2))%C = C0)
      by (apply C_eq; unfold Cadd, Cmul, Ci, RtoC, C0, Re, Im; simpl; lra).
    rewrite Hz0, Hz2. change (RtoC 0) with C0.
    rewrite above_threshold_C0.
    eexists. split; [reflexivity|].
    rewrite diag_sum_vplus.
    rewrite (trace_free_matvec 3 H0)
      by (rewrite HH0; apply coherent_ev_trace_free).
    rewrite Cadd_0_r. rewrite <- Hd.
    vm_compute. apply C_eq; simpl; lra. }
  destruct Hdv as (dv & Hrun & Hsum).
  exists dv. split; [exact vee_init_ok|]. split; [exact vee_obe_ok|].
  split; [exact Hrun|]. split; [exact Hsum|].
  rewrite Hsum. intros Heq. apply (f_equal Re) in Heq. simpl in Heq. lra.
Qed.

(** C2 (as amended): for an object the constructor returned, in either
    basis, whose Hamiltonian has consistent state counts and whose
    aggregated dipole operator balances the feeding of the populations
    against the loss -- two different states feed nothing into the
    populations of the states below them, and a state feeds them with the
    decay rate of its manifold -- [drhodt(r, t, rho)] returns for every
    position, time and density vector, and the entries of what it returns
    at the [n] population indices [density_index(i, i)] sum to zero. *)
Theorem drhodt_conserves_trace_when_balanced
        (lasers : lasers_arg) (field : magField) (h : hamiltonian)
        (r v : ndarray1) (tr : bool) (sp : option bool) (mf : bool)
        (o : obe) (fm : full_matrices) :
  obe_init lasers field h r v tr sp mf = Ok o ->
  counts_ok h ->
  full (obe_hamiltonian o) = Some fm ->
  feed_balanced (List.length (blocks h)) (ns h) (d_q fm) ->
  forall (pos : list R) (t : R) (rho : vector),
    exists dv, drhodt o pos t rho = Ok dv /\ diag_sum (obe_n o) dv = C0.
Proof.
  intros Hinit Hcounts Hfm Hbal pos t rho.
  destruct (obe_ev_mat_trace_free lasers field h r v tr sp mf o fm
              Hinit Hcounts Hfm Hbal)
    as (Hdecay & HH0 & HB & X & Y & HXY & HX & HY).
  apply (drhodt_diag_sum o X Y); assumption.
Qed.

(** C2 at the two-level object, the position [(0, 0, 1)], the time [0] and
    the density matrix of [(|g> + |e>)/sqrt(2)]. *)
Lemma drhodt_conserves_trace_when_balanced_witness :
  exists dv,
    drhodt two_level_obe position_z1 0 (flatten 2 rho_plus) = Ok dv
    /\ diag_sum (obe_n two_level_obe) dv = C0.
Proof.
  apply (drhodt_conserves_trace_when_balanced
           (LasersOne no_beams) z_field two_level origin origin
           false None false two_level_obe two_level_fm
           two_level_obe_ok two_level_counts_ok two_level_obe_full
           two_level_feed_balanced).
Defined.

(* ------------------------------------------------------------------ *)
(** ** Element labels *)

(** Two strings that agree after a [|], with nothing before it that has
    one, agree before it. *)
Lemma bar_free_split (s a r r' : string) :
  bar_free s = true -> bar_free a = true ->
  (s ++ String "|" r)%string = (a ++ String "|" r')%string ->
  s = a /\ r = r'.
Proof.
  revert a. induction s as [|c s IH]; intros [|c' a] Hs Ha E; simpl in *.
  - inversion E. split; reflexivity.
  - inversion E; subst c'. simpl in Ha. discriminate.
  - inversion E; subst c. simpl in Hs. discriminate.
  - inversion E; subst c'.
    apply andb_true_iff in Hs. apply andb_true_iff in Ha.
    destruct (IH a (proj2 Hs) (proj2 Ha) H1) as [-> ->]. split; reflexivity.
Qed.

(** A dipole label is no [H_0] label and no [mu_q] label. *)
Lemma H_0_label_not_d_q (s a b : string) :
  bar_free s = true -> bar_free a = true ->
  make_elem_label "H_0" s <> make_elem_label_d_q a b.
Proof.
  intros Hs Ha E. unfold make_elem_label, make_elem_label_d_q in E.
  simpl in E. inversion E as [E'].
  destruct (bar_free_split _ _ _ _ Hs Ha E') as [_ E2]. discriminate.
Qed.

Lemma mu_q_label_not_d_q (s a b : string) :
  bar_free s = true -> bar_free a = true ->
  make_elem_label "mu_q" s <> make_elem_label_d_q a b.
Proof.
  intros Hs Ha E. unfold make_elem_label, make_elem_label_d_q in E.
  simpl in E. inversion E as [E'].
  destruct (bar_free_split _ _ _ _ Hs Ha E') as [_ E2]. discriminate.
Qed.

(* ------------------------------------------------------------------ *)
(** ** The object array *)

Lemma nth_list_set {A : Type} (l : list A) (i k : nat) (x d : A) :
  (i < List.length l)%nat ->
  nth k (list_set l i x) d = if k =? i then x else nth k l d.
Proof.
  revert i k. induction l as [|h t IH]; intros i k Hi; simpl in Hi; [lia|].
  destruct i as [|i]; destruct k as [|k]; simpl; try reflexivity.
  apply IH. lia.
Qed.

Lemma length_list_set {A : Type} (l : list A) (i : nat) (x : A) :
  List.length (list_set l i x) = List.length l.
Proof.
  revert i. induction l as [|h t IH]; intros i; simpl; [reflexivity|].
  destruct i; simpl; [reflexivity | rewrite IH; reflexivity].
Qed.

Lemma in_list_set {A : Type} (l : list A) (i : nat) (x y : A) :
  In y (list_set l i x) -> y = x \/ In y l.
Proof.
  revert i. induction l as [|h t IH]; intros i; simpl; [contradiction|].
  destruct i as [|i]; simpl.
  - intros [<-|H]; [left; reflexivity | right; right; exact H].
  - intros [<-|H]; [right; left; reflexivity|].
    destruct (IH i H) as [->|H']; [left; reflexivity | right; right; exact H'].
Qed.

(** What [self.blocks[ind] = x] changes. *)
Lemma set_cell_cell_at (bl bl' : list (list cell)) (a b : nat) (x : cell) :
  set_cell bl (a, b) x = Ok bl' ->
  forall i j, cell_at bl' i j
              = if (i =? a) && (j =? b) then x else cell_at bl i j.
Proof.
  unfold set_cell, cell_at. cbn [fst snd].
  destruct (nth_error bl a) as [row|] eqn:Hrow; [|discriminate].
  destruct (Nat.ltb_spec b (List.length row)) as [Hb|]; [|discriminate].
  intros H. inversion H; subst bl'; clear H. intros i j.
  assert (Ha : (a < List.length bl)%nat)
    by (apply nth_error_Some; rewrite Hrow; discriminate).
  rewrite nth_list_set by exact Ha.
  destruct (Nat.eqb_spec i a) as [->|Hne]; cbn [andb]; [|reflexivity].
  rewrite nth_list_set by exact Hb.
  rewrite (nth_error_nth bl a [] Hrow). reflexivity.
Qed.

Lemma set_cell_square (bl bl' : list (list cell)) (ind : nat * nat) (x : cell) :
  set_cell bl ind x = Ok bl' -> square bl -> square bl'.
Proof.
  unfold set_cell, square.
  destruct (nth_error bl (fst ind)) as [row|] eqn:Hrow; [|discriminate].
  destruct (snd ind <? List.length row)%nat; [|discriminate].
  intros H Hsq. inversion H; subst bl'; clear H.
  intros r Hr. rewrite length_list_set.
  apply in_list_set in Hr. destruct Hr as [->|Hr].
  - rewrite length_list_set. apply Hsq. apply (nth_error_In bl (fst ind) Hrow).
  - apply Hsq, Hr.
Qed.

Lemma set_cell_length (bl bl' : list (list cell)) (ind : nat * nat) (x : cell) :
  set_cell bl ind x = Ok bl' -> List.length bl' = List.length bl.
Proof.
  unfold set_cell.
  destruct (nth_error bl (fst ind)) as [row|]; [|discriminate].
  destruct (snd ind <? List.length row)%nat; [|discriminate].
  intros H. inversion H. apply length_list_set.
Qed.

Lemma nth_repeat_same {A : Type} (x : A) (n j : nat) :
  nth j (repeat x n) x = x.
Proof.
  revert j. induction n as [|n IH]; intros [|j]; simpl; try reflexivity.
  apply IH.
Qed.

(** The new row and the new column hold [None]. *)
Lemma add_new_row_and_column_cell_at (bl : list (list cell)) (i j : nat) :
  cell_at (add_new_row_and_column bl) i j = cell_at bl i j.
Proof.
  unfold cell_at, add_new_row_and_column.
  destruct bl as [|row0 rest].
  - destruct i as [|[|i]]; destruct j as [|[|j]]; reflexivity.
  - set (bl := row0 :: rest).
    destruct (Nat.lt_ge_cases i (List.length bl)) as [Hi|Hi].
    + rewrite app_nth1 by (rewrite length_map; exact Hi).
      rewrite (nth_indep _ [] ([] ++ [CNone])) by (rewrite length_map; exact Hi).
      rewrite (map_nth (fun row => row ++ [CNone]) bl [] i).
      destruct (Nat.lt_ge_cases j (List.length (nth i bl []))) as [Hj|Hj].
      * apply app_nth1. exact Hj.
      * rewrite app_nth2 by exact Hj.
        rewrite (nth_overflow (nth i bl [])) by exact Hj.
        destruct (j - List.length (nth i bl []))%nat as [|[|k]]; reflexivity.
    + rewrite app_nth2 by (rewrite length_map; exact Hi).
      rewrite length_map. rewrite (nth_overflow bl) by exact Hi.
      destruct (i - List.length bl)%nat as [|k]; cbn [nth].
      * rewrite nth_repeat_same. destruct j; reflexivity.
      * destruct k; destruct j; reflexivity.
Qed.

Lemma add_new_row_and_column_length (bl : list (list cell)) :
  List.length (add_new_row_and_column bl) = S (List.length bl).
Proof.
  unfold add_new_row_and_column. destruct bl as [|row0 rest]; [reflexivity|].
  rewrite length_app, length_map. simpl. lia.
Qed.

Lemma add_new_row_and_column_square (bl : list (list cell)) :
  square bl -> square (add_new_row_and_column bl).
Proof.
  intros Hsq row Hin. rewrite add_new_row_and_column_length.
  unfold add_new_row_and_column in Hin. destruct bl as [|row0 rest].
  - destruct Hin as [<-|[]]. reflexivity.
  - apply in_app_or in Hin. destruct Hin as [Hin|[<-|[]]].
    + apply in_map_iff in Hin. destruct Hin as (r & <- & Hr).
      rewrite length_app, (Hsq r Hr). simpl. lia.
    + apply repeat_length.
Qed.

(** [self.blocks[-1, -1] = x] after a new row and column: the last cell
    of the diagonal is written. *)
Lemma set_last_cell_new (bl bl' : list (list cell)) (x : cell) :
  set_last_cell (add_new_row_and_column bl) x = Ok bl' ->
  set_cell (add_new_row_and_column bl) (List.length bl, List.length bl) x
  = Ok bl'.
Proof.
  unfold set_last_cell. rewrite add_new_row_and_column_length.
  intros H. rewrite <- H. f_equal. f_equal.
  unfold add_new_row_and_column. destruct bl as [|row0 rest]; [reflexivity|].
  rewrite app_nth2 by (rewrite length_map; lia).
  rewrite length_map, Nat.sub_diag. cbn [nth]. rewrite repeat_length.
  reflexivity.
Qed.

(* ------------------------------------------------------------------ *)
(** ** The search of a label *)

Lemma search_row_hit (row : list cell) (label : string) (jj j : nat) :
  search_row row label jj = Ok (Some j) ->
  (jj <= j)%nat /\ cell_matches (nth (j - jj) row CNone) label = Ok true.
Proof.
  revert jj. induction row as [|c rest IH]; intros jj H; simpl in H.
  - discriminate.
  - destruct (cell_matches c label) as [[|]|] eqn:Hc; cbn [bind] in H;
      try discriminate.
    + inversion H; subst j. rewrite Nat.sub_diag. split; [lia | exact Hc].
    + destruct (IH (S jj) H) as [Hle Hm]. split; [lia|].
      replace (j - jj)%nat with (S (j - S jj)) by lia. exact Hm.
Qed.

Lemma search_rows_hit (bl : list (list cell)) (label : string) (ii : nat)
      (ind : option (nat * nat)) (i j : nat) :
  search_rows bl label ii ind = Ok (Some (i, j)) ->
  ind = Some (i, j)
  \/ ((ii <= i)%nat /\ cell_matches (cell_at bl (i - ii) j) label = Ok true).
Proof.
  revert ii ind. induction bl as [|row rest IH]; intros ii ind H; simpl in H.
  - left. inversion H. reflexivity.
  - destruct (search_row row label 0) as [hit|] eqn:Hrow; [|discriminate].
    cbn [bind] in H. destruct (IH _ _ H) as [Hind|[Hle Hm]].
    + destruct hit as [jj|]; [|left; exact Hind].
      inversion Hind; subst i j. right. split; [lia|].
      destruct (search_row_hit row label 0 jj Hrow) as [_ Hm].
      rewrite Nat.sub_0_r in Hm. rewrite Nat.sub_diag. exact Hm.
    + right. split; [lia|].
      replace (i - ii)%nat with (S (i - S ii)) by lia. exact Hm.
Qed.

Lemma search_elem_label_hit (h : hamiltonian) (label : string) (i j : nat) :
  search_elem_label h label = Ok (Some (i, j)) ->
  cell_matches (cell_at (blocks h) i j) label = Ok true.
Proof.
  unfold search_elem_label. intros H.
  destruct (search_rows_hit _ _ _ _ _ _ H) as [Hind|[_ Hm]]; [discriminate|].
  rewrite Nat.sub_0_r in Hm. exact Hm.
Qed.

(** With dipole blocks off the diagonal, an [H_0] or [mu_q] label of a
    manifold label without [|] is found on the diagonal only. *)
Lemma diagonal_label_on_diagonal (bl : list (list cell)) (label s : string)
      (i j : nat) :
  (forall i j, i <> j -> dipole_pair (cell_at bl i j) (cell_at bl j i)) ->
  bar_free s = true ->
  label = make_elem_label "H_0" s \/ label = make_elem_label "mu_q" s ->
  cell_matches (cell_at bl i j) label = Ok true ->
  i = j.
Proof.
  intros Hpairs Hs Hlabel Hm.
  destruct (Nat.eq_dec i j) as [|Hne]; [assumption|]. exfalso.
  destruct (Hpairs i j Hne)
    as [[Hc _]|(a & b & dg & M & p & n & m & dg' & M' & p' & n' & m'
                & Hc & _ & Ha & Hb & _)];
    rewrite Hc in Hm; cbn [cell_matches block_label] in Hm.
  - discriminate.
  - assert (E : make_elem_label_d_q a b = label)
      by (apply String.eqb_eq; congruence).
    destruct Hlabel as [-> | ->].
    + apply (H_0_label_not_d_q s a b Hs Ha). symmetry. exact E.
    + apply (mu_q_label_not_d_q s a b Hs Ha). symmetry. exact E.
Qed.

Lemma search_elem_label_diagonal (h : hamiltonian) (label s : string)
      (ij : nat * nat) :
  dipole_invariant h ->
  bar_free s = true ->
  label = make_elem_label "H_0" s \/ label = make_elem_label "mu_q" s ->
  search_elem_label h label = Ok (Some ij) ->
  fst ij = snd ij.
Proof.
  intros (_ & Hpairs & _) Hs Hlabel H. destruct ij as [i j]. cbn [fst snd].
  apply (diagonal_label_on_diagonal (blocks h) label s i j Hpairs Hs Hlabel).
  apply search_elem_label_hit. exact H.
Qed.

(* ------------------------------------------------------------------ *)
(** ** The registrations keep the dipole blocks paired *)

Lemma diagonal_write_pairs (bl bl' : list (list cell)) (a : nat) (x : cell) :
  set_cell bl (a, a) x = Ok bl' ->
  (forall i j, i <> j -> dipole_pair (cell_at bl i j) (cell_at bl j i)) ->
  forall i j, i <> j -> dipole_pair (cell_at bl' i j) (cell_at bl' j i).
Proof.
  intros Hset Hpairs i j Hne.
  rewrite !(set_cell_cell_at bl bl' a a x Hset).
  destruct (Nat.eqb_spec i a), (Nat.eqb_spec j a); cbn [andb];
    try (apply Hpairs; exact Hne).
  subst. contradiction.
Qed.

Lemma refresh_counts_frame (h h' : hamiltonian) :
  refresh_counts h = Ok h' ->
  blocks h' = blocks h /\ laser_keys h' = laser_keys h.
Proof.
  unfold refresh_counts. intros H.
  destruct (recompute_number_of_states (blocks h)); [|discriminate].
  destruct (check_diagonal_submatrices (blocks h)); [|discriminate].
  cbn [bind] in H. inversion H. split; reflexivity.
Qed.

Lemma dipole_invariant_blocks (h h' : hamiltonian) :
  blocks h' = blocks h -> laser_keys h' = laser_keys h ->
  dipole_invariant h -> dipole_invariant h'.
Proof. unfold dipole_invariant. intros -> ->. exact (fun H => H). Qed.

Lemma add_H_0_block_invariant (h h' : hamiltonian) (s : string) (H0 : ndarray2) :
  bar_free s = true -> dipole_invariant h ->
  add_H_0_block h s H0 = Ok h' -> dipole_invariant h'.
Proof.
  intros Hs Hinv H. unfold add_H_0_block in H.
  destruct (negb (rows H0 =? cols H0)); [discriminate|].
  destruct (search_elem_label h (make_elem_label "H_0" s)) as [ind_H_0|] eqn:E0;
    [|discriminate].
  cbn [bind] in H.
  destruct (search_elem_label h (make_elem_label "mu_q" s)) as [ind_mu_q|] eqn:E1;
    [|discriminate].
  cbn [bind] in H. cbv zeta in H.
  match type of H with
  | bind ?m _ = _ => destruct m as [h1|] eqn:Hh1; [|discriminate]
  end.
  cbn [bind] in H.
  destruct (refresh_counts_frame h1 h' H) as [Hbl Hkeys].
  apply (dipole_invariant_blocks h1 h' Hbl Hkeys). clear H Hbl Hkeys.
  destruct Hinv as (Hsq & Hpairs & Hkeysinv).
  destruct ind_mu_q as [ij|].
  - assert (Hdiag : fst ij = snd ij).
    { apply (search_elem_label_diagonal h (make_elem_label "mu_q" s) s ij);
        [repeat split; assumption | exact Hs | right; reflexivity | exact E1]. }
    assert (Hh1' :
      (n <- found_block_n h ind_H_0 ;;
       if negb (rows H0 =? n) then Raise ValueError else
       old <- get_cell (blocks h) ij ;;
       bl <- set_cell (blocks h) ij
               (CTuple (CBlock (new_block (make_elem_label "H_0" s) H0)) old) ;;
       Ok (with_blocks h bl)) = Ok h1)
      by (destruct ind_H_0; exact Hh1).
    clear Hh1.
    destruct (found_block_n h ind_H_0) as [n|]; [|discriminate].
    cbn [bind] in Hh1'. destruct (negb (rows H0 =? n)); [discriminate|].
    destruct (get_cell (blocks h) ij) as [old|]; [|discriminate].
    cbn [bind] in Hh1'.
    destruct (set_cell (blocks h) ij _) as [bl|] eqn:Hset; [|discriminate].
    cbn [bind] in Hh1'. inversion Hh1'; subst h1; clear Hh1'.
    destruct ij as [a b]. cbn [fst snd] in Hdiag. subst b.
    repeat split; cbn [blocks with_blocks laser_keys].
    + apply (set_cell_square _ _ _ _ Hset Hsq).
    + apply (diagonal_write_pairs _ _ _ _ Hset Hpairs).
    + exact Hkeysinv.
  - destruct ind_H_0; [discriminate|].
    destruct (set_last_cell _ _) as [bl|] eqn:Hset; [|discriminate].
    cbn [bind] in Hh1. inversion Hh1; subst h1; clear Hh1.
    apply set_last_cell_new in Hset.
    repeat split; cbn [blocks laser_keys].
    + apply (set_cell_square _ _ _ _ Hset).
      apply add_new_row_and_column_square, Hsq.
    + apply (diagonal_write_pairs _ _ _ _ Hset).
      intros i j Hne. rewrite !add_new_row_and_column_cell_at.
      apply Hpairs, Hne.
    + exact Hkeysinv.
Qed.

Lemma add_mu_q_block_invariant (h h' : hamiltonian) (s : string)
      (mu : ndarray3) (muB : R) :
  bar_free s = true -> dipole_invariant h ->
  add_mu_q_block h s mu muB = Ok h' -> dipole_invariant h'.
Proof.
  intros Hs Hinv H. unfold add_mu_q_block in H.
  destruct (negb (dim0 mu =? 3) || negb (dim1 mu =? dim2 mu)); [discriminate|].
  destruct (search_elem_label h (make_elem_label "H_0" s)) as [ind_H_0|] eqn:E0;
    [|discriminate].
  cbn [bind] in H.
  destruct (search_elem_label h (make_elem_label "mu_q" s)) as [ind_mu_q|] eqn:E1;
    [|discriminate].
  cbn [bind] in H. cbv zeta in H.
  match type of H with
  | bind ?m _ = _ => destruct m as [h1|] eqn:Hh1; [|discriminate]
  end.
  cbn [bind] in H.
  destruct (refresh_counts_frame h1 h' H) as [Hbl Hkeys].
  apply (dipole_invariant_blocks h1 h' Hbl Hkeys). clear H Hbl Hkeys.
  destruct Hinv as (Hsq & Hpairs & Hkeysinv).
  destruct ind_H_0 as [ij|].
  - assert (Hdiag : fst ij = snd ij).
    { apply (search_elem_label_diagonal h (make_elem_label "H_0" s) s ij);
        [repeat split; assumption | exact Hs | left; reflexivity | exact E0]. }
    destruct (found_block_n h (Some ij)) as [n|]; [|discriminate].
    cbn [bind] in Hh1. destruct (negb (dim1 mu =? n)); [discriminate|].
    destruct (get_cell (blocks h) ij) as [old|]; [|discriminate].
    cbn [bind] in Hh1.
    destruct (set_cell (blocks h) ij _) as [bl|] eqn:Hset; [|discriminate].
    cbn [bind] in Hh1. inversion Hh1; subst h1; clear Hh1.
    destruct ij as [a b]. cbn [fst snd] in Hdiag. subst b.
    repeat split; cbn [blocks with_blocks laser_keys].
    + apply (set_cell_square _ _ _ _ Hset Hsq).
    + apply (diagonal_write_pairs _ _ _ _ Hset Hpairs).
    + exact Hkeysinv.
  - destruct ind_mu_q; [discriminate|].
    destruct (set_last_cell _ _) as [bl|] eqn:Hset; [|discriminate].
    cbn [bind] in Hh1. inversion Hh1; subst h1; clear Hh1.
    apply set_last_cell_new in Hset.
    repeat split; cbn [blocks laser_keys].
    + apply (set_cell_square _ _ _ _ Hset).
      apply add_new_row_and_column_square, Hsq.
    + apply (diagonal_write_pairs _ _ _ _ Hset).
      intros i j Hne. rewrite !add_new_row_and_column_cell_at.
      apply Hpairs, Hne.
    + exact Hkeysinv.
Qed.

Lemma Cconj_involutive (z : C) : Cconj (Cconj z) = z.
Proof. apply C_eq; unfold Cconj; simpl; lra. Qed.

Lemma conj_transposed_partner (d : ndarray3) :
  conj_transposed d (hermitian_partner d).
Proof. repeat split. Qed.

Lemma conj_transposed_sym (A B : ndarray3) :
  conj_transposed A B -> conj_transposed B A.
Proof.
  intros (H1 & H2 & H3). repeat split; try (symmetry; assumption).
  intros q r c Hq. rewrite (H3 q c r Hq), Cconj_involutive. reflexivity.
Qed.

Lemma dict_get_set_inv {V : Type} (d : dict V) (key key' : string) (v w : V) :
  dict_get (dict_set d key v) key' = Some w ->
  w = v \/ dict_get d key' = Some w.
Proof.
  destruct (string_dec key key') as [->|Hne].
  - rewrite dict_get_set_same. intros H. inversion H. left. reflexivity.
  - rewrite dict_get_set_other by exact Hne. intros H. right. exact H.
Qed.

(** Writing a dipole block at [(a, b)] and its partner at [(b, a)]. *)
Lemma pair_write_pairs (bl bl1 bl2 : list (list cell)) (a b : nat)
      (la lb : string) (d : ndarray3) (k1 k2 : string) (v1 v2 : R) :
  set_cell bl (a, b)
           (CBlock (set_parameter
                      (set_parameter
                         (new_vector_block (make_elem_label_d_q la lb) d) k1 v1)
                      k2 v2)) = Ok bl1 ->
  set_cell bl1 (b, a)
           (CBlock (new_vector_block (make_elem_label_d_q lb la)
                                     (hermitian_partner d))) = Ok bl2 ->
  bar_free la = true -> bar_free lb = true ->
  (forall i j, i <> j -> dipole_pair (cell_at bl i j) (cell_at bl j i)) ->
  forall i j, i <> j -> dipole_pair (cell_at bl2 i j) (cell_at bl2 j i).
Proof.
  intros Hset1 Hset2 Hla Hlb Hpairs i j Hne.
  rewrite !(set_cell_cell_at bl1 bl2 b a _ Hset2).
  rewrite !(set_cell_cell_at bl bl1 a b _ Hset1).
  unfold new_vector_block. cbn [set_parameter].
  destruct (Nat.eqb_spec i a), (Nat.eqb_spec i b), (Nat.eqb_spec j a),
           (Nat.eqb_spec j b); subst; cbn [andb];
    try contradiction; try (apply Hpairs; assumption).
  - right. do 12 eexists. split; [reflexivity|]. split; [reflexivity|].
    split; [exact Hla|]. split; [exact Hlb|]. apply conj_transposed_partner.
  - right. do 12 eexists. split; [reflexivity|]. split; [reflexivity|].
    split; [exact Hlb|]. split; [exact Hla|].
    apply conj_transposed_sym, conj_transposed_partner.
Qed.

Lemma add_d_q_block_invariant (h h' : hamiltonian) (label1 label2 : string)
      (d : ndarray3) (k gamma : R) :
  bar_free label1 = true -> bar_free label2 = true -> dipole_invariant h ->
  add_d_q_block h label1 label2 d k gamma = Ok h' -> dipole_invariant h'.
Proof.
  intros H1 H2 (Hsq & Hpairs & Hkeys) H. unfold add_d_q_block in H.
  destruct (manifold_of_label h label1) as [[ind1 n]|]; [|discriminate].
  cbn [bind] in H.
  destruct (manifold_of_label h label2) as [[ind2 m]|]; [|discriminate].
  cbn [bind] in H.
  destruct (negb (dim1 d =? n) || negb (dim2 d =? m)); [discriminate|].
  destruct (dim0 d <? 3)%nat; [discriminate|].
  cbv zeta in H.
  destruct (Nat.ltb_spec ind2 ind1) as [Hlt|Hge]; cbn [fst snd] in H.
  - destruct (set_cell (blocks h) (ind2, ind1) _) as [bl1|] eqn:Hset1;
      [|discriminate].
    cbn [bind] in H.
    destruct (set_cell bl1 (ind1, ind2) _) as [bl2|] eqn:Hset2; [|discriminate].
    cbn [bind] in H. inversion H; subst h'; clear H.
    repeat split; cbn [blocks laser_keys].
    + apply (set_cell_square _ _ _ _ Hset2), (set_cell_square _ _ _ _ Hset1), Hsq.
    + apply (pair_write_pairs _ _ _ _ _ _ _ _ _ _ _ _ Hset1 Hset2 H2 H1 Hpairs).
    + intros key ij Hget. apply dict_get_set_inv in Hget.
      destruct Hget as [->|Hget]; [cbn [fst snd]; lia | apply (Hkeys key ij Hget)].
  - destruct (set_cell (blocks h) (ind1, ind2) _) as [bl1|] eqn:Hset1;
      [|discriminate].
    cbn [bind] in H.
    destruct (set_cell bl1 (ind2, ind1) _) as [bl2|] eqn:Hset2; [|discriminate].
    cbn [bind] in H. inversion H; subst h'; clear H.
    repeat split; cbn [blocks laser_keys].
    + apply (set_cell_square _ _ _ _ Hset2), (set_cell_square _ _ _ _ Hset1), Hsq.
    + apply (pair_write_pairs _ _ _ _ _ _ _ _ _ _ _ _ Hset1 Hset2 H1 H2 Hpairs).
    + intros key ij Hget. apply dict_get_set_inv in Hget.
      destruct Hget as [->|Hget]; [cbn [fst snd]; lia | apply (Hkeys key ij Hget)].
Qed.

Lemma for_each_exn_cons {A St : Type} (x : A) (l : list A)
      (body : A -> St -> result St) (s : St) :
  for_each_exn (x :: l) body s = (s1 <- body x s ;; for_each_exn l body s1).
Proof.
  unfold for_each_exn. simpl. destruct (body x s) as [s1|e]; cbn [bind].
  - reflexivity.
  - apply for_each_exn_raise.
Qed.

Lemma register_invariant (op : registration) (h h' : hamiltonian) :
  labels_bar_free op = true -> dipole_invariant h ->
  register op h = Ok h' -> dipole_invariant h'.
Proof.
  destruct op as [s H0 | s mu muB | l1 l2 d k gamma]; cbn [labels_bar_free register];
    intros Hfree Hinv H.
  - apply (add_H_0_block_invariant h h' s H0 Hfree Hinv H).
  - apply (add_mu_q_block_invariant h h' s mu muB Hfree Hinv H).
  - apply andb_true_iff in Hfree. destruct Hfree as [F1 F2].
    apply (add_d_q_block_invariant h h' l1 l2 d k gamma F1 F2 Hinv H).
Qed.

Lemma register_all_invariant (ops : list registration) :
  forall h h', forallb labels_bar_free ops = true -> dipole_invariant h ->
               register_all ops h = Ok h' -> dipole_invariant h'.
Proof.
  induction ops as [|op ops IH]; intros h h' Hfree Hinv H.
  - inversion H; subst. exact Hinv.
  - unfold register_all in H. rewrite for_each_exn_cons in H.
    cbn [forallb] in Hfree. apply andb_true_iff in Hfree.
    destruct Hfree as [F1 F2].
    destruct (register op h) as [h1|] eqn:Hop; [|discriminate].
    cbn [bind] in H.
    apply (IH h1 h' F2 (register_invariant op h h1 F1 Hinv Hop) H).
Qed.

Lemma hamiltonian_empty_invariant (mass : R) :
  dipole_invariant (hamiltonian_empty mass).
Proof.
  repeat split; cbn [blocks laser_keys hamiltonian_empty].
  - intros row [].
  - intros i j _. left. unfold cell_at.
    destruct i, j; split; reflexivity.
  - intros key ij H. discriminate.
Qed.

Lemma get_cell_cell_at (bl : list (list cell)) (i j : nat) :
  square bl -> (i < List.length bl)%nat -> (j < List.length bl)%nat ->
  get_cell bl (i, j) = Ok (cell_at bl i j).
Proof.
  intros Hsq Hi Hj. unfold get_cell, cell_at. cbn [fst snd].
  rewrite (nth_error_nth' bl [] Hi).
  assert (Hlen : List.length (nth i bl []) = List.length bl)
    by (apply Hsq, nth_In, Hi).
  rewrite (nth_error_nth' (nth i bl []) CNone) by (rewrite Hlen; exact Hj).
  reflexivity.
Qed.

(** The dipole blocks of a Hamiltonian built by registrations whose labels
    have no [|]. *)
Lemma registered_dipole_pairs (ops : list registration) (mass : R)
      (h : hamiltonian) :
  forallb labels_bar_free ops = true ->
  register_all ops (hamiltonian_empty mass) = Ok h ->
  (forall i j, (i < List.length (blocks h))%nat ->
               (j < List.length (blocks h))%nat -> i <> j ->
     exists c c', get_cell (blocks h) (i, j) = Ok c
                  /\ get_cell (blocks h) (j, i) = Ok c'
                  /\ dipole_pair c c')
  /\ (forall key i j, dict_get (laser_keys h) key = Some (i, j) -> (i <= j)%nat).
Proof.
  intros Hfree Hrun.
  destruct (register_all_invariant ops _ h Hfree
              (hamiltonian_empty_invariant mass) Hrun) as (Hsq & Hpairs & Hkeys).
  split.
  - intros i j Hi Hj Hne.
    exists (cell_at (blocks h) i j), (cell_at (blocks h) j i).
    split; [apply get_cell_cell_at; assumption|].
    split; [apply get_cell_cell_at; assumption|].
    apply Hpairs, Hne.
  - intros key i j Hget. apply (Hkeys key (i, j) Hget).
Qed.

Ltac run_registrations :=
  unfold register_all, for_each_exn;
  cbn [fold_left bind register];
  unfold add_H_0_block, add_mu_q_block, add_d_q_block;
  run_blocks; unfold new_block, new_vector_block; run_blocks.

Lemma get_cell_ok_cell_at (bl : list (list cell)) (i j : nat) (c : cell) :
  get_cell bl (i, j) = Ok c ->
  cell_at bl i j = c /\ (i < List.length bl)%nat.
Proof.
  unfold get_cell, cell_at. cbn [fst snd].
  destruct (nth_error bl i) as [row|] eqn:Hrow; [|discriminate].
  destruct (nth_error row j) as [c'|] eqn:Hc; [|discriminate].
  intros H. inversion H; subst c'. split.
  - rewrite (nth_error_nth bl i [] Hrow). apply (nth_error_nth row j CNone Hc).
  - apply nth_error_Some. rewrite Hrow. discriminate.
Qed.

Lemma set_cell_bounds (bl bl' : list (list cell)) (a b : nat) (x : cell) :
  set_cell bl (a, b) x = Ok bl' -> (a < List.length bl)%nat.
Proof.
  unfold set_cell. cbn [fst snd].
  destruct (nth_error bl a) as [row|] eqn:Hrow; [|discriminate].
  intros _. apply nth_error_Some. rewrite Hrow. discriminate.
Qed.


(* ------------------------------------------------------------------ *)
(** ** The pairing of the dipole blocks, for any labels *)


Lemma dipole_pair_paired (c c' : cell) : dipole_pair c c' -> paired c c'.
Proof.
  intros [H|(a & b & dg & M & p & n & m & dg' & M' & p' & n' & m'
             & -> & -> & _ & _ & HM)].
  - left. exact H.
  - right. do 12 eexists. split; [apply holds_block|].
    split; [apply holds_block | exact HM].
Qed.

















(* ================================================================== *)
(** * Further properties of the code *)
(* ================================================================== *)

(* ------------------------------------------------------------------ *)
(** ** The index of the flattened density matrix *)

(** X1: [density_index] enumerates the pairs of states: every index [a]
    below [n**2] is the index of the pair [(a mod n, a div n)] of states,
    and of no other pair with a valid first state. *)
Theorem density_index_round_trip (n a : nat) :
  (a < n * n)%nat ->
  (a mod n < n)%nat /\ (a / n < n)%nat
  /\ density_index n (a mod n) (a / n) = a
  /\ forall i j, (i < n)%nat -> density_index n i j = a ->
                 i = (a mod n)%nat /\ j = (a / n)%nat.
Proof.
  intros Ha.
  assert (Hn : (0 < n)%nat) by (destruct n; [simpl in Ha|]; lia).
  assert (Hmod : (a mod n < n)%nat) by (apply Nat.mod_upper_bound; lia).
  assert (Hdiv : (a / n < n)%nat) by (apply Nat.Div0.div_lt_upper_bound; lia).
  assert (Hrt : density_index n (a mod n) (a / n) = a).
  { unfold density_index. pose proof (Nat.div_mod_eq a n). lia. }
  repeat split; try assumption.
  - destruct (density_index_inj n i j (a mod n) (a / n) H Hmod) as [E _];
      [rewrite Hrt; exact H0 | exact E].
  - destruct (density_index_inj n i j (a mod n) (a / n) H Hmod) as [_ E];
      [rewrite Hrt; exact H0 | exact E].
Qed.

Lemma density_index_round_trip_witness :
  (3 < 2 * 2)%nat
  /\ (3 mod 2 < 2)%nat /\ (3 / 2 < 2)%nat
  /\ density_index 2 (3 mod 2) (3 / 2) = 3%nat
  /\ forall i j, (i < 2)%nat -> density_index 2 i j = 3%nat ->
                 i = (3 mod 2)%nat /\ j = (3 / 2)%nat.
Proof.
  split; [lia|]. apply (density_index_round_trip 2 3). lia.
Defined.

(* ------------------------------------------------------------------ *)
(** ** The matrices of the coherent evolution *)

Lemma Cconj_add (a b : C) : Cconj (a + b) = (Cconj a + Cconj b)%C.
Proof. apply C_eq; unfold Cconj, Cadd; simpl; lra. Qed.

Lemma Cconj_sub (a b : C) : Cconj (a - b) = (Cconj a - Cconj b)%C.
Proof. apply C_eq; unfold Cconj, Csub; simpl; lra. Qed.

Lemma Cconj_mul (a b : C) : Cconj (a * b) = (Cconj a * Cconj b)%C.
Proof. apply C_eq; unfold Cconj, Cmul; simpl; lra. Qed.

Lemma Cconj_Ci : Cconj Ci = (- Ci)%C.
Proof. apply C_eq; unfold Cconj, Ci, Copp; simpl; lra. Qed.

Lemma Cconj_C0 : Cconj C0 = C0.
Proof. apply C_eq; unfold Cconj, C0; simpl; lra. Qed.

Lemma csum_range_Cconj (lo hi : nat) (f : nat -> C) :
  Cconj (csum_range lo hi f) = csum_range lo hi (fun i => Cconj (f i)).
Proof.
  destruct (le_lt_dec lo hi) as [Hle|Hlt].
  - replace hi with (lo + (hi - lo))%nat by lia.
    induction (hi - lo)%nat as [|k IH].
    + rewrite !csum_range_empty by lia. apply Cconj_C0.
    + rewrite !csum_range_S, Cconj_add, IH. reflexivity.
  - rewrite !csum_range_empty by lia. apply Cconj_C0.
Qed.

Lemma csum_Cconj (n : nat) (f : nat -> C) :
  Cconj (csum n f) = csum n (fun i => Cconj (f i)).
Proof. apply csum_range_Cconj. Qed.

(** The entries of the matrix of [a H1 + b H2]. *)
Lemma coherent_ev_linear (n : nat) (H1 H2 : matrix) (x y : C) (a b : nat) :
  (a < n * n)%nat ->
  build_coherent_ev_submatrix n
    (fun r c => (x * H1 r c + y * H2 r c)%C) a b
  = (x * build_coherent_ev_submatrix n H1 a b
     + y * build_coherent_ev_submatrix n H2 a b)%C.
Proof.
  intros Ha.
  destruct (density_index_decode n a Ha) as (i & j & Hi & Hj & ->).
  rewrite !coherent_ev_entry by assumption.
  rewrite <- !csum_scale, <- csum_plus.
  apply csum_ext. intros k Hk.
  destruct (b =? density_index n i k), (b =? density_index n k j); ring.
Qed.

(** X2: [build_coherent_ev_submatrix] is linear in its argument: every
    entry (in the [n**2] rows of the array) of the matrix built for
    [x*H1 + y*H2] is [x] times the entry of the matrix of [H1] plus [y]
    times the entry of the matrix of [H2].  The evolution matrices of
    [H_0], of the three [mu_q] and of the [d_q] can therefore be built once
    and combined with the field amplitudes. *)
Theorem build_coherent_ev_submatrix_linear (n : nat) (H1 H2 : matrix)
        (x y : C) (a b : nat) :
  (a < n * n)%nat ->
  build_coherent_ev_submatrix n
    (fun r c => (x * H1 r c + y * H2 r c)%C) a b
  = (x * build_coherent_ev_submatrix n H1 a b
     + y * build_coherent_ev_submatrix n H2 a b)%C.
Proof. apply coherent_ev_linear. Qed.

Lemma build_coherent_ev_submatrix_linear_witness :
  (2 < 2 * 2)%nat
  /\ build_coherent_ev_submatrix 2
       (fun r c => (Ci * H_sigma_x r c + C1 * rho_ground r c)%C) 2 0
     = (Ci * build_coherent_ev_submatrix 2 H_sigma_x 2 0
        + C1 * build_coherent_ev_submatrix 2 rho_ground 2 0)%C.
Proof.
  split; [lia|].
  apply (build_coherent_ev_submatrix_linear 2 H_sigma_x rho_ground Ci C1 2 0).
  lia.
Defined.

(** X3: the product of the matrix [build_coherent_ev_submatrix] returns
    with any vector has populations (the entries at the [n] indices
    [density_index(i, i)]) that sum to zero, for every array [H]: the
    coherent evolution conserves the trace. *)
Theorem coherent_evolution_conserves_trace (n : nat) (H : matrix)
        (rho : vector) :
  diag_sum n (matvec (n * n) (build_coherent_ev_submatrix n H) rho) = C0.
Proof. apply trace_free_matvec, coherent_ev_trace_free. Qed.

(** A Hermitian Hamiltonian keeps a Hermitian density matrix Hermitian. *)
Lemma coherent_ev_hermitian (n : nat) (H : matrix) (rho : vector) :
  (forall i j, (i < n)%nat -> (j < n)%nat -> H j i = Cconj (H i j)) ->
  (forall i j, (i < n)%nat -> (j < n)%nat ->
     rho (density_index n j i) = Cconj (rho (density_index n i j))) ->
  forall i j, (i < n)%nat -> (j < n)%nat ->
    matvec (n * n) (build_coherent_ev_submatrix n H) rho (density_index n j i)
    = Cconj (matvec (n * n) (build_coherent_ev_submatrix n H) rho
                    (density_index n i j)).
Proof.
  intros HH Hrho i j Hi Hj.
  rewrite !coherent_ev_matvec by assumption.
  rewrite csum_Cconj. apply csum_ext. intros k Hk.
  rewrite Cconj_sub, !Cconj_mul, Cconj_Ci.
  rewrite <- (HH k j Hk Hj), <- (HH i k Hi Hk).
  rewrite <- (Hrho i k Hi Hk), <- (Hrho k j Hk Hj). ring.
Qed.

(** X4: for a Hermitian [H] and the flattened vector of a Hermitian
    matrix, the product with the matrix of [build_coherent_ev_submatrix(H)]
    is the flattened vector of a Hermitian matrix again: its entry at
    [(j, i)] is the conjugate of its entry at [(i, j)]. *)
Theorem coherent_evolution_keeps_hermitian (n : nat) (H : matrix)
        (rho : vector) :
  (forall i j, (i < n)%nat -> (j < n)%nat -> H j i = Cconj (H i j)) ->
  (forall i j, (i < n)%nat -> (j < n)%nat ->
     rho (density_index n j i) = Cconj (rho (density_index n i j))) ->
  forall i j, (i < n)%nat -> (j < n)%nat ->
    matvec (n * n) (build_coherent_ev_submatrix n H) rho (density_index n j i)
    = Cconj (matvec (n * n) (build_coherent_ev_submatrix n H) rho
                    (density_index n i j)).
Proof. apply coherent_ev_hermitian. Qed.

Lemma H_sigma_x_hermitian (i j : nat) :
  (i < 2)%nat -> (j < 2)%nat -> H_sigma_x j i = Cconj (H_sigma_x i j).
Proof.
  intros Hi Hj. destruct i as [|[|i]]; try lia; destruct j as [|[|j]]; try lia;
    apply C_eq; simpl; lra.
Qed.

Lemma rho_ground_hermitian (i j : nat) :
  (i < 2)%nat -> (j < 2)%nat ->
  flatten 2 rho_ground (density_index 2 j i)
  = Cconj (flatten 2 rho_ground (density_index 2 i j)).
Proof.
  intros Hi Hj. rewrite !flatten_density_index by assumption.
  destruct i as [|[|i]]; try lia; destruct j as [|[|j]]; try lia;
    apply C_eq; simpl; lra.
Qed.

Lemma coherent_evolution_keeps_hermitian_witness :
  matvec (2 * 2) (build_coherent_ev_submatrix 2 H_sigma_x)
         (flatten 2 rho_ground) (density_index 2 1 0)
  = Cconj (matvec (2 * 2) (build_coherent_ev_submatrix 2 H_sigma_x)
                  (flatten 2 rho_ground) (density_index 2 0 1)).
Proof.
  apply (coherent_evolution_keeps_hermitian 2 H_sigma_x (flatten 2 rho_ground)
           H_sigma_x_hermitian rho_ground_hermitian 0 1); lia.
Defined.

(* ------------------------------------------------------------------ *)
(** ** The real basis *)

(** The product of [Uinv] with the flattened vector of a Hermitian matrix:
    the populations, the real parts of the entries above the diagonal and
    their imaginary parts. *)
Lemma Uinv_of_hermitian (n : nat) (rho : vector) (i j : nat) :
  (forall i j, (i < n)%nat -> (j < n)%nat ->
     rho (density_index n j i) = Cconj (rho (density_index n i j))) ->
  (i < n)%nat -> (j < n)%nat ->
  matvec (n * n) (snd (build_transform_matrices n)) rho (density_index n i j)
  = if i =? j then RtoC (Re (rho (density_index n i i)))
    else if i <? j then RtoC (Re (rho (density_index n i j)))
         else RtoC (Im (rho (density_index n j i))).
Proof.
  intros Hrho Hi Hj. unfold matvec.
  rewrite (csum_ext (n * n) _ (fun b => (Uinv_row n i j b * rho b)%C))
    by (intros b _; rewrite (proj2 (build_transform_matrices_rows n i j b Hi Hj));
        reflexivity).
  pose proof (density_index_lt n i j Hi Hj) as Hij.
  pose proof (density_index_lt n j i Hj Hi) as Hji.
  unfold Uinv_row.
  destruct (Nat.eqb_spec i j) as [->|Hne].
  - rewrite csum_one_point by exact Hij.
    pose proof (Hrho j j Hj Hj) as Hd.
    apply C_eq; [unfold Cmul, C1, RtoC; simpl; lra|].
    apply (f_equal Im) in Hd. unfold Cconj in Hd. simpl in Hd.
    unfold Cmul, C1, RtoC, Im, Re in *. simpl. lra.
  - assert (Hd : density_index n i j <> density_index n j i)
      by (intros E; apply density_index_inj in E; lia).
    pose proof (Hrho i j Hi Hj) as Hh.
    destruct (Nat.ltb_spec i j).
    + rewrite csum_two_points by assumption. rewrite Hh.
      destruct (rho (density_index n i j)) as [x y].
      apply C_eq; unfold Cmul, Cadd, Cconj, RtoC, Re, Im; simpl; lra.
    + rewrite csum_two_points by assumption.
      pose proof (Hrho j i Hj Hi) as Hh'. rewrite Hh'.
      destruct (rho (density_index n j i)) as [x y].
      apply C_eq; unfold Cmul, Cadd, Cconj, RtoC, Ci, Re, Im; simpl; lra.
Qed.

(** X5: in the real basis a Hermitian density matrix is a real vector:
    the product of [Uinv] of [build_transform_matrices] with the flattened
    vector of a Hermitian matrix holds, at the index of [(i, j)], the
    population for [i = j], the real part of the entry [(i, j)] for
    [i < j], and the imaginary part of the entry [(j, i)] for [i > j]. *)
Theorem real_basis_of_hermitian (n : nat) (rho : vector) (i j : nat) :
  (forall i j, (i < n)%nat -> (j < n)%nat ->
     rho (density_index n j i) = Cconj (rho (density_index n i j))) ->
  (i < n)%nat -> (j < n)%nat ->
  matvec (n * n) (snd (build_transform_matrices n)) rho (density_index n i j)
  = if i =? j then RtoC (Re (rho (density_index n i i)))
    else if i <? j then RtoC (Re (rho (density_index n i j)))
         else RtoC (Im (rho (density_index n j i))).
Proof. apply Uinv_of_hermitian. Qed.

Lemma real_basis_of_hermitian_witness :
  matvec (2 * 2) (snd (build_transform_matrices 2)) (flatten 2 rho_ground)
         (density_index 2 1 0)
  = RtoC (Im (flatten 2 rho_ground (density_index 2 0 1))).
Proof.
  apply (real_basis_of_hermitian 2 (flatten 2 rho_ground) 1 0
           rho_ground_hermitian); lia.
Defined.

(** The columns of [U] are flattened Hermitian matrices. *)
Lemma U_column_hermitian (n b i j : nat) :
  (i < n)%nat -> (j < n)%nat ->
  fst (build_transform_matrices n) (density_index n j i) b
  = Cconj (fst (build_transform_matrices n) (density_index n i j) b).
Proof.
  intros Hi Hj.
  rewrite (proj1 (build_transform_matrices_rows n j i b Hj Hi)).
  rewrite (proj1 (build_transform_matrices_rows n i j b Hi Hj)).
  unfold U_row.
  assert (Hd : i <> j -> density_index n i j <> density_index n j i)
    by (intros Hne E; apply density_index_inj in E; lia).
  destruct (Nat.eqb_spec i j) as [->|Hne].
  - rewrite Nat.eqb_refl.
    destruct (b =? density_index n j j); apply C_eq; simpl; lra.
  - destruct (Nat.eqb_spec j i) as [E|_]; [subst; contradiction|].
    specialize (Hd Hne).
    destruct (Nat.ltb_spec i j), (Nat.ltb_spec j i); try lia;
      destruct (Nat.eqb_spec b (density_index n i j)),
               (Nat.eqb_spec b (density_index n j i));
      try (subst; contradiction); try congruence;
      apply C_eq; simpl; lra.
Qed.

Lemma matmul_as_matvec (N : nat) (A M B : matrix) (a b : nat) :
  matmul N (matmul N A M) B a b
  = matvec N A (matvec N M (fun d => B d b)) a.
Proof.
  unfold matmul, matvec.
  rewrite (csum_ext N _ (fun d => csum N (fun c => (A a c * M c d * B d b)%C)))
    by (intros d _; symmetry; apply csum_scale_r).
  rewrite csum_swap. apply csum_ext. intros c _.
  rewrite <- csum_scale. apply csum_ext. intros d _. ring.
Qed.

Lemma allclose_imag_0_true (N : nat) (M : matrix) :
  (forall a b, (a < N)%nat -> (b < N)%nat -> Im (M a b) = 0%R) ->
  allclose_imag_0 N M = true.
Proof.
  intros H. unfold allclose_imag_0.
  apply forallb_forall. intros a Ha. apply in_seq in Ha.
  apply forallb_forall. intros b Hb. apply in_seq in Hb.
  rewrite H by lia. apply isclose_refl; lra.
Qed.

(** The matrix of a Hermitian [H], taken to the real basis, is real. *)
Lemma coherent_ev_real_basis (n : nat) (H : matrix) (a b : nat) :
  (forall i j, (i < n)%nat -> (j < n)%nat -> H j i = Cconj (H i j)) ->
  (a < n * n)%nat -> (b < n * n)%nat ->
  Im (matmul (n * n)
        (matmul (n * n) (snd (build_transform_matrices n))
                (build_coherent_ev_submatrix n H))
        (fst (build_transform_matrices n)) a b) = 0%R.
Proof.
  intros HH Ha Hb. rewrite matmul_as_matvec.
  destruct (density_index_decode n a Ha) as (i & j & Hi & Hj & ->).
  rewrite Uinv_of_hermitian; try assumption.
  - destruct (i =? j); [reflexivity|]. destruct (i <? j); reflexivity.
  - intros i' j' Hi' Hj'. apply coherent_ev_hermitian; try assumption.
    intros k l Hk Hl. apply U_column_hermitian; assumption.
Qed.

(** X6: for a Hermitian [H], [transform_ev_matrix] of the matrix
    [build_coherent_ev_submatrix(H)] returns: [Uinv @ ev_mat @ U] has no
    imaginary part in any of its [n**2 x n**2] entries, so the [ValueError]
    of a complex result is not raised, and the real part that is returned
    is the whole product. *)
Theorem transform_ev_matrix_of_hermitian (n : nat) (H : matrix) :
  (forall i j, (i < n)%nat -> (j < n)%nat -> H j i = Cconj (H i j)) ->
  exists M',
    snd (transform_ev_matrix n None (build_coherent_ev_submatrix n H)) = Ok M'
    /\ forall a b, (a < n * n)%nat -> (b < n * n)%nat ->
         M' a b = matmul (n * n)
                    (matmul (n * n) (snd (build_transform_matrices n))
                            (build_coherent_ev_submatrix n H))
                    (fst (build_transform_matrices n)) a b.
Proof.
  intros HH. unfold transform_ev_matrix. cbn [ensure_transform_matrices].
  destruct (build_transform_matrices n) as [U Uinv] eqn:EU. cbn [fst snd].
  pose proof (coherent_ev_real_basis n H) as Hreal.
  rewrite EU in Hreal. cbn [fst snd] in Hreal.
  rewrite allclose_imag_0_true by (intros a b Ha Hb; apply Hreal; assumption).
  eexists. split; [reflexivity|].
  intros a b Ha Hb. cbv beta.
  specialize (Hreal a b HH Ha Hb).
  destruct (matmul (n * n) (matmul (n * n) Uinv (build_coherent_ev_submatrix n H)) U a b)
    as [x y].
  unfold Creal, RtoC, Re, Im in *. simpl in *. subst y. reflexivity.
Qed.

Lemma transform_ev_matrix_of_hermitian_witness :
  exists M',
    snd (transform_ev_matrix 2 None (build_coherent_ev_submatrix 2 H_sigma_x))
    = Ok M'
    /\ forall a b, (a < 2 * 2)%nat -> (b < 2 * 2)%nat ->
         M' a b = matmul (2 * 2)
                    (matmul (2 * 2) (snd (build_transform_matrices 2))
                            (build_coherent_ev_submatrix 2 H_sigma_x))
                    (fst (build_transform_matrices 2)) a b.
Proof.
  apply (transform_ev_matrix_of_hermitian 2 H_sigma_x H_sigma_x_hermitian).
Defined.

(* ------------------------------------------------------------------ *)
(** ** The magnetic field in the spherical basis *)

Lemma inv_sqrt2_sqr : (/ sqrt 2 * / sqrt 2 = / 2)%R.
Proof.
  assert (H2 : (sqrt 2 * sqrt 2 = 2)%R) by (apply sqrt_sqrt; lra).
  assert (Hs : (sqrt 2 <> 0)%R) by (intros E; rewrite E in H2; lra).
  rewrite <- Rinv_mult, H2. reflexivity.
Qed.

(** X7: in the complex basis [return_magnetic_field(t, r)] returns the
    spherical components of the Cartesian field [B = magField.Field(r)]:
    the sum of their squared magnitudes is [Bx**2 + By**2 + Bz**2], the
    component [+1] is minus the conjugate of the component [-1], and the
    component [0] is [Bz]. *)
Theorem return_magnetic_field_spherical (o : obe) (t r : pyarg) :
  transform_into_re_im o = false ->
  (abs2 (return_magnetic_field o t r 0) + abs2 (return_magnetic_field o t r 1)
   + abs2 (return_magnetic_field o t r 2)
   = Field (obe_magField o) r 0 ^ 2 + Field (obe_magField o) r 1 ^ 2
     + Field (obe_magField o) r 2 ^ 2)%R
  /\ return_magnetic_field o t r 2 = (- Cconj (return_magnetic_field o t r 0))%C
  /\ return_magnetic_field o t r 1 = RtoC (Field (obe_magField o) r 2).
Proof.
  intros Htr. unfold return_magnetic_field. rewrite Htr.
  set (B := Field (obe_magField o) r).
  pose proof inv_sqrt2_sqr as Hs. set (u := (/ sqrt 2)%R) in *.
  split; [|split].
  - unfold abs2, Cadd, Cmul, Ci, RtoC, Rdiv, Re, Im. cbn [fst snd]. fold u.
    match goal with
    | |- ?L = _ =>
        replace L with (2 * (u * u) * (B 0%nat ^ 2 + B 1%nat ^ 2)
                        + B 2%nat ^ 2)%R by ring
    end.
    rewrite Hs. lra.
  - apply C_eq;
      unfold Cadd, Cmul, Copp, Cconj, Ci, RtoC, Rdiv, Re, Im; cbn [fst snd]; lra.
  - reflexivity.
Qed.

Lemma return_magnetic_field_spherical_witness :
  (abs2 (return_magnetic_field two_level_obe (PyFloat 0) (PyArray position_z1) 0)
   + abs2 (return_magnetic_field two_level_obe (PyFloat 0) (PyArray position_z1) 1)
   + abs2 (return_magnetic_field two_level_obe (PyFloat 0) (PyArray position_z1) 2)
   = Field (obe_magField two_level_obe) (PyArray position_z1) 0 ^ 2
     + Field (obe_magField two_level_obe) (PyArray position_z1) 1 ^ 2
     + Field (obe_magField two_level_obe) (PyArray position_z1) 2 ^ 2)%R
  /\ return_magnetic_field two_level_obe (PyFloat 0) (PyArray position_z1) 2
     = (- Cconj (return_magnetic_field two_level_obe (PyFloat 0)
                                       (PyArray position_z1) 0))%C
  /\ return_magnetic_field two_level_obe (PyFloat 0) (PyArray position_z1) 1
     = RtoC (Field (obe_magField two_level_obe) (PyArray position_z1) 2).
Proof.
  apply (return_magnetic_field_spherical two_level_obe (PyFloat 0)
           (PyArray position_z1)).
  destruct (obe_init_inv (LasersOne no_beams) z_field two_level origin origin
              false None false two_level_obe two_level_obe_ok)
    as (h' & fm & n & decay & H0 & B & E & Estar & _ & _ & _ & _ & _ & _
        & _ & _ & _ & _ & Htr & _).
  exact Htr.
Defined.

(* ------------------------------------------------------------------ *)
(** ** The windows of [find_equilibrium_force] *)

(** What the loop leaves: the count, the forces of the last window and the
    stored solution. *)
Lemma equilibrium_loop_counts (solve_ivp : ivp_solver) (deltat : R)
      (Npts : option nat) (rel abs : R) (fuel : nat) :
  forall (ii : nat) (o : obe) (old : option (nat -> R))
         (last : option window_forces) o' last' ii',
    equilibrium_loop solve_ivp deltat Npts rel abs fuel ii o old last
    = Ok (o', last', ii') ->
    (ii <= ii' <= ii + fuel)%nat
    /\ (fuel = 0%nat -> o' = o /\ last' = last)
    /\ ((0 < fuel)%nat ->
        last' <> None
        /\ ((ii' < ii + fuel)%nat -> sol o' <> None)
        /\ (ii' = (ii + fuel)%nat -> sol o' = None)).
Proof.
  induction fuel as [|fuel IH]; intros ii o old last o' last' ii' H.
  - cbn [equilibrium_loop] in H. inversion H; subst.
    split; [lia|]. split; [intros _; split; reflexivity | intros Hlt; lia].
  - cbn [equilibrium_loop] in H.
    destruct (evolve_density solve_ivp o _ _) as [o1|] eqn:Hev; [|discriminate].
    cbn [bind] in H.
    assert (Hsol1 : sol o1 <> None).
    { unfold evolve_density in Hev.
      destruct (rho0 o); [|discriminate].
      destruct (v0 o); [|discriminate].
      destruct (r0 o); [|discriminate].
      destruct (solve_ivp o _ _) as [s|]; [|discriminate].
      cbn [bind] in Hev. inversion Hev. cbn. discriminate. }
    destruct (force_from_sol o1) as [w|]; [|discriminate].
    cbn [bind] in H.
    destruct (converged old _ rel abs).
    + inversion H; subst. split; [lia|]. split; [intros E; discriminate|].
      intros _. split; [discriminate|]. split; [intros _; exact Hsol1 | lia].
    + destruct (sol o1) as [s|]; [|discriminate].
      destruct (last_column s 0 (sol_rows s - 6)) as [rho|]; [|discriminate].
      cbn [bind] in H.
      destruct (set_initial_rho o1 rho) as [o2|]; [|discriminate].
      cbn [bind] in H.
      destruct (last_column s (sol_rows s - 3) (sol_rows s)) as [r|];
        [|discriminate].
      cbn [bind] in H.
      destruct (last_column s (sol_rows s - 6) (sol_rows s - 3)) as [v|];
        [|discriminate].
      cbn [bind] in H.
      destruct (IH _ _ _ _ _ _ _ H) as (Hii & H0 & Hpos).
      split; [lia|]. split; [intros E; discriminate|].
      intros _. destruct fuel as [|fuel].
      * destruct (H0 eq_refl) as [-> ->].
        split; [discriminate|]. split; [lia | intros _; reflexivity].
      * destruct (Hpos ltac:(lia)) as (Hlast & Hlt & Heq).
        split; [exact Hlast|].
        split; [intros Hlt'; apply Hlt; lia | intros E; apply Heq; lia].
Qed.

(** The loop returns when every window completes, the object is
    consistent with its lasers and its initial state is set. *)
Lemma equilibrium_loop_returns (solve_ivp : ivp_solver) (deltat : R)
      (Npts : option nat) (rel abs : R) (fuel : nat) :
  completes solve_ivp ->
  forall (ii : nat) (o : obe) (old : option (nat -> R))
         (last : option window_forces),
    obe_ready o -> initial_state_set o ->
    exists res,
      equilibrium_loop solve_ivp deltat Npts rel abs fuel ii o old last = Ok res.
Proof.
  intros Hsolver.
  induction fuel as [|fuel IH]; intros ii o old last Hready Hinit.
  - eexists. reflexivity.
  - cbn [equilibrium_loop].
    match goal with
    | |- context [evolve_density solve_ivp o ?span ?te] =>
        destruct (Hsolver o span te) as (s & Hs & Hne);
        rewrite (evolve_density_stores solve_ivp o span te s Hinit Hs)
    end.
    cbn [bind].
    set (o1 := {| obe_hamiltonian := obe_hamiltonian o; sol := Some s |}).
    assert (Hready1 : obe_ready o1) by exact Hready.
    destruct (force_from_sol_returns o1 s Hready1 eq_refl) as (w & Hw & HT).
    rewrite Hw. cbn [bind].
    destruct (converged old _ rel abs); [eexists; reflexivity|].
    cbn [sol o1].
    destruct (last_column_returns s 0 (sol_rows s - 6) Hne)
      as (rho & Hrho & Hfin).
    destruct (last_column_returns s (sol_rows s - 3) (sol_rows s) Hne)
      as (r & Hr & _).
    destruct (last_column_returns s (sol_rows s - 6) (sol_rows s - 3) Hne)
      as (v & Hv & _).
    rewrite Hrho. cbn [bind]. unfold set_initial_rho. rewrite Hfin.
    cbn [bind]. rewrite Hr. cbn [bind]. rewrite Hv. cbn [bind].
    apply IH; [exact Hready|].
    repeat split; cbn; discriminate.
Qed.

Lemma obe_ready_transfer (o o' : obe) :
  obe_laserBeams o' = obe_laserBeams o ->
  obe_hamiltonian o' = obe_hamiltonian o ->
  obe_ready o -> obe_ready o'.
Proof.
  unfold obe_ready, key_ready. intros -> ->. exact (fun H => H).
Qed.

Lemma two_level_ground_obe_ready : obe_ready two_level_ground_obe.
Proof.
  destruct (obe_init_initial_state (LasersOne no_beams) z_field two_level
              origin origin false None false two_level_obe two_level_obe_ok)
    as (Hr & Hv & _).
  destruct (set_initial_rho_initial_state _ _ _ two_level_ground_obe_ok)
    as (_ & _ & Hb & Hh & _).
  - rewrite Hr. discriminate.
  - rewrite Hv. discriminate.
  - apply (obe_ready_transfer two_level_obe _ Hb Hh two_level_obe_ready).
Qed.

Lemma find_equilibrium_force_returns_ok (solve_ivp : ivp_solver) (o : obe)
      (kwargs : equilibrium_kwargs) :
  completes solve_ivp -> obe_ready o -> initial_state_set o ->
  (1 <= pop (kw_itermax kwargs) 100)%nat ->
  exists o' res, find_equilibrium_force solve_ivp o kwargs = Ok (o', res).
Proof.
  intros Hsolver Hready Hinit Hiter. unfold find_equilibrium_force. cbv zeta.
  match goal with
  | |- context [equilibrium_loop ?s ?d ?N ?r ?a ?f ?i ?ob ?old ?l] =>
      destruct (equilibrium_loop_returns s d N r a f Hsolver i ob old l Hready
                                         Hinit)
        as ([[o' last'] ii'] & Hloop);
      destruct (equilibrium_loop_counts s d N r a f i ob old l o' last' ii' Hloop)
        as (_ & _ & Hpos)
  end.
  rewrite Hloop. cbn [bind].
  destruct (Hpos ltac:(lia)) as (Hlast & _).
  destruct last' as [w|]; [|contradiction].
  eexists. eexists. reflexivity.
Qed.

Lemma find_equilibrium_force_counts (solve_ivp : ivp_solver) (o o' : obe)
      (kwargs : equilibrium_kwargs) (res : equilibrium_result) :
  find_equilibrium_force solve_ivp o kwargs = Ok (o', res) ->
  (1 <= pop (kw_itermax kwargs) 100)%nat
  /\ (res_iterations res <= pop (kw_itermax kwargs) 100)%nat
  /\ ((res_iterations res < pop (kw_itermax kwargs) 100)%nat -> sol o' <> None)
  /\ (res_iterations res = pop (kw_itermax kwargs) 100 -> sol o' = None).
Proof.
  unfold find_equilibrium_force. cbv zeta. intros H.
  match type of H with
  | bind ?m _ = _ => destruct m as [[[o1 last'] ii']|] eqn:Hloop; [|discriminate]
  end.
  cbn [bind] in H.
  destruct (equilibrium_loop_counts _ _ _ _ _ _ _ _ _ _ _ _ _ Hloop)
    as (Hii & H0 & Hpos).
  destruct last' as [w|]; [|discriminate].
  inversion H; subst o' res; clear H. cbn [res_iterations].
  destruct (pop (kw_itermax kwargs) 100) as [|k] eqn:Ek.
  - destruct (H0 eq_refl) as [_ E]. discriminate.
  - destruct (Hpos ltac:(lia)) as (_ & Hlt & Heq).
    split; [lia|]. split; [lia|].
    split; [intros Hl; apply Hlt; lia | intros E; apply Heq; lia].
Qed.

(** X8: when [find_equilibrium_force] returns, [itermax] was at least [1]
    and the returned count [ii] is at most [itermax]; the object then
    holds the solution of the last window when the search broke off
    ([ii < itermax]), and [self.sol] is [None] when the count reached
    [itermax] (the setters of the position and velocity that end an
    unconverged window reset it). *)
Theorem find_equilibrium_force_iterations (solve_ivp : ivp_solver)
        (o o' : obe) (kwargs : equilibrium_kwargs) (res : equilibrium_result) :
  find_equilibrium_force solve_ivp o kwargs = Ok (o', res) ->
  (1 <= pop (kw_itermax kwargs) 100)%nat
  /\ (res_iterations res <= pop (kw_itermax kwargs) 100)%nat
  /\ ((res_iterations res < pop (kw_itermax kwargs) 100)%nat -> sol o' <> None)
  /\ (res_iterations res = pop (kw_itermax kwargs) 100 -> sol o' = None).
Proof. apply find_equilibrium_force_counts. Qed.

Lemma find_equilibrium_force_iterations_witness :
  exists o' res,
    find_equilibrium_force ground_solver two_level_ground_obe kwargs_itermax_1
    = Ok (o', res)
    /\ (1 <= pop (kw_itermax kwargs_itermax_1) 100)%nat
    /\ (res_iterations res <= pop (kw_itermax kwargs_itermax_1) 100)%nat
    /\ ((res_iterations res < pop (kw_itermax kwargs_itermax_1) 100)%nat ->
        sol o' <> None)
    /\ (res_iterations res = pop (kw_itermax kwargs_itermax_1) 100 ->
        sol o' = None).
Proof.
  destruct (find_equilibrium_force_returns_ok ground_solver
              two_level_ground_obe kwargs_itermax_1 ground_solver_completes
              two_level_ground_obe_ready (proj1 two_level_ground_obe_state))
    as (o' & res & Hret); [cbn; lia|].
  exists o', res. split; [exact Hret|].
  apply (find_equilibrium_force_iterations ground_solver two_level_ground_obe
           o' kwargs_itermax_1 res Hret).
Defined.



(* ------------------------------------------------------------------ *)
(** ** The full matrices *)

Lemma dict_get_map {V W : Type} (f : V -> W) (d : dict V) (key : string) :
  dict_get (map (fun kv : string * V => (fst kv, f (snd kv))) d) key
  = option_map f (dict_get d key).
Proof.
  induction d as [|[k v] d IH]; simpl; [reflexivity|].
  destruct (String.eqb k key); [reflexivity | exact IH].
Qed.

Lemma aggregated_d_q_hermitian (bare : dict (nat -> matrix))
      (acc : nat -> matrix) :
  (forall q r c, acc q r c = Cconj (acc q c r)) ->
  forall q r c,
    fold_left (fun acc (bs : (string * (nat -> matrix))
                             * (string * (nat -> matrix))) =>
                 vmplus acc (vmplus (snd (fst bs)) (snd (snd bs))))
              (combine bare
                 (map (fun kv : string * (nat -> matrix) =>
                         (fst kv, fun kk => conj_transpose (snd kv kk))) bare))
              acc q r c
    = Cconj (fold_left (fun acc (bs : (string * (nat -> matrix))
                                      * (string * (nat -> matrix))) =>
                 vmplus acc (vmplus (snd (fst bs)) (snd (snd bs))))
              (combine bare
                 (map (fun kv : string * (nat -> matrix) =>
                         (fst kv, fun kk => conj_transpose (snd kv kk))) bare))
              acc q c r).
Proof.
  revert acc. induction bare as [|[k b] bare IH]; intros acc Hacc q r c.
  - simpl. apply Hacc.
  - simpl. apply IH. intros q' r' c'.
    unfold vmplus, mplus, conj_transpose.
    rewrite !Cconj_add, Cconj_involutive, (Hacc q' r' c'). ring.
Qed.

Lemma make_full_matrices_inv (h h' : hamiltonian) (fm : full_matrices) :
  make_full_matrices h = Ok h' -> full h' = Some fm ->
  d_q_star fm = map (fun kv : string * (nat -> matrix) =>
                       (fst kv, fun kk => conj_transpose (snd kv kk)))
                    (d_q_bare fm)
  /\ d_q fm = fold_left (fun acc (bs : (string * (nat -> matrix))
                                       * (string * (nat -> matrix))) =>
                  vmplus acc (vmplus (snd (fst bs)) (snd (snd bs))))
                (combine (d_q_bare fm) (d_q_star fm)) vzeros.
Proof.
  unfold make_full_matrices. intros H Hfm.
  destruct (n_states h) as [N|]; [|discriminate].
  match type of H with
  | bind ?m _ = _ => destruct m as [[[H0 mu] off]|]; [|discriminate]
  end.
  cbn [bind] in H.
  destruct (place_d_q_bare h N) as [bare|]; [|discriminate].
  cbn [bind] in H. inversion H; subst h'; clear H.
  cbn [full] in Hfm. inversion Hfm; subst fm. cbn. split; reflexivity.
Qed.

(** X10: after [make_full_matrices], for every transition key the three
    components of [d_q_star] are the conjugate transposes of the
    components of [d_q_bare], and every component of the aggregated
    [d_q] (the sum of both over all keys) is a Hermitian matrix. *)
Theorem make_full_matrices_d_q_hermitian (h h' : hamiltonian)
        (fm : full_matrices) :
  make_full_matrices h = Ok h' -> full h' = Some fm ->
  (forall key, dict_get (d_q_star fm) key
               = option_map (fun (b : nat -> matrix) kk => conj_transpose (b kk))
                            (dict_get (d_q_bare fm) key))
  /\ (forall q r c, d_q fm q r c = Cconj (d_q fm q c r)).
Proof.
  intros H Hfm. destruct (make_full_matrices_inv h h' fm H Hfm) as [Hstar Hdq].
  split.
  - intros key. rewrite Hstar.
    apply (dict_get_map (fun (b : nat -> matrix) kk => conj_transpose (b kk))).
  - rewrite Hdq, Hstar. apply aggregated_d_q_hermitian.
    intros q r c. unfold vzeros, zeros. symmetry. apply Cconj_C0.
Qed.

Lemma make_full_matrices_d_q_hermitian_witness :
  (forall key, dict_get (d_q_star two_level_fm) key
               = option_map (fun (b : nat -> matrix) kk => conj_transpose (b kk))
                            (dict_get (d_q_bare two_level_fm) key))
  /\ (forall q r c, d_q two_level_fm q r c = Cconj (d_q two_level_fm q c r)).
Proof.
  apply (make_full_matrices_d_q_hermitian two_level two_level_full two_level_fm
           make_full_matrices_two_level two_level_full_fm).
Defined.

(* ------------------------------------------------------------------ *)
(** ** The constructor and the keys of the lasers *)

Lemma make_full_matrices_ok (h h' : hamiltonian) :
  make_full_matrices h = Ok h' ->
  laser_keys h' = laser_keys h
  /\ (exists fm, full h' = Some fm) /\ (exists n, n_states h' = Some n).
Proof.
  unfold make_full_matrices. intros H.
  destruct (n_states h) as [N|] eqn:HN; [|discriminate].
  match type of H with
  | bind ?m _ = _ => destruct m as [[[H0 mu] off]|]; [|discriminate]
  end.
  cbn [bind] in H.
  destruct (place_d_q_bare h N) as [bare|]; [|discriminate].
  cbn [bind] in H. inversion H; subst h'; clear H. cbn.
  split; [reflexivity|]. split; eexists; reflexivity.
Qed.

(** The check of the keys of the lasers against the Hamiltonian. *)
Lemma laser_keys_check (keys : list string) (lk : dict (nat * nat)) :
  for_each_exn keys (fun laser_key (u : unit) =>
    match dict_get lk laser_key with
    | Some _ => Ok tt
    | None => Raise ValueError
    end) tt
  = if forallb (fun key => match dict_get lk key with
                           | Some _ => true | None => false end) keys
    then Ok tt else Raise ValueError.
Proof.
  induction keys as [|key keys IH].
  - reflexivity.
  - rewrite for_each_exn_cons. cbn [forallb].
    destruct (dict_get lk key); cbn [bind andb]; [exact IH | reflexivity].
Qed.

Lemma obe_init_missing_key (lasers : lasers_arg) (field : magField)
      (h h' : hamiltonian) (r v : ndarray1) (tr : bool) (sp : option bool)
      (mf : bool) (key : string) :
  make_full_matrices h = Ok h' ->
  In key (dict_keys (match lasers with
                     | LasersOne b => [("g->e"%string, b)]
                     | LasersDict d => d
                     end)) ->
  dict_get (laser_keys h) key = None ->
  obe_init lasers field h r v tr sp mf = Raise ValueError.
Proof.
  intros Hfull Hin Hmiss. unfold obe_init. rewrite Hfull. cbn [bind].
  destruct (make_full_matrices_ok h h' Hfull) as (Hlk & (fm & Hfm) & (n & Hn)).
  rewrite Hfm, Hn, laser_keys_check, Hlk.
  match goal with
  | |- context [forallb ?f ?l] => destruct (forallb f l) eqn:Hall
  end; [|reflexivity].
  exfalso. rewrite forallb_forall in Hall.
  specialize (Hall key Hin). rewrite Hmiss in Hall. discriminate.
Qed.

(** X11: [obe(lasers, ...)] raises a [ValueError] when some key of the
    lasers (['g->e'] for a single collection) is no laser key of the
    Hamiltonian, once the full matrices of the Hamiltonian could be made:
    no evolution matrix is built before the check. *)
Theorem obe_init_unknown_laser_key (lasers : lasers_arg) (field : magField)
        (h h' : hamiltonian) (r v : ndarray1) (tr : bool) (sp : option bool)
        (mf : bool) (key : string) :
  make_full_matrices h = Ok h' ->
  In key (dict_keys (match lasers with
                     | LasersOne b => [("g->e"%string, b)]
                     | LasersDict d => d
                     end)) ->
  dict_get (laser_keys h) key = None ->
  obe_init lasers field h r v tr sp mf = Raise ValueError.
Proof. apply obe_init_missing_key. Qed.

Lemma make_full_matrices_two_level_ab :
  make_full_matrices two_level_ab = Ok two_level_ab_full.
Proof. unfold two_level_ab_full. vm_compute. reflexivity. Qed.

Lemma obe_init_unknown_laser_key_witness :
  obe_init (LasersOne no_beams) z_field two_level_ab origin origin
           false None false = Raise ValueError.
Proof.
  apply (obe_init_unknown_laser_key (LasersOne no_beams) z_field two_level_ab
           two_level_ab_full origin origin false None false "g->e"
           make_full_matrices_two_level_ab).
  - left. reflexivity.
  - reflexivity.
Defined.

(** X12: every key of the lasers of an object the constructor returned is
    a laser key of its Hamiltonian. *)
Theorem obe_init_laser_keys (lasers : lasers_arg) (field : magField)
        (h : hamiltonian) (r v : ndarray1) (tr : bool) (sp : option bool)
        (mf : bool) (o : obe) (key : string) :
  obe_init lasers field h r v tr sp mf = Ok o ->
  In key (dict_keys (obe_laserBeams o)) ->
  exists ind, dict_get (laser_keys (obe_hamiltonian o)) key = Some ind.
Proof.
  intros Hinit Hin.
  destruct (obe_init_inv _ _ _ _ _ _ _ _ _ Hinit)
    as (h' & fm & n & decay & H0 & B & E & Estar & Hfull & _ & _ & _ & _ & _
        & Hh & _ & Hbeams & _).
  cbv zeta in Hbeams. rewrite Hbeams in Hin. rewrite Hh.
  destruct (make_full_matrices_ok h h' Hfull) as (Hlk & _). rewrite Hlk.
  destruct (dict_get (laser_keys h) key) as [ind|] eqn:Hget;
    [exists ind; reflexivity|].
  rewrite (obe_init_missing_key lasers field h h' r v tr sp mf key Hfull Hin Hget)
    in Hinit.
  discriminate.
Qed.

Lemma obe_init_laser_keys_witness :
  exists ind,
    dict_get (laser_keys (obe_hamiltonian two_level_obe)) "g->e" = Some ind.
Proof.
  apply (obe_init_laser_keys (LasersOne no_beams) z_field two_level origin
           origin false None false two_level_obe "g->e" two_level_obe_ok).
  destruct (obe_init_inv (LasersOne no_beams) z_field two_level origin origin
              false None false two_level_obe two_level_obe_ok)
    as (h' & fm & n & decay & H0 & B & E & Estar & _ & _ & _ & _ & _ & _
        & _ & _ & Hbeams & _).
  cbv zeta in Hbeams. rewrite Hbeams. left. reflexivity.
Defined.

(* ------------------------------------------------------------------ *)
(** ** A fresh object has no solution *)

(** X13: on an object the constructor just returned, [force_from_sol]
    raises an [AttributeError]: [self.sol] is [None], and the method reads
    [self.sol.t] before its test [hasattr(self, 'sol')], whose
    [ValueError] is never raised. *)
Theorem force_from_sol_without_solution (lasers : lasers_arg)
        (field : magField) (h : hamiltonian) (r v : ndarray1) (tr : bool)
        (sp : option bool) (mf : bool) (o : obe) :
  obe_init lasers field h r v tr sp mf = Ok o ->
  force_from_sol o = Raise AttributeError.
Proof.
  intros Hinit.
  destruct (obe_init_inv _ _ _ _ _ _ _ _ _ Hinit)
    as (h' & fm & n & decay & H0 & B & E & Estar & _ & _ & _ & _ & _ & _
        & _ & _ & _ & _ & _ & Hsol).
  unfold force_from_sol. rewrite Hsol. reflexivity.
Qed.

Lemma force_from_sol_without_solution_witness :
  force_from_sol two_level_obe = Raise AttributeError.
Proof.
  apply (force_from_sol_without_solution (LasersOne no_beams) z_field two_level
           origin origin false None false two_level_obe two_level_obe_ok).
Defined.

(* ------------------------------------------------------------------ *)
(** ** The decay matrix *)

(** X14: for a Hamiltonian of a single manifold (or of none)
    [build_decay_ev] raises nothing and leaves [ev_mat['decay']] at zero,
    whatever the dipole operator: no loop of it runs. *)
Theorem build_decay_ev_single_manifold (n nblocks : nat) (ns : list nat)
        (d_q : nat -> matrix) :
  (nblocks <= 1)%nat ->
  build_decay_ev n nblocks ns d_q = Ok zeros.
Proof.
  intros Hnb. unfold build_decay_ev, check_decay_rates.
  rewrite for_range_exn_empty by lia. cbn [bind]. cbv zeta.
  unfold fill_decay_coherences, fill_decay_out, fill_decay_in.
  rewrite !for_range_empty by lia. reflexivity.
Qed.

Lemma build_decay_ev_single_manifold_witness :
  build_decay_ev 1 1 [1%nat] vzeros = Ok zeros.
Proof. apply (build_decay_ev_single_manifold 1 1 [1%nat] vzeros). lia. Defined.

(** The loss loop at the entry of a pair of states of one manifold. *)
Lemma fill_decay_out_entry (nblocks : nat) (ns : list nat)
      (decay_rates : nat -> R) (ev : matrix) (ll ii jj : nat) :
  (1 <= ll < nblocks)%nat ->
  (manifold_lo ns ll <= ii < manifold_hi ns ll)%nat ->
  (manifold_lo ns ll <= jj < manifold_hi ns ll)%nat ->
  fill_decay_out (list_sum ns) nblocks ns decay_rates ev
                 (density_index (list_sum ns) ii jj)
                 (density_index (list_sum ns) ii jj)
  = RtoC (- decay_rates ll).
Proof.
  intros Hll Hii Hjj. set (n := list_sum ns) in *.
  pose proof (manifold_hi_le_total ns ll) as Hn. fold n in Hn.
  set (phi := fun M : matrix => M (density_index n ii jj) (density_index n ii jj)).
  change (phi (fill_decay_out n nblocks ns decay_rates ev)
          = (fun _ => RtoC (- decay_rates ll)) (phi ev)).
  unfold fill_decay_out.
  apply (for_range_owner phi (fun _ => RtoC (- decay_rates ll)) 1 nblocks ll);
    [exact Hll| |].
  - intros l' M Hl' Hne.
    apply (for_range_untouched phi). intros i' M1 Hi'.
    apply (for_range_untouched phi). intros j' M2 Hj'.
    pose proof (manifold_hi_le_total ns l') as Hhi. fold n in Hhi.
    unfold phi. apply mset_row_neq. intros E.
    apply density_index_inj in E; [|lia|lia]. destruct E; subst i' j'.
    apply Hne. apply (manifold_unique ns l' ll ii); assumption.
  - intros M.
    apply (for_range_owner phi (fun _ => RtoC (- decay_rates ll))
             (manifold_lo ns ll) (manifold_hi ns ll) ii); [exact Hii| |].
    + intros i' M1 Hi' Hne.
      apply (for_range_untouched phi). intros j' M2 Hj'.
      unfold phi. apply mset_row_neq. intros E.
      apply density_index_inj in E; lia.
    + intros M1.
      apply (for_range_owner phi (fun _ => RtoC (- decay_rates ll))
               (manifold_lo ns ll) (manifold_hi ns ll) jj); [exact Hjj| |].
      * intros j' M2 Hj' Hne.
        unfold phi. apply mset_row_neq. intros E.
        apply density_index_inj in E; lia.
      * intros M2. unfold phi. apply mset_eq.
Qed.

(** The loop of the coherences between two manifolds writes no row of a
    pair of states of one manifold. *)
Lemma fill_decay_coherences_same_manifold (nblocks : nat) (ns : list nat)
      (decay_rates : nat -> R) (ev : matrix) (ll ii jj c : nat) :
  (manifold_lo ns ll <= ii < manifold_hi ns ll)%nat ->
  (manifold_lo ns ll <= jj < manifold_hi ns ll)%nat ->
  fill_decay_coherences (list_sum ns) nblocks ns decay_rates ev
                        (density_index (list_sum ns) ii jj) c
  = ev (density_index (list_sum ns) ii jj) c.
Proof.
  intros Hii Hjj. set (n := list_sum ns).
  pose proof (manifold_hi_le_total ns ll) as Hn. fold n in Hn.
  set (phi := fun M : matrix => M (density_index n ii jj) c).
  change (phi (fill_decay_coherences n nblocks ns decay_rates ev) = phi ev).
  unfold fill_decay_coherences.
  apply (for_range_untouched phi). intros l' M Hl'.
  apply (for_range_untouched phi). intros m' M1 Hm'.
  apply (for_range_untouched phi). intros i' M2 Hi'.
  apply (for_range_untouched phi). intros j' M3 Hj'.
  pose proof (manifold_hi_le_total ns l') as Hhi.
  pose proof (manifold_hi_le_total ns m') as Hhi'. fold n in Hhi, Hhi'.
  cbv zeta. unfold phi.
  rewrite !mset_row_neq; [reflexivity| |].
  - intros E. apply density_index_inj in E; [|lia|lia]. destruct E; subst i' j'.
    pose proof (manifold_unique ns ll l' ii Hii Hi').
    pose proof (manifold_unique ns ll m' jj Hjj Hj'). lia.
  - intros E. apply density_index_inj in E; [|lia|lia]. destruct E; subst i' j'.
    pose proof (manifold_unique ns ll m' ii Hii Hj').
    pose proof (manifold_unique ns ll l' jj Hjj Hi'). lia.
Qed.

(** The loop of the coherences at a pair of states of two manifolds. *)
Lemma fill_decay_coherences_entry (nblocks : nat) (ns : list nat)
      (decay_rates : nat -> R) (ev : matrix) (ll mm ii jj : nat) :
  (ll < mm < nblocks)%nat ->
  (manifold_lo ns ll <= ii < manifold_hi ns ll)%nat ->
  (manifold_lo ns mm <= jj < manifold_hi ns mm)%nat ->
  let ev' := fill_decay_coherences (list_sum ns) nblocks ns decay_rates ev in
  ev' (density_index (list_sum ns) ii jj) (density_index (list_sum ns) ii jj)
  = RtoC (- (decay_rates ll + decay_rates mm) / 2)
  /\ ev' (density_index (list_sum ns) jj ii) (density_index (list_sum ns) jj ii)
     = RtoC (- (decay_rates ll + decay_rates mm) / 2).
Proof.
  intros Hlm Hii Hjj. cbv zeta. set (n := list_sum ns) in *.
  pose proof (manifold_hi_le_total ns ll) as Hn.
  pose proof (manifold_hi_le_total ns mm) as Hn'. fold n in Hn, Hn'.
  set (x := RtoC (- (decay_rates ll + decay_rates mm) / 2)).
  set (phi := fun M : matrix =>
         (M (density_index n ii jj) (density_index n ii jj),
          M (density_index n jj ii) (density_index n jj ii))).
  assert (Hne : ii <> jj).
  { pose proof (offset_mono ns (ll + 1) mm ltac:(lia)).
    unfold manifold_lo, manifold_hi in *. lia. }
  assert (Hphi : phi (fill_decay_coherences n nblocks ns decay_rates ev)
                 = (fun _ => (x, x)) (phi ev)).
  { unfold fill_decay_coherences.
    assert (Hother : forall l' m' i' j' (M : matrix),
              (manifold_lo ns l' <= i' < manifold_hi ns l')%nat ->
              (manifold_lo ns m' <= j' < manifold_hi ns m')%nat ->
              (l' < m')%nat -> (i', j') <> (ii, jj) ->
              phi (mset (mset M (density_index n i' j') (density_index n i' j')
                              (RtoC (- (decay_rates l' + decay_rates m') / 2)))
                        (density_index n j' i') (density_index n j' i')
                        (RtoC (- (decay_rates l' + decay_rates m') / 2)))
              = phi M).
    { intros l' m' i' j' M Hi' Hj' Hlt Hpair.
      pose proof (manifold_hi_le_total ns l') as Hhi.
      pose proof (manifold_hi_le_total ns m') as Hhi'. fold n in Hhi, Hhi'.
      unfold phi. f_equal.
      - rewrite !mset_row_neq; [reflexivity| |].
        + intros E. apply density_index_inj in E; [|lia|lia].
          destruct E; subst i' j'. apply Hpair. reflexivity.
        + intros E. apply density_index_inj in E; [|lia|lia].
          destruct E; subst i' j'.
          pose proof (manifold_unique ns ll m' ii Hii Hj').
          pose proof (manifold_unique ns mm l' jj Hjj Hi'). lia.
      - rewrite !mset_row_neq; [reflexivity| |].
        + intros E. apply density_index_inj in E; [|lia|lia].
          destruct E; subst i' j'.
          pose proof (manifold_unique ns ll m' ii Hii Hj').
          pose proof (manifold_unique ns mm l' jj Hjj Hi'). lia.
        + intros E. apply density_index_inj in E; [|lia|lia].
          destruct E; subst i' j'. apply Hpair. reflexivity. }
    apply (for_range_owner phi (fun _ => (x, x)) 0 (nblocks - 1) ll); [lia| |].
    - intros l' M Hl' Hnel.
      apply (for_range_untouched phi). intros m' M1 Hm'.
      apply (for_range_untouched phi). intros i' M2 Hi'.
      apply (for_range_untouched phi). intros j' M3 Hj'.
      cbv zeta. apply (Hother l' m' i' j'); try assumption; [lia|].
      intros E. inversion E; subst i' j'.
      apply Hnel. apply (manifold_unique ns l' ll ii); assumption.
    - intros M.
      apply (for_range_owner phi (fun _ => (x, x)) (ll + 1) nblocks mm); [lia| |].
      + intros m' M1 Hm' Hnem.
        apply (for_range_untouched phi). intros i' M2 Hi'.
        apply (for_range_untouched phi). intros j' M3 Hj'.
        cbv zeta. apply (Hother ll m' i' j'); try assumption; [lia|].
        intros E. inversion E; subst i' j'.
        apply Hnem. apply (manifold_unique ns m' mm jj); assumption.
      + intros M1.
        apply (for_range_owner phi (fun _ => (x, x))
                 (manifold_lo ns ll) (manifold_hi ns ll) ii); [exact Hii| |].
        * intros i' M2 Hi' Hnei.
          apply (for_range_untouched phi). intros j' M3 Hj'.
          cbv zeta. apply (Hother ll mm i' j'); try assumption; [lia|].
          intros E. inversion E. contradiction.
        * intros M2.
          apply (for_range_owner phi (fun _ => (x, x))
                   (manifold_lo ns mm) (manifold_hi ns mm) jj); [exact Hjj| |].
          -- intros j' M3 Hj' Hnej.
             cbv zeta. apply (Hother ll mm ii j'); try assumption; [lia|].
             intros E. inversion E. contradiction.
          -- intros M3. cbv zeta. unfold phi. f_equal.
             ++ rewrite mset_row_neq, mset_eq; [reflexivity|].
                intros E. apply density_index_inj in E; lia.
             ++ apply mset_eq. }
  unfold phi in Hphi. inversion Hphi as [[E1 E2]].
  split; reflexivity.
Qed.

Lemma decay_rates_lowest (nblocks : nat) (rate : nat -> R) :
  for_range 1 nblocks (fun ll decay_rates => rset decay_rates ll (rate ll))
            (fun _ => 0%R) 0%nat = 0%R.
Proof.
  apply (for_range_untouched (fun dr : nat -> R => dr 0%nat)).
  intros i acc Hi. unfold rset.
  destruct (Nat.eqb_spec 0 i); [lia | reflexivity].
Qed.

(** The rates at which [ev_mat['decay']] takes from the populations and
    coherences. *)
Lemma build_decay_ev_diagonal (nblocks : nat) (ns : list nat)
      (d_q : nat -> matrix) (decay : matrix) :
  build_decay_ev (list_sum ns) nblocks ns d_q = Ok decay ->
  (forall ll ii jj,
     (1 <= ll < nblocks)%nat ->
     (manifold_lo ns ll <= ii < manifold_hi ns ll)%nat ->
     (manifold_lo ns ll <= jj < manifold_hi ns ll)%nat ->
     decay (density_index (list_sum ns) ii jj) (density_index (list_sum ns) ii jj)
     = RtoC (- manifold_rate ns d_q ll))
  /\ (forall ll mm ii jj,
        (ll < mm < nblocks)%nat ->
        (manifold_lo ns ll <= ii < manifold_hi ns ll)%nat ->
        (manifold_lo ns mm <= jj < manifold_hi ns mm)%nat ->
        decay (density_index (list_sum ns) ii jj)
              (density_index (list_sum ns) ii jj)
        = RtoC (- ((if ll =? 0 then 0 else manifold_rate ns d_q ll)
                   + manifold_rate ns d_q mm) / 2)
        /\ decay (density_index (list_sum ns) jj ii)
                 (density_index (list_sum ns) jj ii)
           = RtoC (- ((if ll =? 0 then 0 else manifold_rate ns d_q ll)
                      + manifold_rate ns d_q mm) / 2)).
Proof.
  unfold build_decay_ev. rewrite check_decay_rates_spec.
  destruct (existsb _ _); [discriminate|]. cbn [bind]. cbv zeta.
  intros H. inversion H; subst decay; clear H.
  set (dr := for_range 1 nblocks _ _).
  split.
  - intros ll ii jj Hll Hii Hjj.
    rewrite (fill_decay_coherences_same_manifold nblocks ns dr _ ll ii jj)
      by assumption.
    rewrite (fill_decay_out_entry nblocks ns dr _ ll ii jj) by assumption.
    unfold dr. rewrite decay_rates_entry by exact Hll. reflexivity.
  - intros ll mm ii jj Hlm Hii Hjj.
    pose proof (fill_decay_coherences_entry nblocks ns dr
                  (fill_decay_out (list_sum ns) nblocks ns dr
                     (fill_decay_in (list_sum ns) nblocks ns d_q zeros))
                  ll mm ii jj Hlm Hii Hjj) as Hc.
    cbv zeta in Hc.
    assert (Hdl : dr ll = if ll =? 0 then 0%R else manifold_rate ns d_q ll).
    { unfold dr. destruct ll as [|ll].
      - apply decay_rates_lowest.
      - apply decay_rates_entry. lia. }
    assert (Hdm : dr mm = manifold_rate ns d_q mm)
      by (unfold dr; apply decay_rates_entry; lia).
    rewrite Hdl, Hdm in Hc. exact Hc.
Qed.

(** X15: in the matrix [build_decay_ev] returns, the diagonal entry of a
    population or coherence of two states of one manifold [ll >= 1] is
    minus the decay rate of the manifold (the mean of the rates of its
    states), and the diagonal entries of the two coherences between a
    state of manifold [ll] and a state of a higher manifold [mm] are minus
    the average of the two decay rates (the rate of the lowest manifold is
    zero). *)
Theorem build_decay_ev_decay_rates (nblocks : nat) (ns : list nat)
        (d_q : nat -> matrix) (decay : matrix) :
  build_decay_ev (list_sum ns) nblocks ns d_q = Ok decay ->
  (forall ll ii jj,
     (1 <= ll < nblocks)%nat ->
     (manifold_lo ns ll <= ii < manifold_hi ns ll)%nat ->
     (manifold_lo ns ll <= jj < manifold_hi ns ll)%nat ->
     decay (density_index (list_sum ns) ii jj) (density_index (list_sum ns) ii jj)
     = RtoC (- manifold_rate ns d_q ll))
  /\ (forall ll mm ii jj,
        (ll < mm < nblocks)%nat ->
        (manifold_lo ns ll <= ii < manifold_hi ns ll)%nat ->
        (manifold_lo ns mm <= jj < manifold_hi ns mm)%nat ->
        decay (density_index (list_sum ns) ii jj)
              (density_index (list_sum ns) ii jj)
        = RtoC (- ((if ll =? 0 then 0 else manifold_rate ns d_q ll)
                   + manifold_rate ns d_q mm) / 2)
        /\ decay (density_index (list_sum ns) jj ii)
                 (density_index (list_sum ns) jj ii)
           = RtoC (- ((if ll =? 0 then 0 else manifold_rate ns d_q ll)
                      + manifold_rate ns d_q mm) / 2)).
Proof. apply build_decay_ev_diagonal. Qed.

Lemma build_decay_ev_decay_rates_witness :
  exists decay,
    build_decay_ev (list_sum [1; 1]%nat) 2 [1; 1]%nat (d_q two_level_fm)
    = Ok decay
    /\ decay (density_index (list_sum [1; 1]%nat) 1 1)
             (density_index (list_sum [1; 1]%nat) 1 1)
       = RtoC (- manifold_rate [1; 1]%nat (d_q two_level_fm) 1).
Proof.
  eexists. split.
  - apply (build_decay_ev_two_single_states (d_q two_level_fm)).
  - apply (proj1 (build_decay_ev_decay_rates 2 [1; 1]%nat (d_q two_level_fm) _
                    (build_decay_ev_two_single_states (d_q two_level_fm)))
                 1%nat 1%nat 1%nat); vm_compute; lia.
Defined.

(* ------------------------------------------------------------------ *)
(** ** [drhodt] and [full_OBE_ev] on a constructed object *)

Lemma dict_good_weaken (P Q : (nat -> matrix) -> Prop) (keys : list string)
      (d : dict (nat -> matrix)) :
  (forall v, P v -> Q v) -> dict_good P keys d -> dict_good Q keys d.
Proof.
  intros HPQ [Hhas Hall]. split; [exact Hhas|].
  intros key v Hget. apply HPQ, (Hall key v Hget).
Qed.

(** The dictionaries of the real basis have the keys of ['E']. *)
Lemma transform_ev_matrices_keys (n : nat) (decay H0 : matrix)
      (B : nat -> matrix) (E Estar : dict (nat -> matrix))
      (keys : list string) (ev : ev_matrices) :
  dict_good (fun _ => True) keys E ->
  transform_ev_matrices n decay H0 B E Estar = Ok ev ->
  exists reE imE, ev_reE ev = Some reE /\ ev_imE ev = Some imE
    /\ dict_good (fun _ => True) keys reE
    /\ dict_good (fun _ => True) keys imE.
Proof.
  intros HE. unfold transform_ev_matrices. cbv zeta.
  set (T := transform_with n (ensure_transform_matrices n None)).
  intros H.
  destruct (T decay) as [decay'|]; [|discriminate]. cbn [bind] in H.
  destruct (T H0) as [H0'|]; [|discriminate]. cbn [bind] in H.
  match type of H with
  | bind ?m _ = _ => destruct m as [reim|e] eqn:Hloop; [|discriminate]
  end.
  cbn [bind] in H.
  destruct (T (mscale inv_sqrt2 _)) as [Bx|]; [|discriminate].
  cbn [bind] in H.
  destruct (T (mscale i_inv_sqrt2 _)) as [By|]; [|discriminate].
  cbn [bind] in H.
  destruct (T (B 1%nat)) as [Bz|]; [|discriminate].
  cbn [bind] in H. inversion H; subst ev; clear H. cbn.
  exists (fst reim), (snd reim). split; [reflexivity|]. split; [reflexivity|].
  assert (Hvis : dict_good (fun _ => True) (dict_keys E) (fst reim)
                 /\ dict_good (fun _ => True) (dict_keys E) (snd reim)).
  { revert Hloop.
    apply (for_each_exn_visited
             (fun visited (st : dict (nat -> matrix) * dict (nat -> matrix)) =>
                dict_good (fun _ => True) visited (fst st)
                /\ dict_good (fun _ => True) visited (snd st))).
    - split; apply dict_good_nil.
    - intros visited x st st' [H1 H2] Hb.
      destruct (dict_item E x) as [e|]; [|discriminate].
      destruct (dict_item Estar x) as [es|]; [|discriminate].
      cbn [bind] in Hb.
      destruct (vec3_exn (fun jj => T (mplus (e jj) (es jj)))) as [re|];
        [|discriminate].
      cbn [bind] in Hb.
      destruct (vec3_exn (fun jj => T (mscale (- Ci)%C (mminus (e jj) (es jj)))))
        as [im|]; [|discriminate].
      cbn [bind] in Hb. inversion Hb; subst st'; clear Hb. cbn [fst snd].
      split; (apply dict_good_set; [assumption | exact I]). }
  assert (Hincl : forall key, In key keys -> In key (dict_keys E)).
  { intros key Hin. destruct (proj1 HE key Hin) as (v & Hv).
    apply (dict_get_some_in_keys E key v Hv). }
  destruct Hvis as [Hre Him].
  split; apply (dict_good_incl _ (dict_keys E)); assumption.
Qed.

(** The dictionaries of the electric-field matrices of a constructed
    object have every key of its lasers. *)
Lemma obe_ev_mat_keys (lasers : lasers_arg) (field : magField)
      (h : hamiltonian) (r v : ndarray1) (tr : bool) (sp : option bool)
      (mf : bool) (o : obe) :
  obe_init lasers field h r v tr sp mf = Ok o ->
  exists X Y,
    (if transform_into_re_im o
     then ev_reE (ev_mat o) = Some X /\ ev_imE (ev_mat o) = Some Y
     else ev_E (ev_mat o) = Some X /\ ev_Estar (ev_mat o) = Some Y)
    /\ dict_good (fun _ => True) (dict_keys (obe_laserBeams o)) X
    /\ dict_good (fun _ => True) (dict_keys (obe_laserBeams o)) Y.
Proof.
  intros Hinit.
  destruct (obe_init_inv _ _ _ _ _ _ _ _ _ Hinit)
    as (h' & fm & n & decay & H0 & B & E & Estar & _ & _ & _ & _
        & Hcoh & Hev & _ & _ & Hbeams & _ & Htr & _).
  cbv zeta in Hbeams. rewrite Hbeams, Htr.
  destruct (build_coherent_ev_dicts _ _ _ _ _ _ _ Hcoh) as [HE HEstar].
  apply (dict_good_weaken _ (fun _ => True)) in HE; [|intros; exact I].
  apply (dict_good_weaken _ (fun _ => True)) in HEstar; [|intros; exact I].
  destruct tr.
  - destruct (transform_ev_matrices_keys _ _ _ _ _ _ _ _ HE Hev)
      as (reE & imE & Hre & Him & Gre & Gim).
    exists reE, imE. repeat split; assumption || apply Gre || apply Gim.
  - rewrite Hev. cbn. exists E, Estar.
    repeat split; apply HE || apply HEstar.
Qed.

Lemma drhodt_returns_ok (o : obe) (X Y : dict (nat -> matrix))
      (r : list R) (t : R) (rho : vector) :
  (if transform_into_re_im o
   then ev_reE (ev_mat o) = Some X /\ ev_imE (ev_mat o) = Some Y
   else ev_E (ev_mat o) = Some X /\ ev_Estar (ev_mat o) = Some Y) ->
  dict_good (fun _ => True) (dict_keys (obe_laserBeams o)) X ->
  dict_good (fun _ => True) (dict_keys (obe_laserBeams o)) Y ->
  exists dv, drhodt o r t rho = Ok dv.
Proof.
  intros HXY HX HY. unfold drhodt. cbv zeta.
  match goal with
  | |- context [for_each_exn ?l ?b ?s] =>
      assert (Hloop : exists dv1, for_each_exn l b s = Ok dv1)
  end.
  { apply for_each_exn_total. intros key Hkey dv.
    destruct (dict_get_in_keys _ key Hkey) as (beams & Hbeams).
    unfold dict_item at 1. rewrite Hbeams. cbn [bind].
    destruct (proj1 HX key Hkey) as (x & Hx).
    destruct (proj1 HY key Hkey) as (y & Hy).
    destruct (transform_into_re_im o); destruct HXY as [-> ->]; cbv zeta;
      apply for_range_exn_total; intros ii s Hii;
      (destruct (above_threshold _); [|exists s; reflexivity]);
      unfold ev_item, dict_item; rewrite Hx, Hy; cbn [bind];
      eexists; reflexivity. }
  destruct Hloop as (dv1 & Hrun). rewrite Hrun. cbn [bind].
  eexists. reflexivity.
Qed.

Lemma full_OBE_ev_returns_ok (o : obe) (X Y : dict (nat -> matrix))
      (r : list R) (t : R) :
  (if transform_into_re_im o
   then ev_reE (ev_mat o) = Some X /\ ev_imE (ev_mat o) = Some Y
   else ev_E (ev_mat o) = Some X /\ ev_Estar (ev_mat o) = Some Y) ->
  dict_good (fun _ => True) (dict_keys (obe_laserBeams o)) X ->
  dict_good (fun _ => True) (dict_keys (obe_laserBeams o)) Y ->
  exists M, full_OBE_ev o r t = Ok M.
Proof.
  intros HXY HX HY. unfold full_OBE_ev. cbv zeta.
  match goal with
  | |- context [for_each_exn ?l ?b ?s] =>
      assert (Hloop : exists M1, for_each_exn l b s = Ok M1)
  end.
  { apply for_each_exn_total. intros key Hkey M.
    destruct (dict_get_in_keys _ key Hkey) as (beams & Hbeams).
    unfold dict_item at 1. rewrite Hbeams. cbn [bind].
    destruct (proj1 HX key Hkey) as (x & Hx).
    destruct (proj1 HY key Hkey) as (y & Hy).
    destruct (transform_into_re_im o); destruct HXY as [-> ->]; cbv zeta;
      apply for_range_exn_total; intros ii s Hii;
      (destruct (above_threshold _); [|exists s; reflexivity]);
      unfold ev_item, dict_item; rewrite Hx, Hy; cbn [bind];
      eexists; reflexivity. }
  destruct Hloop as (M1 & Hrun). rewrite Hrun. cbn [bind].
  eexists. reflexivity.
Qed.

Lemma obe_init_evolution_returns (lasers : lasers_arg) (field : magField)
      (h : hamiltonian) (r v : ndarray1) (tr : bool) (sp : option bool)
      (mf : bool) (o : obe) (pos : list R) (t : R) (rho : vector) :
  obe_init lasers field h r v tr sp mf = Ok o ->
  (exists dv, drhodt o pos t rho = Ok dv)
  /\ (exists M, full_OBE_ev o pos t = Ok M).
Proof.
  intros Hinit.
  destruct (obe_ev_mat_keys _ _ _ _ _ _ _ _ _ Hinit) as (X & Y & HXY & HX & HY).
  split.
  - apply (drhodt_returns_ok o X Y); assumption.
  - apply (full_OBE_ev_returns_ok o X Y); assumption.
Qed.

(** X16: on every object the constructor returned, in either basis,
    [drhodt(r, t, rho)] and [full_OBE_ev(r, t)] return for every position,
    time and vector: the dictionaries of evolution matrices they index by
    the keys of the lasers have all those keys, so no [KeyError] is
    raised. *)
Theorem obe_init_evolution_never_raises (lasers : lasers_arg)
        (field : magField) (h : hamiltonian) (r v : ndarray1) (tr : bool)
        (sp : option bool) (mf : bool) (o : obe) (pos : list R) (t : R)
        (rho : vector) :
  obe_init lasers field h r v tr sp mf = Ok o ->
  (exists dv, drhodt o pos t rho = Ok dv)
  /\ (exists M, full_OBE_ev o pos t = Ok M).
Proof. apply obe_init_evolution_returns. Qed.

Lemma obe_init_evolution_never_raises_witness :
  (exists dv, drhodt two_level_obe position_z1 0 (flatten 2 rho_plus) = Ok dv)
  /\ (exists M, full_OBE_ev two_level_obe position_z1 0 = Ok M).
Proof.
  apply (obe_init_evolution_never_raises (LasersOne no_beams) z_field two_level
           origin origin false None false two_level_obe position_z1 0
           (flatten 2 rho_plus) two_level_obe_ok).
Defined.

(** Two loops over one list whose bodies keep a relation of their states
    keep it. *)
Lemma for_each_exn_rel {A S1 S2 : Type} (Rel : S1 -> S2 -> Prop)
      (l : list A) (f : A -> S1 -> result S1) (g : A -> S2 -> result S2) :
  (forall x a b a' b', In x l -> Rel a b ->
     f x a = Ok a' -> g x b = Ok b' -> Rel a' b') ->
  forall s1 s2 s1' s2', Rel s1 s2 ->
    for_each_exn l f s1 = Ok s1' -> for_each_exn l g s2 = Ok s2' ->
    Rel s1' s2'.
Proof.
  induction l as [|x l IH]; intros Hstep s1 s2 s1' s2' HR H1 H2.
  - inversion H1; inversion H2; subst. exact HR.
  - rewrite for_each_exn_cons in H1. rewrite for_each_exn_cons in H2.
    destruct (f x s1) as [a'|] eqn:Hf; [|discriminate].
    destruct (g x s2) as [b'|] eqn:Hg; [|discriminate].
    cbn [bind] in H1, H2.
    apply (IH (fun y a b a'' b'' Hy => Hstep y a b a'' b'' (or_intror Hy))
              a' b' s1' s2');
      [|assumption|assumption].
    apply (Hstep x s1 s2 a' b' (or_introl eq_refl) HR Hf Hg).
Qed.

Lemma for_range_exn_rel {S1 S2 : Type} (Rel : S1 -> S2 -> Prop)
      (lo hi : nat) (f : nat -> S1 -> result S1) (g : nat -> S2 -> result S2) :
  (forall i a b a' b', (lo <= i < hi)%nat -> Rel a b ->
     f i a = Ok a' -> g i b = Ok b' -> Rel a' b') ->
  forall s1 s2 s1' s2', Rel s1 s2 ->
    for_range_exn lo hi f s1 = Ok s1' -> for_range_exn lo hi g s2 = Ok s2' ->
    Rel s1' s2'.
Proof.
  intros Hstep. unfold for_range_exn.
  apply (for_each_exn_rel Rel (seq lo (hi - lo)) f g).
  intros x a b a' b' Hx. apply Hstep. apply in_seq in Hx. lia.
Qed.

Lemma for_range_rel {S1 S2 : Type} (Rel : S1 -> S2 -> Prop)
      (lo hi : nat) (f : nat -> S1 -> S1) (g : nat -> S2 -> S2) :
  (forall i a b, (lo <= i < hi)%nat -> Rel a b -> Rel (f i a) (g i b)) ->
  forall s1 s2, Rel s1 s2 -> Rel (for_range lo hi f s1) (for_range lo hi g s2).
Proof.
  intros Hstep s1 s2 HR. destruct (le_lt_dec lo hi) as [Hle|Hlt].
  - replace hi with (lo + (hi - lo))%nat in * by lia.
    assert (Hk : (hi - lo <= hi - lo)%nat) by lia. revert Hk.
    generalize (hi - lo)%nat at 1 3 4 as k.
    induction k as [|k IH]; intros Hk.
    + rewrite !for_range_empty by lia. exact HR.
    + rewrite !for_range_S. apply Hstep; [lia|]. apply IH. lia.
  - rewrite !for_range_empty by lia. exact HR.
Qed.

(** The matrix of [full_OBE_ev] against [drhodt] when both evaluate the
    same fields. *)
Lemma full_OBE_ev_drhodt_agree (o : obe) (r : list R) (t : R) (rho : vector)
      (M : matrix) (dv : vector) :
  full_OBE_ev o r t = Ok M ->
  drhodt o r t rho = Ok dv ->
  (forall q, Field (obe_magField o) (PyFloat t) q
             = Field (obe_magField o) (PyArray r) q) ->
  (transform_into_re_im o = false ->
   forall key beams q, dict_get (obe_laserBeams o) key = Some beams ->
     total_electric_field beams (PyFloat t) (PyArray r) q
     = total_electric_field beams (PyArray r) (PyFloat t) q) ->
  forall a, matvec (obe_n o * obe_n o) M rho a = dv a.
Proof.
  intros HM Hdv HB HE.
  set (N := (obe_n o * obe_n o)%nat) in *.
  set (Rel := fun (ev : matrix) (v : vector) =>
                forall a, matvec N ev rho a = v a).
  unfold full_OBE_ev in HM. unfold drhodt in Hdv. cbv zeta in HM, Hdv.
  fold N in Hdv.
  match type of HM with
  | bind ?m _ = _ => destruct m as [M1|] eqn:HM1; [|discriminate]
  end.
  match type of Hdv with
  | bind ?m _ = _ => destruct m as [dv1|] eqn:Hdv1; [|discriminate]
  end.
  cbn [bind] in HM, Hdv. inversion HM; subst M. inversion Hdv; subst dv.
  clear HM Hdv.
  assert (Hrel1 : Rel M1 dv1).
  { revert HM1 Hdv1.
    apply (for_each_exn_rel Rel).
    - intros key ev v ev' v' Hkey HR Hf Hg.
      destruct (dict_get_in_keys _ key Hkey) as (beams & Hbeams).
      unfold dict_item at 1 in Hf. unfold dict_item at 1 in Hg.
      rewrite Hbeams in Hf, Hg. cbn [bind] in Hf, Hg.
      destruct (transform_into_re_im o) eqn:Htr; cbv zeta in Hf, Hg.
      + revert Hf Hg. apply (for_range_exn_rel Rel); [|exact HR].
        intros ii ev0 v0 ev1 v1 Hii HR0 Hf Hg.
        destruct (above_threshold _).
        * destruct (ev_item (ev_reE (ev_mat o)) key) as [reE|]; [|discriminate].
          cbn [bind] in Hf, Hg.
          destruct (ev_item (ev_imE (ev_mat o)) key) as [imE|]; [|discriminate].
          cbn [bind] in Hf, Hg. inversion Hf; inversion Hg; subst.
          intros a. rewrite !matvec_mminus, !matvec_mscale, HR0.
          reflexivity.
        * inversion Hf; inversion Hg; subst. exact HR0.
      + revert Hf Hg. apply (for_range_exn_rel Rel); [|exact HR].
        intros ii ev0 v0 ev1 v1 Hii HR0 Hf Hg.
        rewrite (HE eq_refl key beams ii Hbeams) in Hf.
        destruct (above_threshold _).
        * destruct (ev_item (ev_E (ev_mat o)) key) as [E|]; [|discriminate].
          cbn [bind] in Hf, Hg.
          destruct (ev_item (ev_Estar (ev_mat o)) key) as [Es|]; [|discriminate].
          cbn [bind] in Hf, Hg. inversion Hf; inversion Hg; subst.
          intros a. rewrite !matvec_mminus, !matvec_mscale, HR0.
          reflexivity.
        * inversion Hf; inversion Hg; subst. exact HR0.
    - intros a. unfold vplus. apply matvec_mplus. }
  assert (HBq : forall q, return_magnetic_field o (PyArray r) (PyFloat t) q
                          = return_magnetic_field o (PyFloat t) (PyArray r) q).
  { intros q. unfold return_magnetic_field.
    destruct (transform_into_re_im o).
    - rewrite HB. reflexivity.
    - destruct q as [|[|q]]; rewrite ?HB; reflexivity. }
  apply (for_range_rel Rel); [|exact Hrel1].
  intros ii ev v Hii HR. rewrite HBq.
  destruct (above_threshold _); [|exact HR].
  intros a. unfold vplus, vscale.
  rewrite matvec_mplus, matvec_mscale, HR. reflexivity.
Qed.

(** X17: when the magnetic field model returns at the time [t] what it
    returns at the position [r] (a uniform field, say), and -- in the
    complex basis -- the electric field of every laser is the same with
    its two arguments exchanged, the product of the matrix
    [full_OBE_ev(r, t)] with [rho] is [drhodt(r, t, rho)], entry by entry:
    apart from the order of their field arguments the two methods compute
    the same derivative. *)
Theorem full_OBE_ev_matches_drhodt (o : obe) (r : list R) (t : R)
        (rho : vector) (M : matrix) (dv : vector) :
  full_OBE_ev o r t = Ok M ->
  drhodt o r t rho = Ok dv ->
  (forall q, Field (obe_magField o) (PyFloat t) q
             = Field (obe_magField o) (PyArray r) q) ->
  (transform_into_re_im o = false ->
   forall key beams q, dict_get (obe_laserBeams o) key = Some beams ->
     total_electric_field beams (PyFloat t) (PyArray r) q
     = total_electric_field beams (PyArray r) (PyFloat t) q) ->
  forall a, matvec (obe_n o * obe_n o) M rho a = dv a.
Proof. apply full_OBE_ev_drhodt_agree. Qed.

Lemma full_OBE_ev_matches_drhodt_witness :
  exists M dv,
    full_OBE_ev two_level_obe position_origin 0 = Ok M
    /\ drhodt two_level_obe position_origin 0 (flatten 2 rho_plus) = Ok dv
    /\ forall a, matvec (obe_n two_level_obe * obe_n two_level_obe) M
                        (flatten 2 rho_plus) a = dv a.
Proof.
  destruct (obe_init_evolution_returns (LasersOne no_beams) z_field two_level
              origin origin false None false two_level_obe position_origin 0
              (flatten 2 rho_plus) two_level_obe_ok)
    as [(dv & Hdv) (M & HM)].
  destruct (obe_init_inv (LasersOne no_beams) z_field two_level origin origin
              false None false two_level_obe two_level_obe_ok)
    as (h' & fm & n & decay & H0 & B & E & Estar & _ & _ & _ & _ & _ & _
        & _ & _ & Hbeams & Hfield & _).
  cbv zeta in Hbeams.
  exists M, dv. split; [exact HM|]. split; [exact Hdv|].
  apply (full_OBE_ev_matches_drhodt two_level_obe position_origin 0
           (flatten 2 rho_plus) M dv HM Hdv).
  - intros q. rewrite Hfield. destruct q as [|[|[|q]]]; reflexivity.
  - intros _ key beams q Hget. rewrite Hbeams in Hget.
    cbn [dict_get] in Hget.
    destruct (String.eqb "g->e" key); [|discriminate].
    inversion Hget; subst beams. reflexivity.
Defined.

(* ------------------------------------------------------------------ *)
(** ** [reshape_sol] *)

Lemma reshape_sol_inv (o : obe) (ts : list R) (rho : nat -> nat -> nat -> C) :
  reshape_sol o = Ok (ts, rho) ->
  exists s,
    sol o = Some s /\ ts = sol_t s
    /\ (sol_rows s - 6 = obe_n o * obe_n o \/ sol_t s = [])%nat
    /\ forall a b smp,
         rho a b smp
         = if transform_into_re_im o then
             if a =? b then sol_y s (density_index (obe_n o) a a) smp
             else if a <? b
                  then (sol_y s (density_index (obe_n o) b a) smp
                        + Ci * sol_y s (density_index (obe_n o) a b) smp)%C
                  else (sol_y s (density_index (obe_n o) a b) smp
                        - Ci * sol_y s (density_index (obe_n o) b a) smp)%C
           else sol_y s (density_index (obe_n o) b a) smp.
Proof.
  unfold reshape_sol. destruct (sol o) as [s|]; [|discriminate].
  cbv zeta.
  destruct ((sol_rows s - 6 =? obe_n o * obe_n o) || (List.length (sol_t s) =? 0))
    eqn:Hshape; cbn [negb]; [|discriminate].
  intros H. exists s. split; [reflexivity|].
  assert (Hrows : (sol_rows s - 6 = obe_n o * obe_n o \/ sol_t s = [])%nat).
  { apply orb_true_iff in Hshape. destruct Hshape as [E|E].
    - left. apply Nat.eqb_eq. exact E.
    - right. apply Nat.eqb_eq in E. destruct (sol_t s); [reflexivity|discriminate]. }
  assert (Hidx : forall a b, (a * obe_n o + b)%nat = density_index (obe_n o) b a)
    by (intros; unfold density_index; lia).
  destruct (transform_into_re_im o); inversion H; subst ts rho; clear H;
    (split; [reflexivity|]); (split; [exact Hrows|]); intros a b smp.
  - unfold diag_of, triu1, tril1, transpose. rewrite !Hidx.
    destruct (Nat.eqb_spec a b) as [->|Hne].
    + rewrite Nat.ltb_irrefl. ring.
    + destruct (Nat.ltb_spec a b), (Nat.ltb_spec b a); try lia; ring.
  - rewrite Hidx. reflexivity.
Qed.

(** X18: when [reshape_sol] returns, the object holds a solution with
    [n**2] rows before its last six (or with no sample), the times are
    those of the solution, and the entry [(a, b)] of the array at a sample
    is: in the complex basis, the row [density_index(b, a)] of the
    solution (the entry [(b, a)] of the density matrix, its transpose);
    in the real basis, the row of [(a, a)] on the diagonal, the row of
    [(b, a)] plus [1j] times the row of [(a, b)] above the diagonal, and
    the row of [(a, b)] minus [1j] times the row of [(b, a)] below it. *)
Theorem reshape_sol_entries (o : obe) (ts : list R)
        (rho : nat -> nat -> nat -> C) :
  reshape_sol o = Ok (ts, rho) ->
  exists s,
    sol o = Some s /\ ts = sol_t s
    /\ (sol_rows s - 6 = obe_n o * obe_n o \/ sol_t s = [])%nat
    /\ forall a b smp,
         rho a b smp
         = if transform_into_re_im o then
             if a =? b then sol_y s (density_index (obe_n o) a a) smp
             else if a <? b
                  then (sol_y s (density_index (obe_n o) b a) smp
                        + Ci * sol_y s (density_index (obe_n o) a b) smp)%C
                  else (sol_y s (density_index (obe_n o) a b) smp
                        - Ci * sol_y s (density_index (obe_n o) b a) smp)%C
           else sol_y s (density_index (obe_n o) b a) smp.
Proof. apply reshape_sol_inv. Qed.

(** X19: in the real basis, for a solution whose entries are real,
    every matrix of the array [reshape_sol] returns is Hermitian. *)
Theorem reshape_sol_hermitian (o : obe) (s : ode_solution) (ts : list R)
        (rho : nat -> nat -> nat -> C) :
  transform_into_re_im o = true ->
  sol o = Some s ->
  (forall row smp, Im (sol_y s row smp) = 0%R) ->
  reshape_sol o = Ok (ts, rho) ->
  forall a b smp, rho b a smp = Cconj (rho a b smp).
Proof.
  intros Htr Hsol Hreal H a b smp.
  destruct (reshape_sol_inv o ts rho H) as (s' & Hs' & _ & _ & Hent).
  rewrite Hsol in Hs'. inversion Hs'; subst s'; clear Hs'.
  rewrite !Hent, Htr.
  pose proof (Hreal (density_index (obe_n o) a b) smp) as Hab.
  pose proof (Hreal (density_index (obe_n o) b a) smp) as Hba.
  destruct (Nat.eqb_spec a b) as [->|Hne].
  - rewrite Nat.eqb_refl.
    destruct (sol_y s (density_index (obe_n o) b b) smp) as [x y].
    apply C_eq; unfold Cconj, Re, Im in *; simpl in *; lra.
  - destruct (Nat.eqb_spec b a) as [E|_]; [subst; contradiction|].
    destruct (sol_y s (density_index (obe_n o) a b) smp) as [x y].
    destruct (sol_y s (density_index (obe_n o) b a) smp) as [x' y'].
    destruct (Nat.ltb_spec a b), (Nat.ltb_spec b a); try lia;
      apply C_eq; unfold Cconj, Cadd, Csub, Cmul, Ci, Re, Im in *;
      simpl in *; lra.
Qed.

(** X20: [reshape_sol] after the change to the real basis.  When a
    sample of the solution is [Uinv] times the flattened vector of a
    Hermitian matrix [rho0] (the real-basis form of that density matrix),
    the matrix [reshape_sol] returns for the sample has the populations of
    [rho0] on its diagonal, and above the diagonal [1j] times the
    conjugate of the entry of [rho0]. *)
Theorem reshape_sol_of_real_basis (o : obe) (s : ode_solution)
        (ts : list R) (rho : nat -> nat -> nat -> C) (rho0 : vector)
        (smp : nat) :
  transform_into_re_im o = true ->
  sol o = Some s ->
  reshape_sol o = Ok (ts, rho) ->
  (forall i j, (i < obe_n o)%nat -> (j < obe_n o)%nat ->
     rho0 (density_index (obe_n o) j i)
     = Cconj (rho0 (density_index (obe_n o) i j))) ->
  (forall row, (row < obe_n o * obe_n o)%nat ->
     sol_y s row smp
     = matvec (obe_n o * obe_n o) (snd (build_transform_matrices (obe_n o)))
              rho0 row) ->
  forall a b, (a < obe_n o)%nat -> (b < obe_n o)%nat ->
    rho a b smp
    = if a =? b then rho0 (density_index (obe_n o) a a)
      else if a <? b then (Ci * Cconj (rho0 (density_index (obe_n o) a b)))%C
           else Cconj (Ci * Cconj (rho0 (density_index (obe_n o) b a)))%C.
Proof.
  intros Htr Hsol H Hherm Hy a b Ha Hb.
  destruct (reshape_sol_inv o ts rho H) as (s' & Hs' & _ & _ & Hent).
  rewrite Hsol in Hs'. inversion Hs'; subst s'; clear Hs'.
  rewrite Hent, Htr.
  rewrite !Hy by (apply density_index_lt; assumption).
  rewrite !Uinv_of_hermitian by assumption.
  destruct (Nat.eqb_spec a b) as [->|Hne].
  - rewrite Nat.eqb_refl.
    pose proof (Hherm b b Hb Hb) as Hd.
    destruct (rho0 (density_index (obe_n o) b b)) as [x y].
    apply (f_equal Im) in Hd.
    apply C_eq; unfold Cconj, RtoC, Re, Im in *; simpl in *; lra.
  - destruct (Nat.eqb_spec b a) as [E|_]; [subst; contradiction|].
    destruct (Nat.ltb_spec a b), (Nat.ltb_spec b a); try lia.
    + destruct (rho0 (density_index (obe_n o) a b)) as [x y].
      apply C_eq; unfold Cconj, Cadd, Cmul, Ci, RtoC, Re, Im; simpl; lra.
    + destruct (rho0 (density_index (obe_n o) b a)) as [x y].
      apply C_eq; unfold Cconj, Csub, Cmul, Ci, RtoC, Re, Im; simpl; lra.
Qed.

Lemma reshape_sol_real_basis_ground :
  reshape_sol real_basis_ground
  = Ok (sol_t ground_solution,
        fun a b smp =>
          let M := fun a b => sol_y ground_solution (a * 2 + b)%nat smp in
          (diag_of M a b + triu1 M a b + transpose (triu1 M) a b
           - Ci * tril1 M a b + Ci * transpose (tril1 M) a b)%C).
Proof. reflexivity. Qed.

Lemma reshape_sol_entries_witness :
  exists s,
    sol real_basis_ground = Some s
    /\ sol_t ground_solution = sol_t s
    /\ (sol_rows s - 6 = obe_n real_basis_ground * obe_n real_basis_ground
        \/ sol_t s = [])%nat.
Proof.
  destruct (reshape_sol_entries real_basis_ground _ _
              reshape_sol_real_basis_ground) as (s & Hs & Ht & Hrows & _).
  exists s. split; [exact Hs|]. split; [exact Ht | exact Hrows].
Defined.

Lemma ground_solution_real (row smp : nat) :
  Im (sol_y ground_solution row smp) = 0%R.
Proof. destruct row; reflexivity. Qed.

Lemma reshape_sol_hermitian_witness :
  exists ts rho,
    reshape_sol real_basis_ground = Ok (ts, rho)
    /\ rho 1%nat 0%nat 0%nat = Cconj (rho 0%nat 1%nat 0%nat).
Proof.
  eexists. eexists. split; [exact reshape_sol_real_basis_ground|].
  apply (reshape_sol_hermitian real_basis_ground ground_solution _ _
           eq_refl eq_refl ground_solution_real reshape_sol_real_basis_ground
           0%nat 1%nat 0%nat).
Defined.

Lemma ground_solution_is_real_basis_ground (row : nat) :
  (row < 2 * 2)%nat ->
  sol_y ground_solution row 0
  = matvec (2 * 2) (snd (build_transform_matrices 2)) (flatten 2 rho_ground) row.
Proof.
  intros Hrow.
  destruct (density_index_decode 2 row Hrow) as (i & j & Hi & Hj & ->).
  rewrite (Uinv_of_hermitian 2 (flatten 2 rho_ground) i j rho_ground_hermitian Hi Hj).
  rewrite !flatten_density_index by assumption.
  destruct i as [|[|i]]; try lia; destruct j as [|[|j]]; try lia;
    apply C_eq; simpl; lra.
Qed.

Lemma reshape_sol_of_real_basis_witness :
  exists ts rho,
    reshape_sol real_basis_ground = Ok (ts, rho)
    /\ rho 0%nat 1%nat 0%nat
       = (Ci * Cconj (flatten 2 rho_ground (density_index 2 0 1)))%C.
Proof.
  eexists. eexists. split; [exact reshape_sol_real_basis_ground|].
  apply (reshape_sol_of_real_basis real_basis_ground ground_solution _ _
           (flatten 2 rho_ground) 0%nat eq_refl eq_refl
           reshape_sol_real_basis_ground rho_ground_hermitian
           ground_solution_is_real_basis_ground 0%nat 1%nat); cbn; lia.
Defined.

(* ------------------------------------------------------------------ *)
(** ** The setters of the initial populations *)

(** A loop whose body returns and takes an invariant from one index to
    the next returns, with the invariant at the end of the range. *)
Lemma for_range_exn_invariant {St : Type} (P : nat -> St -> Prop)
      (lo hi : nat) (body : nat -> St -> result St) (s : St) :
  (lo <= hi)%nat -> P lo s ->
  (forall i a, (lo <= i < hi)%nat -> P i a ->
     exists a', body i a = Ok a' /\ P (S i) a') ->
  exists s', for_range_exn lo hi body s = Ok s' /\ P hi s'.
Proof.
  intros Hle H0 Hstep.
  replace hi with (lo + (hi - lo))%nat by lia.
  assert (Hk : (hi - lo <= hi - lo)%nat) by lia. revert Hk.
  generalize (hi - lo)%nat at 1 3 4 as k.
  induction k as [|k IH]; intros Hk.
  - rewrite Nat.add_0_r, for_range_exn_empty by lia. exists s. split; auto.
  - destruct (IH ltac:(lia)) as (s1 & Hs1 & HP1).
    rewrite for_range_exn_S, Hs1. cbn [bind].
    destruct (Hstep (lo + k)%nat s1 ltac:(lia) HP1) as (s2 & Hs2 & HP2).
    exists s2. split; [exact Hs2|].
    replace (lo + S k)%nat with (S (lo + k)) by lia. exact HP2.
Qed.

Lemma populations_stored_zeros (n : nat) (pop : nat -> option C) (tr : bool) :
  populations_stored n 0 pop (if tr then float64 else complex128)
                     (zeros1 tr (n * n)).
Proof.
  unfold populations_stored, zeros1. cbn [arr_dtype arr_data].
  split; [reflexivity|]. split; [apply repeat_length|].
  intros i j Hi Hj. rewrite Bool.andb_false_r.
  apply nth_repeat_lt. apply density_index_lt; assumption.
Qed.

Lemma populations_stored_step (n k : nat) (pop : nat -> option C)
      (dt : dtype) (a : ndarray1) :
  (k < n)%nat -> populations_stored n k pop dt a ->
  exists a', array_store a (density_index n k k) (pop k) = Ok a'
             /\ populations_stored n (S k) pop dt a'.
Proof.
  intros Hk (Hdt & Hlen & Hent). unfold array_store.
  pose proof (density_index_lt n k k Hk Hk) as Hkk.
  destruct (Nat.ltb_spec (density_index n k k) (List.length (arr_data a)));
    [|lia].
  eexists. split; [reflexivity|].
  unfold populations_stored. cbn [arr_dtype arr_data].
  split; [exact Hdt|]. split; [rewrite length_list_set; exact Hlen|].
  intros i j Hi Hj. rewrite nth_list_set by lia.
  rewrite density_index_eqb by assumption.
  rewrite (Hent i j Hi Hj).
  destruct (Nat.eqb_spec i k) as [->|Hik], (Nat.eqb_spec j k) as [->|Hjk];
    cbn [andb].
  - rewrite Nat.eqb_refl. destruct (Nat.ltb_spec k (S k)); [reflexivity | lia].
  - destruct (Nat.eqb_spec k j); [congruence | reflexivity].
  - destruct (Nat.eqb_spec i k); [contradiction | reflexivity].
  - destruct (i =? j); cbn [andb]; [|reflexivity].
    destruct (Nat.ltb_spec i k), (Nat.ltb_spec i (S k)); try lia; reflexivity.
Qed.

(** The sum of the populations of an array that holds [pop]. *)
Lemma populations_stored_trace (n k : nat) (pop : nat -> option C)
      (dt : dtype) (a : ndarray1) :
  populations_stored n k pop dt a ->
  diag_sum n (array_item a)
  = csum n (fun i => if i <? k
                     then match pop i with Some z => z | None => C0 end
                     else C0).
Proof.
  intros (_ & _ & Hent). unfold diag_sum. apply csum_ext. intros i Hi.
  unfold array_item. rewrite (Hent i i Hi Hi), Nat.eqb_refl. cbn [andb].
  destruct (i <? k); reflexivity.
Qed.

Lemma csum_constant_prefix_min (n k : nat) (x : C) :
  csum n (fun i => if i <? k then x else C0)
  = (RtoC (INR (Nat.min n k)) * x)%C.
Proof.
  induction n as [|n IH].
  - rewrite csum_0. cbn [Nat.min INR].
    apply C_eq; unfold Cmul, RtoC, C0; simpl; lra.
  - rewrite csum_S, IH. destruct (Nat.ltb_spec n k).
    + replace (Nat.min (S n) k) with (S (Nat.min n k)) by lia.
      rewrite S_INR. destruct x as [xr xi].
      apply C_eq; unfold Cmul, Cadd, RtoC, Re, Im; simpl; lra.
    + replace (Nat.min (S n) k) with (Nat.min n k) by lia. ring.
Qed.

Lemma csum_constant_prefix (n k : nat) (x : C) :
  (k <= n)%nat ->
  csum n (fun i => if i <? k then x else C0) = (RtoC (INR k) * x)%C.
Proof.
  intros Hk. rewrite csum_constant_prefix_min.
  replace (Nat.min n k) with k by lia. reflexivity.
Qed.

Lemma set_initial_rho_equally_stored (o : obe) (ns0 : nat) (rest : list nat) :
  ns (obe_hamiltonian o) = ns0 :: rest ->
  (ns0 <= obe_n o)%nat ->
  exists a,
    set_initial_rho_equally o = Ok (with_rho0 o a)
    /\ populations_stored (obe_n o) ns0 (fun _ => Some (RtoC (1 / INR ns0)))
         (if transform_into_re_im o then float64 else complex128) a.
Proof.
  intros Hns Hle. unfold set_initial_rho_equally. cbv zeta.
  rewrite Hns. cbn [nth_error].
  destruct (for_range_exn_invariant
              (fun k a => populations_stored (obe_n o) k
                            (fun _ => Some (RtoC (1 / INR ns0)))
                            (if transform_into_re_im o then float64
                             else complex128) a)
              0 ns0
              (fun jj rho0 =>
                 array_store rho0 (density_index (obe_n o) jj jj)
                             (Some (RtoC (1 / INR ns0))))
              (zeros1 (transform_into_re_im o) (obe_n o * obe_n o)))
    as (a & Ha & HP).
  - lia.
  - apply populations_stored_zeros.
  - intros i a0 Hi HP.
    apply (populations_stored_step (obe_n o) i
             (fun _ => Some (RtoC (1 / INR ns0)))); [lia | exact HP].
  - exists a. rewrite Ha. cbn [bind]. split; [reflexivity | exact HP].
Qed.

(** X21: [set_initial_rho_equally()], for a first manifold of [ns[0]]
    states, no more than the [n] states of the Hamiltonian, returns and
    stores an array of [n**2] entries, of the dtype of the basis, with
    [1/ns[0]] at the diagonal index of each state of the first manifold
    and zero everywhere else; for [ns[0] >= 1] its populations sum to
    one.  Nothing else of the object changes: a stored solution stays. *)
Theorem set_initial_rho_equally_populations (o : obe) (ns0 : nat)
        (rest : list nat) :
  ns (obe_hamiltonian o) = ns0 :: rest ->
  (1 <= ns0 <= obe_n o)%nat ->
  exists a,
    set_initial_rho_equally o = Ok (with_rho0 o a)
    /\ populations_stored (obe_n o) ns0 (fun _ => Some (RtoC (1 / INR ns0)))
         (if transform_into_re_im o then float64 else complex128) a
    /\ diag_sum (obe_n o) (array_item a) = C1.
Proof.
  intros Hns Hle.
  destruct (set_initial_rho_equally_stored o ns0 rest Hns ltac:(lia))
    as (a & Ha & HP).
  exists a. split; [exact Ha|]. split; [exact HP|].
  rewrite (populations_stored_trace _ _ _ _ _ HP).
  rewrite csum_constant_prefix by lia.
  assert (Hpos : (INR ns0 <> 0)%R) by (apply not_0_INR; lia).
  apply C_eq; unfold Cmul, RtoC, C1, Re, Im; cbn [fst snd]; field; exact Hpos.
Qed.

Lemma set_initial_rho_equally_populations_witness :
  exists a,
    set_initial_rho_equally real_basis_ground = Ok (with_rho0 real_basis_ground a)
    /\ populations_stored (obe_n real_basis_ground) 1
         (fun _ => Some (RtoC (1 / INR 1)))
         (if transform_into_re_im real_basis_ground then float64 else complex128)
         a
    /\ diag_sum (obe_n real_basis_ground) (array_item a) = C1.
Proof.
  apply (set_initial_rho_equally_populations real_basis_ground 1 [1%nat]).
  - reflexivity.
  - cbn. lia.
Defined.

Lemma rsum_list_app (l : list R) (x : R) :
  rsum_list (l ++ [x]) = (rsum_list l + x)%R.
Proof. unfold rsum_list. rewrite fold_left_app. reflexivity. Qed.

Lemma csum_of_list (l : list R) (c : R) :
  csum (List.length l) (fun i => RtoC (nth i l 0%R * c))
  = RtoC (rsum_list l * c).
Proof.
  induction l as [|x l IH] using rev_ind.
  - cbn [List.length]. rewrite csum_0. unfold rsum_list. cbn [fold_left].
    apply C_eq; unfold RtoC, C0; simpl; lra.
  - rewrite length_app. cbn [List.length].
    replace (List.length l + 1)%nat with (S (List.length l)) by lia.
    rewrite csum_S.
    rewrite (csum_ext _ _ (fun i => RtoC (nth i l 0%R * c))).
    + rewrite IH, rsum_list_app, app_nth2 by lia.
      rewrite Nat.sub_diag. cbn [nth].
      apply C_eq; unfold Cadd, RtoC; simpl; lra.
    + intros i Hi. rewrite app_nth1 by lia. reflexivity.
Qed.

Lemma nth_error_nth_None {A : Type} (l : list (option A)) (i : nat) :
  (i < List.length l)%nat -> nth_error l i = Some (nth i l None).
Proof. intros Hi. apply nth_error_nth'. exact Hi. Qed.

(** The loop of [set_initial_rho_from_populations] over an array [L] of
    [n] entries. *)
Lemma store_populations_loop (n : nat) (tr : bool) (L : list (option C)) :
  List.length L = n ->
  exists a,
    for_range_exn 0 n (fun jj rho0 =>
        match nth_error L jj with
        | Some x => array_store rho0 (density_index n jj jj) x
        | None => Raise IndexError
        end) (zeros1 tr (n * n)) = Ok a
    /\ populations_stored n n (fun i => nth i L None)
         (if tr then float64 else complex128) a.
Proof.
  intros HL.
  apply (for_range_exn_invariant
           (fun k a => populations_stored n k (fun i => nth i L None)
                         (if tr then float64 else complex128) a)).
  - lia.
  - apply populations_stored_zeros.
  - intros i a Hi HP. rewrite nth_error_nth_None by lia.
    apply (populations_stored_step n i (fun i => nth i L None)); [lia|exact HP].
Qed.

Lemma existsb_none_finite (vs : list R) :
  existsb (fun x : option R => match x with None => true | Some _ => false end)
          (map Some vs) = false.
Proof. induction vs as [|v vs IH]; [reflexivity | exact IH]. Qed.

Lemma finite_values_map_Some (vs : list R) :
  finite_values (map Some vs) = vs.
Proof.
  unfold finite_values. rewrite map_map. apply map_id.
Qed.

Lemma nth_normalize (vs : list R) (i : nat) :
  rsum_list vs <> 0%R -> (i < List.length vs)%nat ->
  nth i (normalize vs) None = Some (RtoC (nth i vs 0%R / rsum_list vs)).
Proof.
  intros Hs Hi. unfold normalize. cbv zeta.
  unfold Req_bool. destruct (Req_dec_T (rsum_list vs) 0) as [E|_]; [contradiction|].
  rewrite (nth_indep _ None
             (Some (RtoC (0 / rsum_list vs))))
    by (rewrite length_map; exact Hi).
  rewrite (map_nth (fun v => Some (RtoC (v / rsum_list vs)))). reflexivity.
Qed.

(** X22: [set_initial_rho_from_populations(Npop)], for an array of [n]
    finite populations whose sum is not zero, returns and stores an
    array of [n**2] entries with [Npop[i]/sum(Npop)] at the diagonal
    index of each state [i] and zero everywhere else: the stored
    populations sum to one, whatever the sum of [Npop] was. *)
Theorem set_initial_rho_from_populations_normalizes (o : obe) (vs : list R) :
  List.length vs = obe_n o ->
  rsum_list vs <> 0%R ->
  exists a,
    set_initial_rho_from_populations o (map Some vs) = Ok (with_rho0 o a)
    /\ arr_dtype a = (if transform_into_re_im o then float64 else complex128)
    /\ List.length (arr_data a) = (obe_n o * obe_n o)%nat
    /\ (forall i j, (i < obe_n o)%nat -> (j < obe_n o)%nat ->
          nth (density_index (obe_n o) i j) (arr_data a) None
          = Some (if i =? j then RtoC (nth i vs 0%R / rsum_list vs) else C0))
    /\ diag_sum (obe_n o) (array_item a) = C1.
Proof.
  intros Hlen Hsum. unfold set_initial_rho_from_populations. cbv zeta.
  rewrite length_map, Hlen, Nat.eqb_refl. cbn [negb].
  rewrite existsb_none_finite, finite_values_map_Some.
  destruct (store_populations_loop (obe_n o) (transform_into_re_im o)
              (normalize vs)) as (a & Ha & HP).
  { unfold normalize. rewrite length_map. exact Hlen. }
  exists a. rewrite Ha. cbn [bind]. split; [reflexivity|].
  pose proof HP as (Hdt & Hl & Hent).
  split; [exact Hdt|]. split; [exact Hl|]. split.
  - intros i j Hi Hj. rewrite (Hent i j Hi Hj).
    destruct (Nat.ltb_spec i (obe_n o)); [|lia].
    rewrite Bool.andb_true_r.
    destruct (i =? j); [|reflexivity].
    rewrite nth_normalize by (try exact Hsum; lia). reflexivity.
  - rewrite (populations_stored_trace _ _ _ _ _ HP).
    rewrite (csum_ext _ _ (fun i => RtoC (nth i vs 0%R * / rsum_list vs))).
    + rewrite <- Hlen, csum_of_list.
      apply C_eq; unfold RtoC, C1, Re, Im; cbn [fst snd]; [field; exact Hsum | reflexivity].
    + intros i Hi. destruct (Nat.ltb_spec i (obe_n o)); [|lia].
      rewrite nth_normalize by (try exact Hsum; lia). reflexivity.
Qed.

Lemma set_initial_rho_from_populations_normalizes_witness :
  exists a,
    set_initial_rho_from_populations real_basis_ground
      (map Some [3%R; 1%R]) = Ok (with_rho0 real_basis_ground a)
    /\ arr_dtype a = (if transform_into_re_im real_basis_ground
                      then float64 else complex128)
    /\ List.length (arr_data a)
       = (obe_n real_basis_ground * obe_n real_basis_ground)%nat
    /\ (forall i j, (i < obe_n real_basis_ground)%nat ->
                    (j < obe_n real_basis_ground)%nat ->
          nth (density_index (obe_n real_basis_ground) i j) (arr_data a) None
          = Some (if i =? j
                  then RtoC (nth i [3%R; 1%R] 0%R / rsum_list [3%R; 1%R])
                  else C0))
    /\ diag_sum (obe_n real_basis_ground) (array_item a) = C1.
Proof.
  apply (set_initial_rho_from_populations_normalizes real_basis_ground
           [3%R; 1%R]).
  - reflexivity.
  - unfold rsum_list. cbn [fold_left]. lra.
Defined.

(** X23: [set_initial_rho_from_populations(Npop)] raises exactly when
    [Npop] has not one entry per state or holds a NaN or an Inf, and then
    a ValueError; in every other case, a zero sum of the populations
    included, it returns. *)
Theorem set_initial_rho_from_populations_errors (o : obe)
        (Npop : list (option R)) :
  (set_initial_rho_from_populations o Npop = Raise ValueError
   <-> (List.length Npop <> obe_n o \/ In None Npop))
  /\ ((exists o', set_initial_rho_from_populations o Npop = Ok o')
      <-> (List.length Npop = obe_n o /\ ~ In None Npop)).
Proof.
  unfold set_initial_rho_from_populations. cbv zeta.
  destruct (Nat.eqb_spec (List.length Npop) (obe_n o)) as [Hlen|Hlen];
    cbn [negb].
  2:{ split; split.
      - intros _. left. exact Hlen.
      - reflexivity.
      - intros [o' H]. discriminate.
      - intros [H _]. contradiction. }
  destruct (existsb (fun x : option R =>
                       match x with None => true | Some _ => false end) Npop)
    eqn:Hex.
  - assert (Hin : In None Npop).
    { apply existsb_exists in Hex. destruct Hex as ([v|] & Hin & Hv);
        [discriminate | exact Hin]. }
    split; split.
    + intros _. right. exact Hin.
    + reflexivity.
    + intros [o' H]. discriminate.
    + intros [_ H]. contradiction.
  - assert (Hnin : ~ In None Npop).
    { intros Hin.
      assert (existsb (fun x : option R =>
                 match x with None => true | Some _ => false end) Npop = true)
        by (apply existsb_exists; exists None; split; [exact Hin|reflexivity]).
      congruence. }
    destruct (store_populations_loop (obe_n o) (transform_into_re_im o)
                (normalize (finite_values Npop))) as (a & Ha & _).
    { unfold normalize, finite_values. rewrite !length_map. exact Hlen. }
    rewrite Ha. cbn [bind]. split; split.
    + discriminate.
    + intros [H|H]; contradiction.
    + intros _. split; assumption.
    + intros _. eexists. reflexivity.
Qed.

(* ------------------------------------------------------------------ *)
(** ** The manifolds of a registered Hamiltonian *)

Lemma elem_label_inj (t t' s s' : string) :
  bar_free s = true -> bar_free s' = true ->
  make_elem_label t s = make_elem_label t' s' -> s = s'.
Proof.
  intros Hs Hs' E. unfold make_elem_label in E. simpl in E.
  inversion E as [E'].
  destruct (bar_free_split _ _ _ _ Hs Hs' E') as [E1 _]. exact E1.
Qed.

Lemma H_0_label_not_mu_q (s s' : string) :
  bar_free s = true -> bar_free s' = true ->
  make_elem_label "H_0" s <> make_elem_label "mu_q" s'.
Proof.
  intros Hs Hs' E. unfold make_elem_label in E. simpl in E.
  inversion E as [E'].
  destruct (bar_free_split _ _ _ _ Hs Hs' E') as [_ E2]. discriminate.
Qed.

(** A block under the label of the manifold [s] is found for no other
    manifold. *)
Lemma owned_by_block (b : block) (t s s' : string) :
  bar_free s = true -> bar_free s' = true ->
  block_label b = make_elem_label t s ->
  owned_by (CBlock b) s' -> s' = s.
Proof.
  intros Hs Hs' Hl [H|H]; cbn [cell_matches] in H; rewrite Hl in H.
  - assert (E : make_elem_label t s = make_elem_label "H_0" s')
      by (apply String.eqb_eq; congruence).
    symmetry. apply (elem_label_inj _ _ _ _ Hs Hs' E).
  - assert (E : make_elem_label t s = make_elem_label "mu_q" s')
      by (apply String.eqb_eq; congruence).
    symmetry. apply (elem_label_inj _ _ _ _ Hs Hs' E).
Qed.

(** A dipole block is found for no manifold. *)
Lemma owned_by_dipole_block (b : block) (l1 l2 s : string) :
  bar_free l1 = true -> bar_free s = true ->
  block_label b = make_elem_label_d_q l1 l2 ->
  ~ owned_by (CBlock b) s.
Proof.
  intros H1 Hs Hl [H|H]; cbn [cell_matches] in H; rewrite Hl in H.
  - assert (E : make_elem_label_d_q l1 l2 = make_elem_label "H_0" s)
      by (apply String.eqb_eq; congruence).
    apply (H_0_label_not_d_q s l1 l2 Hs H1). symmetry. exact E.
  - assert (E : make_elem_label_d_q l1 l2 = make_elem_label "mu_q" s)
      by (apply String.eqb_eq; congruence).
    apply (mu_q_label_not_d_q s l1 l2 Hs H1). symmetry. exact E.
Qed.

Lemma owned_by_none (s : string) : ~ owned_by CNone s.
Proof. intros [H|H]; discriminate. Qed.

Lemma owned_by_tuple (b b' : block) (s : string) :
  owned_by (CTuple (CBlock b) (CBlock b')) s ->
  owned_by (CBlock b) s \/ owned_by (CBlock b') s.
Proof.
  unfold owned_by. cbn [cell_matches element_label_is bind].
  intros [H|H].
  - assert (E : (String.eqb (block_label b) (make_elem_label "H_0" s)
                 || String.eqb (block_label b') (make_elem_label "H_0" s))
                = true) by congruence.
    apply orb_true_iff in E. destruct E as [E|E]; rewrite E; auto.
  - assert (E : (String.eqb (block_label b) (make_elem_label "mu_q" s)
                 || String.eqb (block_label b') (make_elem_label "mu_q" s))
                = true) by congruence.
    apply orb_true_iff in E. destruct E as [E|E]; rewrite E; auto.
Qed.

(** A search that ends with the empty tuple has met no match. *)
Lemma search_row_miss (row : list cell) (label : string) (jj : nat) :
  search_row row label jj = Ok None ->
  forall j, cell_matches (nth j row CNone) label <> Ok true.
Proof.
  revert jj. induction row as [|c rest IH]; intros jj H j; simpl in H.
  - destruct j; discriminate.
  - destruct (cell_matches c label) as [[|]|] eqn:Hc; cbn [bind] in H;
      try discriminate.
    destruct j as [|j]; cbn [nth].
    + rewrite Hc. discriminate.
    + apply (IH (S jj) H).
Qed.

Lemma search_rows_miss (bl : list (list cell)) (label : string) (ii : nat)
      (ind : option (nat * nat)) :
  search_rows bl label ii ind = Ok None ->
  ind = None
  /\ forall i j, cell_matches (cell_at bl i j) label <> Ok true.
Proof.
  revert ii ind. induction bl as [|row rest IH]; intros ii ind H; simpl in H.
  - split; [inversion H; reflexivity|].
    intros i j. unfold cell_at. destruct i, j; discriminate.
  - destruct (search_row row label 0) as [hit|] eqn:Hrow; [|discriminate].
    cbn [bind] in H. destruct (IH _ _ H) as [Hind Hrest].
    destruct hit as [jj|]; [discriminate|].
    split; [exact Hind|].
    intros [|i] j.
    + apply (search_row_miss row label 0 Hrow).
    + apply (Hrest i j).
Qed.

Lemma search_elem_label_miss (h : hamiltonian) (label : string) :
  search_elem_label h label = Ok None ->
  forall i j, cell_matches (cell_at (blocks h) i j) label <> Ok true.
Proof.
  unfold search_elem_label. intros H.
  apply (search_rows_miss _ _ _ _ H).
Qed.

(** [__recompute_number_of_states] over diagonal cells that are manifolds
    of [ns[i]] states returns the sum of [ns]. *)
Lemma recompute_from (bl : list (list cell)) :
  forall (k acc : nat) (ns : list nat),
    List.length ns = List.length bl ->
    (forall i, (i < List.length bl)%nat ->
       manifold_cell (nth (k + i) (nth i bl []) CNone) (nth i ns 0%nat)) ->
    for_each_exn (diag_from bl k) (fun c n =>
      match c with
      | CTuple (CBlock b) _ => Ok (n + block_n b)%nat
      | CTuple _ _ => Raise AttributeError
      | CBlock b => Ok (n + block_n b)%nat
      | CNone => Raise AttributeError
      end) acc = Ok (acc + list_sum ns)%nat.
Proof.
  induction bl as [|row rest IH]; intros k acc [|n0 ns] Hlen Hcells;
    simpl in Hlen; try discriminate.
  - cbn. f_equal. lia.
  - cbn [diag_from]. rewrite for_each_exn_cons.
    pose proof (Hcells 0%nat ltac:(simpl; lia)) as H0.
    cbn [nth] in H0. rewrite Nat.add_0_r in H0.
    assert (Hstep :
      match nth k row CNone with
      | CTuple (CBlock b) _ => Ok (acc + block_n b)%nat
      | CTuple _ _ => Raise AttributeError
      | CBlock b => Ok (acc + block_n b)%nat
      | CNone => Raise AttributeError
      end = Ok (acc + n0)%nat).
    { destruct H0 as [(b & -> & <-)|(b & b' & -> & <-)]; reflexivity. }
    rewrite Hstep. cbn [bind].
    rewrite (IH (S k) (acc + n0)%nat ns).
    + apply f_equal. unfold list_sum. cbn [fold_right]. lia.
    + lia.
    + intros i Hi. specialize (Hcells (S i) ltac:(simpl; lia)).
      cbn [nth] in Hcells.
      replace (S k + i)%nat with (k + S i)%nat by lia. exact Hcells.
Qed.

Lemma recompute_number_of_states_sum (bl : list (list cell)) (ns : list nat) :
  manifolds_ok bl ns ->
  recompute_number_of_states bl = Ok (list_sum ns).
Proof.
  intros (Hlen & Hcells & _). unfold recompute_number_of_states, diag_cells.
  rewrite (recompute_from bl 0 0 ns Hlen); [reflexivity|].
  intros i Hi. apply (Hcells i Hi).
Qed.

(** A new row and column with a block of the manifold [s] in the last
    cell, for a label [s] that no cell was found under. *)
Lemma manifolds_ok_new_row (bl bl' : list (list cell)) (ns : list nat)
      (b : block) (t s : string) :
  manifolds_ok bl ns ->
  bar_free s = true ->
  block_label b = make_elem_label t s ->
  (forall i j, ~ owned_by (cell_at bl i j) s) ->
  set_cell (add_new_row_and_column bl) (List.length bl, List.length bl)
           (CBlock b) = Ok bl' ->
  manifolds_ok bl' (ns ++ [block_n b]).
Proof.
  intros (Hlen & Hcells & Huniq) Hs Hl Hfree Hset.
  assert (Hat : forall i j,
             cell_at bl' i j
             = if (i =? List.length bl) && (j =? List.length bl)
               then CBlock b else cell_at bl i j).
  { intros i j. rewrite (set_cell_cell_at _ _ _ _ _ Hset).
    rewrite add_new_row_and_column_cell_at. reflexivity. }
  assert (Hlen' : List.length bl' = S (List.length bl)).
  { rewrite (set_cell_length _ _ _ _ Hset).
    apply add_new_row_and_column_length. }
  split; [|split].
  - rewrite length_app, Hlen'. cbn [List.length]. lia.
  - intros i Hi. rewrite Hat.
    destruct (Nat.eqb_spec i (List.length bl)) as [->|Hne]; cbn [andb].
    + rewrite app_nth2 by lia. rewrite Hlen, Nat.sub_diag. cbn [nth].
      left. exists b. split; reflexivity.
    + rewrite app_nth1 by lia. apply Hcells. lia.
  - intros s' i j Hs' Hi Hj. rewrite Hat in Hi, Hj.
    destruct (Nat.eqb_spec i (List.length bl)) as [->|Hni],
             (Nat.eqb_spec j (List.length bl)) as [->|Hnj];
      cbn [andb] in Hi, Hj.
    + reflexivity.
    + exfalso. rewrite (owned_by_block b t s s' Hs Hs' Hl Hi) in Hj.
      apply (Hfree j j Hj).
    + exfalso. rewrite (owned_by_block b t s s' Hs Hs' Hl Hj) in Hi.
      apply (Hfree i i Hi).
    + apply (Huniq s' i j Hs' Hi Hj).
Qed.

(** A second block of the manifold [s] joined to the block of [s] in a
    diagonal cell. *)
Lemma manifolds_ok_attach (bl bl' : list (list cell)) (ns : list nat)
      (b0 b : block) (t s : string) (a : nat) :
  manifolds_ok bl ns ->
  bar_free s = true ->
  cell_at bl a a = CBlock b0 ->
  owned_by (CBlock b0) s ->
  block_label b = make_elem_label t s ->
  set_cell bl (a, a) (CTuple (CBlock b0) (CBlock b)) = Ok bl' ->
  manifolds_ok bl' ns.
Proof.
  intros (Hlen & Hcells & Huniq) Hs Hold Hown Hl Hset.
  pose proof (set_cell_cell_at _ _ _ _ _ Hset) as Hat.
  pose proof (set_cell_length _ _ _ _ Hset) as Hlen'.
  pose proof (set_cell_bounds _ _ _ _ _ Hset) as Ha.
  assert (Hnew : forall s', bar_free s' = true ->
             owned_by (CTuple (CBlock b0) (CBlock b)) s' ->
             owned_by (cell_at bl a a) s').
  { intros s' Hs' H. rewrite Hold.
    destruct (owned_by_tuple _ _ _ H) as [H0|H1]; [exact H0|].
    rewrite (owned_by_block b t s s' Hs Hs' Hl H1). exact Hown. }
  split; [|split].
  - rewrite Hlen'. exact Hlen.
  - intros i Hi. rewrite Hat.
    destruct (Nat.eqb_spec i a) as [->|Hne]; cbn [andb].
    + right. exists b0, b. split; [reflexivity|].
      specialize (Hcells a Ha). rewrite Hold in Hcells.
      destruct Hcells as [(b1 & E & Hn)|(b1 & b2 & E & _)];
        [inversion E; subst b1; exact Hn | discriminate].
    + apply Hcells. rewrite <- Hlen'. exact Hi.
  - intros s' i j Hs' Hi Hj. rewrite Hat in Hi, Hj.
    apply (Huniq s' i j Hs').
    + destruct (Nat.eqb_spec i a) as [->|Hne]; cbn [andb] in Hi;
        [apply (Hnew s' Hs' Hi) | exact Hi].
    + destruct (Nat.eqb_spec j a) as [->|Hne]; cbn [andb] in Hj;
        [apply (Hnew s' Hs' Hj) | exact Hj].
Qed.

(** A dipole block written into a cell. *)
Lemma manifolds_ok_dipole_write (bl bl' : list (list cell)) (ns : list nat)
      (vb : block) (l1 l2 : string) (a b : nat) :
  manifolds_ok bl ns ->
  bar_free l1 = true ->
  block_label vb = make_elem_label_d_q l1 l2 ->
  (a = b -> block_n vb = nth a ns 0%nat) ->
  set_cell bl (a, b) (CBlock vb) = Ok bl' ->
  manifolds_ok bl' ns.
Proof.
  intros (Hlen & Hcells & Huniq) H1 Hl Hn Hset.
  pose proof (set_cell_cell_at _ _ _ _ _ Hset) as Hat.
  pose proof (set_cell_length _ _ _ _ Hset) as Hlen'.
  split; [|split].
  - rewrite Hlen'. exact Hlen.
  - intros i Hi. rewrite Hat.
    destruct (Nat.eqb_spec i a) as [->|Hne]; cbn [andb].
    + destruct (Nat.eqb_spec a b) as [E|Hne].
      * left. exists vb. split; [reflexivity | apply Hn, E].
      * apply Hcells. rewrite <- Hlen'. exact Hi.
    + apply Hcells. rewrite <- Hlen'. exact Hi.
  - intros s i j Hs Hi Hj. rewrite Hat in Hi, Hj.
    assert (Hold : forall k,
               owned_by (if (k =? a) && (k =? b) then CBlock vb
                         else cell_at bl k k) s ->
               owned_by (cell_at bl k k) s).
    { intros k H. destruct ((k =? a) && (k =? b)); [|exact H].
      exfalso. apply (owned_by_dipole_block vb l1 l2 s H1 Hs Hl H). }
    apply (Huniq s i j Hs (Hold i Hi) (Hold j Hj)).
Qed.

(** [set_parameter] keeps the label and the sizes of a block. *)
Lemma set_parameter_label (b : block) (key : string) (v : R) :
  block_label (set_parameter b key v) = block_label b.
Proof. destruct b; reflexivity. Qed.

Lemma set_parameter_n (b : block) (key : string) (v : R) :
  block_n (set_parameter b key v) = block_n b.
Proof. destruct b; reflexivity. Qed.

(** The row and the size that [add_d_q_block] finds for a label are a
    diagonal cell and its entry of [ns]. *)
Lemma manifold_of_label_size (h : hamiltonian) (l : string) (i n : nat) :
  dipole_invariant h -> manifolds_ok (blocks h) (ns h) ->
  bar_free l = true ->
  manifold_of_label h l = Ok (i, n) ->
  n = nth i (ns h) 0%nat /\ blocks h <> [].
Proof.
  intros Hinv (Hlen & Hcells & Huniq) Hl H. unfold manifold_of_label in H.
  destruct (search_elem_label h (make_elem_label "H_0" l)) as [i0|] eqn:E0;
    [|discriminate].
  cbn [bind] in H.
  destruct (search_elem_label h (make_elem_label "mu_q" l)) as [i1|] eqn:E1;
    [|discriminate].
  cbn [bind] in H.
  assert (Hcell : forall a b c, get_cell (blocks h) (a, b) = Ok c -> a = b ->
             (forall bk, c = CBlock bk -> block_n bk = nth a (ns h) 0%nat)
             /\ (forall bk y, c = CTuple (CBlock bk) y ->
                   block_n bk = nth a (ns h) 0%nat)
             /\ blocks h <> []).
  { intros a b c Hget <-.
    destruct (get_cell_ok_cell_at _ _ _ _ Hget) as [Hc Ha].
    specialize (Hcells a Ha). rewrite Hc in Hcells.
    split; [|split].
    - intros bk ->.
      destruct Hcells as [(b1 & E & Hn)|(b1 & b2 & E & _)];
        [inversion E; subst b1; exact Hn | discriminate].
    - intros bk y ->.
      destruct Hcells as [(b1 & E & _)|(b1 & b2 & E & Hn)];
        [discriminate | inversion E; subst b1; exact Hn].
    - intros E. rewrite E in Ha. simpl in Ha. lia. }
  destruct i0 as [[a0 b0]|], i1 as [[a1 b1]|]; try discriminate.
  - pose proof (search_elem_label_diagonal h _ l (a0, b0) Hinv Hl
                  (or_introl eq_refl) E0) as Hd. cbn [fst snd] in Hd.
    destruct (get_cell (blocks h) (a0, b0)) as [c|] eqn:Hget; [|discriminate].
    cbn [bind] in H.
    destruct (Hcell a0 b0 c Hget Hd) as (_ & Ht & Hne).
    destruct c as [|bk|[|bk|] y]; try discriminate.
    inversion H; subst i n. split; [apply (Ht bk y eq_refl) | exact Hne].
  - pose proof (search_elem_label_diagonal h _ l (a0, b0) Hinv Hl
                  (or_introl eq_refl) E0) as Hd. cbn [fst snd] in Hd.
    unfold found_block_n in H.
    destruct (get_cell (blocks h) (a0, b0)) as [c|] eqn:Hget; [|discriminate].
    cbn [bind] in H.
    destruct (Hcell a0 b0 c Hget Hd) as (Hb & _ & Hne).
    destruct c as [|bk|]; try discriminate.
    cbn [bind] in H. inversion H; subst i n.
    split; [apply (Hb bk eq_refl) | exact Hne].
  - pose proof (search_elem_label_diagonal h _ l (a1, b1) Hinv Hl
                  (or_intror eq_refl) E1) as Hd. cbn [fst snd] in Hd.
    unfold found_block_n in H.
    destruct (get_cell (blocks h) (a1, b1)) as [c|] eqn:Hget; [|discriminate].
    cbn [bind] in H.
    destruct (Hcell a1 b1 c Hget Hd) as (Hb & _ & Hne).
    destruct c as [|bk|]; try discriminate.
    cbn [bind] in H. inversion H; subst i n.
    split; [apply (Hb bk eq_refl) | exact Hne].
Qed.

Lemma refresh_counts_inv (h h' : hamiltonian) :
  refresh_counts h = Ok h' ->
  blocks h' = blocks h /\ ns h' = ns h /\ state_labels h' = state_labels h
  /\ exists n, recompute_number_of_states (blocks h) = Ok n
               /\ n_states h' = Some n.
Proof.
  unfold refresh_counts. intros H.
  destruct (recompute_number_of_states (blocks h)) as [n|]; [|discriminate].
  destruct (check_diagonal_submatrices (blocks h)); [|discriminate].
  cbn [bind] in H. inversion H. cbn.
  repeat split. exists n. split; reflexivity.
Qed.

(** The end of [add_H_0_block] and [add_mu_q_block] on an object whose
    array and [ns] describe the same manifolds. *)
Lemma refresh_counts_manifolds (h h' : hamiltonian) :
  manifolds_ok (blocks h) (ns h) ->
  List.length (state_labels h) = List.length (ns h) ->
  refresh_counts h = Ok h' ->
  manifolds_ok (blocks h') (ns h')
  /\ List.length (state_labels h') = List.length (ns h')
  /\ n_states h' = Some (list_sum (ns h'))
  /\ blocks h' = blocks h /\ ns h' = ns h /\ state_labels h' = state_labels h.
Proof.
  intros Hok Hlab H.
  destruct (refresh_counts_inv h h' H) as (Hb & Hn & Hl & n & Hrec & Hns).
  rewrite (recompute_number_of_states_sum _ _ Hok) in Hrec.
  inversion Hrec; subst n.
  rewrite Hb, Hn, Hl.
  split; [exact Hok|]. split; [exact Hlab|]. split; [exact Hns|].
  repeat split.
Qed.

Lemma search_hit_owned_H_0 (h : hamiltonian) (s : string) (a b : nat) :
  dipole_invariant h -> bar_free s = true ->
  search_elem_label h (make_elem_label "H_0" s) = Ok (Some (a, b)) ->
  a = b /\ cell_matches (cell_at (blocks h) a a) (make_elem_label "H_0" s)
           = Ok true.
Proof.
  intros Hinv Hs E.
  pose proof (search_elem_label_diagonal h _ s (a, b) Hinv Hs
                (or_introl eq_refl) E) as Hd. cbn [fst snd] in Hd. subst b.
  split; [reflexivity | apply (search_elem_label_hit h _ a a E)].
Qed.

Lemma search_hit_owned_mu_q (h : hamiltonian) (s : string) (a b : nat) :
  dipole_invariant h -> bar_free s = true ->
  search_elem_label h (make_elem_label "mu_q" s) = Ok (Some (a, b)) ->
  a = b /\ cell_matches (cell_at (blocks h) a a) (make_elem_label "mu_q" s)
           = Ok true.
Proof.
  intros Hinv Hs E.
  pose proof (search_elem_label_diagonal h _ s (a, b) Hinv Hs
                (or_intror eq_refl) E) as Hd. cbn [fst snd] in Hd. subst b.
  split; [reflexivity | apply (search_elem_label_hit h _ a a E)].
Qed.

(** No plain block is found under both labels of a manifold. *)
Lemma block_not_both_labels (bk : block) (s : string) :
  bar_free s = true ->
  cell_matches (CBlock bk) (make_elem_label "H_0" s) = Ok true ->
  cell_matches (CBlock bk) (make_elem_label "mu_q" s) = Ok true -> False.
Proof.
  cbn [cell_matches]. intros Hs H0 H1.
  assert (E0 : block_label bk = make_elem_label "H_0" s)
    by (apply String.eqb_eq; congruence).
  assert (E1 : block_label bk = make_elem_label "mu_q" s)
    by (apply String.eqb_eq; congruence).
  apply (H_0_label_not_mu_q s s Hs Hs). congruence.
Qed.

(** [add_H_0_block] on a Hamiltonian that keeps the invariant returns
    only by opening a new manifold. *)
Lemma add_H_0_block_manifolds (h h' : hamiltonian) (s : string)
      (H0 : ndarray2) :
  bar_free s = true -> manifold_invariant h ->
  add_H_0_block h s H0 = Ok h' ->
  manifold_invariant h'
  /\ n_states h' = Some (list_sum (ns h'))
  /\ search_elem_label h (make_elem_label "H_0" s) = Ok None
  /\ search_elem_label h (make_elem_label "mu_q" s) = Ok None
  /\ ns h' = ns h ++ [rows H0]
  /\ state_labels h' = state_labels h ++ [s]
  /\ List.length (blocks h') = S (List.length (blocks h)).
Proof.
  intros Hs (Hinv & Hok & Hlab & Hn) Hrun.
  pose proof (add_H_0_block_invariant h h' s H0 Hs Hinv Hrun) as Hinv'.
  unfold add_H_0_block in Hrun.
  destruct (negb (rows H0 =? cols H0)); [discriminate|].
  destruct (search_elem_label h (make_elem_label "H_0" s)) as [ind_H_0|] eqn:E0;
    [|discriminate].
  cbn [bind] in Hrun.
  destruct (search_elem_label h (make_elem_label "mu_q" s)) as [ind_mu_q|] eqn:E1;
    [|discriminate].
  cbn [bind] in Hrun. cbv zeta in Hrun.
  match type of Hrun with
  | bind ?m _ = _ => destruct m as [h1|] eqn:Hh1; [|discriminate]
  end.
  cbn [bind] in Hrun.
  destruct ind_mu_q as [[a1 b1]|].
  - exfalso.
    destruct (search_hit_owned_mu_q h s a1 b1 Hinv Hs E1) as [<- Hm1].
    assert (Hh1' :
      (n <- found_block_n h ind_H_0 ;;
       if negb (rows H0 =? n) then Raise ValueError else
       old <- get_cell (blocks h) (a1, a1) ;;
       bl <- set_cell (blocks h) (a1, a1)
               (CTuple (CBlock (new_block (make_elem_label "H_0" s) H0)) old) ;;
       Ok (with_blocks h bl)) = Ok h1)
      by (destruct ind_H_0; exact Hh1).
    clear Hh1.
    destruct ind_H_0 as [[a0 b0]|]; [|discriminate].
    destruct (search_hit_owned_H_0 h s a0 b0 Hinv Hs E0) as [<- Hm0].
    unfold found_block_n in Hh1'.
    destruct (get_cell (blocks h) (a0, a0)) as [c|] eqn:Hget; [|discriminate].
    cbn [bind] in Hh1'.
    destruct (get_cell_ok_cell_at _ _ _ _ Hget) as [Hc _].
    destruct c as [|bk|]; try discriminate.
    destruct Hok as (_ & _ & Huniq).
    assert (a0 = a1)
      by (apply (Huniq s a0 a1 Hs); [left; exact Hm0 | right; exact Hm1]).
    subst a1. rewrite Hc in Hm0, Hm1.
    apply (block_not_both_labels bk s Hs Hm0 Hm1).
  - destruct ind_H_0; [discriminate|].
    destruct (set_last_cell _ _) as [bl|] eqn:Hset; [|discriminate].
    cbn [bind] in Hh1. inversion Hh1; subst h1; clear Hh1.
    apply set_last_cell_new in Hset.
    assert (Hok1 : manifolds_ok bl (ns h ++ [rows H0])).
    { apply (manifolds_ok_new_row (blocks h) bl (ns h)
               (new_block (make_elem_label "H_0" s) H0) "H_0" s Hok Hs
               eq_refl); [|exact Hset].
      intros i j [H|H].
      - apply (search_elem_label_miss h _ E0 i j H).
      - apply (search_elem_label_miss h _ E1 i j H). }
    match type of Hrun with
    | refresh_counts ?h1 = _ =>
        destruct (refresh_counts_manifolds h1 h') as
          (Hok' & Hlab' & Hn' & Hb' & Hns' & Hl')
    end.
    + exact Hok1.
    + cbn [state_labels ns]. rewrite !length_app, Hlab. reflexivity.
    + exact Hrun.
    + cbn [blocks ns state_labels] in Hb', Hns', Hl'.
      split; [|split; [exact Hn'|]].
      * split; [exact Hinv'|]. split; [exact Hok'|]. split; [exact Hlab'|].
        right. exact Hn'.
      * split; [reflexivity|]. split; [reflexivity|].
        split; [exact Hns'|]. split; [exact Hl'|].
        rewrite Hb', (set_cell_length _ _ _ _ Hset).
        apply add_new_row_and_column_length.
Qed.

(** [add_mu_q_block] keeps the invariant: it returns only for a manifold
    without a [mu_q] block, and opens a new manifold or joins its block
    to the [H_0] block of the manifold, which has as many states. *)
Lemma add_mu_q_block_manifolds (h h' : hamiltonian) (s : string)
      (mu : ndarray3) (muB : R) :
  bar_free s = true -> manifold_invariant h ->
  add_mu_q_block h s mu muB = Ok h' ->
  manifold_invariant h' /\ n_states h' = Some (list_sum (ns h'))
  /\ search_elem_label h (make_elem_label "mu_q" s) = Ok None
  /\ ((search_elem_label h (make_elem_label "H_0" s) = Ok None
       /\ ns h' = ns h ++ [dim1 mu]
       /\ state_labels h' = state_labels h ++ [s]
       /\ List.length (blocks h') = S (List.length (blocks h)))
      \/ (exists a,
            search_elem_label h (make_elem_label "H_0" s) = Ok (Some (a, a))
            /\ ns h' = ns h /\ state_labels h' = state_labels h
            /\ List.length (blocks h') = List.length (blocks h)
            /\ dim1 mu = nth a (ns h) 0%nat)).
Proof.
  intros Hs (Hinv & Hok & Hlab & Hn) Hrun.
  pose proof (add_mu_q_block_invariant h h' s mu muB Hs Hinv Hrun) as Hinv'.
  unfold add_mu_q_block in Hrun.
  destruct (negb (dim0 mu =? 3) || negb (dim1 mu =? dim2 mu)); [discriminate|].
  destruct (search_elem_label h (make_elem_label "H_0" s)) as [ind_H_0|] eqn:E0;
    [|discriminate].
  cbn [bind] in Hrun.
  destruct (search_elem_label h (make_elem_label "mu_q" s)) as [ind_mu_q|] eqn:E1;
    [|discriminate].
  cbn [bind] in Hrun. cbv zeta in Hrun.
  match type of Hrun with
  | bind ?m _ = _ => destruct m as [h1|] eqn:Hh1; [|discriminate]
  end.
  cbn [bind] in Hrun.
  assert (Hh1ok :
    manifolds_ok (blocks h1) (ns h1)
    /\ List.length (state_labels h1) = List.length (ns h1)
    /\ ind_mu_q = None
    /\ ((ind_H_0 = None
         /\ ns h1 = ns h ++ [dim1 mu]
         /\ state_labels h1 = state_labels h ++ [s]
         /\ List.length (blocks h1) = S (List.length (blocks h)))
        \/ (exists a,
              ind_H_0 = Some (a, a)
              /\ ns h1 = ns h /\ state_labels h1 = state_labels h
              /\ List.length (blocks h1) = List.length (blocks h)
              /\ dim1 mu = nth a (ns h) 0%nat))).
  { destruct ind_H_0 as [[a0 b0]|].
    - destruct (search_hit_owned_H_0 h s a0 b0 Hinv Hs E0) as [<- Hm0].
      unfold found_block_n in Hh1.
      destruct (get_cell (blocks h) (a0, a0)) as [c|] eqn:Hget; [|discriminate].
      cbn [bind] in Hh1.
      destruct (get_cell_ok_cell_at _ _ _ _ Hget) as [Hc Ha0].
      destruct c as [|bk|]; try discriminate.
      cbn [bind] in Hh1.
      destruct (Nat.eqb_spec (dim1 mu) (block_n bk)) as [Hdim|];
        [|discriminate].
      cbn [negb bind] in Hh1.
      destruct (set_cell (blocks h) (a0, a0) _) as [bl|] eqn:Hset;
        [|discriminate].
      cbn [bind] in Hh1. inversion Hh1; subst h1; clear Hh1.
      cbn [blocks ns state_labels with_blocks].
      split; [|split; [exact Hlab|split]].
      + apply (manifolds_ok_attach (blocks h) bl (ns h) bk
                 (set_parameter
                    (new_vector_block (make_elem_label "mu_q" s) mu)
                    "mu_B" muB)
                 "mu_q" s a0 Hok Hs Hc).
        * left. rewrite <- Hc. exact Hm0.
        * rewrite set_parameter_label. reflexivity.
        * exact Hset.
      + destruct ind_mu_q as [[a1 b1]|]; [exfalso|reflexivity].
        destruct (search_hit_owned_mu_q h s a1 b1 Hinv Hs E1) as [<- Hm1].
        destruct Hok as (_ & _ & Huniq).
        assert (a0 = a1)
          by (apply (Huniq s a0 a1 Hs); [left; exact Hm0 | right; exact Hm1]).
        subst a1. rewrite Hc in Hm0, Hm1.
        apply (block_not_both_labels bk s Hs Hm0 Hm1).
      + right. exists a0. split; [reflexivity|].
        split; [reflexivity|]. split; [reflexivity|].
        split; [apply (set_cell_length _ _ _ _ Hset)|].
        rewrite Hdim. destruct Hok as (_ & Hcells & _).
        specialize (Hcells a0 Ha0). rewrite Hc in Hcells.
        destruct Hcells as [(b1 & E & Hsz)|(b1 & b2 & E & _)];
          [inversion E; subst b1; exact Hsz | discriminate].
    - destruct ind_mu_q; [discriminate|].
      destruct (set_last_cell _ _) as [bl|] eqn:Hset; [|discriminate].
      cbn [bind] in Hh1. inversion Hh1; subst h1; clear Hh1.
      apply set_last_cell_new in Hset.
      cbn [blocks ns state_labels]. split; [|split; [|split]].
      + replace (dim1 mu)
          with (block_n (set_parameter
                  (new_vector_block (make_elem_label "mu_q" s) mu) "mu_B" muB))
          by (rewrite set_parameter_n; reflexivity).
        apply (manifolds_ok_new_row (blocks h) bl (ns h) _ "mu_q" s Hok Hs).
        * rewrite set_parameter_label. reflexivity.
        * intros i j [H|H].
          -- apply (search_elem_label_miss h _ E0 i j H).
          -- apply (search_elem_label_miss h _ E1 i j H).
        * exact Hset.
      + rewrite !length_app, Hlab. reflexivity.
      + reflexivity.
      + left. split; [reflexivity|]. split; [reflexivity|].
        split; [reflexivity|].
        rewrite (set_cell_length _ _ _ _ Hset).
        apply add_new_row_and_column_length. }
  destruct Hh1ok as (Hok1 & Hlab1 & Hmu & Hcase).
  destruct (refresh_counts_manifolds h1 h' Hok1 Hlab1 Hrun)
    as (Hok' & Hlab' & Hn' & Hb' & Hns' & Hl').
  split; [|split; [exact Hn'|split]].
  - split; [exact Hinv'|]. split; [exact Hok'|]. split; [exact Hlab'|].
    right. exact Hn'.
  - rewrite Hmu. reflexivity.
  - rewrite Hb', Hns', Hl'.
    destruct Hcase as [(-> & Hc)|(a & -> & Hc)].
    + left. split; [reflexivity | exact Hc].
    + right. exists a. split; [reflexivity | exact Hc].
Qed.

(** [add_d_q_block] keeps the invariant and the counts. *)
Lemma add_d_q_block_manifolds (h h' : hamiltonian) (label1 label2 : string)
      (d : ndarray3) (k gamma : R) :
  bar_free label1 = true -> bar_free label2 = true -> manifold_invariant h ->
  add_d_q_block h label1 label2 d k gamma = Ok h' ->
  manifold_invariant h' /\ n_states h' = Some (list_sum (ns h'))
  /\ ns h' = ns h /\ state_labels h' = state_labels h
  /\ List.length (blocks h') = List.length (blocks h).
Proof.
  intros H1 H2 (Hinv & Hok & Hlab & Hn) Hrun.
  pose proof (add_d_q_block_invariant h h' label1 label2 d k gamma H1 H2
                Hinv Hrun) as Hinv'.
  unfold add_d_q_block in Hrun.
  destruct (manifold_of_label h label1) as [[ind1 n]|] eqn:M1; [|discriminate].
  cbn [bind] in Hrun.
  destruct (manifold_of_label h label2) as [[ind2 m]|] eqn:M2; [|discriminate].
  cbn [bind] in Hrun.
  destruct (manifold_of_label_size h label1 ind1 n Hinv Hok H1 M1)
    as [Hn1 Hne].
  destruct (manifold_of_label_size h label2 ind2 m Hinv Hok H2 M2)
    as [Hn2 _].
  destruct Hn as [Hn|Hn]; [contradiction|].
  destruct (Nat.eqb_spec (dim1 d) n) as [Hd1|]; [|discriminate].
  destruct (Nat.eqb_spec (dim2 d) m) as [Hd2|]; [|discriminate].
  cbn [negb orb] in Hrun.
  destruct (dim0 d <? 3)%nat; [discriminate|].
  cbv zeta in Hrun.
  assert (Hfinal : manifolds_ok (blocks h') (ns h') ->
            ns h' = ns h -> state_labels h' = state_labels h ->
            n_states h' = n_states h ->
            List.length (blocks h') = List.length (blocks h) ->
            manifold_invariant h' /\ n_states h' = Some (list_sum (ns h'))
            /\ ns h' = ns h /\ state_labels h' = state_labels h
            /\ List.length (blocks h') = List.length (blocks h)).
  { intros Hok' En El Est Hlen.
    assert (Hn' : n_states h' = Some (list_sum (ns h')))
      by (rewrite Est, En; exact Hn).
    split; [|split; [exact Hn'|split; [exact En|split; [exact El|exact Hlen]]]].
    split; [exact Hinv'|]. split; [exact Hok'|].
    split; [rewrite El, En; exact Hlab | right; exact Hn']. }
  clear Hinv'.
  destruct (Nat.ltb_spec ind2 ind1) as [Hlt|Hge]; cbn [fst snd] in Hrun.
  - destruct (set_cell (blocks h) (ind2, ind1) _) as [bl1|] eqn:Hset1;
      [|discriminate].
    cbn [bind] in Hrun.
    destruct (set_cell bl1 (ind1, ind2) _) as [bl2|] eqn:Hset2; [|discriminate].
    cbn [bind] in Hrun. inversion Hrun as [Eh]. rewrite <- Eh in Hfinal.
    cbn [blocks ns state_labels n_states] in Hfinal.
    apply Hfinal; try reflexivity.
    + refine (manifolds_ok_dipole_write bl1 bl2 (ns h) _ label1 label2
                ind1 ind2 _ H1 _ _ Hset2); [| reflexivity | lia].
      refine (manifolds_ok_dipole_write (blocks h) bl1 (ns h) _ label2 label1
                ind2 ind1 Hok H2 _ _ Hset1); [| lia].
      rewrite !set_parameter_label. reflexivity.
    + rewrite (set_cell_length _ _ _ _ Hset2).
      apply (set_cell_length _ _ _ _ Hset1).
  - destruct (set_cell (blocks h) (ind1, ind2) _) as [bl1|] eqn:Hset1;
      [|discriminate].
    cbn [bind] in Hrun.
    destruct (set_cell bl1 (ind2, ind1) _) as [bl2|] eqn:Hset2; [|discriminate].
    cbn [bind] in Hrun. inversion Hrun as [Eh]. rewrite <- Eh in Hfinal.
    cbn [blocks ns state_labels n_states] in Hfinal.
    apply Hfinal; try reflexivity.
    + refine (manifolds_ok_dipole_write bl1 bl2 (ns h) _ label2 label1
                ind2 ind1 _ H2 _ _ Hset2); [| reflexivity |].
      * refine (manifolds_ok_dipole_write (blocks h) bl1 (ns h) _ label1 label2
                  ind1 ind2 Hok H1 _ _ Hset1).
        -- rewrite !set_parameter_label. reflexivity.
        -- intros _. rewrite !set_parameter_n. cbn [block_n new_vector_block].
           congruence.
      * intros _. cbn [block_n new_vector_block hermitian_partner dim1].
        congruence.
    + rewrite (set_cell_length _ _ _ _ Hset2).
      apply (set_cell_length _ _ _ _ Hset1).
Qed.

Lemma register_manifolds (op : registration) (h h' : hamiltonian) :
  labels_bar_free op = true -> manifold_invariant h ->
  register op h = Ok h' ->
  manifold_invariant h' /\ n_states h' = Some (list_sum (ns h')).
Proof.
  destruct op as [s H0 | s mu muB | l1 l2 d k gamma];
    cbn [labels_bar_free register]; intros Hfree Hinv H.
  - destruct (add_H_0_block_manifolds h h' s H0 Hfree Hinv H) as (A & B & _).
    split; assumption.
  - destruct (add_mu_q_block_manifolds h h' s mu muB Hfree Hinv H)
      as (A & B & _).
    split; assumption.
  - apply andb_true_iff in Hfree. destruct Hfree as [F1 F2].
    destruct (add_d_q_block_manifolds h h' l1 l2 d k gamma F1 F2 Hinv H)
      as (A & B & _).
    split; assumption.
Qed.

Lemma register_all_manifolds (ops : list registration) :
  forall h h', forallb labels_bar_free ops = true -> manifold_invariant h ->
               register_all ops h = Ok h' ->
               manifold_invariant h'
               /\ (ops <> [] -> n_states h' = Some (list_sum (ns h'))).
Proof.
  induction ops as [|op ops IH]; intros h h' Hfree Hinv H.
  - inversion H; subst. split; [exact Hinv | intros E; contradiction].
  - unfold register_all in H. rewrite for_each_exn_cons in H.
    cbn [forallb] in Hfree. apply andb_true_iff in Hfree.
    destruct Hfree as [F1 F2].
    destruct (register op h) as [h1|] eqn:Hop; [|discriminate].
    cbn [bind] in H.
    destruct (register_manifolds op h h1 F1 Hinv Hop) as [Hinv1 Hn1].
    destruct (IH h1 h' F2 Hinv1 H) as [Hinv' Hn'].
    split; [exact Hinv'|]. intros _.
    destruct ops as [|op' ops']; [|apply Hn'; discriminate].
    inversion H; subst h'. exact Hn1.
Qed.

Lemma hamiltonian_empty_manifolds (mass : R) :
  manifold_invariant (hamiltonian_empty mass).
Proof.
  split; [apply hamiltonian_empty_invariant|].
  cbn [blocks ns state_labels hamiltonian_empty].
  split; [|split; [reflexivity | left; reflexivity]].
  split; [reflexivity|]. split.
  - intros i Hi. simpl in Hi. lia.
  - intros s i j _ H _. exfalso. revert H. unfold cell_at.
    destruct i; apply owned_by_none.
Qed.

Lemma registered_manifolds (ops : list registration) (mass : R)
      (h : hamiltonian) :
  forallb labels_bar_free ops = true ->
  register_all ops (hamiltonian_empty mass) = Ok h ->
  manifold_invariant h
  /\ (ops <> [] -> n_states h = Some (list_sum (ns h))).
Proof.
  intros Hfree Hrun.
  apply (register_all_manifolds ops _ h Hfree
           (hamiltonian_empty_manifolds mass) Hrun).
Qed.

(** X24: after any sequence of registrations that all return, made on
    the empty Hamiltonian with manifold labels that do not contain the
    character [|], the lists [ns] and [state_labels] have one entry per
    row of the block array, the diagonal cell [i] is a block of [ns[i]]
    states or a tuple of two blocks whose first has [ns[i]] states, and,
    once a registration was made, [self.n] is the sum of [ns]. *)
Theorem registrations_keep_counts (ops : list registration) (mass : R)
        (h : hamiltonian) :
  forallb labels_bar_free ops = true ->
  register_all ops (hamiltonian_empty mass) = Ok h ->
  List.length (ns h) = List.length (blocks h)
  /\ List.length (state_labels h) = List.length (blocks h)
  /\ (forall i, (i < List.length (blocks h))%nat ->
        exists c, get_cell (blocks h) (i, i) = Ok c
                  /\ manifold_cell c (nth i (ns h) 0%nat))
  /\ (ops <> [] -> n_states h = Some (list_sum (ns h))).
Proof.
  intros Hfree Hrun.
  destruct (registered_manifolds ops mass h Hfree Hrun)
    as ((Hinv & (Hlen & Hcells & _) & Hlab & _) & Hn).
  split; [exact Hlen|]. split; [rewrite Hlab; exact Hlen|].
  split; [|exact Hn].
  intros i Hi. exists (cell_at (blocks h) i i).
  split; [|apply Hcells, Hi].
  apply get_cell_cell_at; [apply Hinv | exact Hi | exact Hi].
Qed.

Lemma registrations_keep_counts_witness :
  exists h,
    register_all ab_registrations (hamiltonian_empty 1) = Ok h
    /\ List.length (ns h) = List.length (blocks h)
    /\ List.length (state_labels h) = List.length (blocks h)
    /\ (forall i, (i < List.length (blocks h))%nat ->
          exists c, get_cell (blocks h) (i, i) = Ok c
                    /\ manifold_cell c (nth i (ns h) 0%nat))
    /\ (ab_registrations <> [] -> n_states h = Some (list_sum (ns h))).
Proof.
  assert (Hrun : exists h,
            register_all ab_registrations (hamiltonian_empty 1) = Ok h).
  { eexists. unfold ab_registrations. run_registrations. reflexivity. }
  destruct Hrun as [h Hrun]. exists h. split; [exact Hrun|].
  apply (registrations_keep_counts ab_registrations 1 h);
    [reflexivity | exact Hrun].
Defined.

(** X25: on a Hamiltonian built by such registrations, [add_H_0_block]
    for a label without [|] returns only when no block is found under
    the [H_0] label or the [mu_q] label of the manifold, and it then opens
    a new manifold: one more row of blocks, the label appended to
    [state_labels] and the size of [H_0] to [ns].  For a manifold that has
    a block already, an [H_0] block or a [mu_q] block alone or both, the
    call raises. *)
Theorem add_H_0_block_only_opens_a_manifold (ops : list registration)
        (mass : R) (h h' : hamiltonian) (s : string) (H0 : ndarray2) :
  forallb labels_bar_free ops = true ->
  register_all ops (hamiltonian_empty mass) = Ok h ->
  bar_free s = true ->
  add_H_0_block h s H0 = Ok h' ->
  search_elem_label h (make_elem_label "H_0" s) = Ok None
  /\ search_elem_label h (make_elem_label "mu_q" s) = Ok None
  /\ ns h' = ns h ++ [rows H0]
  /\ state_labels h' = state_labels h ++ [s]
  /\ List.length (blocks h') = S (List.length (blocks h)).
Proof.
  intros Hfree Hrun Hs Hadd.
  destruct (registered_manifolds ops mass h Hfree Hrun) as [Hinv _].
  destruct (add_H_0_block_manifolds h h' s H0 Hs Hinv Hadd)
    as (_ & _ & Hrest).
  exact Hrest.
Qed.

Lemma add_H_0_block_only_opens_a_manifold_witness :
  exists h h',
    register_all ab_registrations (hamiltonian_empty 1) = Ok h
    /\ add_H_0_block h "c" (array_1x1 C0) = Ok h'
    /\ search_elem_label h (make_elem_label "H_0" "c") = Ok None
    /\ search_elem_label h (make_elem_label "mu_q" "c") = Ok None
    /\ ns h' = ns h ++ [rows (array_1x1 C0)]
    /\ state_labels h' = state_labels h ++ ["c"%string]
    /\ List.length (blocks h') = S (List.length (blocks h)).
Proof.
  assert (Hrun : exists h h',
            register_all ab_registrations (hamiltonian_empty 1) = Ok h
            /\ add_H_0_block h "c" (array_1x1 C0) = Ok h').
  { do 2 eexists. split.
    - unfold ab_registrations. run_registrations. reflexivity.
    - unfold add_H_0_block. run_blocks. unfold new_block. run_blocks.
      reflexivity. }
  destruct Hrun as (h & h' & Hrun & Hadd). exists h, h'.
  split; [exact Hrun|]. split; [exact Hadd|].
  apply (add_H_0_block_only_opens_a_manifold ab_registrations 1 h h' "c"
           (array_1x1 C0)); [reflexivity | exact Hrun | reflexivity | exact Hadd].
Defined.

(** X26: on a Hamiltonian built by such registrations, [add_mu_q_block]
    for a label without [|] returns only when the manifold has no [mu_q]
    block yet.  It then either opens a new manifold, when the manifold has
    no [H_0] block either, appending the size of [mu_q] to [ns]; or joins
    the [H_0] block of the manifold in its diagonal cell [a], leaving [ns]
    and the number of rows as they were, and then the size of [mu_q] is
    [ns[a]]. *)
Theorem add_mu_q_block_opens_or_joins (ops : list registration)
        (mass : R) (h h' : hamiltonian) (s : string) (mu : ndarray3)
        (muB : R) :
  forallb labels_bar_free ops = true ->
  register_all ops (hamiltonian_empty mass) = Ok h ->
  bar_free s = true ->
  add_mu_q_block h s mu muB = Ok h' ->
  search_elem_label h (make_elem_label "mu_q" s) = Ok None
  /\ ((search_elem_label h (make_elem_label "H_0" s) = Ok None
       /\ ns h' = ns h ++ [dim1 mu]
       /\ state_labels h' = state_labels h ++ [s]
       /\ List.length (blocks h') = S (List.length (blocks h)))
      \/ (exists a,
            search_elem_label h (make_elem_label "H_0" s) = Ok (Some (a, a))
            /\ ns h' = ns h /\ state_labels h' = state_labels h
            /\ List.length (blocks h') = List.length (blocks h)
            /\ dim1 mu = nth a (ns h) 0%nat)).
Proof.
  intros Hfree Hrun Hs Hadd.
  destruct (registered_manifolds ops mass h Hfree Hrun) as [Hinv _].
  destruct (add_mu_q_block_manifolds h h' s mu muB Hs Hinv Hadd)
    as (_ & _ & Hrest).
  exact Hrest.
Qed.

Lemma add_mu_q_block_opens_or_joins_witness :
  exists h h',
    register_all ab_registrations (hamiltonian_empty 1) = Ok h
    /\ add_mu_q_block h "b" (array_3x1x1 C0 C1 C0) 1 = Ok h'
    /\ search_elem_label h (make_elem_label "mu_q" "b") = Ok None
    /\ ((search_elem_label h (make_elem_label "H_0" "b") = Ok None
         /\ ns h' = ns h ++ [dim1 (array_3x1x1 C0 C1 C0)]
         /\ state_labels h' = state_labels h ++ ["b"%string]
         /\ List.length (blocks h') = S (List.length (blocks h)))
        \/ (exists a,
              search_elem_label h (make_elem_label "H_0" "b")
              = Ok (Some (a, a))
              /\ ns h' = ns h /\ state_labels h' = state_labels h
              /\ List.length (blocks h') = List.length (blocks h)
              /\ dim1 (array_3x1x1 C0 C1 C0) = nth a (ns h) 0%nat)).
Proof.
  assert (Hrun : exists h h',
            register_all ab_registrations (hamiltonian_empty 1) = Ok h
            /\ add_mu_q_block h "b" (array_3x1x1 C0 C1 C0) 1 = Ok h').
  { do 2 eexists. split.
    - unfold ab_registrations. run_registrations. reflexivity.
    - unfold add_mu_q_block. run_blocks. unfold new_vector_block. run_blocks.
      reflexivity. }
  destruct Hrun as (h & h' & Hrun & Hadd). exists h, h'.
  split; [exact Hrun|]. split; [exact Hadd|].
  apply (add_mu_q_block_opens_or_joins ab_registrations 1 h h' "b"
           (array_3x1x1 C0 C1 C0) 1);
    [reflexivity | exact Hrun | reflexivity | exact Hadd].
Defined.

(* ------------------------------------------------------------------ *)
(** ** The blocks [make_full_matrices] places *)

Lemma cell_at_outside (bl : list (list cell)) (i j : nat) :
  square bl -> (List.length bl <= j)%nat -> cell_at bl i j = CNone.
Proof.
  intros Hsq Hj. unfold cell_at.
  destruct (Nat.lt_ge_cases i (List.length bl)) as [Hi|Hi].
  - apply nth_overflow. rewrite (Hsq (nth i bl [])); [exact Hj|].
    apply nth_In. exact Hi.
  - rewrite (nth_overflow bl) by exact Hi. destruct j; reflexivity.
Qed.

Lemma cells_ok_new_row (bl bl' : list (list cell)) (ns : list nat)
      (c : cell) (n : nat) :
  cells_ok bl ns -> square bl -> List.length ns = List.length bl ->
  diagonal_cell_ok c n ->
  set_cell (add_new_row_and_column bl) (List.length bl, List.length bl) c
  = Ok bl' ->
  cells_ok bl' (ns ++ [n]).
Proof.
  intros (Hdiag & Hup) Hsq Hlen Hc Hset.
  assert (Hat : forall i j,
             cell_at bl' i j
             = if (i =? List.length bl) && (j =? List.length bl)
               then c else cell_at bl i j).
  { intros i j. rewrite (set_cell_cell_at _ _ _ _ _ Hset).
    rewrite add_new_row_and_column_cell_at. reflexivity. }
  assert (Hlen' : List.length bl' = S (List.length bl)).
  { rewrite (set_cell_length _ _ _ _ Hset).
    apply add_new_row_and_column_length. }
  split.
  - intros i Hi. rewrite Hat.
    destruct (Nat.eqb_spec i (List.length bl)) as [->|Hne]; cbn [andb].
    + rewrite app_nth2 by lia. rewrite Hlen, Nat.sub_diag. exact Hc.
    + rewrite app_nth1 by lia. apply Hdiag. lia.
  - intros i j Hij. rewrite Hat.
    replace ((i =? List.length bl) && (j =? List.length bl)) with false
      by (symmetry; apply andb_false_iff;
          destruct (Nat.eqb_spec i (List.length bl));
          destruct (Nat.eqb_spec j (List.length bl)); auto; lia).
    destruct (Nat.lt_ge_cases j (List.length bl)) as [Hj|Hj].
    + rewrite !app_nth1 by lia. apply Hup, Hij.
    + left. apply cell_at_outside; assumption.
Qed.

Lemma cells_ok_diag_write (bl bl' : list (list cell)) (ns : list nat)
      (c : cell) (a : nat) :
  cells_ok bl ns -> diagonal_cell_ok c (nth a ns 0%nat) ->
  set_cell bl (a, a) c = Ok bl' -> cells_ok bl' ns.
Proof.
  intros (Hdiag & Hup) Hc Hset.
  pose proof (set_cell_cell_at _ _ _ _ _ Hset) as Hat.
  pose proof (set_cell_length _ _ _ _ Hset) as Hlen'.
  split.
  - intros i Hi. rewrite Hat.
    destruct (Nat.eqb_spec i a) as [->|Hne]; cbn [andb];
      [exact Hc | apply Hdiag; rewrite <- Hlen'; exact Hi].
  - intros i j Hij. rewrite Hat.
    replace ((i =? a) && (j =? a)) with false
      by (symmetry; apply andb_false_iff;
          destruct (Nat.eqb_spec i a); destruct (Nat.eqb_spec j a); auto; lia).
    apply Hup, Hij.
Qed.

Lemma cells_ok_upper_write (bl bl' : list (list cell)) (ns : list nat)
      (c : cell) (a b : nat) :
  cells_ok bl ns -> (a < b)%nat ->
  dipole_cell_ok c (nth a ns 0%nat) (nth b ns 0%nat) ->
  set_cell bl (a, b) c = Ok bl' -> cells_ok bl' ns.
Proof.
  intros (Hdiag & Hup) Hab Hc Hset.
  pose proof (set_cell_cell_at _ _ _ _ _ Hset) as Hat.
  pose proof (set_cell_length _ _ _ _ Hset) as Hlen'.
  split.
  - intros i Hi. rewrite Hat.
    replace ((i =? a) && (i =? b)) with false
      by (symmetry; apply andb_false_iff;
          destruct (Nat.eqb_spec i a); destruct (Nat.eqb_spec i b); auto; lia).
    apply Hdiag. rewrite <- Hlen'. exact Hi.
  - intros i j Hij. rewrite Hat.
    destruct (Nat.eqb_spec i a) as [->|Hne]; cbn [andb]; [|apply Hup, Hij].
    destruct (Nat.eqb_spec j b) as [->|Hne]; [exact Hc | apply Hup, Hij].
Qed.

Lemma cells_ok_lower_write (bl bl' : list (list cell)) (ns : list nat)
      (c : cell) (a b : nat) :
  cells_ok bl ns -> (b < a)%nat ->
  set_cell bl (a, b) c = Ok bl' -> cells_ok bl' ns.
Proof.
  intros (Hdiag & Hup) Hab Hset.
  pose proof (set_cell_cell_at _ _ _ _ _ Hset) as Hat.
  pose proof (set_cell_length _ _ _ _ Hset) as Hlen'.
  split.
  - intros i Hi. rewrite Hat.
    replace ((i =? a) && (i =? b)) with false
      by (symmetry; apply andb_false_iff;
          destruct (Nat.eqb_spec i a); destruct (Nat.eqb_spec i b); auto; lia).
    apply Hdiag. rewrite <- Hlen'. exact Hi.
  - intros i j Hij. rewrite Hat.
    replace ((i =? a) && (j =? b)) with false
      by (symmetry; apply andb_false_iff;
          destruct (Nat.eqb_spec i a); destruct (Nat.eqb_spec j b); auto; lia).
    apply Hup, Hij.
Qed.

(** A diagonal cell is found for one manifold only. *)
Lemma diagonal_cell_owner (c : cell) (n : nat) (s1 s2 : string) :
  diagonal_cell_ok c n -> bar_free s1 = true -> bar_free s2 = true ->
  owned_by c s1 -> owned_by c s2 -> s1 = s2.
Proof.
  intros (s & Hs & Hc) H1 H2 O1 O2.
  assert (Hone : forall s', bar_free s' = true -> owned_by c s' -> s' = s).
  { intros s' Hs' O.
    destruct Hc as [(dg & M & p & -> & _)
                   |[(dg & M & p & muB & -> & _)
                    |(dg & M & p & dg' & M' & p' & muB & -> & _)]].
    - refine (owned_by_block _ "H_0" s s' Hs Hs' _ O). reflexivity.
    - refine (owned_by_block _ "mu_q" s s' Hs Hs' _ O). reflexivity.
    - destruct (owned_by_tuple _ _ _ O) as [O'|O'].
      + refine (owned_by_block _ "H_0" s s' Hs Hs' _ O'). reflexivity.
      + refine (owned_by_block _ "mu_q" s s' Hs Hs' _ O'). reflexivity. }
  rewrite (Hone s1 H1 O1), (Hone s2 H2 O2). reflexivity.
Qed.

(** The cell [add_d_q_block] finds for a label is found under the label. *)
Lemma manifold_of_label_owned (h : hamiltonian) (l : string) (i n : nat) :
  dipole_invariant h -> bar_free l = true ->
  manifold_of_label h l = Ok (i, n) ->
  owned_by (cell_at (blocks h) i i) l.
Proof.
  intros Hinv Hl H. unfold manifold_of_label in H.
  destruct (search_elem_label h (make_elem_label "H_0" l)) as [i0|] eqn:E0;
    [|discriminate].
  cbn [bind] in H.
  destruct (search_elem_label h (make_elem_label "mu_q" l)) as [i1|] eqn:E1;
    [|discriminate].
  cbn [bind] in H.
  destruct i0 as [[a0 b0]|], i1 as [[a1 b1]|]; try discriminate.
  - destruct (search_hit_owned_H_0 h l a0 b0 Hinv Hl E0) as [<- Hm].
    destruct (get_cell (blocks h) (a0, a0)) as [c|]; [|discriminate].
    cbn [bind] in H. destruct c as [|bk|[|bk|] y]; try discriminate.
    inversion H; subst i n. left. exact Hm.
  - destruct (search_hit_owned_H_0 h l a0 b0 Hinv Hl E0) as [<- Hm].
    destruct (found_block_n h (Some (a0, a0))) as [k|]; [|discriminate].
    cbn [bind] in H. inversion H; subst i n. left. exact Hm.
  - destruct (search_hit_owned_mu_q h l a1 b1 Hinv Hl E1) as [<- Hm].
    destruct (found_block_n h (Some (a1, a1))) as [k|]; [|discriminate].
    cbn [bind] in H. inversion H; subst i n. right. exact Hm.
Qed.

Lemma add_H_0_block_cells (h h' : hamiltonian) (s : string) (H0 : ndarray2) :
  bar_free s = true -> manifold_invariant h ->
  cells_ok (blocks h) (ns h) ->
  add_H_0_block h s H0 = Ok h' ->
  cells_ok (blocks h') (ns h').
Proof.
  intros Hs Hinv Hcells Hrun.
  destruct (add_H_0_block_manifolds h h' s H0 Hs Hinv Hrun)
    as (_ & _ & E0 & E1 & _).
  unfold add_H_0_block in Hrun.
  destruct (Nat.eqb_spec (rows H0) (cols H0)) as [Hsqr|]; [|discriminate].
  cbn [negb] in Hrun. rewrite E0, E1 in Hrun. cbn [bind] in Hrun.
  cbv zeta in Hrun.
  destruct (set_last_cell _ _) as [bl|] eqn:Hset; [|discriminate].
  cbn [bind] in Hrun.
  destruct (refresh_counts_inv _ _ Hrun) as (Hb & Hn & _).
  cbn [blocks ns] in Hb, Hn. rewrite Hb, Hn.
  apply set_last_cell_new in Hset.
  destruct Hinv as ((Hsq & _) & (Hlen & _) & _).
  refine (cells_ok_new_row (blocks h) bl (ns h) _ (rows H0) Hcells Hsq Hlen
            _ Hset).
  exists s. split; [exact Hs|]. left.
  exists (check_diagonality H0), H0, []. unfold new_block.
  rewrite <- Hsqr. repeat split.
Qed.

Lemma add_mu_q_block_cells (h h' : hamiltonian) (s : string)
      (mu : ndarray3) (muB : R) :
  bar_free s = true -> manifold_invariant h ->
  cells_ok (blocks h) (ns h) ->
  add_mu_q_block h s mu muB = Ok h' ->
  cells_ok (blocks h') (ns h').
Proof.
  intros Hs Hinv Hcells Hrun.
  destruct (add_mu_q_block_manifolds h h' s mu muB Hs Hinv Hrun)
    as (_ & _ & E1 & Hcase).
  unfold add_mu_q_block in Hrun.
  destruct (Nat.eqb_spec (dim0 mu) 3) as [Hd0|]; [|discriminate].
  destruct (Nat.eqb_spec (dim1 mu) (dim2 mu)) as [Hd12|]; [|discriminate].
  cbn [negb orb] in Hrun.
  assert (Hnew : forall dg,
            dict_get (block_parameters
                        (set_parameter
                           (VectorBlock (make_elem_label "mu_q" s) dg mu []
                                        (dim1 mu) (dim2 mu)) "mu_B" muB))
                     "mu_B" = Some muB).
  { intros dg. cbn [set_parameter block_parameters].
    apply dict_get_set_same. }
  destruct Hinv as ((Hsq & _) & (Hlen & _) & _).
  destruct Hcase as [(E0 & _)|(a & E0 & _ & _ & _ & Hdim)].
  - rewrite E0, E1 in Hrun. cbn [bind] in Hrun. cbv zeta in Hrun.
    destruct (set_last_cell _ _) as [bl|] eqn:Hset; [|discriminate].
    cbn [bind] in Hrun.
    destruct (refresh_counts_inv _ _ Hrun) as (Hb & Hn & _).
    cbn [blocks ns] in Hb, Hn. rewrite Hb, Hn.
    apply set_last_cell_new in Hset.
    refine (cells_ok_new_row (blocks h) bl (ns h) _ (dim1 mu) Hcells Hsq Hlen
              _ Hset).
    exists s. split; [exact Hs|]. right. left.
    exists (vector_check_diagonality mu), mu,
      (dict_set [] "mu_B"%string muB), muB.
    unfold new_vector_block. cbn [set_parameter]. rewrite <- Hd12.
    repeat split; try assumption; try (symmetry; assumption).
  - rewrite E0, E1 in Hrun. cbn [bind] in Hrun. cbv zeta in Hrun.
    unfold found_block_n in Hrun.
    destruct (get_cell (blocks h) (a, a)) as [c|] eqn:Hget; [|discriminate].
    cbn [bind] in Hrun.
    destruct (get_cell_ok_cell_at _ _ _ _ Hget) as [Hc Ha].
    destruct c as [|bk|]; try discriminate.
    cbn [bind] in Hrun.
    destruct (negb (dim1 mu =? block_n bk)); [discriminate|].
    cbn [bind] in Hrun.
    destruct (set_cell (blocks h) (a, a) _) as [bl|] eqn:Hset; [|discriminate].
    cbn [bind] in Hrun.
    destruct (refresh_counts_inv _ _ Hrun) as (Hb & Hn & _).
    cbn [blocks ns with_blocks] in Hb, Hn. rewrite Hb, Hn.
    refine (cells_ok_diag_write (blocks h) bl (ns h) _ a Hcells _ Hset).
    pose proof (search_elem_label_hit h _ a a E0) as Hm. rewrite Hc in Hm.
    cbn [cell_matches] in Hm.
    assert (El : block_label bk = make_elem_label "H_0" s)
      by (apply String.eqb_eq; congruence).
    destruct Hcells as [Hdiag _]. specialize (Hdiag a Ha). rewrite Hc in Hdiag.
    destruct Hdiag as (s0 & Hs0 & [(dg & M & p & E & HrM & HcM)
                                  |[(dg & M & p & mB & E & _)
                                   |(dg & M & p & dg' & M' & p' & mB & E & _)]]);
      try discriminate.
    + inversion E; subst bk. cbn [block_label] in El.
      pose proof (elem_label_inj _ _ _ _ Hs0 Hs El) as ->.
      exists s. split; [exact Hs|]. right. right.
      exists dg, M, p, (vector_check_diagonality mu), mu,
        (dict_set [] "mu_B"%string muB), muB.
      unfold new_vector_block. cbn [set_parameter].
      rewrite <- Hd12, Hdim.
      repeat split; try assumption; try congruence.
    + exfalso. inversion E; subst bk. cbn [block_label] in El.
      apply (H_0_label_not_mu_q s s0 Hs Hs0). symmetry. exact El.
Qed.

Lemma add_d_q_block_cells (h h' : hamiltonian) (label1 label2 : string)
      (d : ndarray3) (k gamma : R) :
  bar_free label1 = true -> bar_free label2 = true ->
  label1 <> label2 -> dim0 d = 3%nat ->
  manifold_invariant h -> cells_ok (blocks h) (ns h) ->
  add_d_q_block h label1 label2 d k gamma = Ok h' ->
  cells_ok (blocks h') (ns h').
Proof.
  intros H1 H2 Hne Hd0 (Hinv & Hok & _) Hcells Hrun.
  unfold add_d_q_block in Hrun.
  destruct (manifold_of_label h label1) as [[ind1 n]|] eqn:M1; [|discriminate].
  cbn [bind] in Hrun.
  destruct (manifold_of_label h label2) as [[ind2 m]|] eqn:M2; [|discriminate].
  cbn [bind] in Hrun.
  destruct (manifold_of_label_size h label1 ind1 n Hinv Hok H1 M1) as [Hn1 _].
  destruct (manifold_of_label_size h label2 ind2 m Hinv Hok H2 M2) as [Hn2 _].
  pose proof (manifold_of_label_owned h label1 ind1 n Hinv H1 M1) as O1.
  pose proof (manifold_of_label_owned h label2 ind2 m Hinv H2 M2) as O2.
  assert (Hind : ind1 <> ind2).
  { intros E. subst ind2. apply Hne.
    destruct (Nat.lt_ge_cases ind1 (List.length (blocks h))) as [Hi|Hi].
    - destruct Hcells as [Hdiag _].
      apply (diagonal_cell_owner _ _ label1 label2 (Hdiag ind1 Hi) H1 H2 O1 O2).
    - exfalso. rewrite (cell_at_outside _ _ _ (proj1 Hinv) Hi) in O1.
      apply (owned_by_none _ O1). }
  destruct (Nat.eqb_spec (dim1 d) n) as [Hd1|]; [|discriminate].
  destruct (Nat.eqb_spec (dim2 d) m) as [Hd2|]; [|discriminate].
  cbn [negb orb] in Hrun.
  destruct (dim0 d <? 3)%nat; [discriminate|].
  cbv zeta in Hrun.
  destruct (Nat.ltb_spec ind2 ind1) as [Hlt|Hge]; cbn [fst snd] in Hrun.
  - destruct (set_cell (blocks h) (ind2, ind1) _) as [bl1|] eqn:Hset1;
      [|discriminate].
    cbn [bind] in Hrun.
    destruct (set_cell bl1 (ind1, ind2) _) as [bl2|] eqn:Hset2; [|discriminate].
    cbn [bind] in Hrun. inversion Hrun; subst h'; clear Hrun.
    cbn [blocks ns].
    refine (cells_ok_lower_write bl1 bl2 (ns h) _ ind1 ind2 _ Hlt Hset2).
    refine (cells_ok_upper_write (blocks h) bl1 (ns h) _ ind2 ind1 Hcells Hlt
              _ Hset1).
    right. unfold new_vector_block. cbn [set_parameter].
    rewrite <- Hn1, <- Hn2, <- Hd1, <- Hd2.
    do 4 eexists. split; [reflexivity|].
    cbn [conj_transpose3 dim0 dim1 dim2]. repeat split; congruence.
  - assert (Hlt : (ind1 < ind2)%nat) by lia.
    destruct (set_cell (blocks h) (ind1, ind2) _) as [bl1|] eqn:Hset1;
      [|discriminate].
    cbn [bind] in Hrun.
    destruct (set_cell bl1 (ind2, ind1) _) as [bl2|] eqn:Hset2; [|discriminate].
    cbn [bind] in Hrun. inversion Hrun; subst h'; clear Hrun.
    cbn [blocks ns].
    refine (cells_ok_lower_write bl1 bl2 (ns h) _ ind2 ind1 _ Hlt Hset2).
    refine (cells_ok_upper_write (blocks h) bl1 (ns h) _ ind1 ind2 Hcells Hlt
              _ Hset1).
    right. unfold new_vector_block. cbn [set_parameter].
    rewrite <- Hn1, <- Hn2, <- Hd1, <- Hd2.
    do 4 eexists. split; [reflexivity|].
    repeat split; congruence.
Qed.

Lemma register_cells (op : registration) (h h' : hamiltonian) :
  labels_bar_free op = true -> assemblable op = true ->
  manifold_invariant h -> cells_ok (blocks h) (ns h) ->
  register op h = Ok h' -> cells_ok (blocks h') (ns h').
Proof.
  destruct op as [s H0 | s mu muB | l1 l2 d k gamma];
    cbn [labels_bar_free assemblable register]; intros Hfree Hasm Hinv Hc H.
  - apply (add_H_0_block_cells h h' s H0 Hfree Hinv Hc H).
  - apply (add_mu_q_block_cells h h' s mu muB Hfree Hinv Hc H).
  - apply andb_true_iff in Hfree. destruct Hfree as [F1 F2].
    apply andb_true_iff in Hasm. destruct Hasm as [A1 A2].
    apply (add_d_q_block_cells h h' l1 l2 d k gamma F1 F2); try assumption.
    + intros E. subst l2. rewrite String.eqb_refl in A1. discriminate.
    + apply Nat.eqb_eq. exact A2.
Qed.

Lemma register_all_cells (ops : list registration) :
  forall h h', forallb labels_bar_free ops = true ->
               forallb assemblable ops = true ->
               manifold_invariant h -> cells_ok (blocks h) (ns h) ->
               register_all ops h = Ok h' -> cells_ok (blocks h') (ns h').
Proof.
  induction ops as [|op ops IH]; intros h h' Hfree Hasm Hinv Hc H.
  - inversion H; subst. exact Hc.
  - unfold register_all in H. rewrite for_each_exn_cons in H.
    cbn [forallb] in Hfree, Hasm.
    apply andb_true_iff in Hfree. destruct Hfree as [F1 F2].
    apply andb_true_iff in Hasm. destruct Hasm as [A1 A2].
    destruct (register op h) as [h1|] eqn:Hop; [|discriminate].
    cbn [bind] in H.
    apply (IH h1 h' F2 A2).
    + apply (register_manifolds op h h1 F1 Hinv Hop).
    + apply (register_cells op h h1 F1 A1 Hinv Hc Hop).
    + exact H.
Qed.

Lemma hamiltonian_empty_cells (mass : R) :
  cells_ok (blocks (hamiltonian_empty mass)) (ns (hamiltonian_empty mass)).
Proof.
  cbn [blocks ns hamiltonian_empty]. split.
  - intros i Hi. simpl in Hi. lia.
  - intros i j _. left. unfold cell_at. destruct i, j; reflexivity.
Qed.

Lemma offset_plus_le (ns : list nat) (i : nat) :
  (i < List.length ns)%nat ->
  (offset ns i + nth i ns 0 <= list_sum ns)%nat.
Proof.
  unfold offset. revert i. induction ns as [|m ns IH]; intros i Hi;
    simpl in Hi; [lia|].
  destruct i as [|i]; simpl; [lia|].
  specialize (IH i ltac:(lia)). lia.
Qed.

(** One diagonal cell in the first loop of [make_full_matrices]. *)
Lemma place_diag_block_ok (N : nat) (c : cell) (n0 : nat)
      (H0 : matrix) (mu : nat -> matrix) (n : nat) :
  diagonal_cell_ok c n0 -> (n + n0 <= N)%nat ->
  exists H0' mu', place_diag_block N c (H0, mu, n) = Ok (H0', mu', (n + n0)%nat).
Proof.
  intros (s & _ & Hc) Hle.
  assert (Hfit : fits n n n0 n0 N = true).
  { unfold fits. destruct (Nat.leb_spec (n + n0) N); [reflexivity | lia]. }
  destruct Hc as [(dg & M & p & -> & Hr & Hcs)
                 |[(dg & M & p & muB & -> & Hd0 & Hd1 & Hd2 & Hp)
                  |(dg & M & p & dg' & M' & p' & muB & -> & Hr & Hcs
                    & Hd0 & Hd1 & Hd2 & Hp)]];
    cbn [place_diag_block].
  - unfold block_in_place. rewrite Hfit, Hr, Hcs, !Nat.eqb_refl.
    cbn [andb bind]. do 2 eexists. reflexivity.
  - unfold dict_item. rewrite Hp. cbn [bind].
    unfold vector_block_in_place. rewrite Hfit, Hd0, Hd1, Hd2, !Nat.eqb_refl.
    cbn [andb bind Nat.eqb]. do 2 eexists. reflexivity.
  - unfold block_in_place. rewrite Hfit, Hr, Hcs, !Nat.eqb_refl.
    cbn [andb bind].
    unfold dict_item. rewrite Hp. cbn [bind].
    unfold vector_block_in_place. rewrite Hfit, Hd0, Hd1, Hd2, !Nat.eqb_refl.
    cbn [andb bind Nat.eqb block_n]. do 2 eexists. reflexivity.
Qed.

Lemma place_diag_from (N : nat) (bl : list (list cell)) :
  forall (k : nat) (ns : list nat) (H0 : matrix) (mu : nat -> matrix)
         (n : nat),
    List.length ns = List.length bl ->
    (forall i, (i < List.length bl)%nat ->
       diagonal_cell_ok (nth (k + i) (nth i bl []) CNone) (nth i ns 0%nat)) ->
    (n + list_sum ns <= N)%nat ->
    exists st, for_each_exn (diag_from bl k) (place_diag_block N) (H0, mu, n)
               = Ok st.
Proof.
  induction bl as [|row rest IH]; intros k [|n0 ns] H0 mu n Hlen Hcells Hle;
    simpl in Hlen; try discriminate.
  - eexists. reflexivity.
  - cbn [diag_from]. rewrite for_each_exn_cons.
    pose proof (Hcells 0%nat ltac:(simpl; lia)) as Hc0.
    cbn [nth] in Hc0. rewrite Nat.add_0_r in Hc0.
    unfold list_sum in Hle. cbn [fold_right] in Hle.
    destruct (place_diag_block_ok N _ n0 H0 mu n Hc0 ltac:(lia))
      as (H0' & mu' & Hstep).
    rewrite Hstep. cbn [bind].
    apply (IH (S k) ns H0' mu' (n + n0)%nat).
    + lia.
    + intros i Hi. specialize (Hcells (S i) ltac:(simpl; lia)).
      cbn [nth] in Hcells.
      replace (S k + i)%nat with (k + S i)%nat by lia. exact Hcells.
    + unfold list_sum. lia.
Qed.

(** The second loop of [make_full_matrices]. *)
Lemma place_d_q_bare_ok (h : hamiltonian) :
  square (blocks h) ->
  List.length (ns h) = List.length (blocks h) ->
  List.length (state_labels h) = List.length (blocks h) ->
  cells_ok (blocks h) (ns h) ->
  exists bare, place_d_q_bare h (list_sum (ns h)) = Ok bare.
Proof.
  intros Hsq Hlen Hlab (_ & Hup). unfold place_d_q_bare.
  apply for_range_exn_total. intros ii acc Hii.
  apply for_range_exn_total. intros jj acc' Hjj.
  assert (Hrow : List.length (nth 0 (blocks h) []) = List.length (blocks h))
    by (apply Hsq, nth_In; lia).
  rewrite Hrow in Hjj.
  rewrite (get_cell_cell_at (blocks h) ii jj Hsq) by lia.
  cbn [bind].
  destruct (Hup ii jj ltac:(lia)) as [->|(l & dg & M & p & -> & Hd0 & Hd1 & Hd2)].
  - eexists. reflexivity.
  - destruct (nth_error (state_labels h) ii) as [li|] eqn:Eli.
    2:{ apply nth_error_None in Eli. lia. }
    destruct (nth_error (state_labels h) jj) as [lj|] eqn:Elj.
    2:{ apply nth_error_None in Elj. lia. }
    unfold vector_block_in_place.
    assert (Hfit : fits (offset (ns h) ii) (offset (ns h) jj)
                        (nth ii (ns h) 0%nat) (nth jj (ns h) 0%nat)
                        (list_sum (ns h)) = true).
    { unfold fits.
      pose proof (offset_plus_le (ns h) ii ltac:(lia)).
      pose proof (offset_plus_le (ns h) jj ltac:(lia)).
      apply andb_true_iff. split; apply Nat.leb_le; assumption. }
    rewrite Hfit, Hd0, Hd1, Hd2, !Nat.eqb_refl.
    cbn [andb bind Nat.eqb]. eexists. reflexivity.
Qed.

(** [make_full_matrices] on an object that keeps the invariants. *)
Lemma make_full_matrices_total (h : hamiltonian) :
  manifold_invariant h -> cells_ok (blocks h) (ns h) ->
  n_states h = Some (list_sum (ns h)) ->
  exists fm,
    make_full_matrices h
    = Ok {| blocks := blocks h; state_labels := state_labels h; ns := ns h;
            laser_keys := laser_keys h; mass := mass h;
            n_states := n_states h; diagonal := diagonal h;
            full := Some fm |}.
Proof.
  intros ((Hsq & _) & (Hlen & _) & Hlab & _) Hcells Hn.
  unfold make_full_matrices. rewrite Hn.
  destruct (place_diag_from (list_sum (ns h)) (blocks h) 0 (ns h)
              zeros vzeros 0%nat Hlen) as ([[H0 mu] off] & Hdiag).
  { intros i Hi. apply (proj1 Hcells i Hi). }
  { lia. }
  unfold diag_cells. rewrite Hdiag. cbn [bind].
  destruct (place_d_q_bare_ok h Hsq Hlen ltac:(lia) Hcells) as (bare & Hbare).
  rewrite Hbare. cbn [bind]. eexists. rewrite <- Hn. reflexivity.
Qed.

(** X27: [make_full_matrices] returns on every Hamiltonian built from the
    empty one by at least one registration, when the registrations all
    returned, their manifold labels have no [|], and every dipole block
    was given for two different labels with an array of three components:
    each block fits into the [n] by [n] arrays at the offset of its
    manifolds, every diagonal vector block has its parameter [mu_B], and
    every dipole block finds the labels of its two manifolds.  The call
    sets the full matrices and changes nothing else. *)
Theorem make_full_matrices_returns (ops : list registration) (m0 : R)
        (h : hamiltonian) :
  forallb labels_bar_free ops = true ->
  forallb assemblable ops = true ->
  ops <> [] ->
  register_all ops (hamiltonian_empty m0) = Ok h ->
  exists fm,
    make_full_matrices h
    = Ok {| blocks := blocks h; state_labels := state_labels h; ns := ns h;
            laser_keys := laser_keys h; mass := mass h;
            n_states := Some (list_sum (ns h)); diagonal := diagonal h;
            full := Some fm |}.
Proof.
  intros Hfree Hasm Hne Hrun.
  destruct (registered_manifolds ops m0 h Hfree Hrun) as [Hinv Hn].
  specialize (Hn Hne).
  pose proof (register_all_cells ops _ h Hfree Hasm
                (hamiltonian_empty_manifolds m0)
                (hamiltonian_empty_cells m0) Hrun) as Hcells.
  destruct (make_full_matrices_total h Hinv Hcells Hn) as (fm & Hfm).
  exists fm. rewrite Hfm, Hn. reflexivity.
Qed.

Lemma make_full_matrices_returns_witness :
  exists h fm,
    register_all ab_registrations (hamiltonian_empty 1) = Ok h
    /\ make_full_matrices h
       = Ok {| blocks := blocks h; state_labels := state_labels h;
               ns := ns h; laser_keys := laser_keys h;
               mass := mass h;
               n_states := Some (list_sum (ns h)); diagonal := diagonal h;
               full := Some fm |}.
Proof.
  assert (Hrun : exists h,
            register_all ab_registrations (hamiltonian_empty 1) = Ok h).
  { eexists. unfold ab_registrations. run_registrations. reflexivity. }
  destruct Hrun as [h Hrun].
  destruct (make_full_matrices_returns ab_registrations 1 h) as [fm Hfm];
    [reflexivity | reflexivity | discriminate | exact Hrun |].
  exists h, fm. split; [exact Hrun | exact Hfm].
Defined.

Lemma nth_normalize_zero (vs : list R) (i : nat) :
  rsum_list vs = 0%R -> nth i (normalize vs) None = None.
Proof.
  intros Hs. unfold normalize. cbv zeta. rewrite Hs.
  unfold Req_bool. destruct (Req_dec_T 0 0) as [_|N]; [|contradiction].
  generalize vs. intros l. revert i.
  induction l as [|v l IH]; intros [|i]; cbn [map nth]; try reflexivity.
  apply IH.
Qed.

(** X28: [set_initial_rho_from_populations(Npop)], for an array of [n >= 1]
    finite populations whose sum is zero, raises nothing: it returns with
    a NaN or an Inf stored as the population of every state, an array
    that [set_initial_rho] refuses with a ValueError. *)
Theorem set_initial_rho_from_populations_zero_sum (o : obe) (vs : list R) :
  List.length vs = obe_n o -> (1 <= obe_n o)%nat ->
  rsum_list vs = 0%R ->
  exists a,
    set_initial_rho_from_populations o (map Some vs) = Ok (with_rho0 o a)
    /\ (forall i, (i < obe_n o)%nat ->
          nth (density_index (obe_n o) i i) (arr_data a) (Some C0) = None)
    /\ set_initial_rho o a = Raise ValueError.
Proof.
  intros Hlen Hn Hsum. unfold set_initial_rho_from_populations. cbv zeta.
  rewrite length_map, Hlen, Nat.eqb_refl. cbn [negb].
  rewrite existsb_none_finite, finite_values_map_Some.
  destruct (store_populations_loop (obe_n o) (transform_into_re_im o)
              (normalize vs)) as (a & Ha & HP).
  { unfold normalize. rewrite length_map. exact Hlen. }
  exists a. rewrite Ha. cbn [bind]. split; [reflexivity|].
  destruct HP as (_ & Hl & Hent).
  assert (Hnan : forall i, (i < obe_n o)%nat ->
             nth (density_index (obe_n o) i i) (arr_data a) (Some C0) = None).
  { intros i Hi.
    rewrite (nth_indep _ (Some C0) None)
      by (rewrite Hl; apply density_index_lt; assumption).
    rewrite (Hent i i Hi Hi), Nat.eqb_refl.
    destruct (Nat.ltb_spec i (obe_n o)); [|lia]. cbn [andb].
    apply nth_normalize_zero, Hsum. }
  split; [exact Hnan|].
  unfold set_initial_rho.
  assert (Hbad : has_nan_or_inf a = true).
  { unfold has_nan_or_inf. apply existsb_exists. exists None.
    split; [|reflexivity].
    rewrite <- (Hnan 0%nat ltac:(lia)). apply nth_In.
    rewrite Hl. apply density_index_lt; lia. }
  rewrite Hbad. reflexivity.
Qed.

Lemma set_initial_rho_from_populations_zero_sum_witness :
  exists a,
    set_initial_rho_from_populations real_basis_ground
      (map Some [1%R; (-1)%R]) = Ok (with_rho0 real_basis_ground a)
    /\ (forall i, (i < obe_n real_basis_ground)%nat ->
          nth (density_index (obe_n real_basis_ground) i i) (arr_data a)
              (Some C0) = None)
    /\ set_initial_rho real_basis_ground a = Raise ValueError.
Proof.
  apply (set_initial_rho_from_populations_zero_sum real_basis_ground
           [1%R; (-1)%R]).
  - reflexivity.
  - cbn. lia.
  - unfold rsum_list. cbn [fold_left]. lra.
Defined.
